(** * gif_load: a shallow embedding of the GIF loader and its properties

    The header-only loader is embedded function by function:
    [_GIF_SkipChunk], [_GIF_LoadFrameHdr], [_GIF_LoadFrame] and [GIF_Load].
    Pointers into the input become positions ([Z]) in a byte buffer,
    pointer-to-pointer arguments become values that are passed in and
    returned, and the single block obtained through [GIF_MGET] (the LZW code
    table followed by the frame raster) is one flat byte memory.  The two
    callbacks and the allocator macro are recorded in an event trace. *)

From Stdlib Require Import ZArith List Bool Lia.
From Stdlib Require Import Strings.Byte.
Import ListNotations.
Local Open Scope Z_scope.

(** ** Outcomes

    A C function of the loader either returns, or touches memory it does not
    own.  Loops are written with a fuel argument; [Timeout] is the outcome of
    a loop that ran out of it (shown unreachable for the fuel the functions
    pass). *)

Inductive fault : Set :=
| DictIndex   (** [code[i]] with [i] outside [0; 4095] *)
| HeapBounds. (** a raster byte outside the allocated block *)

Inductive res (A : Type) : Type :=
| Ret (a : A)
| Fault (f : fault)
| Timeout.

Arguments Ret {A} a.
Arguments Fault {A} f.
Arguments Timeout {A}.

Definition bind {A B : Type} (m : res A) (k : A -> res B) : res B :=
  match m with
  | Ret a => k a
  | Fault f => Fault f
  | Timeout => Timeout
  end.

Notation "x <- m ;; k" := (bind m (fun x => k))
  (at level 61, m at next level, right associativity).
Notation "' p <- m ;; k" := (bind m (fun x => let p := x in k))
  (at level 61, p pattern, m at next level, right associativity).

(** ** The input buffer *)

Definition buffer := list byte.

(** [*(uint8_t* )p]: the byte at position [p].  Positions outside the buffer
    read as 0; the loader's own size accounting decides what it may use. *)
Definition u8 (d : buffer) (p : Z) : Z :=
  if p <? 0 then 0
  else match nth_error d (Z.to_nat p) with
       | Some b => Z.of_N (Byte.to_N b)
       | None => 0
       end.

Definition byte_of_Z (z : Z) : byte :=
  match Byte.of_N (Z.to_N z) with
  | Some b => b
  | None => x00
  end.

Definition bytes (l : list Z) : buffer := map byte_of_Z l.

(** [(uint16_t)x], [(uint8_t)x] and [(uint32_t)x] *)
Definition GIF_H (x : Z) : Z := x mod 65536.
Definition uint8_t (x : Z) : Z := x mod 256.
Definition uint32_t (x : Z) : Z := x mod 4294967296.

Section Host.

(** [GIF_BIGE]: whether the host is big-endian. *)
Variable GIF_BIGE : bool.

(** [*(uint16_t* )p] as the host reads it *)
Definition host16 (d : buffer) (p : Z) : Z :=
  if GIF_BIGE then u8 d p * 256 + u8 d (p + 1)
  else u8 d p + 256 * u8 d (p + 1).

(** [#define _GIF_SWAP(h) ((GIF_BIGE)? ((uint16_t)(h << 8) | (h >> 8)) : h)] *)
Definition _GIF_SWAP (h : Z) : Z :=
  if GIF_BIGE then Z.lor (GIF_H (Z.shiftl h 8)) (Z.shiftr h 8) else h.

(** ** [_GIF_SkipChunk]

    [buff] and [size] are passed by value and returned with the result. *)

Fixpoint SkipChunk_loop (fuel : nat) (d : buffer) (buff size : Z)
  : res (Z * Z * Z) :=
  match fuel with
  | O => Timeout
  | S fuel =>
      let skip := 1 + u8 d buff in
      let buff := buff + skip in
      let size := size - skip in
      if size <=? 0 then Ret (0, buff, size)
      else if skip >? 1 then SkipChunk_loop fuel d buff size
      else Ret (1, buff, size)
  end.

Definition _GIF_SkipChunk (d : buffer) (buff size : Z) : res (Z * Z * Z) :=
  let buff := buff + 1 in
  let size := size - 1 in
  if size <=? 0 then Ret (0, buff, size)
  else SkipChunk_loop (Z.to_nat size) d buff size.

(** ** [_GIF_LoadFrameHdr]

    Returns the result, [buff], [size] and [rpal].  The test [!( *buff += flen)]
    of a pointer against null is never true for a position in the input. *)

Definition GIF_FPAL : Z := 0x80.

Definition _GIF_LoadFrameHdr (buff size flen gflg fflg rpal : Z)
  : Z * Z * Z * Z :=
  let buff := if flen =? 0 then buff else buff + flen in
  let size := if flen =? 0 then size else size - flen in
  if negb (flen =? 0) && (size <=? 0) then (-2, buff, size, rpal)
  else if negb (flen =? 0) && negb (Z.land fflg GIF_FPAL =? 0) then
    let rpal := buff in
    let rclr := Z.shiftl 2 (Z.land fflg 7) in
    let buff := buff + rclr * 3 in
    let size := size - rclr * 3 in
    if size <=? 0 then (-1, buff, size, rpal)
    else (rclr, buff, size, rpal)
  else if negb (Z.land gflg GIF_FPAL =? 0) then
    (Z.shiftl 2 (Z.land gflg 7), buff, size, rpal)
  else (0, buff, size, rpal).

(** ** The block obtained through [GIF_MGET]

    One block of [hlen] bytes: the 4096 cells of the LZW code table
    ([uint32_t code[4096]], host byte order) followed by the raster.  A memory
    is a function from addresses within the block to bytes. *)

Definition mem := Z -> Z.

Definition GIF_CLEN : Z := 4096.   (** [1 << 12] *)
Definition GIF_BLEN : Z := 16384.  (** [(1 << 12) * sizeof(uint32_t)] *)
Definition GIF_HLEN : Z := 2.      (** [sizeof(GIF_H)] *)

Definition load8 (m : mem) (a : Z) : Z := uint8_t (m a).

Definition store8 (m : mem) (a v : Z) : mem :=
  fun x => if x =? a then uint8_t v else m x.

(** [*(uint32_t* )a] as the host reads and writes it *)
Definition load32 (m : mem) (a : Z) : Z :=
  if GIF_BIGE
  then ((load8 m a * 256 + load8 m (a + 1)) * 256 + load8 m (a + 2)) * 256
       + load8 m (a + 3)
  else load8 m a
       + 256 * (load8 m (a + 1) + 256 * (load8 m (a + 2) + 256 * load8 m (a + 3))).

Definition store32 (m : mem) (a v : Z) : mem :=
  if GIF_BIGE
  then store8 (store8 (store8 (store8 m a (Z.shiftr v 24))
                         (a + 1) (Z.shiftr v 16)) (a + 2) (Z.shiftr v 8))
         (a + 3) v
  else store8 (store8 (store8 (store8 m a v)
                         (a + 1) (Z.shiftr v 8)) (a + 2) (Z.shiftr v 16))
         (a + 3) (Z.shiftr v 24).

(** What the expander writes through: the raster cursor [bptr], the block's
    bytes, and (ghost) the list of raster writes made so far, newest first. *)
Record out : Type := mkOut {
  bptr : Z;
  heap : mem;
  wlog : list (Z * Z)
}.

(** The registers of the bit reader and of the code table. *)
Record regs : Type := mkRegs {
  load : Z;  (** bit accumulator, [uint16_t] *)
  mask : Z;  (** bitmask of the current code size, [uint16_t] *)
  ctbl : Z;  (** last code table index (or greater, when > [GIF_CLEN]) *)
  curr : Z;  (** current code *)
  prev : Z;  (** previous code *)
  ccsz : Z;  (** current code size, in bits *)
  bszc : Z   (** bit size counter *)
}.

Section Frame.

Variable d : buffer.   (** the input *)
Variable hlen : Z.     (** size of the block *)
Variable code : Z.     (** address of [code[0]]: [(uint32_t* )bptr - GIF_CLEN] *)
Variable ctsz : Z.     (** minimum LZW code size *)

(** [code[i]], read and written *)
Definition code_get (o : out) (i : Z) : res Z :=
  if (0 <=? i) && (i <? GIF_CLEN) then Ret (load32 (heap o) (code + 4 * i))
  else Fault DictIndex.

Definition code_set (o : out) (i v : Z) : res out :=
  if (0 <=? i) && (i <? GIF_CLEN)
  then Ret (mkOut (bptr o) (store32 (heap o) (code + 4 * i) (uint32_t v)) (wlog o))
  else Fault DictIndex.

(** [*bptr = v] *)
Definition put_pixel (o : out) (v : Z) : res out :=
  if (0 <=? bptr o) && (bptr o <? hlen)
  then Ret (mkOut (bptr o) (store8 (heap o) (bptr o) v) ((bptr o, uint8_t v) :: wlog o))
  else Fault HeapBounds.

Definition move (o : out) (n : Z) : out := mkOut (bptr o + n) (heap o) (wlog o).

(** The [while (!0)] loop that inflates a code into its index string,
    last index first. *)
Fixpoint expand (fuel : nat) (iter : Z) (o : out) : res (Z * out) :=
  match fuel with
  | O => Timeout
  | S fuel =>
      c <- code_get o iter ;;
      o <- put_pixel o (uint8_t (Z.shiftr c 24)) ;;
      let o := move o (-1) in
      c <- code_get o iter ;;
      if Z.land c 0xFFF000 =? 0 then Ret (iter, o)
      else expand fuel (Z.land c 0xFFF) o
  end.

(** The branch of a single-pixel or multi-pixel code; [curr r] is already
    masked.  The C code keeps the string length in [prev] until [prev = curr]
    at the end of the iteration; here it is the local [plen]. *)
Definition emit (r : regs) (o : out) : res (regs * out) :=
  let ctbl := ctbl r + 1 in
  '(mask, ccsz, o) <-
    (if ctbl <? GIF_CLEN then
       let '(mask, ccsz) :=
         if (ctbl =? mask r) && (ctbl <? GIF_CLEN - 1)
         then (GIF_H (mask r + mask r + 1), ccsz r + 1)
         else (mask r, ccsz r) in
       cp <- code_get o (prev r) ;;
       o <- code_set o ctbl (uint32_t (prev r) + 0x1000 + Z.land cp 0xFFF000) ;;
       Ret (mask, ccsz, o)
     else Ret (mask r, ccsz r, o)) ;;
  let iter := if curr r >=? ctbl then prev r else curr r in
  ci <- code_get o iter ;;
  let plen := Z.land (Z.shiftr ci 12) 0xFFF in
  let o := move o plen in
  '(iter, o) <- expand (Z.to_nat (bptr o + 1) + 1) iter o ;;
  let o := move o (plen + 2) in
  o <- (if curr r >=? ctbl then
          ci <- code_get o iter ;;
          o <- put_pixel o (uint8_t (Z.shiftr ci 24)) ;;
          Ret (move o 1)
        else Ret o) ;;
  o <- (if ctbl <? GIF_CLEN then
          cc <- code_get o ctbl ;;
          ci <- code_get o iter ;;
          code_set o ctbl (Z.lor cc (Z.land ci 0xFF000000))
        else Ret o) ;;
  Ret (mkRegs (load r) mask ctbl (curr r) (prev r) ccsz (bszc r), o).

(** One code: the body of [while (bszc >= 0)].  [inr] is the end-of-data
    code, on which the C function returns. *)
Definition lzw_code (r : regs) (o : out) : res (regs * out + out) :=
  let r := mkRegs (load r) (mask r) (ctbl r) (Z.land (curr r) (mask r))
             (prev r) (ccsz r) (bszc r) in
  x <- (if Z.land (curr r) (Z.lnot 1) =? Z.shiftl 1 ctsz then
          if negb (Z.land (curr r) 1 =? 0) then Ret (inr o)
          else
            let ccsz := ctsz + 1 in
            Ret (inl (mkRegs (load r) (GIF_H (Z.shiftl 1 ccsz - 1))
                        (Z.shiftl 1 ctsz) (curr r) (prev r) ccsz (bszc r), o))
        else
          '(r, o) <- emit r o ;; Ret (inl (r, o))) ;;
  match x with
  | inr o => Ret (inr o)
  | inl (r, o) =>
      Ret (inl (mkRegs (GIF_H (Z.shiftr (load r) (ccsz r))) (mask r) (ctbl r)
                  (load r) (curr r) (ccsz r) (bszc r - ccsz r), o))
  end.

Fixpoint lzw_codes (fuel : nat) (r : regs) (o : out) : res (regs * out + out) :=
  match fuel with
  | O => Timeout
  | S fuel =>
      if bszc r >=? 0 then
        x <- lzw_code r o ;;
        match x with
        | inr o => Ret (inr o)
        | inl (r, o) => lzw_codes fuel r o
        end
      else Ret (inl (r, o))
  end.

(** One sub-block: the [for (; bseq > 0; bseq -= GIF_HLEN, *buff += GIF_HLEN)]
    loop.  Both outcomes carry [buff] and [bseq] as the loop left them. *)
Fixpoint lzw_block (fuel : nat) (buff bseq : Z) (r : regs) (o : out)
  : res (Z * Z * (regs * out + out)) :=
  match fuel with
  | O => Timeout
  | S fuel =>
      if bseq >? 0 then
        let load := GIF_H (Z.land (_GIF_SWAP (host16 d buff))
                             (if bseq <? GIF_HLEN then Z.shiftl 1 (8 * bseq) - 1
                              else 0xFFFFFFFF)) in
        let curr := Z.lor (curr r) (Z.shiftl load (ccsz r + bszc r)) in
        let load := GIF_H (Z.shiftr load (- bszc r)) in
        let bszc := bszc r + 8 * (if bseq <? GIF_HLEN then bseq else GIF_HLEN) in
        let r := mkRegs load (mask r) (ctbl r) curr (prev r) (ccsz r) bszc in
        x <- lzw_codes (Z.to_nat bszc + 2) r o ;;
        match x with
        | inr o => Ret (buff, bseq, inr o)
        | inl (r, o) => lzw_block fuel (buff + GIF_HLEN) (bseq - GIF_HLEN) r o
        end
      else Ret (buff, bseq, inl (r, o))
  end.

(** The chain of sub-blocks: the [do ... while ((bseq = *( *buff)++))] loop
    and what follows it.  Returns the C function's result, [buff], [size]. *)
Fixpoint lzw_blocks (fuel : nat) (buff bseq size : Z) (r : regs) (o : out)
  : res (Z * Z * Z * out) :=
  match fuel with
  | O => Timeout
  | S fuel =>
      let size := size - (bseq + 1) in
      if size <=? 0 then Ret (-5, buff, size, o)
      else
        x <- lzw_block (Z.to_nat bseq + 1) buff bseq r o ;;
        match x with
        | (buff, bseq, inr o) =>
            let buff := buff + bseq in
            let size := size - 1 in
            Ret (if negb (u8 d buff =? 0) then -1 else 1, buff + 1, size, o)
        | (buff, bseq, inl (r, o)) =>
            let buff := buff + bseq in
            let bseq := u8 d buff in
            let buff := buff + 1 in
            if negb (bseq =? 0) then lzw_blocks fuel buff bseq size r o
            else Ret (0, buff, size - 1, o)
        end
  end.

(** [for (...; iter < ctbl; iter++) code[iter] = (uint32_t)(iter << 24);] *)
Fixpoint fill (fuel : nat) (iter ctbl : Z) (o : out) : res out :=
  match fuel with
  | O => Timeout
  | S fuel =>
      if iter <? ctbl then
        o <- code_set o iter (Z.shiftl iter 24) ;;
        fill fuel (iter + 1) ctbl o
      else Ret o
  end.

End Frame.

(** ** [_GIF_LoadFrame]

    [m] is the block as the call finds it.  Returns the result, [buff],
    [size] and what was written. *)
Definition _GIF_LoadFrame (d : buffer) (hlen : Z) (buff size bptr : Z) (m : mem)
  : res (Z * Z * Z * out) :=
  let code := bptr - GIF_CLEN * 4 in
  let o := mkOut bptr m [] in
  let size := size - 1 in
  if size <=? GIF_HLEN then Ret (-5, buff, size, o)
  else
    let ctsz := u8 d buff in
    let buff := buff + 1 in
    let ccsz := ctsz + 1 in
    let mask := GIF_H (Z.shiftl 1 ccsz - 1) in
    let bseq := u8 d buff in
    let buff := buff + 1 in
    if bseq =? 0 then Ret (-4, buff, size, o)
    else if (ctsz <? 2) || (ctsz >? 8) then Ret (-3, buff, size, o)
    else
      let ctbl := Z.shiftl 1 ctsz in
      let curr := Z.land mask (_GIF_SWAP (host16 d buff)) in
      if negb (ctbl =? curr) then Ret (-2, buff, size, o)
      else
        o <- fill code (Z.to_nat ctbl + 1) 0 ctbl o ;;
        lzw_blocks d hlen code ctsz (Z.to_nat size) buff bseq size
          (mkRegs 0 mask ctbl curr 0 ccsz (- ccsz)) o.

(** ** [GIF_Load] *)

(** [GIF_WHDR], the frame writer info.  [w_bptr] is the field [bptr] (an
    address in the block for the frame writer, a position in the input for
    the metadata reader); [cpal] is a position in the input. *)
Record GIF_WHDR : Type := mkWHDR {
  xdim : Z; ydim : Z; clrs : Z;
  bkgd : Z; tran : Z;
  intr : Z; mode : Z;
  frxd : Z; fryd : Z; frxo : Z; fryo : Z;
  time : Z; ifrm : Z; nfrm : Z;
  w_bptr : Z;
  cpal : Z
}.

Definition GIF_NONE : Z := 0.
Definition GIF_CURR : Z := 1.
Definition GIF_BKGD : Z := 2.
Definition GIF_PREV : Z := 3.

Definition GIF_FINT : Z := 0x40.
Definition GIF_EHDM : Z := 0x21.
Definition GIF_FHDM : Z := 0x2C.
Definition GIF_EOFM : Z := 0x3B.
Definition GIF_FGCM : Z := 0xF9.
Definition GIF_AMDM : Z := 0xFF.

Definition sizeof_GHDR : Z := 13.
Definition sizeof_FHDR : Z := 9.

(** What a call does to the outside, in order.  [FGCH] is ghost: it records
    the assignment [fgch = buff + 1 + 1]. *)
Inductive event : Type :=
| MGET (s c : Z)                                  (** [GIF_MGET(m, s, c)] *)
| GWFR (w : GIF_WHDR) (m : mem) (wl : list (Z * Z)) (** [gwfr(anim, &wtmp)] *)
| AMDF (w : GIF_WHDR)                             (** [amdf(anim, &wtmp)] *)
| FGCH (p : Z).

(** The frame counting loop.  Returns [desc], [whdr.ifrm], [whdr.cpal]. *)
Fixpoint count_frames (fuel : nat) (d : buffer) (gflg : Z)
  (bptr blen ifrm cpal : Z) : res (Z * Z * Z) :=
  match fuel with
  | O => Timeout
  | S fuel =>
      let desc := u8 d bptr in
      let bptr := bptr + 1 in
      if negb (desc =? GIF_EOFM) then
        let blen := blen - 1 in
        let '(rclr, bptr, blen, cpal, ifrm) :=
          if desc =? GIF_FHDM then
            let '(rclr, bptr', blen, cpal) :=
              _GIF_LoadFrameHdr bptr blen sizeof_FHDR gflg (u8 d (bptr + 8)) cpal in
            (rclr, bptr', blen, cpal, if rclr <=? 0 then ifrm else ifrm + 1)
          else (1, bptr, blen, cpal, ifrm) in
        if rclr <=? 0 then Ret (desc, ifrm, cpal)
        else
          '(ok, bptr, blen) <- _GIF_SkipChunk d bptr blen ;;
          if ok =? 0 then Ret (desc, ifrm, cpal)
          else count_frames fuel d gflg bptr blen ifrm cpal
      else Ret (desc, ifrm, cpal)
  end.

(** The variables of the frame extraction loop. *)
Record ext : Type := mkExt {
  x_buff : Z;
  x_size : Z;
  whdr : GIF_WHDR;
  fgch : option Z;
  blk : mem;
  trace : list event
}.

Definition fgch_flgs (d : buffer) (p : Z) : Z := u8 d p.
Definition fgch_time (d : buffer) (p : Z) : Z := host16 d (p + 1).
Definition fgch_tran (d : buffer) (p : Z) : Z := u8 d (p + 3).

(** [(fgch && !(fgch->flgs & 0x10))? (fgch->flgs & 0x0C) >> 2 : GIF_NONE] *)
Definition frame_mode (d : buffer) (fgch : option Z) : Z :=
  match fgch with
  | Some p =>
      if Z.land (fgch_flgs d p) 0x10 =? 0
      then Z.shiftr (Z.land (fgch_flgs d p) 0x0C) 2
      else GIF_NONE
  | None => GIF_NONE
  end.

(** [(fgch)? _GIF_SWAP(fgch->time) : 0] *)
Definition frame_time (d : buffer) (fgch : option Z) : Z :=
  match fgch with
  | Some p => _GIF_SWAP (fgch_time d p)
  | None => 0
  end.

(** [(fgch && (fgch->flgs & 0x01))? fgch->tran : -1] *)
Definition frame_tran (d : buffer) (fgch : option Z) : Z :=
  match fgch with
  | Some p => if negb (Z.land (fgch_flgs d p) 0x01 =? 0) then fgch_tran d p else -1
  | None => -1
  end.

Section Load.

Variable d : buffer.   (** [data] *)
Variable amdf : bool.  (** whether a metadata reader is given *)
Variable skip : Z.
Variable hlen : Z.     (** [blen], the size of the block *)

(** One iteration of the frame extraction loop, after its test, in two
    parts.  [extract_block] is the part that looks at the block mark: a frame,
    an extension, or anything else.  Its boolean says whether the iteration
    ends there, through [continue]. *)
Definition extract_block (e : ext) : res (bool * ext) :=
  let gflg := u8 d 10 in
  let size := x_size e - 1 in
  let desc := u8 d (x_buff e) in
  let buff := x_buff e + 1 in
  let w := whdr e in
  if desc =? GIF_FHDM then
    let fhdr := buff in
    let frxd := _GIF_SWAP (host16 d (fhdr + 4)) in
    let fryd := _GIF_SWAP (host16 d (fhdr + 6)) in
    let frxo := _GIF_SWAP (host16 d fhdr) in
    let fryo := _GIF_SWAP (host16 d (fhdr + 2)) in
    let intr := if negb (Z.land (u8 d (fhdr + 8)) GIF_FINT =? 0) then 1 else 0 in
    let '(clrs, buff, size, cpal) :=
      _GIF_LoadFrameHdr buff size sizeof_FHDR gflg (u8 d (fhdr + 8))
        sizeof_GHDR in
    let mode := frame_mode d (fgch e) in
    let ifrm := ifrm w + 1 in
    let w := mkWHDR (xdim w) (ydim w) clrs (bkgd w) (tran w) intr mode
               frxd fryd frxo fryo (time w) ifrm (nfrm w) (w_bptr w) cpal in
    if ifrm >=? skip then
      if clrs <=? 0 then
        Ret (false, mkExt buff (- ifrm)
               (mkWHDR (xdim w) (ydim w) clrs (bkgd w) (tran w) intr mode
                  frxd fryd frxo fryo (time w) (ifrm - 1) (nfrm w)
                  (w_bptr w) cpal)
               (fgch e) (blk e) (trace e))
      else
        '(r, buff, size, o) <-
          _GIF_LoadFrame d hlen buff size (w_bptr w) (blk e) ;;
        if r <? 0 then
          Ret (false, mkExt buff (- ifrm)
                 (mkWHDR (xdim w) (ydim w) clrs (bkgd w) (tran w) intr mode
                    frxd fryd frxo fryo (time w) (ifrm - 1) (nfrm w)
                    (w_bptr w) cpal)
                 (fgch e) (heap o) (trace e))
        else
          let w := mkWHDR (xdim w) (ydim w) clrs (bkgd w)
                     (frame_tran d (fgch e)) intr mode
                     frxd fryd frxo fryo (frame_time d (fgch e)) ifrm (nfrm w)
                     (w_bptr w) cpal in
          Ret (0 <? size, mkExt buff size w (fgch e) (heap o)
                            (trace e ++ [GWFR w (heap o) (wlog o)]))
    else Ret (false, mkExt buff size w (fgch e) (blk e) (trace e))
  else if desc =? GIF_EHDM then
    if u8 d buff =? GIF_FGCM then
      Ret (false, mkExt buff size w (Some (buff + 1 + 1)) (blk e)
                    (trace e ++ [FGCH (buff + 1 + 1)]))
    else if (u8 d buff =? GIF_AMDM) && amdf then
      let wtmp := mkWHDR (xdim w) (ydim w) (clrs w) (bkgd w) (tran w) (intr w)
                    (mode w) (frxd w) (fryd w) (frxo w) (fryo w) (time w)
                    (ifrm w) (nfrm w) (buff + 1 + 1) (cpal w) in
      Ret (false, mkExt buff size w (fgch e) (blk e) (trace e ++ [AMDF wtmp]))
    else Ret (false, mkExt buff size w (fgch e) (blk e) (trace e))
  else Ret (false, mkExt buff size w (fgch e) (blk e) (trace e)).

(** The whole iteration: [inl] goes round the loop again, [inr] is [break]. *)
Definition extract_step (e : ext) : res (ext + ext) :=
  let desc := u8 d (x_buff e) in
  '(next, e) <- extract_block e ;;
  if (next : bool) then Ret (inl e)
  else if desc =? GIF_EOFM then Ret (inr e)
  else
    '(ok, buff, size) <- _GIF_SkipChunk d (x_buff e) (x_size e) ;;
    let e := mkExt buff size (whdr e) (fgch e) (blk e) (trace e) in
    if ok =? 0 then Ret (inr e) else Ret (inl e).

(** [while (skip < ((whdr.nfrm < 0)? -whdr.nfrm : whdr.nfrm)) { ... }] *)
Fixpoint extract (fuel : nat) (e : ext) : res ext :=
  match fuel with
  | O => Timeout
  | S fuel =>
      if skip <? (if nfrm (whdr e) <? 0 then - nfrm (whdr e) else nfrm (whdr e))
      then
        x <- extract_step e ;;
        match x with
        | inl e => extract fuel e
        | inr e => Ret e
        end
      else Ret e
  end.

End Load.

(** The signature test of [GIF_Load] without [skip < 0]: at least 14 bytes
    that start with ['GIF87a'] or ['GIF89a']. *)
Definition signature_ok (d : buffer) (size : Z) : bool :=
  negb (size <=? sizeof_GHDR)
  && (u8 d 0 =? 71) && (u8 d 1 =? 73) && (u8 d 2 =? 70) && (u8 d 3 =? 56)
  && ((u8 d 4 =? 55) || (u8 d 4 =? 57)) && (u8 d 5 =? 97).

(** Where the blocks start: past the global header and the global palette. *)
Definition first_block (d : buffer) : Z :=
  let '(rclr, _, _, _) := _GIF_LoadFrameHdr 0 0 0 (u8 d 10) 0 0 in
  sizeof_GHDR + 3 * rclr.

(** The frame counting loop as [GIF_Load] runs it on [size] bytes. *)
Definition counting (d : buffer) (size : Z) : res (Z * Z * Z) :=
  let buff := first_block d in
  let size := size - buff in
  count_frames (Z.to_nat size + 1) d (u8 d 10) buff size 0 0.

(** The main loading function.  [m0] is what the block holds when [GIF_MGET]
    hands it out.  Returns the result and the trace of the call. *)
Definition GIF_Load (d : buffer) (size : Z) (amdf : bool) (skip : Z) (m0 : mem)
  : res (Z * list event) :=
  if negb (signature_ok d size) || (skip <? 0) then Ret (0, [])
  else
    let buff := first_block d in
    if size - buff <=? 0 then Ret (0, [])
    else
      '(desc, cnt, cpal) <- counting d size ;;
      let size := size - buff in
      let nfrm := if desc =? GIF_EOFM then cnt else - cnt in
      let xdim := _GIF_SWAP (host16 d 6) in
      let ydim := _GIF_SWAP (host16 d 8) in
      let blen := xdim * 1 * ydim + GIF_BLEN in
      let w := mkWHDR xdim ydim 0 (u8 d 11) 0 0 0 0 0 0 0 0 (-1) nfrm GIF_BLEN cpal in
      e <- extract d amdf skip blen (Z.to_nat size + 1)
             (mkExt buff size w None m0 [MGET blen 1]) ;;
      Ret (if nfrm <? 0 then - ifrm (whdr e) - 1 + skip else ifrm (whdr e) + 1,
           trace e ++ [MGET blen 0]).

End Host.

(** * Vocabulary of the properties *)

(** ** Sub-block chains *)

(** [chain d p n]: a sub-block chain starts at the length byte [p] and takes
    [n] bytes, its zero-length terminator included. *)
Inductive chain (d : buffer) : Z -> Z -> Prop :=
| chain_end p : u8 d p = 0 -> chain d p 1
| chain_next p n :
    u8 d p <> 0 -> chain d (p + 1 + u8 d p) n -> chain d p (1 + u8 d p + n).

(** [overrun d p s]: walking the chain at [p] with [s] bytes remaining, some
    advance is larger than what remains. *)
Inductive overrun (d : buffer) : Z -> Z -> Prop :=
| overrun_here p s : s < 1 + u8 d p -> overrun d p s
| overrun_next p s :
    u8 d p <> 0 -> 1 + u8 d p <= s ->
    overrun d (p + 1 + u8 d p) (s - (1 + u8 d p)) -> overrun d p s.

(** [exhaust d p s]: some advance takes all that remains, or more. *)
Inductive exhaust (d : buffer) : Z -> Z -> Prop :=
| exhaust_here p s : s <= 1 + u8 d p -> exhaust d p s
| exhaust_next p s :
    u8 d p <> 0 -> 1 + u8 d p < s ->
    exhaust d (p + 1 + u8 d p) (s - (1 + u8 d p)) -> exhaust d p s.


(** ** Outcomes

    [wp F m Q]: the computation [m] does not run out of fuel; if it returns
    [a] then [Q a]; if it faults with [f] then [F f]. *)
Definition wp {A : Type} (F : fault -> Prop) (m : res A) (Q : A -> Prop) : Prop :=
  match m with
  | Ret a => Q a
  | Fault f => F f
  | Timeout => False
  end.

(** Only the raster can be overrun. *)
Definition heap_only (f : fault) : Prop := f = HeapBounds.

(** Any fault is allowed. *)
Definition any_fault (f : fault) : Prop := True.

(** ** Traces *)

Definition is_GWFR (ev : event) : bool :=
  match ev with GWFR _ _ _ => true | _ => false end.

Definition is_MGET (ev : event) : bool :=
  match ev with MGET _ _ => true | _ => false end.

(** How many times the frame writer was called. *)
Definition sink_calls (tr : list event) : Z :=
  Z.of_nat (length (filter is_GWFR tr)).

(** How many times the allocator macro was used. *)
Definition mget_calls (tr : list event) : nat :=
  length (filter is_MGET tr).

(** The graphics control extension seen last in a trace, if any. *)
Fixpoint last_fgch (tr : list event) (g : option Z) : option Z :=
  match tr with
  | [] => g
  | FGCH p :: tr => last_fgch tr (Some p)
  | _ :: tr => last_fgch tr g
  end.

(** Where an iteration of the extraction loop ends up, either way. *)
Definition step_end (x : ext + ext) : ext :=
  match x with inl e => e | inr e => e end.
(** ** The expander

    What the loops of [_GIF_LoadFrame] keep true of the registers, for the
    minimum code size [ctsz]. *)
Definition regs_ok (ctsz : Z) (r : regs) : Prop :=
  0 <= prev r < GIF_CLEN /\ 0 <= ctbl r
  /\ ctsz + 1 <= ccsz r <= 12 /\ mask r = 2 ^ ccsz r - 1.


(** ** The extraction loop

    [trace_step] lists what one iteration does to the trace, to [fgch] and
    to the frame index; [step_post] adds what it leaves alone. *)
Definition trace_step (GIF_BIGE : bool) (d : buffer) (skip : Z) (e e1 : ext) : Prop :=
  (trace e1 = trace e /\ fgch e1 = fgch e
   /\ (ifrm (whdr e1) = ifrm (whdr e)
       \/ (ifrm (whdr e1) = ifrm (whdr e) + 1 /\ ifrm (whdr e1) < skip)))
  \/ (exists w m wl,
         trace e1 = trace e ++ [GWFR w m wl] /\ fgch e1 = fgch e
         /\ ifrm (whdr e1) = ifrm (whdr e) + 1 /\ skip <= ifrm (whdr e1)
         /\ w = whdr e1
         /\ mode w = frame_mode d (fgch e)
         /\ time w = frame_time GIF_BIGE d (fgch e)
         /\ tran w = frame_tran d (fgch e)
         /\ 0 < clrs w)
  \/ (trace e1 = trace e ++ [FGCH (x_buff e + 3)]
      /\ fgch e1 = Some (x_buff e + 3)
      /\ ifrm (whdr e1) = ifrm (whdr e))
  \/ (exists w, trace e1 = trace e ++ [AMDF w] /\ fgch e1 = fgch e
                /\ ifrm (whdr e1) = ifrm (whdr e)).

Definition step_post (GIF_BIGE : bool) (d : buffer) (skip : Z) (e e1 : ext) : Prop :=
  nfrm (whdr e1) = nfrm (whdr e)
  /\ w_bptr (whdr e1) = w_bptr (whdr e)
  /\ -1 <= ifrm (whdr e1)
  /\ trace_step GIF_BIGE d skip e e1.


(** The cursor, the size and the frame index after the block that starts at
    the cursor of [e], when the frame is one that is skipped. *)
Definition skipped_block (d : buffer) (e : ext) : Z * Z * Z :=
  if u8 d (x_buff e) =? GIF_FHDM then
    let '(_, b, s, _) :=
      _GIF_LoadFrameHdr (x_buff e + 1) (x_size e - 1) sizeof_FHDR (u8 d 10)
        (u8 d (x_buff e + 1 + 8)) sizeof_GHDR in
    (b, s, ifrm (whdr e) + 1)
  else (x_buff e + 1, x_size e - 1, ifrm (whdr e)).


(** ** The whole call *)

(** The result of [GIF_Load] from the state in which the extraction loop
    ends. *)
Definition load_result (skip nfrm : Z) (e : ext) : Z :=
  if nfrm <? 0 then - ifrm (whdr e) - 1 + skip else ifrm (whdr e) + 1.

(** The state in which the extraction loop starts. *)
Definition load_start (GIF_BIGE : bool) (d : buffer) (size nfrm cpal : Z) (m0 : mem) : ext :=
  let xdim := _GIF_SWAP GIF_BIGE (host16 GIF_BIGE d 6) in
  let ydim := _GIF_SWAP GIF_BIGE (host16 GIF_BIGE d 8) in
  mkExt (first_block d) (size - first_block d)
    (mkWHDR xdim ydim 0 (u8 d 11) 0 0 0 0 0 0 0 0 (-1) nfrm GIF_BLEN cpal)
    None m0 [MGET (xdim * 1 * ydim + GIF_BLEN) 1].

Definition load_blen (GIF_BIGE : bool) (d : buffer) : Z :=
  _GIF_SWAP GIF_BIGE (host16 GIF_BIGE d 6) * 1
  * _GIF_SWAP GIF_BIGE (host16 GIF_BIGE d 8) + GIF_BLEN.

Definition counted_nfrm (desc cnt : Z) : Z :=
  if desc =? GIF_EOFM then cnt else - cnt.


(** The allocator macro was used to allocate, then to free the same size. *)
Definition alloc_then_free (tr : list event) : Prop :=
  exists s mid, tr = MGET s 1 :: mid ++ [MGET s 0] /\ mget_calls mid = 0%nat.


(** The mode, delay and transparent index the code computes from [fgch]. *)
Definition gce_fields (GIF_BIGE : bool) (d : buffer) (g : option Z) (w : GIF_WHDR) : Prop :=
  mode w = frame_mode d g
  /\ time w = frame_time GIF_BIGE d g
  /\ tran w = frame_tran d g.


(** ** What to look at in an outcome *)

Definition returned {A : Type} (x : res A) : option A :=
  match x with Ret a => Some a | _ => None end.

(** The result of a call and the number of frames it wrote. *)
Definition result_and_calls (x : res (Z * list event)) : option (Z * Z) :=
  option_map (fun p => (fst p, sink_calls (snd p))) (returned x).

(** The frames of a trace, each with the graphics control extension seen
    last before it. *)
Fixpoint frames_with_gce (tr : list event) (g : option Z)
  : list (option Z * GIF_WHDR) :=
  match tr with
  | [] => []
  | FGCH p :: tr => frames_with_gce tr (Some p)
  | GWFR w _ _ :: tr => (g, w) :: frames_with_gce tr g
  | _ :: tr => frames_with_gce tr g
  end.

(** The frames of a trace: palette size, and the raster bytes the expander
    wrote for the frame, oldest first. *)
Definition frames_written (tr : list event) : list (Z * list Z) :=
  flat_map (fun ev => match ev with
                      | GWFR w _ wl => [(clrs w, rev (map snd wl))]
                      | _ => []
                      end) tr.

(** The result, cursor and size of [_GIF_LoadFrame]. *)
Definition frame_status (x : res (Z * Z * Z * out)) : option (Z * Z * Z) :=
  option_map fst (returned x).

(** ** Sample inputs *)

(** A block that holds zeros. *)
Definition zero_mem : mem := fun _ => 0.

(** ['GIF87a'], a 1x1 screen, a global palette of two colours. *)
Definition ex_head : list Z :=
  [71; 73; 70; 56; 55; 97; 1; 0; 1; 0; 0x80; 0; 0; 0; 0; 0; 255; 255; 255].

(** A 1x1 frame without a local palette; minimum code size 2; one sub-block
    with the codes clear, [px], end-of-data. *)
Definition ex_frame (px : Z) : list Z :=
  [0x2C; 0; 0; 0; 0; 1; 0; 1; 0; 0; 2; 2; 0x04 + px * 8 + 0x40; 0x01; 0].

(** The same frame whose sub-block holds only the codes clear, 0. *)
Definition ex_frame_nostop : list Z :=
  [0x2C; 0; 0; 0; 0; 1; 0; 1; 0; 0; 2; 1; 0x04; 0].

(** A graphics control extension: flags, delay 10, transparent index 1. *)
Definition ex_gce (flgs : Z) : list Z := [0x21; 0xF9; 4; flgs; 10; 0; 1; 0].

(** One frame, ending mark: 35 bytes. *)
Definition ex_one : buffer := bytes (ex_head ++ ex_frame 0 ++ [0x3B]).

(** Two frames, the second after a graphics control extension, ending mark:
    58 bytes. *)
Definition ex_two : buffer :=
  bytes (ex_head ++ ex_frame 3 ++ ex_gce 0x05 ++ ex_frame 1 ++ [0x3B]).

(** One frame after a graphics control extension that asks for user input
    (bit 1) with disposal 1: 43 bytes. *)
Definition ex_user_input : buffer :=
  bytes (ex_head ++ ex_gce 0x06 ++ ex_frame 0 ++ [0x3B]).


(** A good signature, a global palette announced, and nothing after the
    header but one byte: 14 bytes. *)
Definition ex_no_palette : buffer :=
  bytes [71; 73; 70; 56; 57; 97; 1; 0; 1; 0; 0x80; 0; 0; 0x3B].

(** A frame without end-of-data code, then a frame with one: 49 bytes. *)
Definition ex_nostop : buffer :=
  bytes (ex_head ++ ex_frame_nostop ++ ex_frame 1 ++ [0x3B]).

(** ** The registers, without the memory

    What [emit] and [lzw_code] do to the registers does not depend on the
    block: [emit_regs] and [code_regs] are their effect on the registers
    alone ([None]: the end-of-data code). *)
Definition emit_regs (r : regs) : regs :=
  let ctbl' := ctbl r + 1 in
  if (ctbl' <? GIF_CLEN) && (ctbl' =? mask r) && (ctbl' <? GIF_CLEN - 1)
  then mkRegs (load r) (GIF_H (mask r + mask r + 1)) ctbl' (curr r) (prev r)
         (ccsz r + 1) (bszc r)
  else mkRegs (load r) (mask r) ctbl' (curr r) (prev r) (ccsz r) (bszc r).

Definition code_regs (ctsz : Z) (r : regs) : option regs :=
  let r := mkRegs (load r) (mask r) (ctbl r) (Z.land (curr r) (mask r))
             (prev r) (ccsz r) (bszc r) in
  let next (r : regs) :=
    mkRegs (GIF_H (Z.shiftr (load r) (ccsz r))) (mask r) (ctbl r)
      (load r) (curr r) (ccsz r) (bszc r - ccsz r) in
  if Z.land (curr r) (Z.lnot 1) =? Z.shiftl 1 ctsz then
    if negb (Z.land (curr r) 1 =? 0) then None
    else Some (next (mkRegs (load r) (GIF_H (Z.shiftl 1 (ctsz + 1) - 1))
                       (Z.shiftl 1 ctsz) (curr r) (prev r) (ctsz + 1) (bszc r)))
  else Some (next (emit_regs r)).

(** Two outcomes of a loop of the expander agree on the registers. *)
Definition same_regs (x y : regs * out + out) : Prop :=
  match x, y with
  | inl (r1, _), inl (r2, _) => r1 = r2
  | inr _, inr _ => True
  | _, _ => False
  end.

(** ** The extraction loop, without the memory

    The cursor, the size and the frame index are all the loop needs to find
    its way; [ctrl_step] is an iteration on these three, given the result,
    cursor and size of the call of [_GIF_LoadFrame] it may make ([None] if the
    call does not return).  The boolean says whether the loop goes on. *)
Definition ctrl : Type := Z * Z * Z.

Definition ctrl_of (e : ext) : ctrl := (x_buff e, x_size e, ifrm (whdr e)).

(** Where the LZW data of the frame at the cursor start, and the size there. *)
Definition frame_data (d : buffer) (c : ctrl) : Z * Z :=
  let '(buff, size, _) := c in
  let '(_, b, s, _) :=
    _GIF_LoadFrameHdr (buff + 1) (size - 1) sizeof_FHDR (u8 d 10)
      (u8 d (buff + 1 + 8)) sizeof_GHDR in
  (b, s).

Definition frame_clrs (d : buffer) (c : ctrl) : Z :=
  let '(buff, size, _) := c in
  let '(cl, _, _, _) :=
    _GIF_LoadFrameHdr (buff + 1) (size - 1) sizeof_FHDR (u8 d 10)
      (u8 d (buff + 1 + 8)) sizeof_GHDR in
  cl.

Definition ctrl_skip (d : buffer) (desc : Z) (c : ctrl) : bool * ctrl :=
  let '(b1, s1, i1) := c in
  if desc =? GIF_EOFM then (false, c)
  else match _GIF_SkipChunk d b1 s1 with
       | Ret (ok, b2, s2) => (negb (ok =? 0), (b2, s2, i1))
       | _ => (false, c)
       end.

Definition ctrl_step (d : buffer) (skip : Z) (lf : option (Z * Z * Z)) (c : ctrl)
  : bool * ctrl :=
  let '(buff, size, ifrm) := c in
  let desc := u8 d buff in
  if desc =? GIF_FHDM then
    let '(b, s) := frame_data d c in
    let i := ifrm + 1 in
    if i >=? skip then
      if frame_clrs d c <=? 0 then ctrl_skip d desc (b, - i, i - 1)
      else match lf with
           | Some (r, b2, s2) =>
               if r <? 0 then ctrl_skip d desc (b2, - i, i - 1)
               else if 0 <? s2 then (true, (b2, s2, i))
               else ctrl_skip d desc (b2, s2, i)
           | None => (false, c)
           end
    else ctrl_skip d desc (b, s, i)
  else ctrl_skip d desc (buff + 1, size - 1, ifrm).

Definition went_on (x : ext + ext) : bool :=
  match x with inl _ => true | inr _ => false end.

(** The call of [_GIF_LoadFrame] an iteration from [e] may make. *)
Definition frame_call (GIF_BIGE : bool) (d : buffer) (hlen : Z) (e : ext)
  : res (Z * Z * Z * out) :=
  _GIF_LoadFrame GIF_BIGE d hlen (fst (frame_data d (ctrl_of e)))
    (snd (frame_data d (ctrl_of e))) (w_bptr (whdr e)) (blk e).


(** ** The code table

    A cell of the code table holds the last index of the string in bits
    31..24, the length of the string minus one in bits 23..12 and the code of
    the string without its last index in bits 11..0. *)
Definition entry (t l p : Z) : Z := t * 2 ^ 24 + l * 2 ^ 12 + p.

(** The length field of a cell. *)
Definition elen (e : Z) : Z := Z.land (Z.shiftr e 12) 0xFFF.

Section Table.

Variable GIF_BIGE : bool.
Variable code : Z.  (** address of [code[0]] *)
Variable ctsz : Z.  (** minimum LZW code size *)

(** [code[i]] in the block [m]. *)
Definition cell (m : mem) (i : Z) : Z := load32 GIF_BIGE m (code + 4 * i).

(** The codes that stand for a string when the table goes up to [n]:
    the single indices, and the codes from the first free one up to [n]. *)
Definition defined (n i : Z) : Prop :=
  0 <= i < 2 ^ ctsz \/ 2 ^ ctsz + 2 <= i <= n.

(** The cells of the single indices are as the expander set them. *)
Definition lits_ok (m : mem) : Prop :=
  forall i, 0 <= i < 2 ^ ctsz -> cell m i = entry i 0 0.

(** The cells of the codes up to [n] are well built: a last index below
    [2 ^ ctsz], a defined smaller code as prefix, and a length that is one more
    than the length of the prefix. *)
Definition users_ok (m : mem) (n : Z) : Prop :=
  forall i, 2 ^ ctsz + 2 <= i <= n ->
    exists t p,
      cell m i = entry t (elen (cell m p) + 1) p
      /\ 0 <= t < 2 ^ ctsz /\ defined (i - 1) p
      /\ elen (cell m p) + 1 <= i - 2 ^ ctsz - 1.

(** All the raster bytes written so far are below [2 ^ ctsz]. *)
Definition wlog_ok (o : out) : Prop :=
  Forall (fun aw : Z * Z => 0 <= snd aw < 2 ^ ctsz) (wlog o).

(** What the expander keeps true while the codes it reads are defined. *)
Definition frame_inv (r : regs) (o : out) : Prop :=
  code + GIF_BLEN <= bptr o
  /\ wlog_ok o
  /\ lits_ok (heap o)
  /\ users_ok (heap o) (Z.min (ctbl r) 4095)
  /\ 2 ^ ctsz <= ctbl r
  /\ (ctbl r = 2 ^ ctsz \/ defined (Z.min (ctbl r) 4095) (prev r)).

End Table.

(** A code the stream may use when the table goes up to [ctbl]: a single
    index, or a code between the first free one and the one being made; the
    latter only when a string has been read since the last table drop. *)
Definition code_ok (ctsz ctbl curr : Z) : bool :=
  ((0 <=? curr) && (curr <? 2 ^ ctsz))
  || ((2 ^ ctsz + 2 <=? curr) && (curr <=? ctbl + 1) && (curr <? GIF_CLEN)
      && (2 ^ ctsz <? ctbl)).

(** ** Code streams that only use defined codes

    The functions below walk the code stream of a frame as [_GIF_LoadFrame]
    does, on the registers alone ([code_regs] gives the registers after a
    code), and tell whether every code met is a table drop, an end of data or
    a code that is defined when it is met ([code_ok]).  They take the fuel of
    the loops they follow. *)
Section Stream.

Variable GIF_BIGE : bool.
Variable d : buffer.
Variable ctsz : Z.

Definition code_wf (r : regs) : bool :=
  let c := Z.land (curr r) (mask r) in
  (Z.land c (Z.lnot 1) =? Z.shiftl 1 ctsz) || code_ok ctsz (ctbl r) c.

(** [None]: a code is not defined; [Some None]: end of data;
    [Some (Some r)]: the bits at hand are used up. *)
Fixpoint codes_wf (fuel : nat) (r : regs) : option (option regs) :=
  match fuel with
  | O => None
  | S fuel =>
      if bszc r >=? 0 then
        if code_wf r then
          match code_regs ctsz r with
          | None => Some None
          | Some r => codes_wf fuel r
          end
        else None
      else Some (Some r)
  end.

Fixpoint block_wf (fuel : nat) (buff bseq : Z) (r : regs)
  : option (Z * Z * option regs) :=
  match fuel with
  | O => None
  | S fuel =>
      if bseq >? 0 then
        let load := GIF_H (Z.land (_GIF_SWAP GIF_BIGE (host16 GIF_BIGE d buff))
                             (if bseq <? GIF_HLEN then Z.shiftl 1 (8 * bseq) - 1
                              else 0xFFFFFFFF)) in
        let curr := Z.lor (curr r) (Z.shiftl load (ccsz r + bszc r)) in
        let load := GIF_H (Z.shiftr load (- bszc r)) in
        let bszc := bszc r + 8 * (if bseq <? GIF_HLEN then bseq else GIF_HLEN) in
        let r := mkRegs load (mask r) (ctbl r) curr (prev r) (ccsz r) bszc in
        match codes_wf (Z.to_nat bszc + 2) r with
        | None => None
        | Some None => Some (buff, bseq, None)
        | Some (Some r) => block_wf fuel (buff + GIF_HLEN) (bseq - GIF_HLEN) r
        end
      else Some (buff, bseq, Some r)
  end.

Fixpoint blocks_wf (fuel : nat) (buff bseq size : Z) (r : regs) : bool :=
  match fuel with
  | O => false
  | S fuel =>
      let size := size - (bseq + 1) in
      if size <=? 0 then true
      else
        match block_wf (Z.to_nat bseq + 1) buff bseq r with
        | None => false
        | Some (_, _, None) => true
        | Some (buff, bseq, Some r) =>
            let buff := buff + bseq in
            let bseq := u8 d buff in
            let buff := buff + 1 in
            if negb (bseq =? 0) then blocks_wf fuel buff bseq size r else true
        end
  end.

End Stream.

(** The code stream of the frame whose data start at [buff] only uses
    defined codes. *)
Definition frame_wf (GIF_BIGE : bool) (d : buffer) (buff size : Z) : bool :=
  let size := size - 1 in
  if size <=? GIF_HLEN then true
  else
    let ctsz := u8 d buff in
    let buff := buff + 1 in
    let ccsz := ctsz + 1 in
    let mask := GIF_H (Z.shiftl 1 ccsz - 1) in
    let bseq := u8 d buff in
    let buff := buff + 1 in
    if bseq =? 0 then true
    else if (ctsz <? 2) || (ctsz >? 8) then true
    else
      let ctbl := Z.shiftl 1 ctsz in
      let curr := Z.land mask (_GIF_SWAP GIF_BIGE (host16 GIF_BIGE d buff)) in
      if negb (ctbl =? curr) then true
      else
        blocks_wf GIF_BIGE d ctsz (Z.to_nat size) buff bseq size
          (mkRegs 0 mask ctbl curr 0 ccsz (- ccsz)).

(** The indices a call of [_GIF_LoadFrame] wrote, if it returned. *)
Definition written (x : res (Z * Z * Z * out)) : list Z :=
  match x with
  | Ret (_, _, _, o) => map snd (wlog o)
  | _ => []
  end.

(** A frame of three pixels whose codes are clear, 1, 6, end-of-data: code
    6 is the one being made when it is read.  35 bytes; the data of the
    frame start at 29. *)
Definition ex_run : buffer :=
  bytes (ex_head ++ [0x2C; 0; 0; 0; 0; 3; 0; 1; 0; 0; 2; 2; 0x8C; 0x0B; 0] ++ [0x3B]).

(** A frame whose codes are clear, 7, end-of-data: code 7 is not defined
    when it is read.  35 bytes; the data of the frame start at 29. *)
Definition ex_undefined : buffer := bytes (ex_head ++ ex_frame 7 ++ [0x3B]).

(** ** What the callbacks are given *)

(** The 16-bit number stored low byte first at [p]. *)
Definition le16 (d : buffer) (p : Z) : Z := u8 d p + 256 * u8 d (p + 1).

(** The descriptors passed to the frame writer, in order. *)
Definition sink_frames (tr : list event) : list GIF_WHDR :=
  flat_map (fun ev => match ev with GWFR w _ _ => [w] | _ => [] end) tr.

(** The descriptors passed to the metadata reader, in order. *)
Definition meta_frames (tr : list event) : list GIF_WHDR :=
  flat_map (fun ev => match ev with AMDF w => [w] | _ => [] end) tr.

(** The fields of a descriptor that come from the global header. *)
Definition screen_fields (d : buffer) (w : GIF_WHDR) : Prop :=
  xdim w = le16 d 6 /\ ydim w = le16 d 8 /\ bkgd w = u8 d 11.

(** The fields that come from the frame header at [p]: offsets, dimensions
    and the interlace flag (bit 6 of the flags). *)
Definition header_fields (d : buffer) (p : Z) (w : GIF_WHDR) : Prop :=
  frxo w = le16 d p /\ fryo w = le16 d (p + 2)
  /\ frxd w = le16 d (p + 4) /\ fryd w = le16 d (p + 6)
  /\ intr w = (if Z.testbit (u8 d (p + 8)) 6 then 1 else 0).

(** The palette of the frame whose header is at [p]: the local one (bit 7
    of the frame flags), right after the header, or else the global one,
    right after the global header. *)
Definition palette_fields (d : buffer) (p : Z) (w : GIF_WHDR) : Prop :=
  if Z.testbit (u8 d (p + 8)) 7
  then clrs w = 2 ^ (Z.land (u8 d (p + 8)) 7 + 1) /\ cpal w = p + sizeof_FHDR
  else Z.testbit (u8 d 10) 7 = true
       /\ clrs w = 2 ^ (Z.land (u8 d 10) 7 + 1) /\ cpal w = sizeof_GHDR.

(** What an iteration of the extraction loop from [e] to [e1] does to the
    descriptor and to the trace: it leaves the fields of the global header
    alone, and either adds nothing to the trace, or a frame written from the
    header after the cursor, or a graphics control extension, or an
    application extension passed to the metadata reader. *)
Definition step_events (d : buffer) (amdf : bool) (skip : Z) (e e1 : ext) : Prop :=
  (xdim (whdr e1) = xdim (whdr e) /\ ydim (whdr e1) = ydim (whdr e)
   /\ bkgd (whdr e1) = bkgd (whdr e) /\ nfrm (whdr e1) = nfrm (whdr e)
   /\ w_bptr (whdr e1) = w_bptr (whdr e))
  /\ ((trace e1 = trace e
       /\ (ifrm (whdr e1) = ifrm (whdr e)
           \/ (ifrm (whdr e1) = ifrm (whdr e) + 1 /\ ifrm (whdr e1) < skip)))
      \/ (exists m wl,
             trace e1 = trace e ++ [GWFR (whdr e1) m wl]
             /\ u8 d (x_buff e) = GIF_FHDM
             /\ header_fields d (x_buff e + 1) (whdr e1)
             /\ palette_fields d (x_buff e + 1) (whdr e1)
             /\ ifrm (whdr e1) = ifrm (whdr e) + 1 /\ skip <= ifrm (whdr e1)
             /\ sizeof_FHDR < x_size e - 1)
      \/ (trace e1 = trace e ++ [FGCH (x_buff e + 3)]
          /\ ifrm (whdr e1) = ifrm (whdr e))
      \/ (amdf = true /\ u8 d (x_buff e) = GIF_EHDM
          /\ u8 d (x_buff e + 1) = GIF_AMDM
          /\ whdr e1 = whdr e
          /\ exists w, trace e1 = trace e ++ [AMDF w]
                       /\ w_bptr w = x_buff e + 3
                       /\ xdim w = xdim (whdr e) /\ ydim w = ydim (whdr e)
                       /\ bkgd w = bkgd (whdr e) /\ nfrm w = nfrm (whdr e)
                       /\ ifrm w = ifrm (whdr e))).

(** The frame count that [GIF_Load] puts in the descriptors: the number of
    frames counted, negated when the ending mark was not reached. *)
Definition frame_count (d : buffer) (size : Z) : Z :=
  match counting d size with
  | Ret (desc, cnt, _) => if desc =? GIF_EOFM then cnt else - cnt
  | _ => 0
  end.

(** Two states of the extraction loop that agree on all but the block and
    the calls made so far. *)
Definition same_walk (eA eB : ext) : Prop :=
  x_buff eA = x_buff eB /\ x_size eA = x_size eB
  /\ whdr eA = whdr eB /\ fgch eA = fgch eB.

(** ** The raster bytes written *)

(** [n] addresses from [a] up. *)
Fixpoint zseq (a : Z) (n : nat) : list Z :=
  match n with
  | O => []
  | S n => a :: zseq (a + 1) n
  end.

(** Every address from [start] up to the cursor has been written, once, and
    no other. *)
Definition covers (start : Z) (o : out) : Prop :=
  start <= bptr o
  /\ NoDup (map fst (wlog o))
  /\ forall a, In a (map fst (wlog o)) <-> start <= a < bptr o.

(** Two outputs, on two hosts, that agree on the cursor, on what was
    written and on the cells of the codes defined up to [n]. *)
Definition same_out (bA bB : bool) (code ctsz n : Z) (oA oB : out) : Prop :=
  bptr oA = bptr oB /\ wlog oA = wlog oB
  /\ forall i, defined ctsz n i ->
               cell bA code (heap oA) i = cell bB code (heap oB) i.

(** The block holds, at every address written, the byte written there. *)
Definition holds_log (o : out) : Prop :=
  forall a v, In (a, v) (wlog o) -> heap o a = v.

(** ** Frames decoded *)

(** A call of the frame writer got the block and the raster as a call of
    the decoder on the data of a frame of the input, whose mark is at [q],
    left them, and that call did not fail. *)
Definition decoded (GIF_BIGE : bool) (d : buffer) (size : Z) (ev : event) : Prop :=
  match ev with
  | GWFR w m wl =>
      w_bptr w = GIF_BLEN
      /\ exists q blk ret b s o,
           first_block d <= q /\ u8 d q = GIF_FHDM
           /\ _GIF_LoadFrame GIF_BIGE d (load_blen GIF_BIGE d)
                (fst (frame_data d (q, size - q, 0)))
                (snd (frame_data d (q, size - q, 0)))
                GIF_BLEN blk
              = Ret (ret, b, s, o)
           /\ 0 <= ret /\ m = heap o /\ wl = wlog o
  | _ => True
  end.

(** ** How the code stream of a frame ends, told from the input alone *)




Section Scan.

Variable GIF_BIGE : bool.
Variable d : buffer.
Variable ctsz : Z.




End Scan.


(** ** The frames of the input, told from the input alone *)

(** [frame_at fuel d buff size k g]: the blocks are walked from [buff], where
    [size] bytes are left, as the loops of [GIF_Load] walk them when no frame
    is decoded: a frame is passed by its header, its palette if it has one,
    and the chain of its data; any other block but the ending mark by its
    chain.  [g] is the graphics control extension met last.  The walk stops
    at the mark of the frame that has [k] frames before it, and gives the
    place of the mark, the bytes left there and the graphics control
    extension met last; it gives nothing if the ending mark or the end of
    the input comes first. *)
Fixpoint frame_at (fuel : nat) (d : buffer) (buff size k : Z) (g : option Z)
  : option (Z * Z * option Z) :=
  match fuel with
  | O => None
  | S fuel =>
      let desc := u8 d buff in
      if desc =? GIF_EOFM then None
      else if desc =? GIF_FHDM then
        if k <=? 0 then Some (buff, size, g)
        else
          match _GIF_SkipChunk d (fst (frame_data d (buff, size, 0)))
                  (snd (frame_data d (buff, size, 0))) with
          | Ret (ok, b, s) =>
              if ok =? 0 then None else frame_at fuel d b s (k - 1) g
          | _ => None
          end
      else
        let g := if (desc =? GIF_EHDM) && (u8 d (buff + 1) =? GIF_FGCM)
                 then Some (buff + 3) else g in
        match _GIF_SkipChunk d (buff + 1) (size - 1) with
        | Ret (ok, b, s) => if ok =? 0 then None else frame_at fuel d b s k g
        | _ => None
        end
  end.

(** The frame of index [k] of an input of [size] bytes: the place of its
    mark, the bytes left there, and the graphics control extension met last
    before it. *)
Definition nth_frame (d : buffer) (size k : Z) : option (Z * Z * option Z) :=
  frame_at (Z.to_nat (size - first_block d) + 1) d (first_block d)
    (size - first_block d) k None.



(** The walk from the cursor of [e] goes on as the walk from the first
    block does after the frame of index [ifrm]. *)
Definition in_step (d : buffer) (size : Z) (e : ext) : Prop :=
  forall k, 0 <= k ->
    frame_at (Z.to_nat (x_size e) + 1) d (x_buff e) (x_size e) k (fgch e)
    = nth_frame d size (ifrm (whdr e) + 1 + k).

(** A call of the frame writer was made for the frame of the input that has
    the index of the descriptor, with the delay and the transparent index of
    the graphics control extension met last before that frame, and with the
    block as a call of [_GIF_LoadFrame] on the data of that frame, one that
    did not fail, left it. *)
Definition delivered (GIF_BIGE : bool) (d : buffer) (size : Z) (ev : event) : Prop :=
  match ev with
  | GWFR w m wl =>
      exists q sz g,
        nth_frame d size (ifrm w) = Some (q, sz, g)
        /\ time w = frame_time GIF_BIGE d g /\ tran w = frame_tran d g
        /\ exists blk r b s o,
             _GIF_LoadFrame GIF_BIGE d (load_blen GIF_BIGE d)
               (fst (frame_data d (q, sz, 0))) (snd (frame_data d (q, sz, 0)))
               GIF_BLEN blk
             = Ret (r, b, s, o)
             /\ 0 <= r /\ m = heap o /\ wl = wlog o
  | _ => True
  end.
(** * Properties *)

(** ** Basic facts on bytes and outcomes *)

Lemma u8_range (d : buffer) (p : Z) : 0 <= u8 d p < 256.
Proof.
  unfold u8. destruct (p <? 0); [lia|].
  destruct (nth_error d (Z.to_nat p)) as [b|]; [|lia].
  pose proof (Byte.to_N_bounded b). lia.
Qed.

Lemma bind_Ret {A B : Type} (m : res A) (k : A -> res B) (b : B) :
  bind m k = Ret b -> exists a, m = Ret a /\ k a = Ret b.
Proof. destruct m; simpl; intros H; try discriminate. eauto. Qed.

(** ** [_GIF_SkipChunk] *)

Lemma SkipChunk_loop_spec (d : buffer) (fuel : nat) :
  forall p s, 0 < s -> (Z.to_nat s <= fuel)%nat ->
    exists r b s',
      SkipChunk_loop fuel d p s = Ret (r, b, s')
      /\ (r = 0 \/ r = 1)
      /\ (r = 0 <-> exhaust d p s)
      /\ (r = 1 -> exists n, chain d p n /\ b = p + n /\ s' = s - n
                            /\ 0 < s' /\ u8 d (b - 1) = 0).
Proof.
  induction fuel as [|fuel IH]; intros p s Hs Hf; [lia|].
  pose proof (u8_range d p) as Hb. cbn [SkipChunk_loop].
  destruct (s - (1 + u8 d p) <=? 0) eqn:E1.
  - apply Z.leb_le in E1. do 3 eexists. split; [reflexivity|].
    split; [auto|]. split; [|discriminate].
    split; [intros _; apply exhaust_here; lia | reflexivity].
  - apply Z.leb_gt in E1.
    destruct (1 + u8 d p >? 1) eqn:E2.
    + apply Z.gtb_lt in E2.
      destruct (IH (p + (1 + u8 d p)) (s - (1 + u8 d p))) as (r & b & s' & Hr & Hv & Hx & Hc);
        [lia | lia |].
      exists r, b, s'. split; [exact Hr|]. split; [exact Hv|].
      replace (p + (1 + u8 d p)) with (p + 1 + u8 d p) in * by lia.
      split.
      * rewrite Hx. split.
        -- intros H. apply exhaust_next; [lia | lia | exact H].
        -- intros H. inversion H; subst; [lia | assumption].
      * intros Hr1. destruct (Hc Hr1) as (n & Hn & Hb' & Hs' & Hpos & Ht).
        exists (1 + u8 d p + n). split; [apply chain_next; [lia | exact Hn]|].
        repeat split; lia.
    + assert (u8 d p = 0) as Hz by (destruct (Z.gtb_spec (1 + u8 d p) 1); [discriminate | lia]).
      do 3 eexists. split; [reflexivity|]. split; [auto|]. split.
      * split; [discriminate|]. intros H. inversion H; subst; lia.
      * intros _. exists 1. split; [apply chain_end; exact Hz|].
        repeat split; try lia.
        replace (p + (1 + u8 d p) - 1) with p by lia. exact Hz.
Qed.

(** [_GIF_SkipChunk] in terms of the chain it walks. *)
Lemma SkipChunk_spec (d : buffer) (buff size : Z) :
  exists r b s,
    _GIF_SkipChunk d buff size = Ret (r, b, s)
    /\ (r = 0 \/ r = 1)
    /\ (r = 0 <-> size <= 1 \/ exhaust d (buff + 1) (size - 1))
    /\ (r = 1 -> exists n, chain d (buff + 1) n /\ b = buff + 1 + n
                          /\ s = size - (1 + n) /\ 0 < s /\ u8 d (b - 1) = 0).
Proof.
  unfold _GIF_SkipChunk.
  destruct (size - 1 <=? 0) eqn:E.
  - apply Z.leb_le in E. do 3 eexists. split; [reflexivity|].
    split; [auto|]. split; [|discriminate].
    split; [intros _; left; lia | reflexivity].
  - apply Z.leb_gt in E.
    destruct (SkipChunk_loop_spec d (Z.to_nat (size - 1)) (buff + 1) (size - 1))
      as (r & b & s & Hr & Hv & Hx & Hc); [lia | lia |].
    exists r, b, s. split; [exact Hr|]. split; [exact Hv|]. split.
    + rewrite Hx. split; [auto|]. intros [H|H]; [lia | exact H].
    + intros Hr1. destruct (Hc Hr1) as (n & Hn & Hb & Hs & Hpos & Ht).
      exists n. repeat split; try assumption; lia.
Qed.

(** C8, as the code has it: [_GIF_SkipChunk] always returns, with 0 or 1;
    it returns 0 exactly when the byte after the cursor or some advance over
    a sub-block takes all the remaining bytes or more; when it returns 1 the
    cursor is one past the zero-length terminator of the chain that starts
    after the skipped byte, and [size] went down by the bytes advanced, with
    at least one byte left. *)
Theorem SkipChunk_exhaust (d : buffer) (buff size : Z) :
  exists r b s,
    _GIF_SkipChunk d buff size = Ret (r, b, s)
    /\ (r = 0 \/ r = 1)
    /\ (r = 0 <-> size <= 1 \/ exhaust d (buff + 1) (size - 1))
    /\ (r = 1 -> exists n, chain d (buff + 1) n /\ b = buff + 1 + n
                          /\ s = size - (1 + n) /\ 0 < s /\ u8 d (b - 1) = 0).
Proof.
  unfold _GIF_SkipChunk.
  destruct (size - 1 <=? 0) eqn:E.
  - apply Z.leb_le in E. do 3 eexists. split; [reflexivity|].
    split; [auto|]. split; [|discriminate].
    split; [intros _; left; lia | reflexivity].
  - apply Z.leb_gt in E.
    destruct (SkipChunk_loop_spec d (Z.to_nat (size - 1)) (buff + 1) (size - 1))
      as (r & b & s & Hr & Hv & Hx & Hc); [lia | lia |].
    exists r, b, s. split; [exact Hr|]. split; [exact Hv|]. split.
    + rewrite Hx. split; [auto|]. intros [H|H]; [lia | exact H].
    + intros Hr1. destruct (Hc Hr1) as (n & Hn & Hb & Hs & Hpos & Ht).
      exists n. repeat split; try assumption; lia.
Qed.

(** C8 as stated fails where the chain ends exactly at the last byte: with
    two bytes [0xFE; 0x00] and [size = 2] no advance is larger than what
    remains, and [_GIF_SkipChunk] returns 0. *)
Lemma SkipChunk_not_overrun :
  let d := bytes [0xFE; 0x00] in
  _GIF_SkipChunk d 0 2 = Ret (0, 2, 0)
  /\ chain d 1 1
  /\ ~ (2 < 1 \/ overrun d 1 (2 - 1)).
Proof.
  cbv zeta. split; [reflexivity|]. split; [apply chain_end; reflexivity|].
  intros [H|H]; [lia|].
  inversion H as [p s Hlt | p s Hne Hle Hnext]; subst.
  - vm_compute in Hlt. discriminate.
  - apply Hne. reflexivity.
Qed.

(** ** Outcome calculus *)

Lemma wp_bind {A B : Type} (F : fault -> Prop) (m : res A) (k : A -> res B)
  (Q : A -> Prop) (R : B -> Prop) :
  wp F m Q -> (forall a, Q a -> wp F (k a) R) -> wp F (bind m k) R.
Proof. destruct m; simpl; intros H1 H2; auto. Qed.

Lemma wp_mono {A : Type} (F : fault -> Prop) (m : res A) (Q R : A -> Prop) :
  wp F m Q -> (forall a, Q a -> R a) -> wp F m R.
Proof. destruct m; simpl; auto. Qed.

Lemma wp_Ret_inv {A : Type} (F : fault -> Prop) (m : res A) (Q : A -> Prop) (a : A) :
  wp F m Q -> m = Ret a -> Q a.
Proof. intros H E. rewrite E in H. exact H. Qed.

Lemma wp_any {A : Type} (F : fault -> Prop) (m : res A) (Q : A -> Prop) :
  wp F m Q -> wp any_fault m Q.
Proof. destruct m; simpl; auto. intros; exact I. Qed.

(** ** Words *)

Lemma GIF_H_small (x : Z) : 0 <= x < 65536 -> GIF_H x = x.
Proof. intros H. unfold GIF_H. apply Z.mod_small. exact H. Qed.

Lemma land_low_bits (x : Z) (k : Z) : 0 <= k -> 0 <= Z.land x (2 ^ k - 1) < 2 ^ k.
Proof.
  intros Hk. replace (2 ^ k - 1) with (Z.ones k) by (rewrite Z.ones_equiv; lia).
  rewrite Z.land_ones by exact Hk. apply Z.mod_pos_bound. apply Z.pow_pos_nonneg; lia.
Qed.

Lemma land_FFF (x : Z) : 0 <= Z.land x 0xFFF < 4096.
Proof. exact (land_low_bits x 12 ltac:(lia)). Qed.

Lemma pow2_bounds (k : Z) : 0 <= k <= 12 -> 1 <= 2 ^ k <= 4096.
Proof.
  intros H. split.
  - pose proof (Z.pow_pos_nonneg 2 k). lia.
  - change 4096 with (2 ^ 12). apply Z.pow_le_mono_r; lia.
Qed.

(** ** The expander never indexes the code table out of range *)

Section FrameSafe.

Variable GIF_BIGE : bool.
Variable d : buffer.
Variable hlen : Z.
Variable code : Z.
Variable ctsz : Z.
Hypothesis Hctsz : 2 <= ctsz <= 8.

Lemma code_get_ok (o : out) (i : Z) :
  0 <= i < GIF_CLEN ->
  code_get GIF_BIGE code o i = Ret (load32 GIF_BIGE (heap o) (code + 4 * i)).
Proof.
  intros [H1 H2]. unfold code_get.
  apply Z.leb_le in H1. apply Z.ltb_lt in H2. rewrite H1, H2. reflexivity.
Qed.

Lemma code_set_ok (o : out) (i v : Z) :
  0 <= i < GIF_CLEN ->
  code_set GIF_BIGE code o i v
  = Ret (mkOut (bptr o) (store32 GIF_BIGE (heap o) (code + 4 * i) (uint32_t v)) (wlog o)).
Proof.
  intros [H1 H2]. unfold code_set.
  apply Z.leb_le in H1. apply Z.ltb_lt in H2. rewrite H1, H2. reflexivity.
Qed.

Lemma put_pixel_wp (o : out) (v : Z) :
  wp heap_only (put_pixel hlen o v) (fun o' => bptr o' = bptr o /\ 0 <= bptr o).
Proof.
  unfold put_pixel. destruct (0 <=? bptr o) eqn:E; simpl.
  - apply Z.leb_le in E. destruct (bptr o <? hlen); simpl; [auto | reflexivity].
  - reflexivity.
Qed.

Lemma expand_safe (fuel : nat) :
  forall iter o, 0 <= iter < GIF_CLEN -> (Z.to_nat (bptr o + 1) < fuel)%nat ->
    wp heap_only (expand GIF_BIGE hlen code fuel iter o)
       (fun x => 0 <= fst x < GIF_CLEN).
Proof.
  induction fuel as [|fuel IH]; intros iter o Hi Hf; [lia|].
  cbn [expand]. rewrite (code_get_ok o iter Hi). cbn [bind].
  eapply wp_bind; [apply put_pixel_wp|].
  intros o1 [Hb Hpos]. cbn beta.
  rewrite (code_get_ok _ iter Hi). cbn [bind].
  match goal with |- context [if ?c then _ else _] => destruct c end.
  - simpl. exact Hi.
  - apply IH; [apply land_FFF|]. unfold move. cbn [bptr]. lia.
Qed.

Lemma emit_safe (r : regs) (o : out) :
  regs_ok ctsz r -> 0 <= curr r < GIF_CLEN ->
  wp heap_only (emit GIF_BIGE hlen code r o)
     (fun x => regs_ok ctsz (fst x) /\ curr (fst x) = curr r /\ load (fst x) = load r
               /\ bszc (fst x) = bszc r /\ prev (fst x) = prev r).
Proof.
  intros (Hp & Hc & Hz & Hm) Hcur. unfold emit.
  eapply wp_bind with
    (Q := fun x : Z * Z * out =>
            let '(m, z, _) := x in ctsz + 1 <= z <= 12 /\ m = 2 ^ z - 1).
  - destruct (ctbl r + 1 <? GIF_CLEN) eqn:E1.
    + apply Z.ltb_lt in E1.
      destruct ((ctbl r + 1 =? mask r) && (ctbl r + 1 <? GIF_CLEN - 1)) eqn:E2.
      * apply andb_true_iff in E2. destruct E2 as [E2 E3].
        apply Z.eqb_eq in E2. apply Z.ltb_lt in E3.
        rewrite (code_get_ok o (prev r) Hp). cbn [bind].
        rewrite code_set_ok by lia. cbn [bind wp].
        assert (ccsz r < 12) as Hlt.
        { destruct (Z.eq_dec (ccsz r) 12) as [E|E]; [|lia].
          rewrite E in Hm. change (2 ^ 12 - 1) with 4095 in Hm.
          unfold GIF_CLEN in *. lia. }
        split; [lia|].
        rewrite Z.pow_add_r by lia. change (2 ^ 1) with 2.
        pose proof (pow2_bounds (ccsz r) ltac:(lia)).
        rewrite GIF_H_small by lia. lia.
      * rewrite (code_get_ok o (prev r) Hp). cbn [bind].
        rewrite code_set_ok by lia. cbn [bind wp]. auto.
    + cbn [wp]. auto.
  - intros [[m z] o1] [Hz1 Hm1]. cbn beta iota.
    set (it := if curr r >=? ctbl r + 1 then prev r else curr r).
    assert (0 <= it < GIF_CLEN) as Hit by (subst it; destruct (curr r >=? ctbl r + 1); assumption).
    rewrite (code_get_ok o1 it Hit). cbn [bind].
    eapply wp_bind; [apply expand_safe; [exact Hit | lia]|].
    intros [it2 o2] Hit2. cbn [fst] in Hit2. cbn beta iota.
    eapply wp_bind with (Q := fun _ => True).
    { destruct (curr r >=? ctbl r + 1).
      - rewrite (code_get_ok _ it2 Hit2). cbn [bind].
        eapply wp_bind; [apply put_pixel_wp|]. intros; exact I.
      - exact I. }
    intros o3 _.
    eapply wp_bind with (Q := fun _ => True).
    { destruct (ctbl r + 1 <? GIF_CLEN) eqn:E1.
      - apply Z.ltb_lt in E1.
        rewrite code_get_ok by (cbn; lia). cbn [bind].
        rewrite (code_get_ok _ it2 Hit2). cbn [bind].
        rewrite code_set_ok by lia. exact I.
      - exact I. }
    intros o4 _. cbn [wp fst curr load bszc prev]. unfold regs_ok. cbn.
    repeat split; try lia; assumption.
Qed.

Lemma shiftl_1_pow (n : Z) : 0 <= n -> Z.shiftl 1 n = 2 ^ n.
Proof. intros H. rewrite Z.shiftl_mul_pow2 by exact H. lia. Qed.

Lemma lzw_code_safe (r : regs) (o : out) :
  regs_ok ctsz r ->
  wp heap_only (lzw_code GIF_BIGE hlen code ctsz r o)
     (fun x => match x with
               | inl (r', _) => regs_ok ctsz r' /\ bszc r' = bszc r - ccsz r'
               | inr _ => True
               end).
Proof.
  intros Hr. pose proof Hr as (Hp & Hc & Hz & Hm). unfold lzw_code. cbv zeta.
  set (r1 := mkRegs (load r) (mask r) (ctbl r) (Z.land (curr r) (mask r))
               (prev r) (ccsz r) (bszc r)).
  assert (0 <= curr r1 < GIF_CLEN) as Hcur.
  { subst r1. cbn [curr]. rewrite Hm.
    pose proof (land_low_bits (curr r) (ccsz r) ltac:(lia)).
    pose proof (pow2_bounds (ccsz r) ltac:(lia)). unfold GIF_CLEN. lia. }
  assert (regs_ok ctsz r1) as Hr1 by exact Hr.
  eapply wp_bind with
    (Q := fun x : regs * out + out =>
            match x with
            | inl (r', _) => regs_ok ctsz r' /\ 0 <= curr r' < GIF_CLEN /\ bszc r' = bszc r
            | inr _ => True
            end).
  - destruct (Z.land (curr r1) (Z.lnot 1) =? Z.shiftl 1 ctsz).
    + destruct (negb (Z.land (curr r1) 1 =? 0)); cbn [wp]; [exact I|].
      split; [|split; [exact Hcur | reflexivity]].
      unfold regs_ok. cbn [prev ctbl ccsz mask].
      rewrite !shiftl_1_pow by lia.
      pose proof (pow2_bounds ctsz ltac:(lia)).
      pose proof (pow2_bounds (ctsz + 1) ltac:(lia)).
      rewrite GIF_H_small by lia. repeat split; try lia. apply Hp. apply Hp.
    + eapply wp_bind; [apply emit_safe; assumption|].
      intros [r2 o2] (Hr2 & Hc2 & _ & Hb2 & _). cbn [fst] in *. cbn [wp].
      split; [exact Hr2|]. rewrite Hc2. split; [exact Hcur | exact Hb2].
  - intros [[r2 o2]|o2]; [|intros _; exact I].
    intros ((Hp2 & Hc2 & Hz2 & Hm2) & Hcur2 & Hb2). cbn [wp].
    split; [|cbn [bszc ccsz]; lia].
    unfold regs_ok. cbn [prev ctbl ccsz mask]. auto.
Qed.

Lemma lzw_codes_safe (fuel : nat) :
  forall r o, regs_ok ctsz r -> (Z.to_nat (bszc r + 1) < fuel)%nat ->
    wp heap_only (lzw_codes GIF_BIGE hlen code ctsz fuel r o)
       (fun x => match x with
                 | inl (r', _) => regs_ok ctsz r' /\ bszc r' < 0
                 | inr _ => True
                 end).
Proof.
  induction fuel as [|fuel IH]; intros r o Hr Hf; [lia|].
  cbn [lzw_codes]. destruct (bszc r >=? 0) eqn:E.
  - apply Z.geb_le in E.
    eapply wp_bind; [apply lzw_code_safe; exact Hr|].
    intros [[r2 o2]|o2]; [|intros _; exact I].
    intros [Hr2 Hb2]. apply IH; [exact Hr2|].
    destruct Hr2 as (_ & _ & Hz2 & _). lia.
  - cbn [wp]. split; [exact Hr|].
    destruct (Z.geb_spec (bszc r) 0); [discriminate | lia].
Qed.

Lemma lzw_block_safe (fuel : nat) :
  forall buff bseq r o, regs_ok ctsz r -> (Z.to_nat bseq < fuel)%nat ->
    wp heap_only (lzw_block GIF_BIGE d hlen code ctsz fuel buff bseq r o)
       (fun x => let '(b, q, y) := x in
                 b + q = buff + bseq
                 /\ match y with
                    | inl (r', _) => regs_ok ctsz r' /\ q <= 0
                    | inr _ => 0 < q
                    end).
Proof.
  induction fuel as [|fuel IH]; intros buff bseq r o Hr Hf; [lia|].
  cbn [lzw_block]. destruct (bseq >? 0) eqn:E.
  - apply Z.gtb_lt in E. cbv zeta.
    eapply wp_bind.
    { apply lzw_codes_safe; [exact Hr|]. cbn [bszc]. lia. }
    intros [[r2 o2]|o2].
    + intros [Hr2 _].
      eapply wp_mono; [apply IH; [exact Hr2 | unfold GIF_HLEN; lia]|].
      intros [[b q] y] [Hbq Hy]. split; [unfold GIF_HLEN in *; lia | exact Hy].
    + intros _. cbn [wp]. split; [reflexivity | exact E].
  - cbn [wp]. split; [reflexivity|]. split; [exact Hr|].
    destruct (Z.gtb_spec bseq 0); [discriminate | lia].
Qed.

Lemma lzw_blocks_safe (fuel : nat) :
  forall buff bseq size r o,
    regs_ok ctsz r -> u8 d (buff - 1) = bseq -> 1 <= bseq ->
    (1 <= fuel)%nat -> (Z.to_nat size <= fuel)%nat ->
    wp heap_only (lzw_blocks GIF_BIGE d hlen code ctsz fuel buff bseq size r o)
       (fun x => let '(ret, b, s, _) := x in
                 s < size
                 /\ (ret = -5 \/ ret = -1 \/ ret = 0 \/ ret = 1)
                 /\ (0 <= ret -> exists n, chain d (buff - 1) n
                                           /\ b = buff - 1 + n /\ s = size - n)).
Proof.
  induction fuel as [|fuel IH]; intros buff bseq size r o Hr Hu Hq Hf1 Hf; [lia|].
  cbn [lzw_blocks]. cbv zeta.
  destruct (size - (bseq + 1) <=? 0) eqn:E.
  - cbn [wp]. split; [lia|]. split; [auto|]. lia.
  - apply Z.leb_gt in E.
    eapply wp_bind; [apply lzw_block_safe; [exact Hr | lia]|].
    intros [[b q] [[r2 o2]|o2]] [Hbq Hy].
    + destruct Hy as [Hr2 _].
      destruct (negb (u8 d (b + q) =? 0)) eqn:E2.
      * apply negb_true_iff, Z.eqb_neq in E2.
        pose proof (u8_range d (b + q)) as Hrg.
        eapply wp_mono.
        { apply IH; [exact Hr2 | f_equal; lia | lia | lia | lia]. }
        intros [[[ret b'] s'] o'] (Hs & Hret & Hch).
        split; [lia|]. split; [exact Hret|].
        intros Hge. destruct (Hch Hge) as (n & Hn & Hb' & Hs').
        exists (1 + u8 d (buff - 1) + n). split.
        -- apply chain_next; [lia|].
           replace (buff - 1 + 1 + u8 d (buff - 1)) with (b + q + 1 - 1) by lia.
           exact Hn.
        -- lia.
      * apply negb_false_iff, Z.eqb_eq in E2. cbn [wp].
        split; [lia|]. split; [auto|]. intros _.
        exists (1 + u8 d (buff - 1) + 1). split.
        -- apply chain_next; [lia|]. apply chain_end.
           replace (buff - 1 + 1 + u8 d (buff - 1)) with (b + q) by lia. exact E2.
        -- lia.
    + cbn [wp]. split; [lia|].
      destruct (negb (u8 d (b + q) =? 0)) eqn:E2.
      * split; [auto|]. lia.
      * apply negb_false_iff, Z.eqb_eq in E2. split; [auto|]. intros _.
        exists (1 + u8 d (buff - 1) + 1). split.
        -- apply chain_next; [lia|]. apply chain_end.
           replace (buff - 1 + 1 + u8 d (buff - 1)) with (b + q) by lia. exact E2.
        -- lia.
Qed.

Lemma fill_safe (fuel : nat) :
  forall iter n o, 0 <= iter -> n <= GIF_CLEN -> (Z.to_nat (n - iter) < fuel)%nat ->
    wp heap_only (fill GIF_BIGE code fuel iter n o) (fun _ => True).
Proof.
  induction fuel as [|fuel IH]; intros iter n o Hi Hn Hf; [lia|].
  cbn [fill]. destruct (iter <? n) eqn:E; [|exact I].
  apply Z.ltb_lt in E. rewrite code_set_ok by lia. cbn [bind].
  apply IH; lia.
Qed.

End FrameSafe.

(** [_GIF_LoadFrame] returns unless it overruns the block; it never indexes
    the code table out of range; it consumes input; and when its result is
    not negative it has walked the whole sub-block chain of the frame. *)
Lemma LoadFrame_safe (GIF_BIGE : bool) (d : buffer) (hlen buff size bptr : Z) (m : mem) :
  wp heap_only (_GIF_LoadFrame GIF_BIGE d hlen buff size bptr m)
     (fun x => let '(ret, b, s, _) := x in
               s < size
               /\ -5 <= ret <= 1
               /\ (0 <= ret -> exists n, chain d (buff + 1) n
                                         /\ b = buff + 1 + n /\ s = size - (1 + n))).
Proof.
  unfold _GIF_LoadFrame. cbv zeta.
  destruct (size - 1 <=? GIF_HLEN) eqn:E0; [cbn [wp]; lia|].
  apply Z.leb_gt in E0. unfold GIF_HLEN in E0.
  destruct (u8 d (buff + 1) =? 0) eqn:E1; [cbn [wp]; lia|].
  apply Z.eqb_neq in E1. pose proof (u8_range d (buff + 1)) as Hq.
  destruct ((u8 d buff <? 2) || (u8 d buff >? 8)) eqn:E2; [cbn [wp]; lia|].
  apply orb_false_iff in E2. destruct E2 as [E2 E3].
  apply Z.ltb_ge in E2.
  assert (u8 d buff <= 8) as E4 by (destruct (Z.gtb_spec (u8 d buff) 8); [discriminate | lia]).
  match goal with |- context [if negb ?c then _ else _] => destruct c end;
    cbn [negb]; [|cbn [wp]; lia].
  pose proof (pow2_bounds (u8 d buff) ltac:(lia)) as Hp1.
  pose proof (pow2_bounds (u8 d buff + 1) ltac:(lia)) as Hp2.
  eapply wp_bind.
  { apply fill_safe; rewrite ?shiftl_1_pow by lia; unfold GIF_CLEN; lia. }
  intros o1 _.
  eapply wp_mono.
  { apply lzw_blocks_safe with (ctsz := u8 d buff).
    - lia.
    - unfold regs_ok. cbn [prev ctbl ccsz mask]. rewrite !shiftl_1_pow by lia.
      rewrite GIF_H_small by lia. unfold GIF_CLEN. lia.
    - f_equal. lia.
    - lia.
    - lia.
    - lia. }
  intros [[[ret b] s] o2] (Hs & Hret & Hch).
  split; [lia|]. split; [lia|].
  intros Hge. destruct (Hch Hge) as (n & Hn & Hb & Hs').
  replace (buff + 1 + 1 - 1) with (buff + 1) in Hn by lia.
  exists n. split; [exact Hn | lia].
Qed.

(** ** One iteration of the extraction loop *)

Lemma LoadFrameHdr_size (buff size gflg fflg rpal : Z) :
  let '(r, _, s, _) := _GIF_LoadFrameHdr buff size sizeof_FHDR gflg fflg rpal in
  s <= size - 9 /\ (0 < r -> 0 < s).
Proof.
  unfold _GIF_LoadFrameHdr, sizeof_FHDR. cbn [Z.eqb negb andb].
  assert (0 <= Z.shiftl 2 (Z.land fflg 7)) as Hs.
  { apply Z.shiftl_nonneg. lia. }
  destruct (size - 9 <=? 0) eqn:E1; [lia|]. apply Z.leb_gt in E1.
  destruct (negb (Z.land fflg GIF_FPAL =? 0)).
  - destruct (size - 9 - Z.shiftl 2 (Z.land fflg 7) * 3 <=? 0) eqn:E2.
    + lia.
    + apply Z.leb_gt in E2. lia.
  - destruct (negb (Z.land gflg GIF_FPAL =? 0)); lia.
Qed.

Section LoadSteps.

Variable GIF_BIGE : bool.
Variable d : buffer.
Variable amdf : bool.
Variable skip : Z.
Variable hlen : Z.

Lemma extract_block_spec (e : ext) :
  0 < x_size e -> -1 <= ifrm (whdr e) ->
  wp any_fault (extract_block GIF_BIGE d amdf skip hlen e)
     (fun x => step_post GIF_BIGE d skip e (snd x)
               /\ x_size (snd x) < x_size e
               /\ (fst x = true -> 0 < x_size (snd x))).
Proof.
  intros Hsz Hif. unfold extract_block. cbv zeta.
  destruct (u8 d (x_buff e) =? GIF_FHDM).
  - pose proof (LoadFrameHdr_size (x_buff e + 1) (x_size e - 1) (u8 d 10)
                  (u8 d (x_buff e + 1 + 8)) sizeof_GHDR) as Hh.
    destruct (_GIF_LoadFrameHdr (x_buff e + 1) (x_size e - 1) sizeof_FHDR (u8 d 10)
                (u8 d (x_buff e + 1 + 8)) sizeof_GHDR) as [[[cl b] s] cp].
    destruct Hh as [Hs Hpos].
    destruct (ifrm (whdr e) + 1 >=? skip) eqn:E1.
    + apply Z.geb_le in E1.
      destruct (cl <=? 0) eqn:E2.
      * cbn [wp fst snd]. split; [|split; [cbn; lia | discriminate]].
        unfold step_post, trace_step. cbn. repeat split; try lia.
        left. repeat split. left. lia.
      * apply Z.leb_gt in E2. cbn [w_bptr].
        eapply wp_bind; [eapply wp_any; apply LoadFrame_safe|].
        intros [[[r b2] s2] o] (Hs2 & Hr & _).
        destruct (r <? 0) eqn:E3; cbn [wp fst snd].
        -- split; [|split; [cbn; lia | discriminate]].
           unfold step_post, trace_step. cbn. repeat split; try lia.
           left. repeat split. left. lia.
        -- split; [|split; [cbn; lia | intros H; apply Z.ltb_lt in H; exact H]].
           unfold step_post, trace_step. cbn. repeat split; try lia.
           right. left. do 3 eexists. cbn. repeat split; try reflexivity; cbn; lia.
    + cbn [wp fst snd]. split; [|split; [cbn; lia | discriminate]].
      assert (ifrm (whdr e) + 1 < skip) by (destruct (Z.geb_spec (ifrm (whdr e) + 1) skip); [discriminate | lia]).
      unfold step_post, trace_step. cbn. repeat split; try lia.
      left. repeat split. right. lia.
  - destruct (u8 d (x_buff e) =? GIF_EHDM).
    + destruct (u8 d (x_buff e + 1) =? GIF_FGCM).
      * cbn [wp fst snd]. split; [|split; [cbn; lia | discriminate]].
        unfold step_post, trace_step. cbn. repeat split; try lia.
        right. right. left.
        replace (x_buff e + 1 + 1 + 1) with (x_buff e + 3) by lia. auto.
      * destruct ((u8 d (x_buff e + 1) =? GIF_AMDM) && amdf).
        -- cbn [wp fst snd]. split; [|split; [cbn; lia | discriminate]].
           unfold step_post, trace_step. cbn. repeat split; try lia.
           right. right. right. eexists. cbn. auto.
        -- cbn [wp fst snd]. split; [|split; [cbn; lia | discriminate]].
           unfold step_post, trace_step. cbn. repeat split; try lia.
           left. auto.
    + cbn [wp fst snd]. split; [|split; [cbn; lia | discriminate]].
      unfold step_post, trace_step. cbn. repeat split; try lia.
      left. auto.
Qed.

Lemma chain_pos (n p : Z) : chain d p n -> 0 < n.
Proof. induction 1; [lia|]. pose proof (u8_range d p). lia. Qed.

Lemma extract_step_spec (e : ext) :
  0 < x_size e -> -1 <= ifrm (whdr e) ->
  wp any_fault (extract_step GIF_BIGE d amdf skip hlen e)
     (fun x => step_post GIF_BIGE d skip e (step_end x)
               /\ match x with
                  | inl e' => 0 < x_size e' < x_size e
                  | inr _ => True
                  end).
Proof.
  intros Hsz Hif. unfold extract_step. cbv zeta.
  eapply wp_bind; [apply extract_block_spec; assumption|].
  intros [next e1] (Hpost & Hlt & Hnext). cbn [fst snd] in *.
  destruct next.
  - cbn [wp step_end]. split; [exact Hpost|]. split; [auto | exact Hlt].
  - destruct (u8 d (x_buff e) =? GIF_EOFM); [cbn [wp step_end]; auto|].
    destruct (SkipChunk_spec d (x_buff e1) (x_size e1))
      as (r & b & s & Hr & Hv & _ & Hc).
    rewrite Hr. cbn [bind].
    assert (step_post GIF_BIGE d skip e
              (mkExt b s (whdr e1) (fgch e1) (blk e1) (trace e1))) as Hpost2.
    { exact Hpost. }
    destruct Hv as [Hv|Hv]; subst r; cbn [Z.eqb wp step_end].
    + auto.
    + split; [exact Hpost2|]. cbn [x_size].
      destruct (Hc eq_refl) as (n & Hn & _ & Hs & Hpos & _).
      pose proof (chain_pos _ _ Hn). lia.
Qed.

(** A property kept by every iteration holds when the loop is left. *)
Lemma extract_inv (P : ext -> Prop) :
  (forall e e1, P e -> step_post GIF_BIGE d skip e e1 -> P e1) ->
  forall fuel e,
    0 < x_size e -> -1 <= ifrm (whdr e) -> P e ->
    (Z.to_nat (x_size e) < fuel)%nat ->
    wp any_fault (extract GIF_BIGE d amdf skip hlen fuel e)
       (fun e' => P e' /\ nfrm (whdr e') = nfrm (whdr e)).
Proof.
  intros Hstep. induction fuel as [|fuel IH]; intros e Hsz Hif HP Hf; [lia|].
  cbn [extract].
  match goal with |- context [if ?c then _ else _] => destruct c end;
    [|cbn [wp]; auto].
  eapply wp_bind; [apply extract_step_spec; assumption|].
  intros [e1|e1] [Hpost Hx]; cbn [step_end] in Hpost.
  - pose proof Hpost as (Hn & _ & Hi & _).
    eapply wp_mono; [apply IH; [lia | exact Hi | eauto | lia]|].
    cbn beta. intros e2 [HP2 Hn2]. split; [exact HP2 | congruence].
  - cbn [wp]. split; [eauto | apply Hpost].
Qed.

End LoadSteps.

(** The counting loop always returns, and never counts down. *)
Lemma count_frames_spec (d : buffer) (gflg : Z) (fuel : nat) :
  forall bptr blen ifrm cpal, (Z.to_nat blen < fuel)%nat ->
    wp any_fault (count_frames fuel d gflg bptr blen ifrm cpal)
       (fun x => ifrm <= snd (fst x)).
Proof.
  induction fuel as [|fuel IH]; intros bptr blen ifrm cpal Hf; [lia|].
  cbn [count_frames]. cbv zeta.
  destruct (negb (u8 d bptr =? GIF_EOFM)); [|cbn; lia].
  destruct (u8 d bptr =? GIF_FHDM).
  - pose proof (LoadFrameHdr_size (bptr + 1) (blen - 1) gflg
                  (u8 d (bptr + 1 + 8)) cpal) as Hh.
    destruct (_GIF_LoadFrameHdr (bptr + 1) (blen - 1) sizeof_FHDR gflg
                (u8 d (bptr + 1 + 8)) cpal) as [[[rclr b] s] cp].
    destruct Hh as [Hs _].
    destruct (rclr <=? 0); [cbn; lia|].
    destruct (SkipChunk_spec d b s) as (r & b2 & s2 & Hr & Hv & _ & Hc).
    rewrite Hr. cbn [bind].
    destruct Hv as [Hv|Hv]; subst r; cbn [Z.eqb]; [cbn; lia|].
    destruct (Hc eq_refl) as (n & Hn & _ & Hs2 & Hpos & _).
    pose proof (chain_pos _ _ _ Hn).
    eapply wp_mono; [apply IH; lia|]. cbn beta. intros x Hx. lia.
  - cbn [Z.leb].
    destruct (SkipChunk_spec d (bptr + 1) (blen - 1)) as (r & b2 & s2 & Hr & Hv & _ & Hc).
    rewrite Hr. cbn [bind].
    destruct Hv as [Hv|Hv]; subst r; cbn [Z.eqb]; [cbn; lia|].
    destruct (Hc eq_refl) as (n & Hn & _ & Hs2 & Hpos & _).
    pose proof (chain_pos _ _ _ Hn).
    eapply wp_mono; [apply IH; lia|]. cbn beta. intros x Hx. lia.
Qed.

(** ** The whole call *)

Lemma counting_spec (d : buffer) (size : Z) :
  wp any_fault (counting d size) (fun x => 0 <= snd (fst x)).
Proof. unfold counting. cbv zeta. apply count_frames_spec. lia. Qed.

(** [GIF_Load] either returns 0 at once, without a trace, or runs the two
    loops; a property of the loop state that every iteration keeps gives a
    property of the result. *)
Lemma GIF_Load_wp (GIF_BIGE : bool) (d : buffer) (size : Z) (amdf : bool)
  (skip : Z) (m0 : mem) (Q : Z * list event -> Prop) :
  (signature_ok d size = false \/ skip < 0 \/ size <= first_block d -> Q (0, [])) ->
  (forall desc cnt cpal,
      signature_ok d size = true -> 0 <= skip -> first_block d < size ->
      counting d size = Ret (desc, cnt, cpal) -> 0 <= cnt ->
      exists P : ext -> Prop,
        P (load_start GIF_BIGE d size (counted_nfrm desc cnt) cpal m0)
        /\ (forall e e1, P e -> step_post GIF_BIGE d skip e e1 -> P e1)
        /\ (forall e, P e -> nfrm (whdr e) = counted_nfrm desc cnt ->
                      Q (load_result skip (counted_nfrm desc cnt) e,
                         trace e ++ [MGET (load_blen GIF_BIGE d) 0]))) ->
  wp any_fault (GIF_Load GIF_BIGE d size amdf skip m0) Q.
Proof.
  intros Hearly Hrun. unfold GIF_Load.
  destruct (signature_ok d size) eqn:Es; cbn [negb orb].
  2:{ apply Hearly. auto. }
  destruct (skip <? 0) eqn:Ek.
  { apply Z.ltb_lt in Ek. apply Hearly. auto. }
  apply Z.ltb_ge in Ek. cbv zeta.
  destruct (size - first_block d <=? 0) eqn:Ez.
  { apply Z.leb_le in Ez. apply Hearly. right. right. lia. }
  apply Z.leb_gt in Ez.
  pose proof (counting_spec d size) as Hc.
  destruct (counting d size) as [[[desc cnt] cpal]| |] eqn:Ec;
    cbn [wp] in Hc; [|exact I | contradiction].
  cbn [fst snd] in Hc. cbn [bind].
  destruct (Hrun desc cnt cpal eq_refl Ek ltac:(lia) eq_refl Hc) as (P & H0 & Hstep & Hfin).
  eapply wp_bind.
  { apply extract_inv with (P := P).
    - exact Hstep.
    - cbn [x_size]. lia.
    - cbn. lia.
    - exact H0.
    - cbn [x_size]. lia. }
  intros e [HP Hn]. cbn [wp]. cbn [whdr nfrm] in Hn.
  exact (Hfin e HP Hn).
Qed.

(** ** Traces *)

Lemma sink_calls_app (t1 t2 : list event) :
  sink_calls (t1 ++ t2) = sink_calls t1 + sink_calls t2.
Proof. unfold sink_calls. rewrite filter_app, length_app. lia. Qed.

Lemma mget_calls_app (t1 t2 : list event) :
  mget_calls (t1 ++ t2) = (mget_calls t1 + mget_calls t2)%nat.
Proof. unfold mget_calls. rewrite filter_app, length_app. reflexivity. Qed.

Lemma last_fgch_app (t1 t2 : list event) :
  forall g, last_fgch (t1 ++ t2) g = last_fgch t2 (last_fgch t1 g).
Proof.
  induction t1 as [|ev t1 IH]; intros g; [reflexivity|].
  destruct ev; cbn [app last_fgch]; apply IH.
Qed.

(** A trace that was extended by one event, split at a frame. *)
Lemma split_at_last (tr pre post : list event) (ev x : event) :
  tr ++ [ev] = pre ++ x :: post ->
  (post = [] /\ pre = tr /\ x = ev)
  \/ (exists post', post = post' ++ [ev] /\ tr = pre ++ x :: post').
Proof.
  intros H. destruct (exists_last (l := x :: post)) as (l' & a & Hl); [discriminate|].
  rewrite Hl, app_assoc in H. apply app_inj_tail in H. destruct H as [H1 H2]. subst a.
  destruct post as [|y post].
  - left. destruct l' as [|z l']; [|destruct l'; discriminate].
    injection Hl as Hl. rewrite app_nil_r in H1. auto.
  - right. destruct l' as [|z l']; [discriminate|].
    injection Hl as Hz Hl. subst z. exists l'. split; [exact Hl | exact H1].
Qed.

(** ** The allocator macro (C9) *)

Lemma trace_step_mget (GIF_BIGE : bool) (d : buffer) (skip : Z) (e e1 : ext) :
  trace_step GIF_BIGE d skip e e1 ->
  exists new, trace e1 = trace e ++ new /\ mget_calls new = 0%nat.
Proof.
  intros [H|[H|[H|H]]].
  - exists []. rewrite app_nil_r. split; [apply H | reflexivity].
  - destruct H as (w & m & wl & Ht & _). exists [GWFR w m wl]. auto.
  - destruct H as (Ht & _). eexists. split; [exact Ht | reflexivity].
  - destruct H as (w & Ht & _). exists [AMDF w]. auto.
Qed.

(** C9, as the code has it: a call that returns used [GIF_MGET] either not at
    all or exactly twice, first to allocate and last to free the same size;
    it used it twice exactly when the signature test passed, [skip] is not
    negative and the data goes on after the global palette. *)
Theorem GIF_Load_mget (GIF_BIGE : bool) (d : buffer) (size : Z) (amdf : bool)
  (skip : Z) (m0 : mem) :
  wp any_fault (GIF_Load GIF_BIGE d size amdf skip m0)
     (fun x =>
        (mget_calls (snd x) <= 2)%nat
        /\ ((signature_ok d size = true /\ 0 <= skip /\ first_block d < size)
            -> alloc_then_free (snd x) /\ mget_calls (snd x) = 2%nat)
        /\ (~ (signature_ok d size = true /\ 0 <= skip /\ first_block d < size)
            -> snd x = [])).
Proof.
  apply GIF_Load_wp.
  - intros H. cbn [snd]. split; [cbn; lia|]. split; [|reflexivity].
    intros (Hs & Hk & Hz). destruct H as [H|[H|H]]; [congruence | lia | lia].
  - intros desc cnt cpal Hs Hk Hz _ _.
    exists (fun e => exists mid, trace e = MGET (load_blen GIF_BIGE d) 1 :: mid
                                 /\ mget_calls mid = 0%nat).
    split; [|split].
    + exists []. split; reflexivity.
    + intros e e1 (mid & Ht & Hm) (_ & _ & _ & Hstep).
      destruct (trace_step_mget _ _ _ _ _ Hstep) as (new & Hn & Hm2).
      exists (mid ++ new). split; [rewrite Hn, Ht; reflexivity|].
      rewrite mget_calls_app. lia.
    + intros e (mid & Ht & Hm) _. cbn [snd]. rewrite Ht.
      assert (mget_calls (MGET (load_blen GIF_BIGE d) 1 :: mid
                            ++ [MGET (load_blen GIF_BIGE d) 0]) = 2%nat) as H2.
      { change (MGET (load_blen GIF_BIGE d) 1 :: mid ++ [MGET (load_blen GIF_BIGE d) 0])
          with ([MGET (load_blen GIF_BIGE d) 1] ++ mid ++ [MGET (load_blen GIF_BIGE d) 0]).
        rewrite !mget_calls_app, Hm. reflexivity. }
      cbn [app]. split; [lia|]. split.
      * intros _. split; [|exact H2]. exists (load_blen GIF_BIGE d), mid. auto.
      * intros Hn. exfalso. apply Hn. auto.
Qed.

(** C9 as stated fails on a 14-byte input with a good signature whose global
    palette is announced but absent: the call returns 0 at once and the
    allocator macro is not used. *)
Lemma GIF_Load_mget_none :
  signature_ok ex_no_palette 14 = true
  /\ GIF_Load false ex_no_palette 14 false 0 zero_mem = Ret (0, [])
  /\ mget_calls [] <> 2%nat.
Proof. split; [reflexivity|]. split; [reflexivity|]. discriminate. Qed.

(** ** Bytes, case by case *)

Lemma byte_cases (P : Z -> bool) :
  forallb P (map Z.of_nat (seq 0 256)) = true ->
  forall x, 0 <= x < 256 -> P x = true.
Proof.
  intros H x Hx. rewrite forallb_forall in H. apply H.
  apply in_map_iff. exists (Z.to_nat x). split; [lia|]. apply in_seq. lia.
Qed.

(** The two bytes of a 16-bit field are read the same way on both hosts. *)
Lemma swap_host16 (GIF_BIGE : bool) (d : buffer) (p : Z) :
  _GIF_SWAP GIF_BIGE (host16 GIF_BIGE d p) = u8 d p + 256 * u8 d (p + 1).
Proof.
  pose proof (u8_range d p) as Ha. pose proof (u8_range d (p + 1)) as Hb.
  unfold _GIF_SWAP, host16. destruct GIF_BIGE; [|reflexivity].
  generalize dependent (u8 d (p + 1)). generalize dependent (u8 d p).
  intros a Ha b Hb.
  apply Z.eqb_eq.
  apply (byte_cases (fun a => forallb (fun b =>
           Z.lor (GIF_H (Z.shiftl (a * 256 + b) 8)) (Z.shiftr (a * 256 + b) 8)
           =? a + 256 * b) (map Z.of_nat (seq 0 256)))) in Ha; [|vm_compute; reflexivity].
  rewrite forallb_forall in Ha. apply Ha.
  apply in_map_iff. exists (Z.to_nat b). split; [lia|]. apply in_seq. lia.
Qed.

Lemma mode_bits (f : Z) :
  0 <= f < 256 ->
  (if Z.land f 0x10 =? 0 then Z.shiftr (Z.land f 0x0C) 2 else GIF_NONE)
  = (if Z.testbit f 4 then GIF_NONE else Z.land (Z.shiftr f 2) 7).
Proof.
  intros H. apply Z.eqb_eq.
  apply (byte_cases (fun f =>
           (if Z.land f 0x10 =? 0 then Z.shiftr (Z.land f 0x0C) 2 else GIF_NONE)
           =? (if Z.testbit f 4 then GIF_NONE else Z.land (Z.shiftr f 2) 7)));
    [vm_compute; reflexivity | exact H].
Qed.

Lemma tran_bit (f : Z) :
  0 <= f < 256 -> negb (Z.land f 0x01 =? 0) = Z.testbit f 0.
Proof.
  intros H. apply Bool.eqb_prop.
  apply (byte_cases (fun f => Bool.eqb (negb (Z.land f 0x01 =? 0)) (Z.testbit f 0)));
    [vm_compute; reflexivity | exact H].
Qed.

(** ** The graphics control extension in force (C4, C5) *)

Lemma GIF_Load_gce (GIF_BIGE : bool) (d : buffer) (size : Z) (amdf : bool)
  (skip : Z) (m0 : mem) :
  wp any_fault (GIF_Load GIF_BIGE d size amdf skip m0)
     (fun x => forall pre w m wl post,
          snd x = pre ++ GWFR w m wl :: post ->
          gce_fields GIF_BIGE d (last_fgch pre None) w).
Proof.
  apply GIF_Load_wp.
  - intros _ pre w m wl post H. cbn [snd] in H. destruct pre; discriminate.
  - intros desc cnt cpal _ _ _ _ _.
    exists (fun e =>
              fgch e = last_fgch (trace e) None
              /\ forall pre w m wl post,
                  trace e = pre ++ GWFR w m wl :: post ->
                  gce_fields GIF_BIGE d (last_fgch pre None) w).
    split; [|split].
    + split; [reflexivity|]. intros pre w m wl post H.
      destruct pre as [|ev pre]; [discriminate|].
      injection H as _ H. destruct pre; discriminate.
    + intros e e1 [Hg Hall] (_ & _ & _ & Hstep).
      destruct Hstep as [H|[H|[H|H]]].
      * destruct H as (Ht & Hf & _). rewrite Ht, Hf. auto.
      * destruct H as (w & m & wl & Ht & Hf & _ & _ & _ & Hm & Hti & Htr & _).
        rewrite Ht, Hf, last_fgch_app. split; [exact Hg|].
        intros pre w' m' wl' post H.
        apply split_at_last in H. destruct H as [(_ & Hpre & Hx)|(post' & _ & H)].
        -- injection Hx as -> _ _. subst pre. rewrite <- Hg.
           split; [exact Hm|]. split; [exact Hti | exact Htr].
        -- eapply Hall. exact H.
      * destruct H as (Ht & Hf & _). rewrite Ht, Hf, last_fgch_app.
        split; [reflexivity|].
        intros pre w' m' wl' post H.
        apply split_at_last in H. destruct H as [(_ & _ & Hx)|(post' & _ & H)].
        -- discriminate.
        -- eapply Hall. exact H.
      * destruct H as (w & Ht & Hf & _). rewrite Ht, Hf, last_fgch_app.
        split; [exact Hg|].
        intros pre w' m' wl' post H.
        apply split_at_last in H. destruct H as [(_ & _ & Hx)|(post' & _ & H)].
        -- discriminate.
        -- eapply Hall. exact H.
    + intros e [_ Hall] _ pre w m wl post H. cbn [snd] in H.
      apply split_at_last in H. destruct H as [(_ & _ & Hx)|(post' & _ & H)].
      * discriminate.
      * eapply Hall. exact H.
Qed.

(** C4, as the code has it: the mode passed with a frame is [GIF_NONE] when no
    graphics control extension was seen before the frame, or when bit 4 of
    the flags of the one seen last is set; otherwise it is the disposal
    field of these flags, [(flgs >> 2) & 7].  Bit 1, the user-input bit,
    plays no role. *)
Theorem GIF_Load_mode (GIF_BIGE : bool) (d : buffer) (size : Z) (amdf : bool)
  (skip : Z) (m0 : mem) :
  wp any_fault (GIF_Load GIF_BIGE d size amdf skip m0)
     (fun x => forall pre w m wl post,
          snd x = pre ++ GWFR w m wl :: post ->
          mode w = match last_fgch pre None with
                   | Some p => if Z.testbit (u8 d p) 4 then GIF_NONE
                               else Z.land (Z.shiftr (u8 d p) 2) 7
                   | None => GIF_NONE
                   end).
Proof.
  eapply wp_mono; [apply GIF_Load_gce|].
  intros [r tr] H pre w m wl post Htr.
  destruct (H pre w m wl post Htr) as (Hm & _ & _). rewrite Hm.
  unfold frame_mode, fgch_flgs. destruct (last_fgch pre None) as [p|]; [|reflexivity].
  apply mode_bits. apply u8_range.
Qed.


(** ** The frames before [skip] are walked as the counting loop walked them *)

Lemma wp_conj {A : Type} (F : fault -> Prop) (m : res A) (Q R : A -> Prop) :
  wp F m Q -> wp F m R -> wp F m (fun a => Q a /\ R a).
Proof. destruct m; simpl; auto. Qed.

Lemma LoadFrameHdr_rpal (buff size flen gflg fflg rp1 rp2 : Z) :
  fst (_GIF_LoadFrameHdr buff size flen gflg fflg rp1)
  = fst (_GIF_LoadFrameHdr buff size flen gflg fflg rp2).
Proof.
  unfold _GIF_LoadFrameHdr. cbv zeta.
  repeat match goal with |- context [if ?c then _ else _] => destruct c end;
    reflexivity.
Qed.

Section Mirror.

Variable GIF_BIGE : bool.
Variable d : buffer.
Variable amdf : bool.
Variable skip : Z.
Variable hlen : Z.

Lemma extract_block_skip (e : ext) :
  ifrm (whdr e) + 1 < skip ->
  exists e1,
    extract_block GIF_BIGE d amdf skip hlen e = Ret (false, e1)
    /\ (x_buff e1, x_size e1, ifrm (whdr e1)) = skipped_block d e.
Proof.
  intros Hlt. unfold extract_block, skipped_block. cbv zeta.
  destruct (u8 d (x_buff e) =? GIF_FHDM).
  - destruct (_GIF_LoadFrameHdr (x_buff e + 1) (x_size e - 1) sizeof_FHDR (u8 d 10)
                (u8 d (x_buff e + 1 + 8)) sizeof_GHDR) as [[[cl b] s] cp].
    assert ((ifrm (whdr e) + 1 >=? skip) = false) as E
        by (destruct (Z.geb_spec (ifrm (whdr e) + 1) skip); [lia | reflexivity]).
    rewrite E. eexists. split; reflexivity.
  - destruct (u8 d (x_buff e) =? GIF_EHDM).
    + destruct (u8 d (x_buff e + 1) =? GIF_FGCM); [eexists; split; reflexivity|].
      destruct ((u8 d (x_buff e + 1) =? GIF_AMDM) && amdf); eexists; split; reflexivity.
    + eexists; split; reflexivity.
Qed.

Lemma extract_reaches_skip (gcp : Z) (fuel : nat) :
  forall e fc cp desc cnt cp',
    ifrm (whdr e) + 1 <= skip -> 0 < x_size e -> -1 <= ifrm (whdr e) ->
    (Z.to_nat (x_size e) < fuel)%nat ->
    count_frames fc d (u8 d 10) (x_buff e) (x_size e) (ifrm (whdr e) + 1) cp
    = Ret (desc, cnt, cp') ->
    skip < cnt ->
    skip < (if nfrm (whdr e) <? 0 then - nfrm (whdr e) else nfrm (whdr e)) ->
    wp any_fault (extract GIF_BIGE d amdf skip hlen fuel e)
       (fun e' => skip <= ifrm (whdr e') + 1).
Proof.
  induction fuel as [|fuel IH]; intros e fc cp desc cnt cp' Hle Hsz Hif Hf Hc Hcnt Hn; [lia|].
  destruct (Z.eq_dec (ifrm (whdr e) + 1) skip) as [Heq|Hne].
  { eapply wp_mono.
    - apply extract_inv with (P := fun e => skip <= ifrm (whdr e) + 1); try assumption; [|lia].
      intros e0 e1 H0 (_ & _ & _ & Hstep).
      destruct Hstep as [H|[H|[H|H]]].
      + destruct H as (_ & _ & [H|[H _]]); lia.
      + destruct H as (w & m & wl & _ & _ & H & _). lia.
      + destruct H as (_ & _ & H). lia.
      + destruct H as (w & _ & _ & H). lia.
    - cbn beta. intros e' [H _]. exact H. }
  assert (ifrm (whdr e) + 1 < skip) as Hlt by lia. clear Hle Hne.
  cbn [extract].
  apply Z.ltb_lt in Hn. rewrite Hn. apply Z.ltb_lt in Hn.
  pose proof (extract_step_spec GIF_BIGE d amdf skip hlen e Hsz Hif) as Hspec.
  destruct (extract_block_skip e Hlt) as (e1 & Hb & Hsk).
  unfold extract_step in *. cbv zeta in *. rewrite Hb in *. cbn [bind] in *.
  cbv iota beta in *.
  destruct fc as [|fc]; [discriminate|].
  cbn [count_frames] in Hc. cbv zeta in Hc.
  destruct (u8 d (x_buff e) =? GIF_EOFM) eqn:Ee.
  { cbn [negb] in Hc. injection Hc as _ Hc _. lia. }
  cbn [negb] in Hc. unfold skipped_block in Hsk.
  destruct (SkipChunk_spec d (x_buff e1) (x_size e1))
    as (r & b & s & Hr & Hv & _ & _).
  rewrite Hr in *. cbn [bind] in *.
  assert (count_frames fc d (u8 d 10) b s (ifrm (whdr e1) + 1)
            (snd (if u8 d (x_buff e) =? GIF_FHDM
                  then _GIF_LoadFrameHdr (x_buff e + 1) (x_size e - 1) sizeof_FHDR
                         (u8 d 10) (u8 d (x_buff e + 1 + 8)) cp
                  else (0, 0, 0, cp)))
          = Ret (desc, cnt, cp') /\ r = 1) as [Hc' Hr1].
  { destruct (u8 d (x_buff e) =? GIF_FHDM).
    - pose proof (LoadFrameHdr_rpal (x_buff e + 1) (x_size e - 1) sizeof_FHDR
                    (u8 d 10) (u8 d (x_buff e + 1 + 8)) cp sizeof_GHDR) as Hrp.
      destruct (_GIF_LoadFrameHdr (x_buff e + 1) (x_size e - 1) sizeof_FHDR
                  (u8 d 10) (u8 d (x_buff e + 1 + 8)) cp) as [[[rc1 b1] s1] cp1].
      destruct (_GIF_LoadFrameHdr (x_buff e + 1) (x_size e - 1) sizeof_FHDR
                  (u8 d 10) (u8 d (x_buff e + 1 + 8)) sizeof_GHDR) as [[[rc2 b2] s2] cp2].
      cbn [fst snd] in *. injection Hrp as -> -> ->. injection Hsk as Hk1 Hk2 Hk3.
      destruct (rc2 <=? 0); [injection Hc as _ Hc _; lia|].
      rewrite <- Hk1, <- Hk2, Hr in Hc. cbn [bind] in Hc.
      destruct Hv as [Hv|Hv]; subst r; cbn [Z.eqb] in Hc.
      + injection Hc as _ Hc _. lia.
      + rewrite Hk3. auto.
    - injection Hsk as Hk1 Hk2 Hk3. cbn [Z.leb] in Hc.
      rewrite <- Hk1, <- Hk2, Hr in Hc. cbn [bind] in Hc. cbn [snd].
      destruct Hv as [Hv|Hv]; subst r; cbn [Z.eqb] in Hc.
      + injection Hc as _ Hc _. lia.
      + rewrite Hk3. auto. }
  subst r. cbn [Z.eqb] in *. cbn [wp step_end] in Hspec.
  destruct Hspec as ((Hn1 & _ & Hi1 & _) & Hs1 & Hs2). cbn [whdr x_size] in *.
  assert (ifrm (whdr e1) <= ifrm (whdr e) + 1) as Hi2.
  { destruct (u8 d (x_buff e) =? GIF_FHDM).
    - destruct (_GIF_LoadFrameHdr (x_buff e + 1) (x_size e - 1) sizeof_FHDR
                  (u8 d 10) (u8 d (x_buff e + 1 + 8)) sizeof_GHDR) as [[[rc2 b2] s2] cp2].
      injection Hsk as _ _ Hk3. lia.
    - injection Hsk as _ _ Hk3. lia. }
  eapply IH; cbn [whdr x_size x_buff]; try eassumption; try lia.
  rewrite Hn1. exact Hn.
Qed.

End Mirror.

(** ** The result and the number of frames written (C1, C2) *)

Lemma trace_step_sink (GIF_BIGE : bool) (d : buffer) (skip : Z) (e e1 : ext) :
  -1 <= ifrm (whdr e) ->
  sink_calls (trace e) = Z.max 0 (ifrm (whdr e) + 1 - skip) ->
  trace_step GIF_BIGE d skip e e1 ->
  sink_calls (trace e1) = Z.max 0 (ifrm (whdr e1) + 1 - skip).
Proof.
  intros Hi Hs [H|[H|[H|H]]].
  - destruct H as (Ht & _ & [H|[H H']]); rewrite Ht, Hs; lia.
  - destruct H as (w & m & wl & Ht & _ & H & H' & _).
    rewrite Ht, sink_calls_app, Hs. cbn. lia.
  - destruct H as (Ht & _ & H). rewrite Ht, sink_calls_app, Hs, H. cbn. lia.
  - destruct H as (w & Ht & _ & H). rewrite Ht, sink_calls_app, Hs, H. cbn. lia.
Qed.

(** With no byte after the global palette nothing is counted. *)
Lemma count_frames_short (d : buffer) (gflg bptr blen ifrm cpal : Z) (fuel : nat) :
  blen <= 1 ->
  wp any_fault (count_frames (S fuel) d gflg bptr blen ifrm cpal)
     (fun x => snd (fst x) = ifrm).
Proof.
  intros Hb. cbn [count_frames]. cbv zeta.
  destruct (negb (u8 d bptr =? GIF_EOFM)); [|reflexivity].
  destruct (u8 d bptr =? GIF_FHDM).
  - pose proof (LoadFrameHdr_size (bptr + 1) (blen - 1) gflg
                  (u8 d (bptr + 1 + 8)) cpal) as Hh.
    destruct (_GIF_LoadFrameHdr (bptr + 1) (blen - 1) sizeof_FHDR gflg
                (u8 d (bptr + 1 + 8)) cpal) as [[[rclr b] s] cp].
    destruct Hh as [Hs Hpos].
    destruct (rclr <=? 0) eqn:E; [reflexivity|]. apply Z.leb_gt in E. lia.
  - cbn [Z.leb].
    destruct (SkipChunk_spec d (bptr + 1) (blen - 1)) as (r & b2 & s2 & Hr & Hv & _ & Hc).
    rewrite Hr. cbn [bind].
    destruct Hv as [Hv|Hv]; subst r; cbn [Z.eqb]; [reflexivity|].
    destruct (Hc eq_refl) as (n & Hn & _ & Hs2 & Hpos & _).
    pose proof (chain_pos _ _ _ Hn). lia.
Qed.

(** What [GIF_Load] returns, from the number [n] of frames it went through:
    [n] itself when the counting loop met the ending mark, [skip - n] when it
    did not; the frame writer was called for the frames from [skip] on. *)
Lemma GIF_Load_result (GIF_BIGE : bool) (d : buffer) (size : Z) (amdf : bool)
  (skip : Z) (m0 : mem) :
  wp any_fault (GIF_Load GIF_BIGE d size amdf skip m0)
     (fun x =>
        ((signature_ok d size = false \/ skip < 0 \/ size <= first_block d)
         /\ x = (0, []))
        \/ exists desc cnt cpal n,
            counting d size = Ret (desc, cnt, cpal)
            /\ 0 <= skip /\ 0 <= cnt /\ 0 <= n
            /\ (skip < cnt -> skip <= n)
            /\ sink_calls (snd x) = Z.max 0 (n - skip)
            /\ fst x = (if counted_nfrm desc cnt <? 0 then - n + skip else n)).
Proof.
  unfold GIF_Load.
  destruct (signature_ok d size) eqn:Es; cbn [negb orb]; [|cbn; auto].
  destruct (skip <? 0) eqn:Ek; [apply Z.ltb_lt in Ek; cbn; auto|].
  apply Z.ltb_ge in Ek. cbv zeta.
  destruct (size - first_block d <=? 0) eqn:Ez.
  { apply Z.leb_le in Ez. cbn. left. split; [|reflexivity]. right. right. lia. }
  apply Z.leb_gt in Ez.
  pose proof (counting_spec d size) as Hc.
  destruct (counting d size) as [[[desc cnt] cpal]| |] eqn:Ec;
    cbn [wp] in Hc; [|exact I | contradiction].
  cbn [fst snd] in Hc. cbn [bind].
  fold (counted_nfrm desc cnt). fold (load_blen GIF_BIGE d).
  change (mkExt (first_block d) (size - first_block d) _ None m0 _)
    with (load_start GIF_BIGE d size (counted_nfrm desc cnt) cpal m0).
  set (e0 := load_start GIF_BIGE d size (counted_nfrm desc cnt) cpal m0).
  eapply wp_bind.
  { apply wp_conj.
    - apply extract_inv with
        (P := fun e => -1 <= ifrm (whdr e)
                       /\ sink_calls (trace e) = Z.max 0 (ifrm (whdr e) + 1 - skip)).
      + intros e e1 [Hi Hs] (_ & _ & Hi1 & Hstep). split; [exact Hi1|].
        exact (trace_step_sink GIF_BIGE d skip e e1 Hi Hs Hstep).
      + cbn [e0 load_start x_size]. lia.
      + cbn. lia.
      + split; [cbn; lia|]. cbn. lia.
      + cbn [e0 load_start x_size]. lia.
    - instantiate (1 := fun e => skip < cnt -> skip <= ifrm (whdr e) + 1).
      destruct (Z_lt_dec skip cnt) as [Hlt|Hge].
      + eapply wp_mono.
        * apply extract_reaches_skip with
            (fc := (Z.to_nat (size - first_block d) + 1)%nat)
            (cp := 0) (desc := desc) (cnt := cnt) (cp' := cpal).
          -- exact 0.
          -- cbn. lia.
          -- cbn [e0 load_start x_size]. lia.
          -- cbn. lia.
          -- cbn [e0 load_start x_size]. lia.
          -- exact Ec.
          -- exact Hlt.
          -- cbn [e0 load_start whdr nfrm]. unfold counted_nfrm.
             destruct (desc =? GIF_EOFM).
             ++ destruct (Z.ltb_spec cnt 0); lia.
             ++ destruct (Z.ltb_spec (- cnt) 0); lia.
        * cbn beta. auto.
      + eapply wp_mono.
        * apply extract_inv with (P := fun _ => True).
          -- auto.
          -- cbn [e0 load_start x_size]. lia.
          -- cbn. lia.
          -- exact I.
          -- cbn [e0 load_start x_size]. lia.
        * cbn beta. intros. lia. }
  intros e [[[Hi Hs] _] Hreach]. cbn [wp]. right.
  exists desc, cnt, cpal, (ifrm (whdr e) + 1). cbn [fst snd].
  split; [reflexivity|]. split; [exact Ek|]. split; [exact Hc|]. split; [lia|].
  split; [exact Hreach|]. split.
  - rewrite sink_calls_app, Hs. cbn. lia.
  - destruct (counted_nfrm desc cnt <? 0); lia.
Qed.

(** C1, as the code has it: when the signature test passes, [skip] is not
    negative and the counting loop counted more than [skip] frames, a call that
    met the ending mark while counting returns the number of frames written
    plus [skip], and a call that did not returns minus the number of frames
    written (without [skip]). *)
Theorem GIF_Load_return (GIF_BIGE : bool) (d : buffer) (size : Z) (amdf : bool)
  (skip : Z) (m0 : mem) (desc cnt cpal : Z) :
  signature_ok d size = true -> 0 <= skip ->
  counting d size = Ret (desc, cnt, cpal) -> skip < cnt ->
  wp any_fault (GIF_Load GIF_BIGE d size amdf skip m0)
     (fun x => if desc =? GIF_EOFM
               then fst x = sink_calls (snd x) + skip
               else fst x = - sink_calls (snd x)).
Proof.
  intros Hs Hk Hc Hlt.
  eapply wp_mono; [apply GIF_Load_result|].
  intros [r tr] [[Hearly _]|(desc' & cnt' & cpal' & n & Hc' & _ & Hcnt & Hn & Hreach & Hsink & Hr)].
  - exfalso. destruct Hearly as [H|[H|H]]; [congruence | lia |].
    pose proof (count_frames_short d (u8 d 10) (first_block d) (size - first_block d)
                  0 0 (Z.to_nat (size - first_block d))) as Hsh.
    unfold counting in Hc. cbv zeta in Hc.
    replace (Z.to_nat (size - first_block d) + 1)%nat
      with (S (Z.to_nat (size - first_block d))) in Hc by lia.
    rewrite Hc in Hsh. cbn in Hsh. specialize (Hsh ltac:(lia)). lia.
  - rewrite Hc in Hc'. injection Hc' as <- <- <-.
    cbn [fst snd] in *. specialize (Hreach Hlt). unfold counted_nfrm in Hr.
    destruct (desc =? GIF_EOFM).
    + destruct (Z.ltb_spec cnt 0); lia.
    + destruct (Z.ltb_spec (- cnt) 0); lia.
Qed.


(** ** The code table is never indexed out of range (C10) *)

(** C10: whatever the input, the block contents and the raster address,
    [_GIF_LoadFrame] makes no access [code[i]] with [i] outside [0; 4095] (such
    an access is the fault [DictIndex]), and its loops end. *)
Theorem LoadFrame_code_index (GIF_BIGE : bool) (d : buffer)
  (hlen buff size bptr : Z) (m : mem) :
  _GIF_LoadFrame GIF_BIGE d hlen buff size bptr m <> Fault DictIndex
  /\ _GIF_LoadFrame GIF_BIGE d hlen buff size bptr m <> Timeout.
Proof.
  pose proof (LoadFrame_safe GIF_BIGE d hlen buff size bptr m) as H.
  destruct (_GIF_LoadFrame GIF_BIGE d hlen buff size bptr m) as [x|f|];
    cbn [wp] in H.
  - split; discriminate.
  - unfold heap_only in H. subst f. split; discriminate.
  - contradiction.
Qed.



(** ** The result of [_GIF_LoadFrame] does not depend on the block *)

Ltac inv_bind H :=
  let a := fresh "a" in
  let Ha := fresh "Ha" in
  apply bind_Ret in H; destruct H as (a & Ha & H).

Section Control.

Variable GIF_BIGE : bool.
Variable d : buffer.

Lemma emit_regs_eq (hlen code : Z) (r : regs) (o : out) (x : regs * out) :
  emit GIF_BIGE hlen code r o = Ret x -> fst x = emit_regs r.
Proof.
  unfold emit, emit_regs. cbv zeta. intros H.
  inv_bind H. destruct a as [[m z] o1].
  inv_bind H. inv_bind H. destruct a0 as [it o2].
  inv_bind H. inv_bind H. injection H as <-. cbn [fst].
  destruct (ctbl r + 1 <? GIF_CLEN); cbn [andb].
  - destruct ((ctbl r + 1 =? mask r) && (ctbl r + 1 <? GIF_CLEN - 1)).
    + inv_bind Ha. inv_bind Ha. injection Ha as <- <- _. reflexivity.
    + inv_bind Ha. inv_bind Ha. injection Ha as <- <- _. reflexivity.
  - injection Ha as <- <- _. reflexivity.
Qed.

Lemma lzw_code_regs (hlen code ctsz : Z) (r : regs) (o : out) (x : regs * out + out) :
  lzw_code GIF_BIGE hlen code ctsz r o = Ret x ->
  match x with
  | inl (r', _) => code_regs ctsz r = Some r'
  | inr _ => code_regs ctsz r = None
  end.
Proof.
  unfold lzw_code, code_regs. cbv zeta. intros H. inv_bind H.
  cbn [curr] in *.
  destruct (Z.land (Z.land (curr r) (mask r)) (Z.lnot 1) =? Z.shiftl 1 ctsz).
  - destruct (negb (Z.land (Z.land (curr r) (mask r)) 1 =? 0)).
    + injection Ha as <-. injection H as <-. reflexivity.
    + injection Ha as <-. injection H as <-. reflexivity.
  - inv_bind Ha. destruct a0 as [r2 o2]. injection Ha as <-.
    apply emit_regs_eq in Ha0. cbn [fst] in Ha0. subst r2.
    injection H as <-. reflexivity.
Qed.

Lemma lzw_codes_regs (h1 c1 h2 c2 ctsz : Z) (fuel : nat) :
  forall r o1 o2 x1 x2,
    lzw_codes GIF_BIGE h1 c1 ctsz fuel r o1 = Ret x1 ->
    lzw_codes GIF_BIGE h2 c2 ctsz fuel r o2 = Ret x2 ->
    same_regs x1 x2.
Proof.
  induction fuel as [|fuel IH]; intros r o1 o2 x1 x2 H1 H2; [discriminate|].
  cbn [lzw_codes] in H1, H2. destruct (bszc r >=? 0).
  - inv_bind H1. inv_bind H2.
    apply lzw_code_regs in Ha, Ha0.
    destruct a as [[ra oa]|oa], a0 as [[rb ob]|ob]; try congruence.
    + assert (ra = rb) as -> by congruence. eapply IH; eassumption.
    + injection H1 as <-. injection H2 as <-. exact I.
  - injection H1 as <-. injection H2 as <-. reflexivity.
Qed.

Lemma lzw_block_regs (h1 c1 h2 c2 ctsz : Z) (fuel : nat) :
  forall buff bseq r o1 o2 b1 q1 x1 b2 q2 x2,
    lzw_block GIF_BIGE d h1 c1 ctsz fuel buff bseq r o1 = Ret (b1, q1, x1) ->
    lzw_block GIF_BIGE d h2 c2 ctsz fuel buff bseq r o2 = Ret (b2, q2, x2) ->
    b1 = b2 /\ q1 = q2 /\ same_regs x1 x2.
Proof.
  induction fuel as [|fuel IH]; intros buff bseq r o1 o2 b1 q1 x1 b2 q2 x2 H1 H2;
    [discriminate|].
  cbn [lzw_block] in H1, H2. cbv zeta in H1, H2. destruct (bseq >? 0).
  - inv_bind H1. inv_bind H2.
    pose proof (lzw_codes_regs _ _ _ _ _ _ _ _ _ _ _ Ha Ha0) as Hs.
    destruct a as [[ra oa]|oa], a0 as [[rb ob]|ob]; cbn [same_regs] in Hs;
      try contradiction.
    + subst rb. eapply IH; eassumption.
    + injection H1 as <- <- <-. injection H2 as <- <- <-. cbn. auto.
  - injection H1 as <- <- <-. injection H2 as <- <- <-. cbn. auto.
Qed.

Lemma lzw_blocks_status (h1 c1 h2 c2 ctsz : Z) (fuel : nat) :
  forall buff bseq size r o1 o2 x1 x2,
    lzw_blocks GIF_BIGE d h1 c1 ctsz fuel buff bseq size r o1 = Ret x1 ->
    lzw_blocks GIF_BIGE d h2 c2 ctsz fuel buff bseq size r o2 = Ret x2 ->
    fst x1 = fst x2.
Proof.
  induction fuel as [|fuel IH]; intros buff bseq size r o1 o2 x1 x2 H1 H2;
    [discriminate|].
  cbn [lzw_blocks] in H1, H2. cbv zeta in H1, H2.
  destruct (size - (bseq + 1) <=? 0).
  - injection H1 as <-. injection H2 as <-. reflexivity.
  - inv_bind H1. inv_bind H2.
    destruct a as [[ba qa] ya], a0 as [[bb qb] yb].
    destruct (lzw_block_regs _ _ _ _ _ _ _ _ _ _ _ _ _ _ _ _ _ Ha Ha0) as (-> & -> & Hs).
    destruct ya as [[ra oa]|oa], yb as [[rb ob]|ob]; cbn [same_regs] in Hs;
      try contradiction.
    + subst rb. destruct (negb (u8 d (bb + qb) =? 0)).
      * eapply IH; eassumption.
      * injection H1 as <-. injection H2 as <-. reflexivity.
    + injection H1 as <-. injection H2 as <-. reflexivity.
Qed.

(** Two calls of [_GIF_LoadFrame] at the same place of the same input, on
    whatever blocks, return the same result, cursor and size if both
    return. *)
Lemma LoadFrame_status (h1 p1 h2 p2 buff size : Z) (m1 m2 : mem) (s1 s2 : Z * Z * Z) :
  frame_status (_GIF_LoadFrame GIF_BIGE d h1 buff size p1 m1) = Some s1 ->
  frame_status (_GIF_LoadFrame GIF_BIGE d h2 buff size p2 m2) = Some s2 ->
  s1 = s2.
Proof.
  unfold frame_status, _GIF_LoadFrame. cbv zeta.
  destruct (size - 1 <=? GIF_HLEN); [cbn; congruence|].
  destruct (u8 d (buff + 1) =? 0); [cbn; congruence|].
  destruct ((u8 d buff <? 2) || (u8 d buff >? 8)); [cbn; congruence|].
  match goal with |- context [if negb ?c then _ else _] => destruct c end;
    cbn [negb]; [|cbn; congruence].
  destruct (fill GIF_BIGE (p1 - GIF_CLEN * 4) _ _ _ _) as [oa| |]; cbn [bind];
    [|discriminate | discriminate].
  destruct (fill GIF_BIGE (p2 - GIF_CLEN * 4) _ _ _ _) as [ob| |]; cbn [bind];
    [|discriminate | discriminate].
  match goal with
  | |- option_map fst (returned ?A) = _ -> option_map fst (returned ?B) = _ -> _ =>
      destruct A as [xa| |] eqn:Ea; [|discriminate | discriminate];
      destruct B as [xb| |] eqn:Eb; [|discriminate | discriminate]
  end.
  cbn. intros H1 H2. injection H1 as <-. injection H2 as <-.
  eapply lzw_blocks_status; eassumption.
Qed.

End Control.

(** ** The extraction loop, without the memory *)

Section Walk.

Variable GIF_BIGE : bool.
Variable d : buffer.
Variable amdf : bool.
Variable hlen : Z.

Lemma skip_tail (desc : Z) (next : bool) (e1 : ext) (x : ext + ext) :
  next = false ->
  (if next then Ret (inl e1)
   else if desc =? GIF_EOFM then Ret (inr e1)
   else '(ok, buff, size) <- _GIF_SkipChunk d (x_buff e1) (x_size e1) ;;
        let e := mkExt buff size (whdr e1) (fgch e1) (blk e1) (trace e1) in
        if ok =? 0 then Ret (inr e) else Ret (inl e)) = Ret x ->
  (went_on x, ctrl_of (step_end x)) = ctrl_skip d desc (ctrl_of e1).
Proof.
  intros -> H. unfold ctrl_skip, ctrl_of.
  destruct (desc =? GIF_EOFM); [injection H as <-; reflexivity|].
  inv_bind H. destruct a as [[ok b] s]. rewrite Ha.
  destruct (ok =? 0); injection H as <-; reflexivity.
Qed.

Lemma extract_step_ctrl (skip : Z) (e : ext) (x : ext + ext) :
  extract_step GIF_BIGE d amdf skip hlen e = Ret x ->
  (went_on x, ctrl_of (step_end x))
  = ctrl_step d skip (frame_status (frame_call GIF_BIGE d hlen e)) (ctrl_of e)
  /\ (u8 d (x_buff e) = GIF_FHDM -> skip <= ifrm (whdr e) + 1 ->
      0 < frame_clrs d (ctrl_of e) -> frame_status (frame_call GIF_BIGE d hlen e) <> None).
Proof.
  unfold extract_step, extract_block, ctrl_step, frame_call, frame_data, frame_clrs.
  cbv zeta. cbn [ctrl_of fst snd]. intros H.
  destruct (u8 d (x_buff e) =? GIF_FHDM) eqn:Ed.
  - destruct (_GIF_LoadFrameHdr (x_buff e + 1) (x_size e - 1) sizeof_FHDR (u8 d 10)
                (u8 d (x_buff e + 1 + 8)) sizeof_GHDR) as [[[cl b] s] cp].
    cbn [fst snd] in *.
    destruct (ifrm (whdr e) + 1 >=? skip) eqn:E1.
    + destruct (cl <=? 0) eqn:E2.
      * cbn [bind] in H. split; [|intros _ _ Hc; apply Z.leb_le in E2; lia].
        apply (skip_tail _ _ _ _ eq_refl H).
      * cbn [whdr w_bptr] in H. inv_bind H. inv_bind Ha.
        destruct a0 as [[[r b2] s2] o]. rewrite Ha0. cbn [frame_status returned option_map fst].
        split; [|intros _ _ _; discriminate].
        destruct (r <? 0).
        -- injection Ha as <-. apply (skip_tail _ _ _ _ eq_refl H).
        -- injection Ha as <-. destruct (0 <? s2) eqn:E3.
           ++ injection H as <-. reflexivity.
           ++ apply (skip_tail _ _ _ _ eq_refl H).
    + cbn [bind] in H. split; [|intros _ Hk; apply Z.geb_le in Hk; congruence].
      apply (skip_tail _ _ _ _ eq_refl H).
  - split; [|intros Hd; apply Z.eqb_eq in Hd; congruence].
    destruct (u8 d (x_buff e) =? GIF_EHDM).
    + destruct (u8 d (x_buff e + 1) =? GIF_FGCM).
      * cbn [bind] in H. apply (skip_tail _ _ _ _ eq_refl H).
      * destruct ((u8 d (x_buff e + 1) =? GIF_AMDM) && amdf);
          cbn [bind] in H; apply (skip_tail _ _ _ _ eq_refl H).
    + cbn [bind] in H. apply (skip_tail _ _ _ _ eq_refl H).
Qed.

End Walk.

(** ** Skipping a frame and decoding it end at the same place *)

Lemma chain_fun (d : buffer) (p n1 n2 : Z) :
  chain d p n1 -> chain d p n2 -> n1 = n2.
Proof.
  intros H1. revert n2. induction H1 as [p Hz|p n Hnz _ IH]; intros n2 H2.
  - inversion H2; subst; [reflexivity | contradiction].
  - inversion H2 as [|p' n' Hnz' Hc]; subst; [contradiction|].
    rewrite (IH _ Hc). reflexivity.
Qed.

Lemma chain_not_exhaust (d : buffer) (p n : Z) :
  chain d p n -> forall s, n < s -> ~ exhaust d p s.
Proof.
  induction 1 as [p Hz|p n Hnz Hc IH]; intros s Hs He.
  - inversion He; subst; [lia | contradiction].
  - pose proof (chain_pos _ _ _ Hc).
    inversion He as [? ? Hle|? ? _ Hlt He']; subst; [lia|].
    apply (IH (s - (1 + u8 d p))); [lia | exact He'].
Qed.

Lemma SkipChunk_chain (d : buffer) (b s n : Z) :
  chain d (b + 1) n -> 0 < s - (1 + n) ->
  _GIF_SkipChunk d b s = Ret (1, b + 1 + n, s - (1 + n)).
Proof.
  intros Hc Hs.
  destruct (SkipChunk_spec d b s) as (r & b2 & s2 & Hr & Hv & Hx & Hok).
  pose proof (chain_pos _ _ _ Hc).
  destruct Hv as [Hv|Hv]; subst r.
  - exfalso. destruct (proj1 Hx eq_refl) as [H1|H1]; [lia|].
    apply (chain_not_exhaust _ _ _ Hc (s - 1)); [lia | exact H1].
  - destruct (Hok eq_refl) as (n' & Hn' & -> & -> & _).
    rewrite (chain_fun _ _ _ _ Hn' Hc) in *. exact Hr.
Qed.

Lemma SkipChunk_short (d : buffer) (b s : Z) :
  s <= 1 -> exists b2 s2, _GIF_SkipChunk d b s = Ret (0, b2, s2).
Proof.
  intros Hs.
  destruct (SkipChunk_spec d b s) as (r & b2 & s2 & Hr & _ & Hx & _).
  assert (r = 0) as -> by (apply Hx; auto). eauto.
Qed.

Lemma ctrl_skip_short (d : buffer) (desc b s i : Z) :
  s <= 1 -> exists b2 s2, ctrl_skip d desc (b, s, i) = (false, (b2, s2, i)).
Proof.
  intros Hs. unfold ctrl_skip. destruct (desc =? GIF_EOFM); [eauto|].
  destruct (SkipChunk_short d b s Hs) as (b2 & s2 & ->). cbn. eauto.
Qed.

Lemma frame_status_chain (GIF_BIGE : bool) (d : buffer) (hlen b s p : Z) (m : mem)
  (r b2 s2 : Z) :
  frame_status (_GIF_LoadFrame GIF_BIGE d hlen b s p m) = Some (r, b2, s2) ->
  s2 < s
  /\ (0 <= r -> exists n, chain d (b + 1) n /\ b2 = b + 1 + n /\ s2 = s - (1 + n)).
Proof.
  intros H. pose proof (LoadFrame_safe GIF_BIGE d hlen b s p m) as Hw.
  destruct (_GIF_LoadFrame GIF_BIGE d hlen b s p m) as [[[[r' b'] s'] o]| |];
    cbn in H; try discriminate.
  injection H as -> -> ->. cbn [wp] in Hw. destruct Hw as (H1 & _ & H3). auto.
Qed.

Lemma count_frames_mono (d : buffer) (gflg : Z) (fuel : nat) :
  forall bptr blen n cp desc cnt cp',
    count_frames fuel d gflg bptr blen n cp = Ret (desc, cnt, cp') -> n <= cnt.
Proof.
  induction fuel as [|fuel IH]; intros bptr blen n cp desc cnt cp' H; [discriminate|].
  cbn [count_frames] in H. cbv zeta in H.
  destruct (negb (u8 d bptr =? GIF_EOFM)); [|injection H as _ <- _; lia].
  destruct (u8 d bptr =? GIF_FHDM).
  - destruct (_GIF_LoadFrameHdr (bptr + 1) (blen - 1) sizeof_FHDR gflg
                (u8 d (bptr + 1 + 8)) cp) as [[[rclr b] s] cp1].
    destruct (rclr <=? 0); [injection H as _ <- _; lia|].
    inv_bind H. destruct a as [[ok b2] s2].
    destruct (ok =? 0); [injection H as _ <- _; lia|].
    apply IH in H. lia.
  - cbn [Z.leb] in H. inv_bind H. destruct a as [[ok b2] s2].
    destruct (ok =? 0); [injection H as _ <- _; lia|].
    apply IH in H. lia.
Qed.

(** One iteration of the counting loop, in the terms of [ctrl_step]. *)
Lemma count_frames_step (d : buffer) (fuel : nat) (buff blen n cp desc cnt cp' : Z) :
  count_frames (S fuel) d (u8 d 10) buff blen n cp = Ret (desc, cnt, cp') ->
  let c := (buff, blen, n - 1) in
  (u8 d buff = GIF_EOFM /\ cnt = n)
  \/ (u8 d buff = GIF_FHDM /\ frame_clrs d c <= 0 /\ cnt = n)
  \/ (u8 d buff = GIF_FHDM /\ 0 < frame_clrs d c
      /\ exists w b2 s2,
          ctrl_skip d GIF_FHDM (fst (frame_data d c), snd (frame_data d c), n)
          = (w, (b2, s2, n))
          /\ if w then exists cp1,
                   count_frames fuel d (u8 d 10) b2 s2 (n + 1) cp1 = Ret (desc, cnt, cp')
             else cnt = n + 1)
  \/ (u8 d buff <> GIF_EOFM /\ u8 d buff <> GIF_FHDM
      /\ exists w b2 s2,
          ctrl_skip d (u8 d buff) (buff + 1, blen - 1, n - 1) = (w, (b2, s2, n - 1))
          /\ if w then exists cp1,
                   count_frames fuel d (u8 d 10) b2 s2 n cp1 = Ret (desc, cnt, cp')
             else cnt = n).
Proof.
  intros H. cbv zeta. cbn [count_frames] in H. cbv zeta in H.
  unfold frame_clrs, frame_data, ctrl_skip.
  destruct (u8 d buff =? GIF_EOFM) eqn:Ee.
  { apply Z.eqb_eq in Ee. cbn [negb] in H. injection H as _ <- _. auto. }
  cbn [negb] in H. apply Z.eqb_neq in Ee.
  destruct (u8 d buff =? GIF_FHDM) eqn:Ef.
  - apply Z.eqb_eq in Ef. right.
    pose proof (LoadFrameHdr_rpal (buff + 1) (blen - 1) sizeof_FHDR
                  (u8 d 10) (u8 d (buff + 1 + 8)) cp sizeof_GHDR) as Hrp.
    destruct (_GIF_LoadFrameHdr (buff + 1) (blen - 1) sizeof_FHDR
                (u8 d 10) (u8 d (buff + 1 + 8)) cp) as [[[rc1 b1] s1] cp1].
    destruct (_GIF_LoadFrameHdr (buff + 1) (blen - 1) sizeof_FHDR
                (u8 d 10) (u8 d (buff + 1 + 8)) sizeof_GHDR) as [[[rc2 b2] s2] cp2].
    cbn [fst snd] in *. injection Hrp as -> -> ->.
    destruct (rc2 <=? 0) eqn:E.
    + apply Z.leb_le in E. injection H as _ <- _. left. auto.
    + apply Z.leb_gt in E. right. left. split; [exact Ef|]. split; [exact E|].
      cbn [Z.eqb GIF_FHDM GIF_EOFM Pos.eqb].
      inv_bind H. destruct a as [[ok b3] s3]. rewrite Ha.
      exists (negb (ok =? 0)), b3, s3. split; [reflexivity|].
      destruct (ok =? 0); cbn [negb]; [injection H as _ <- _; reflexivity | eauto].
  - apply Z.eqb_neq in Ef. right. right. right.
    split; [exact Ee|]. split; [exact Ef|].
    cbn [Z.leb] in H.
    inv_bind H. destruct a as [[ok b3] s3]. rewrite Ha.
    exists (negb (ok =? 0)), b3, s3. split; [reflexivity|].
    destruct (ok =? 0); cbn [negb]; [injection H as _ <- _; reflexivity | eauto].
Qed.

(** ** The extraction loop goes through no more frames than were counted *)

Ltac ctrl_inv H x e1 :=
  destruct x as [e1|e1]; unfold went_on, step_end, ctrl_of in H;
  try discriminate H; injection H as ? ? ?.

Section Simulation.

Variable GIF_BIGE : bool.
Variable d : buffer.
Variable amdf : bool.
Variable hlen : Z.

Lemma extract_le_count (skip : Z) (fuel : nat) :
  forall e fc cp desc cnt cp' e',
    skip <= ifrm (whdr e) + 1 -> -1 <= ifrm (whdr e) ->
    count_frames fc d (u8 d 10) (x_buff e) (x_size e) (ifrm (whdr e) + 1) cp
    = Ret (desc, cnt, cp') ->
    extract GIF_BIGE d amdf skip hlen fuel e = Ret e' ->
    ifrm (whdr e') + 1 <= cnt.
Proof.
  induction fuel as [|fuel IH]; intros e fc cp desc cnt cp' e' Hsk Hi Hc H;
    [discriminate|].
  cbn [extract] in H.
  match type of H with (if ?c then _ else _) = _ => destruct c end.
  2:{ injection H as <-. apply count_frames_mono in Hc. lia. }
  inv_bind H. destruct (extract_step_ctrl _ _ _ _ _ _ _ Ha) as [Hctrl Hlf].
  destruct fc as [|fc]; [discriminate|].
  apply count_frames_step in Hc. cbv zeta in Hc.
  replace (ifrm (whdr e) + 1 - 1) with (ifrm (whdr e)) in Hc by lia.
  unfold ctrl_step, ctrl_of in Hctrl. unfold ctrl_of in Hlf.
  destruct Hc as [(Hd & ->) | [(Hd & Hcl & ->)
                 | [(Hd & Hcl & w & b2 & s2 & Hs & Hw)
                   | (Hne & Hnf & w & b2 & s2 & Hs & Hw)]]].
  - rewrite Hd in Hctrl. change (GIF_EOFM =? GIF_FHDM) with false in Hctrl.
    cbv iota in Hctrl. unfold ctrl_skip in Hctrl.
    change (GIF_EOFM =? GIF_EOFM) with true in Hctrl. cbv iota in Hctrl.
    ctrl_inv Hctrl a e1. injection H as <-. lia.
  - rewrite Hd in Hctrl. change (GIF_FHDM =? GIF_FHDM) with true in Hctrl.
    cbv iota in Hctrl.
    destruct (frame_data d _) as [b s].
    apply Z.geb_le in Hsk. rewrite Hsk in Hctrl.
    apply Z.leb_le in Hcl. rewrite Hcl in Hctrl.
    destruct (ctrl_skip_short d GIF_FHDM b (- (ifrm (whdr e) + 1)) (ifrm (whdr e) + 1 - 1))
      as (b3 & s3 & Hss); [lia|].
    rewrite Hss in Hctrl. ctrl_inv Hctrl a e1. injection H as <-. lia.
  - assert (ifrm (whdr e) + 1 + 1 <= cnt) as Hcnt.
    { destruct w; [|lia]. destruct Hw as (cp1 & Hw). apply count_frames_mono in Hw. lia. }
    rewrite Hd in Hctrl. change (GIF_FHDM =? GIF_FHDM) with true in Hctrl.
    cbv iota in Hctrl.
    specialize (Hlf Hd Hsk Hcl). unfold frame_call, ctrl_of in Hctrl, Hlf.
    destruct (frame_data d _) as [b s]. cbn [fst snd] in *.
    apply Z.geb_le in Hsk. rewrite Hsk in Hctrl.
    apply Z.leb_gt in Hcl.
    rewrite Hcl in Hctrl.
    destruct (frame_status _) as [[[r b3] s3]|] eqn:Est; [|congruence].
    destruct (frame_status_chain _ _ _ _ _ _ _ _ _ _ Est) as [Hlt Hch].
    destruct (r <? 0) eqn:Er.
    + destruct (ctrl_skip_short d GIF_FHDM b3 (- (ifrm (whdr e) + 1)) (ifrm (whdr e) + 1 - 1))
        as (b4 & s4 & Hss); [lia|].
      rewrite Hss in Hctrl. ctrl_inv Hctrl a e1. injection H as <-. lia.
    + apply Z.ltb_ge in Er. destruct (Hch Er) as (n & Hn & -> & ->).
      destruct (0 <? s - (1 + n)) eqn:Es.
      * apply Z.ltb_lt in Es. ctrl_inv Hctrl a e1.
        unfold ctrl_skip in Hs. change (GIF_FHDM =? GIF_EOFM) with false in Hs.
        cbv iota in Hs. rewrite (SkipChunk_chain _ _ _ _ Hn Es) in Hs.
        change (negb (1 =? 0)) with true in Hs. injection Hs as <- <- <-.
        destruct Hw as (cp1 & Hw).
        eapply (IH e1 fc cp1 desc cnt cp' e'); try lia.
        -- rewrite H0, H1, H2. exact Hw.
        -- exact H.
      * apply Z.ltb_ge in Es.
        destruct (ctrl_skip_short d GIF_FHDM (b + 1 + n) (s - (1 + n)) (ifrm (whdr e) + 1))
          as (b4 & s4 & Hss); [lia|].
        rewrite Hss in Hctrl. ctrl_inv Hctrl a e1. injection H as <-. lia.
  - apply Z.eqb_neq in Hnf. rewrite Hnf in Hctrl. rewrite Hs in Hctrl.
    destruct w.
    + ctrl_inv Hctrl a e1. destruct Hw as (cp1 & Hw).
      eapply (IH e1 fc cp1 desc cnt cp' e'); try lia.
      * rewrite H0, H1, H2. exact Hw.
      * exact H.
    + ctrl_inv Hctrl a e1. injection H as <-. lia.
Qed.

Lemma extract_step_nfrm (skip : Z) (e : ext) (x : ext + ext) :
  extract_step GIF_BIGE d amdf skip hlen e = Ret x ->
  nfrm (whdr (step_end x)) = nfrm (whdr e)
  /\ (-1 <= ifrm (whdr e) -> -1 <= ifrm (whdr (step_end x))).
Proof.
  unfold extract_step. cbv zeta. intros H. inv_bind H. destruct a as [next e1].
  assert (nfrm (whdr e1) = nfrm (whdr e)
          /\ (-1 <= ifrm (whdr e) -> -1 <= ifrm (whdr e1))) as Hn.
  { unfold extract_block in Ha. cbv zeta in Ha.
    destruct (u8 d (x_buff e) =? GIF_FHDM).
    - destruct (_GIF_LoadFrameHdr _ _ _ _ _ _) as [[[cl b] s] cp].
      destruct (ifrm (whdr e) + 1 >=? skip).
      + destruct (cl <=? 0); [injection Ha as _ <-; cbn; (split; [reflexivity | lia])|].
        inv_bind Ha. destruct a as [[[r b2] s2] o].
        destruct (r <? 0); injection Ha as _ <-; cbn; (split; [reflexivity | lia]).
      + injection Ha as _ <-. cbn. split; [reflexivity | lia].
    - destruct (u8 d (x_buff e) =? GIF_EHDM).
      + destruct (u8 d (x_buff e + 1) =? GIF_FGCM); [injection Ha as _ <-; cbn; (split; [reflexivity | lia])|].
        destruct ((u8 d (x_buff e + 1) =? GIF_AMDM) && amdf);
          injection Ha as _ <-; cbn; (split; [reflexivity | lia]).
      + injection Ha as _ <-. cbn. split; [reflexivity | lia]. }
  destruct next; [injection H as <-; exact Hn|].
  destruct (u8 d (x_buff e) =? GIF_EOFM); [injection H as <-; exact Hn|].
  inv_bind H. destruct a as [[ok b] s].
  destruct (ok =? 0); injection H as <-; exact Hn.
Qed.

(** ** Resuming: a call with [skip = m] ends where the call with [skip = 0]
    ends, when that one went through more than [m] frames *)

Lemma resume_sim (m : Z) (fuelA : nat) :
  forall fuelB eA eB eA' eB',
    ctrl_of eA = ctrl_of eB -> nfrm (whdr eA) = nfrm (whdr eB) ->
    -1 <= ifrm (whdr eA) -> 0 <= m ->
    m < (if nfrm (whdr eB) <? 0 then - nfrm (whdr eB) else nfrm (whdr eB)) ->
    extract GIF_BIGE d amdf 0 hlen fuelA eA = Ret eA' ->
    extract GIF_BIGE d amdf m hlen fuelB eB = Ret eB' ->
    m < ifrm (whdr eA') + 1 ->
    ifrm (whdr eB') = ifrm (whdr eA').
Proof.
  induction fuelA as [|fuelA IH]; intros fuelB eA eB eA' eB' Hc Hn Hi Hm Hlt HA HB HT;
    [discriminate|].
  destruct fuelB as [|fuelB]; [discriminate|].
  cbn [extract] in HA, HB.
  assert ((0 <? (if nfrm (whdr eA) <? 0 then - nfrm (whdr eA) else nfrm (whdr eA))) = true)
    as EA by (rewrite Hn; apply Z.ltb_lt; lia).
  rewrite EA in HA. clear EA.
  pose proof Hlt as EB. apply Z.ltb_lt in EB. rewrite EB in HB. clear EB.
  inv_bind HA. rename a into xA. rename Ha into HsA.
  inv_bind HB. rename a into xB. rename Ha into HsB.
  destruct (extract_step_ctrl _ _ _ _ _ _ _ HsA) as [HcA HlA].
  destruct (extract_step_ctrl _ _ _ _ _ _ _ HsB) as [HcB HlB].
  unfold frame_call in *. rewrite <- Hc in HcB, HlB.
  destruct (extract_step_nfrm _ _ _ HsA) as [HnA HiA].
  destruct (extract_step_nfrm _ _ _ HsB) as [HnB HiB].
  assert (went_on xA = went_on xB ->
          ctrl_of (step_end xA) = ctrl_of (step_end xB) ->
          ifrm (whdr eB') = ifrm (whdr eA')) as Hsame.
  { intros H1 H2.
    destruct xA as [eA1|eA1], xB as [eB1|eB1]; cbn [went_on step_end] in *;
      try discriminate H1.
    - eapply (IH fuelB eA1 eB1); try eassumption; try congruence; auto.
      rewrite HnB. exact Hlt.
    - injection HA as <-. injection HB as <-. unfold ctrl_of in H2. congruence. }
  assert (forall b s i,
            ctrl_of (step_end xA) = (b, s, i) -> went_on xA = false ->
            i + 1 <= m -> False) as Hend.
  { intros b s i H1 H2 H3. destruct xA as [eA1|eA1]; [discriminate|].
    injection HA as <-. cbn [step_end] in H1. unfold ctrl_of in H1.
    injection H1 as _ _ H1. lia. }
  clear HA HB IH HnA HnB HiA HiB.
  assert (x_buff eB = x_buff eA /\ ifrm (whdr eB) = ifrm (whdr eA)) as [Hb Hi'].
  { unfold ctrl_of in Hc. injection Hc as -> _ ->. auto. }
  rewrite Hb, Hi' in HlB. clear Hc Hb Hi'.
  unfold ctrl_of in *.
  set (lfA := frame_status _) in HcA, HlA.
  set (lfB := frame_status _) in HcB, HlB.
  assert (forall sA sB, lfA = Some sA -> lfB = Some sB -> sA = sB) as HAB.
  { intros sA sB H1 H2. eapply LoadFrame_status; eassumption. }
  assert (forall r b2 s2, lfA = Some (r, b2, s2) -> 0 <= r ->
            exists n, chain d (fst (frame_data d (x_buff eA, x_size eA, ifrm (whdr eA))) + 1) n
                      /\ b2 = fst (frame_data d (x_buff eA, x_size eA, ifrm (whdr eA))) + 1 + n
                      /\ s2 = snd (frame_data d (x_buff eA, x_size eA, ifrm (whdr eA))) - (1 + n))
    as Hchain.
  { intros r b2 s2 H1. apply frame_status_chain in H1. apply H1. }
  clearbody lfA lfB.
  unfold ctrl_step in HcA, HcB.
  destruct (u8 d (x_buff eA) =? GIF_FHDM) eqn:Ed.
  2:{ apply Hsame; congruence. }
  apply Z.eqb_eq in Ed. specialize (HlA Ed ltac:(lia)). specialize (HlB Ed).
  destruct (frame_data d (x_buff eA, x_size eA, ifrm (whdr eA))) as [b s].
  cbn [fst snd] in Hchain.
  assert ((ifrm (whdr eA) + 1 >=? 0) = true) as E0 by (apply Z.geb_le; lia).
  rewrite E0 in HcA. clear E0.
  destruct (frame_clrs d (x_buff eA, x_size eA, ifrm (whdr eA)) <=? 0) eqn:Ecl.
  - destruct (ctrl_skip_short d (u8 d (x_buff eA)) b (- (ifrm (whdr eA) + 1))
                (ifrm (whdr eA) + 1 - 1)) as (b3 & s3 & Hss); [lia|].
    rewrite Hss in HcA.
    destruct (ifrm (whdr eA) + 1 >=? m) eqn:Em.
    + rewrite Hss in HcB. apply Hsame; congruence.
    + exfalso. apply (Hend _ _ _ (f_equal snd HcA) (f_equal fst HcA)).
      destruct (Z.geb_spec (ifrm (whdr eA) + 1) m); [discriminate | lia].
  - apply Z.leb_gt in Ecl. specialize (HlA Ecl).
    destruct lfA as [[[r b2] s2]|]; [|congruence].
    specialize (Hchain r b2 s2 eq_refl).
    destruct (r <? 0) eqn:Er.
    + destruct (ctrl_skip_short d (u8 d (x_buff eA)) b2 (- (ifrm (whdr eA) + 1))
                  (ifrm (whdr eA) + 1 - 1)) as (b3 & s3 & Hss); [lia|].
      rewrite Hss in HcA.
      destruct (ifrm (whdr eA) + 1 >=? m) eqn:Em.
      * apply Z.geb_le in Em. specialize (HlB Em Ecl).
        destruct lfB as [sB|]; [|congruence].
        rewrite <- (HAB _ _ eq_refl eq_refl) in HcB. rewrite Er, Hss in HcB.
        apply Hsame; congruence.
      * exfalso. apply (Hend _ _ _ (f_equal snd HcA) (f_equal fst HcA)).
        destruct (Z.geb_spec (ifrm (whdr eA) + 1) m); [discriminate | lia].
    + apply Z.ltb_ge in Er. destruct (Hchain Er) as (n & Hch & -> & ->).
      destruct (0 <? s - (1 + n)) eqn:Es.
      * destruct (ifrm (whdr eA) + 1 >=? m) eqn:Em.
        -- apply Z.geb_le in Em. specialize (HlB Em Ecl).
           destruct lfB as [sB|]; [|congruence].
           rewrite <- (HAB _ _ eq_refl eq_refl) in HcB.
           apply Z.ltb_ge in Er. rewrite Er, Es in HcB.
           apply Hsame; congruence.
        -- apply Z.ltb_lt in Es. unfold ctrl_skip in HcB.
           rewrite Ed in HcB. change (GIF_FHDM =? GIF_EOFM) with false in HcB.
           cbv iota in HcB. rewrite (SkipChunk_chain _ _ _ _ Hch Es) in HcB.
           change (negb (1 =? 0)) with true in HcB.
           apply Hsame; congruence.
      * destruct (ctrl_skip_short d (u8 d (x_buff eA)) (b + 1 + n) (s - (1 + n))
                    (ifrm (whdr eA) + 1)) as (b3 & s3 & Hss);
          [apply Z.ltb_ge in Es; lia|].
        rewrite Hss in HcA.
        destruct (ifrm (whdr eA) + 1 >=? m) eqn:Em.
        -- apply Z.geb_le in Em. specialize (HlB Em Ecl).
           destruct lfB as [sB|]; [|congruence].
           rewrite <- (HAB _ _ eq_refl eq_refl) in HcB.
           apply Z.ltb_ge in Er. rewrite Er, Es, Hss in HcB.
           apply Hsame; congruence.
        -- exfalso. apply (Hend _ _ _ (f_equal snd HcA) (f_equal fst HcA)).
           destruct (Z.geb_spec (ifrm (whdr eA) + 1) m); [discriminate | lia].
Qed.

End Simulation.

(** ** Resuming a call (C3) *)

Lemma GIF_Load_Ret_inv (GIF_BIGE : bool) (d : buffer) (size : Z) (amdf : bool)
  (skip : Z) (m0 : mem) (r : Z) (tr : list event) :
  GIF_Load GIF_BIGE d size amdf skip m0 = Ret (r, tr) ->
  (r = 0 /\ tr = []
   /\ (signature_ok d size = false \/ skip < 0 \/ size <= first_block d))
  \/ exists desc cnt cpal e',
      signature_ok d size = true /\ 0 <= skip /\ first_block d < size
      /\ counting d size = Ret (desc, cnt, cpal)
      /\ extract GIF_BIGE d amdf skip (load_blen GIF_BIGE d)
           (Z.to_nat (size - first_block d) + 1)
           (load_start GIF_BIGE d size (counted_nfrm desc cnt) cpal m0) = Ret e'
      /\ r = load_result skip (counted_nfrm desc cnt) e'
      /\ tr = trace e' ++ [MGET (load_blen GIF_BIGE d) 0].
Proof.
  unfold GIF_Load. intros H.
  destruct (signature_ok d size) eqn:Es; cbn [negb orb] in H.
  2:{ injection H as <- <-. left. auto. }
  destruct (skip <? 0) eqn:Ek.
  { apply Z.ltb_lt in Ek. injection H as <- <-. left. auto. }
  apply Z.ltb_ge in Ek. cbv zeta in H.
  destruct (size - first_block d <=? 0) eqn:Ez.
  { apply Z.leb_le in Ez. injection H as <- <-. left.
    split; [reflexivity|]. split; [reflexivity|]. right. right. lia. }
  apply Z.leb_gt in Ez. inv_bind H. destruct a as [[desc cnt] cpal].
  inv_bind H. injection H as <- <-. right.
  exists desc, cnt, cpal, a. repeat split; try assumption; try lia; reflexivity.
Qed.

Lemma extract_sink (GIF_BIGE : bool) (d : buffer) (amdf : bool) (skip hlen : Z)
  (fuel : nat) (e e' : ext) :
  0 < x_size e -> -1 <= ifrm (whdr e) -> (Z.to_nat (x_size e) < fuel)%nat ->
  sink_calls (trace e) = Z.max 0 (ifrm (whdr e) + 1 - skip) ->
  extract GIF_BIGE d amdf skip hlen fuel e = Ret e' ->
  -1 <= ifrm (whdr e')
  /\ sink_calls (trace e') = Z.max 0 (ifrm (whdr e') + 1 - skip).
Proof.
  intros Hs Hi Hf H0 H.
  pose proof (extract_inv GIF_BIGE d amdf skip hlen
                (fun e => -1 <= ifrm (whdr e)
                          /\ sink_calls (trace e) = Z.max 0 (ifrm (whdr e) + 1 - skip)))
    as Hinv.
  assert (wp any_fault (extract GIF_BIGE d amdf skip hlen fuel e)
            (fun e' => (-1 <= ifrm (whdr e')
                        /\ sink_calls (trace e') = Z.max 0 (ifrm (whdr e') + 1 - skip))
                       /\ nfrm (whdr e') = nfrm (whdr e))) as Hw.
  { apply Hinv; auto.
    intros e0 e1 [Hi0 Hs0] (_ & _ & Hi1 & Hstep). split; [exact Hi1|].
    exact (trace_step_sink GIF_BIGE d skip e0 e1 Hi0 Hs0 Hstep). }
  rewrite H in Hw. cbn [wp] in Hw. apply Hw.
Qed.

(** C3, as the code has it: if the call on the [k]-byte prefix with
    [skip = 0] returns [-m] with [m > 0], and the call on the whole buffer
    with [skip = 0] returns a total [T] larger than [m], then the call on the
    whole buffer with [skip = m], if it returns, returns [T] and has called
    the frame writer [T - m] times. *)
Theorem GIF_Load_resume (GIF_BIGE : bool) (buf : buffer) (size : Z) (amdf : bool)
  (k m T : Z) (m0 m1 m2 : mem) (trk tr0 tr : list event) (r : Z) :
  GIF_Load GIF_BIGE (firstn (Z.to_nat k) buf) k amdf 0 m2 = Ret (- m, trk) ->
  0 < m ->
  GIF_Load GIF_BIGE buf size amdf 0 m0 = Ret (T, tr0) ->
  m < T ->
  GIF_Load GIF_BIGE buf size amdf m m1 = Ret (r, tr) ->
  r = T /\ sink_calls tr = T - m.
Proof.
  intros _ Hm HA HT HB.
  apply GIF_Load_Ret_inv in HA.
  destruct HA as [(-> & _)|(desc & cnt & cpal & eA & Hsig & _ & Hsz & Hcnt & HeA & -> & _)];
    [lia|].
  apply GIF_Load_Ret_inv in HB.
  destruct HB as [(_ & _ & [H|[H|H]])|(desc' & cnt' & cpal' & eB & _ & _ & _ & Hcnt' & HeB & -> & ->)];
    [congruence | lia | lia |].
  rewrite Hcnt in Hcnt'. injection Hcnt' as <- <- <-.
  assert (-1 <= ifrm (whdr eA)) as HiA.
  { eapply extract_sink in HeA; [apply HeA | | | |];
      [cbn [load_start x_size]; lia | cbn; lia | cbn [load_start x_size]; lia | cbn; lia]. }
  assert (sink_calls (trace eB) = Z.max 0 (ifrm (whdr eB) + 1 - m)) as HsB.
  { eapply extract_sink in HeB; [apply HeB | | | |];
      [cbn [load_start x_size]; lia | cbn; lia | cbn [load_start x_size]; lia | cbn; lia]. }
  assert (ifrm (whdr eA) + 1 <= cnt) as Hle.
  { eapply (extract_le_count GIF_BIGE buf amdf (load_blen GIF_BIGE buf) 0 _
              (load_start GIF_BIGE buf size (counted_nfrm desc cnt) cpal m0));
      [| |exact Hcnt|exact HeA]; cbn; lia. }
  unfold load_result in *.
  assert (counted_nfrm desc cnt = cnt) as Hn.
  { unfold counted_nfrm in *. destruct (desc =? GIF_EOFM); [reflexivity|].
    destruct (Z.ltb_spec (- cnt) 0); lia. }
  rewrite Hn in *.
  assert ((cnt <? 0) = false) as E by (apply Z.ltb_ge; lia). rewrite E in *.
  assert (ifrm (whdr eB) = ifrm (whdr eA)) as Heq.
  { eapply (resume_sim GIF_BIGE buf amdf (load_blen GIF_BIGE buf) m _ _
              (load_start GIF_BIGE buf size cnt cpal m0)
              (load_start GIF_BIGE buf size cnt cpal m1));
      [| | | | |exact HeA|exact HeB|]; try reflexivity; try lia.
    cbn [load_start whdr nfrm]. rewrite E. lia. }
  split; [lia|].
  rewrite sink_calls_app, HsB, Heq. cbn. lia.
Qed.

(** ** Bytes and words of the block *)

Lemma load8_store8 (m : mem) (a v a' : Z) :
  load8 (store8 m a v) a' = if a' =? a then uint8_t v else load8 m a'.
Proof.
  unfold load8, store8. destruct (a' =? a); [|reflexivity].
  unfold uint8_t. apply Z.mod_mod. lia.
Qed.

Lemma load8_range (m : mem) (a : Z) : 0 <= load8 m a < 256.
Proof. unfold load8, uint8_t. apply Z.mod_pos_bound. lia. Qed.

Lemma word_bytes (v : Z) :
  0 <= v < 2 ^ 32 ->
  v = v mod 256 + 256 * ((v / 2 ^ 8) mod 256
      + 256 * ((v / 2 ^ 16) mod 256 + 256 * ((v / 2 ^ 24) mod 256))).
Proof.
  intros Hv.
  change (2 ^ 32) with 4294967296 in Hv. change (2 ^ 8) with 256.
  change (2 ^ 16) with (256 * 256). change (2 ^ 24) with (256 * 256 * 256).
  rewrite <- !Z.div_div by lia.
  pose proof (Z.div_mod v 256 ltac:(lia)).
  pose proof (Z.div_mod (v / 256) 256 ltac:(lia)).
  pose proof (Z.div_mod (v / 256 / 256) 256 ltac:(lia)).
  pose proof (Z.mod_pos_bound v 256 ltac:(lia)).
  pose proof (Z.mod_pos_bound (v / 256) 256 ltac:(lia)).
  pose proof (Z.mod_pos_bound (v / 256 / 256) 256 ltac:(lia)).
  assert (v / 256 / 256 / 256 < 256).
  { apply Z.div_lt_upper_bound; [lia|]. apply Z.div_lt_upper_bound; [lia|].
    apply Z.div_lt_upper_bound; lia. }
  assert (0 <= v / 256 / 256 / 256) by (repeat apply Z.div_pos; lia).
  rewrite (Z.mod_small (v / 256 / 256 / 256) 256) by lia. lia.
Qed.

Section Words.

Variable GIF_BIGE : bool.

Lemma load32_store32 (m : mem) (a v : Z) :
  0 <= v < 2 ^ 32 -> load32 GIF_BIGE (store32 GIF_BIGE m a v) a = v.
Proof.
  intros Hv. pose proof (word_bytes v Hv) as Hw.
  unfold load32, store32. destruct GIF_BIGE;
    rewrite !load8_store8;
    repeat match goal with
      | |- context [?x =? ?y] =>
          first [ replace (x =? y) with true by (symmetry; apply Z.eqb_eq; lia)
                | replace (x =? y) with false by (symmetry; apply Z.eqb_neq; lia) ]
      end;
    unfold uint8_t; rewrite !Z.shiftr_div_pow2 by lia; lia.
Qed.

Lemma load32_store32_other (m : mem) (a v a' : Z) :
  a' + 4 <= a \/ a + 4 <= a' ->
  load32 GIF_BIGE (store32 GIF_BIGE m a v) a' = load32 GIF_BIGE m a'.
Proof.
  intros Ha. unfold load32, store32. destruct GIF_BIGE;
    rewrite !load8_store8;
    repeat match goal with
      | |- context [?x =? ?y] =>
          replace (x =? y) with false by (symmetry; apply Z.eqb_neq; lia)
      end; reflexivity.
Qed.

Lemma load32_agree (m m' : mem) (a : Z) :
  (forall x, a <= x < a + 4 -> m' x = m x) ->
  load32 GIF_BIGE m' a = load32 GIF_BIGE m a.
Proof.
  intros H. unfold load32, load8.
  rewrite (H a), (H (a + 1)), (H (a + 2)), (H (a + 3)) by lia. reflexivity.
Qed.

Lemma store32_below (m : mem) (a v x : Z) :
  x < a \/ a + 4 <= x -> store32 GIF_BIGE m a v x = m x.
Proof.
  intros H. unfold store32, store8. destruct GIF_BIGE;
    repeat match goal with
      | |- context [?p =? ?q] =>
          replace (p =? q) with false by (symmetry; apply Z.eqb_neq; lia)
      end; reflexivity.
Qed.

End Words.

(** ** The fields of a cell *)

Lemma entry_range (t l p : Z) :
  0 <= t < 256 -> 0 <= l < 4096 -> 0 <= p < 4096 -> 0 <= entry t l p < 2 ^ 32.
Proof.
  unfold entry. change (2 ^ 24) with 16777216. change (2 ^ 12) with 4096.
  change (2 ^ 32) with 4294967296. lia.
Qed.

Lemma entry_top (t l p : Z) :
  0 <= t < 256 -> 0 <= l < 4096 -> 0 <= p < 4096 ->
  uint8_t (Z.shiftr (entry t l p) 24) = t.
Proof.
  intros Ht Hl Hp. rewrite Z.shiftr_div_pow2 by lia. unfold entry, uint8_t.
  change (2 ^ 24) with 16777216. change (2 ^ 12) with 4096.
  replace ((t * 16777216 + l * 4096 + p) / 16777216) with t
    by (apply Z.div_unique with (r := l * 4096 + p); lia).
  apply Z.mod_small. lia.
Qed.

Lemma entry_len (t l p : Z) :
  0 <= t < 256 -> 0 <= l < 4096 -> 0 <= p < 4096 -> elen (entry t l p) = l.
Proof.
  intros Ht Hl Hp. unfold elen. rewrite Z.shiftr_div_pow2 by lia.
  change 0xFFF with (Z.ones 12). rewrite Z.land_ones by lia. unfold entry.
  change (2 ^ 24) with (4096 * 2 ^ 12).
  replace ((t * (4096 * 2 ^ 12) + l * 2 ^ 12 + p) / 2 ^ 12) with (t * 4096 + l)
    by (apply Z.div_unique with (r := p); change (2 ^ 12) with 4096; lia).
  change (2 ^ 12) with 4096.
  symmetry. apply Z.mod_unique with (q := t); lia.
Qed.

Lemma entry_pre (t l p : Z) :
  0 <= t < 256 -> 0 <= l < 4096 -> 0 <= p < 4096 ->
  Z.land (entry t l p) 0xFFF = p.
Proof.
  intros Ht Hl Hp. change 0xFFF with (Z.ones 12). rewrite Z.land_ones by lia.
  unfold entry. change (2 ^ 24) with (4096 * 4096). change (2 ^ 12) with 4096.
  symmetry. apply Z.mod_unique with (q := t * 4096 + l); lia.
Qed.

(** The bits [n .. n+k-1] of a word, left in place. *)
Lemma land_field (e n k : Z) :
  0 <= n -> 0 <= k ->
  Z.land e (Z.shiftl (Z.ones k) n) = Z.shiftl (Z.land (Z.shiftr e n) (Z.ones k)) n.
Proof.
  intros Hn Hk. apply Z.bits_inj'. intros i Hi.
  rewrite Z.land_spec.
  destruct (Z.ltb_spec i n).
  - rewrite !Z.shiftl_spec_low by lia. apply andb_false_r.
  - rewrite !Z.shiftl_spec_high by lia.
    rewrite Z.land_spec, Z.shiftr_spec by lia.
    replace (i - n + n) with i by lia. reflexivity.
Qed.

Lemma entry_len_field (t l p : Z) :
  0 <= t < 256 -> 0 <= l < 4096 -> 0 <= p < 4096 ->
  Z.land (entry t l p) 0xFFF000 = l * 2 ^ 12.
Proof.
  intros Ht Hl Hp. change 0xFFF000 with (Z.shiftl (Z.ones 12) 12).
  rewrite land_field by lia. change (Z.ones 12) with 0xFFF.
  fold (elen (entry t l p)). rewrite entry_len by assumption.
  apply Z.shiftl_mul_pow2. lia.
Qed.

Lemma entry_top_field (t l p : Z) :
  0 <= t < 256 -> 0 <= l < 4096 -> 0 <= p < 4096 ->
  Z.land (entry t l p) 0xFF000000 = t * 2 ^ 24.
Proof.
  intros Ht Hl Hp. change 0xFF000000 with (Z.shiftl (Z.ones 8) 24).
  rewrite land_field by lia. change (Z.ones 8) with 255.
  pose proof (entry_top t l p Ht Hl Hp) as H. unfold uint8_t in H.
  change 255 with (Z.ones 8). rewrite Z.land_ones by lia. change (2 ^ 8) with 256.
  rewrite H. apply Z.shiftl_mul_pow2. lia.
Qed.

Lemma lor_top (a t : Z) :
  0 <= a < 2 ^ 24 -> 0 <= t -> Z.lor a (t * 2 ^ 24) = a + t * 2 ^ 24.
Proof.
  intros Ha Ht.
  enough (Z.land a (t * 2 ^ 24) = 0) as H
      by (pose proof (Z.add_lor_land a (t * 2 ^ 24)); lia).
  apply Z.bits_inj'. intros i Hi. rewrite Z.land_spec, Z.bits_0.
  rewrite <- Z.shiftl_mul_pow2 by lia.
  destruct (Z.ltb_spec i 24).
  - rewrite Z.shiftl_spec_low by lia. apply andb_false_r.
  - replace a with (a mod 2 ^ 24) by (apply Z.mod_small; lia).
    rewrite Z.mod_pow2_bits_high by lia. reflexivity.
Qed.

(** ** Strings of well-built cells *)

Ltac bind_as H a Ha :=
  apply bind_Ret in H; destruct H as (a & Ha & H).

Section TableProofs.

Variable GIF_BIGE : bool.
Variable d : buffer.
Variable hlen : Z.
Variable code : Z.
Variable ctsz : Z.
Hypothesis Hctsz : 2 <= ctsz <= 8.

Let pow_ctsz : 4 <= 2 ^ ctsz <= 256.
Proof.
  split.
  - change 4 with (2 ^ 2). apply Z.pow_le_mono_r; lia.
  - change 256 with (2 ^ 8). apply Z.pow_le_mono_r; lia.
Qed.

Lemma cell_agree (m m' : mem) (i : Z) :
  0 <= i < GIF_CLEN ->
  (forall a, a < code + GIF_BLEN -> m' a = m a) ->
  cell GIF_BIGE code m' i = cell GIF_BIGE code m i.
Proof.
  intros Hi H. unfold cell. apply load32_agree. intros x Hx. apply H.
  unfold GIF_CLEN, GIF_BLEN in *. lia.
Qed.

Lemma defined_range (n i : Z) : n <= 4095 -> defined ctsz n i -> 0 <= i < GIF_CLEN.
Proof. unfold defined, GIF_CLEN. lia. Qed.

Lemma lits_agree (m m' : mem) :
  (forall a, a < code + GIF_BLEN -> m' a = m a) ->
  lits_ok GIF_BIGE code ctsz m -> lits_ok GIF_BIGE code ctsz m'.
Proof.
  intros H Hl i Hi. rewrite (cell_agree m m' i); [apply Hl; exact Hi | | exact H].
  unfold GIF_CLEN. lia.
Qed.

Lemma users_agree (m m' : mem) (n : Z) :
  n <= 4095 ->
  (forall a, a < code + GIF_BLEN -> m' a = m a) ->
  users_ok GIF_BIGE code ctsz m n -> users_ok GIF_BIGE code ctsz m' n.
Proof.
  intros Hn H Hu i Hi. destruct (Hu i Hi) as (t & p & Hc & Ht & Hp & Hl).
  assert (0 <= p < GIF_CLEN) as Hpr by (apply (defined_range (i - 1)); [lia | exact Hp]).
  exists t, p. rewrite (cell_agree m m' i), (cell_agree m m' p); auto.
  unfold GIF_CLEN. lia.
Qed.

(** The length field of a defined code: 0 for a single index, at least 1
    and bounded by the code otherwise. *)
Lemma elen_defined (m : mem) (n i : Z) :
  n <= 4095 ->
  lits_ok GIF_BIGE code ctsz m -> users_ok GIF_BIGE code ctsz m n ->
  defined ctsz n i ->
  (i < 2 ^ ctsz -> elen (cell GIF_BIGE code m i) = 0)
  /\ (2 ^ ctsz <= i -> 1 <= elen (cell GIF_BIGE code m i) <= i - 2 ^ ctsz - 1).
Proof.
  intros Hn Hl Hu. revert i.
  enough (forall k, 0 <= k -> forall i, i <= k -> defined ctsz n i ->
            (i < 2 ^ ctsz -> elen (cell GIF_BIGE code m i) = 0)
            /\ (2 ^ ctsz <= i -> 1 <= elen (cell GIF_BIGE code m i) <= i - 2 ^ ctsz - 1))
    as H by (intros i Hi; apply (H (Z.max 0 i)); [lia | lia | exact Hi]).
  intros k Hk. pattern k. apply natlike_ind; [| |exact Hk]; clear k Hk.
  - intros i Hi [Hd|Hd]; [|lia].
    split; [|lia]. intros _. rewrite (Hl i Hd). apply entry_len; lia.
  - intros k Hk IH i Hi Hd. destruct Hd as [Hd|Hd].
    + split; [|lia]. intros _. rewrite (Hl i Hd). apply entry_len; lia.
    + split; [lia|]. intros _.
      destruct (Hu i Hd) as (t & p & Hc & Ht & Hp & Hb).
      assert (defined ctsz n p) as Hp' by (unfold defined in *; lia).
      assert (p <= k) as Hpk by (unfold defined in Hp; lia).
      destruct (IH p Hpk Hp') as [H1 H2].
      assert (0 <= elen (cell GIF_BIGE code m p)) as H0.
      { destruct (Z.lt_ge_cases p (2 ^ ctsz)); [rewrite H1 by lia; lia|].
        specialize (H2 ltac:(lia)). lia. }
      rewrite Hc, entry_len; unfold defined in Hp; lia.
Qed.

Lemma code_get_cell (o : out) (i : Z) :
  0 <= i < GIF_CLEN ->
  code_get GIF_BIGE code o i = Ret (cell GIF_BIGE code (heap o) i).
Proof. intros H. rewrite code_get_ok by exact H. reflexivity. Qed.

(** Inflating a defined code writes its string at the cursor, backwards,
    with indices below [2 ^ ctsz], and leaves the table alone. *)
Lemma expand_ok (n : Z) (fuel : nat) :
  n <= 4095 ->
  forall iter o q h o',
    lits_ok GIF_BIGE code ctsz (heap o) -> users_ok GIF_BIGE code ctsz (heap o) n ->
    defined ctsz n iter ->
    bptr o = q + elen (cell GIF_BIGE code (heap o) iter) ->
    code + GIF_BLEN <= q -> wlog_ok ctsz o ->
    expand GIF_BIGE hlen code fuel iter o = Ret (h, o') ->
    bptr o' = q - 1 /\ 0 <= h < 2 ^ ctsz
    /\ (forall a, a < code + GIF_BLEN -> heap o' a = heap o a)
    /\ wlog_ok ctsz o'.
Proof.
  intros Hn. induction fuel as [|fuel IH]; intros iter o q h o' Hl Hu Hd Hb Hq Hw H;
    [discriminate|].
  pose proof (defined_range n iter Hn Hd) as Hr.
  destruct (elen_defined (heap o) n iter Hn Hl Hu Hd) as [Hlit Husr].
  cbn [expand] in H. rewrite (code_get_cell o iter Hr) in H. cbn [bind] in H.
  unfold put_pixel in H.
  destruct ((0 <=? bptr o) && (bptr o <? hlen)); [|discriminate].
  cbn [bind] in H. unfold move in H. cbn [bptr heap wlog] in H.
  set (c := cell GIF_BIGE code (heap o) iter) in *.
  set (o1 := mkOut (bptr o + -1) _ _) in H.
  assert (forall a, a < code + GIF_BLEN -> heap o1 a = heap o a) as Hag.
  { intros a Ha. cbn [o1 heap]. unfold store8.
    assert (0 <= elen c) by (destruct (Z.lt_ge_cases iter (2 ^ ctsz)); [rewrite Hlit by lia; lia | specialize (Husr ltac:(lia)); lia]).
    replace (a =? bptr o) with false by (symmetry; apply Z.eqb_neq; lia). reflexivity. }
  assert (0 <= uint8_t (Z.shiftr c 24) < 2 ^ ctsz) as Htop.
  { destruct Hd as [Hd|Hd].
    - unfold c. rewrite (Hl iter Hd), entry_top; lia.
    - destruct (Hu iter Hd) as (t & p & Hc & Ht & Hp & Hlen).
      pose proof (defined_range (iter - 1) p ltac:(lia) Hp) as Hpr.
      destruct (elen_defined (heap o) n p Hn Hl Hu ltac:(unfold defined in *; lia)) as [H1 H2].
      assert (0 <= elen (cell GIF_BIGE code (heap o) p)) as H0.
      { destruct (Z.lt_ge_cases p (2 ^ ctsz)); [rewrite H1 by lia; lia|].
        specialize (H2 ltac:(lia)). lia. }
      unfold c. rewrite Hc, entry_top; unfold GIF_CLEN in *; lia. }
  assert (wlog_ok ctsz o1) as Hw1.
  { unfold wlog_ok. cbn [o1 wlog]. constructor; [|exact Hw].
    cbn [snd].
    replace (uint8_t (uint8_t (Z.shiftr c 24))) with (uint8_t (Z.shiftr c 24))
      by (unfold uint8_t; rewrite Z.mod_mod; lia).
    exact Htop. }
  rewrite (code_get_cell o1 iter Hr) in H. cbn [bind] in H.
  rewrite (cell_agree (heap o) (heap o1) iter Hr Hag) in H. fold c in H.
  destruct Hd as [Hd|Hd].
  - assert (Z.land c 0xFFF000 = 0) as Hz.
    { unfold c. rewrite (Hl iter Hd), entry_len_field; lia. }
    rewrite Hz in H. cbn [Z.eqb] in H. injection H as <- <-.
    cbn [o1 bptr]. rewrite Hlit in Hb by lia.
    split; [lia|]. split; [exact Hd|]. split; [exact Hag | exact Hw1].
  - destruct (Hu iter Hd) as (t & p & Hc & Ht & Hp & Hlen).
    pose proof (defined_range (iter - 1) p ltac:(lia) Hp) as Hpr.
    assert (defined ctsz n p) as Hp' by (unfold defined in *; lia).
    destruct (elen_defined (heap o) n p Hn Hl Hu Hp') as [H1 H2].
    assert (0 <= elen (cell GIF_BIGE code (heap o) p)) as H0.
    { destruct (Z.lt_ge_cases p (2 ^ ctsz)); [rewrite H1 by lia; lia|].
      specialize (H2 ltac:(lia)). lia. }
    assert (Z.land c 0xFFF000 = (elen (cell GIF_BIGE code (heap o) p) + 1) * 2 ^ 12) as Hf.
    { unfold c. rewrite Hc, entry_len_field; unfold GIF_CLEN in *; lia. }
    assert (Z.land c 0xFFF = p) as Hpre.
    { unfold c. rewrite Hc, entry_pre; unfold GIF_CLEN in *; lia. }
    assert (elen c = elen (cell GIF_BIGE code (heap o) p) + 1) as Hel.
    { unfold c. rewrite Hc, entry_len; unfold GIF_CLEN in *; lia. }
    replace (Z.land c 0xFFF000 =? 0) with false in H
      by (symmetry; apply Z.eqb_neq; rewrite Hf; change (2 ^ 12) with 4096; lia).
    rewrite Hpre in H.
    destruct (IH p o1 q h o') as (Hb' & Hh & Hag' & Hw'); try assumption.
    + apply (lits_agree (heap o)); assumption.
    + apply (users_agree (heap o)); assumption.
    + cbn [o1 bptr]. rewrite (cell_agree (heap o) (heap o1) p Hpr Hag).
      fold c in Hb. lia.
    + split; [exact Hb'|]. split; [exact Hh|]. split; [|exact Hw'].
      intros a Ha. rewrite Hag' by exact Ha. apply Hag. exact Ha.
Qed.

Lemma code_get_Ret (o : out) (i c : Z) :
  code_get GIF_BIGE code o i = Ret c ->
  0 <= i < GIF_CLEN /\ c = cell GIF_BIGE code (heap o) i.
Proof.
  unfold code_get. destruct (0 <=? i) eqn:E1; [|discriminate].
  destruct (i <? GIF_CLEN) eqn:E2; [|discriminate]. cbn [andb].
  intros H. injection H as <-. apply Z.leb_le in E1. apply Z.ltb_lt in E2.
  split; [lia | reflexivity].
Qed.

Lemma code_set_Ret (o o' : out) (i v : Z) :
  code_set GIF_BIGE code o i v = Ret o' ->
  0 <= i < GIF_CLEN
  /\ o' = mkOut (bptr o) (store32 GIF_BIGE (heap o) (code + 4 * i) (uint32_t v)) (wlog o).
Proof.
  unfold code_set. destruct (0 <=? i) eqn:E1; [|discriminate].
  destruct (i <? GIF_CLEN) eqn:E2; [|discriminate]. cbn [andb].
  intros H. injection H as <-. apply Z.leb_le in E1. apply Z.ltb_lt in E2.
  split; [lia | reflexivity].
Qed.

Lemma put_pixel_Ret (o o' : out) (v : Z) :
  put_pixel hlen o v = Ret o' ->
  o' = mkOut (bptr o) (store8 (heap o) (bptr o) v) ((bptr o, uint8_t v) :: wlog o).
Proof.
  unfold put_pixel. destruct ((0 <=? bptr o) && (bptr o <? hlen)); [|discriminate].
  intros H. injection H as <-. reflexivity.
Qed.

Lemma cell_store_same (m : mem) (i v : Z) :
  0 <= v < 2 ^ 32 ->
  cell GIF_BIGE code (store32 GIF_BIGE m (code + 4 * i) v) i = v.
Proof. intros H. unfold cell. apply load32_store32. exact H. Qed.

Lemma cell_store_other (m : mem) (i j v : Z) :
  i <> j ->
  cell GIF_BIGE code (store32 GIF_BIGE m (code + 4 * i) v) j = cell GIF_BIGE code m j.
Proof. intros H. unfold cell. apply load32_store32_other. lia. Qed.

Lemma lits_store (m : mem) (n v : Z) :
  2 ^ ctsz <= n -> lits_ok GIF_BIGE code ctsz m ->
  lits_ok GIF_BIGE code ctsz (store32 GIF_BIGE m (code + 4 * n) v).
Proof.
  intros Hn Hl i Hi. rewrite cell_store_other by lia. apply Hl. exact Hi.
Qed.

Lemma users_store_above (m : mem) (n n' v : Z) :
  n < n' -> users_ok GIF_BIGE code ctsz m n ->
  users_ok GIF_BIGE code ctsz (store32 GIF_BIGE m (code + 4 * n') v) n.
Proof.
  intros Hn Hu i Hi. destruct (Hu i Hi) as (t & p & Hc & Ht & Hp & Hl).
  exists t, p. rewrite !cell_store_other by (unfold defined in Hp; lia). auto.
Qed.

Lemma users_shrink (m : mem) (n n' : Z) :
  n' <= n -> users_ok GIF_BIGE code ctsz m n -> users_ok GIF_BIGE code ctsz m n'.
Proof. intros Hn Hu i Hi. apply Hu. lia. Qed.

(** Making the cell of the next code from a defined prefix. *)
Lemma users_store (m : mem) (n t p : Z) :
  2 ^ ctsz + 2 <= n <= 4095 ->
  lits_ok GIF_BIGE code ctsz m -> users_ok GIF_BIGE code ctsz m (n - 1) ->
  0 <= t < 2 ^ ctsz -> defined ctsz (n - 1) p ->
  users_ok GIF_BIGE code ctsz
    (store32 GIF_BIGE m (code + 4 * n)
       (entry t (elen (cell GIF_BIGE code m p) + 1) p)) n.
Proof.
  intros Hn Hl Hu Ht Hp i Hi.
  destruct (elen_defined m (n - 1) p ltac:(lia) Hl Hu Hp) as [H1 H2].
  assert (0 <= elen (cell GIF_BIGE code m p) <= n - 2 ^ ctsz - 2) as Hb.
  { unfold defined in Hp. destruct (Z.lt_ge_cases p (2 ^ ctsz)); [rewrite H1 by lia; lia|].
    specialize (H2 ltac:(lia)). lia. }
  destruct (Z.eq_dec i n) as [->|Hne].
  - exists t, p. rewrite cell_store_same, cell_store_other.
    + repeat split; try lia. exact Hp.
    + unfold defined in Hp. lia.
    + apply entry_range; unfold defined in Hp; lia.
  - destruct (users_store_above m (n - 1) n
                (entry t (elen (cell GIF_BIGE code m p) + 1) p) ltac:(lia) Hu i ltac:(lia))
      as (t' & p' & H'). exists t', p'. exact H'.
Qed.

(** A defined code has a cell with fields in range. *)
Lemma cell_defined (m : mem) (n i : Z) :
  n <= 4095 ->
  lits_ok GIF_BIGE code ctsz m -> users_ok GIF_BIGE code ctsz m n ->
  defined ctsz n i ->
  exists t p,
    cell GIF_BIGE code m i = entry t (elen (cell GIF_BIGE code m i)) p
    /\ 0 <= t < 2 ^ ctsz /\ 0 <= p < GIF_CLEN
    /\ 0 <= elen (cell GIF_BIGE code m i) <= Z.max 0 (i - 2 ^ ctsz - 1).
Proof.
  intros Hn Hl Hu Hd.
  destruct (elen_defined m n i Hn Hl Hu Hd) as [H1 H2].
  destruct Hd as [Hd|Hd].
  - exists i, 0. rewrite H1 by lia. rewrite (Hl i Hd).
    unfold GIF_CLEN. repeat split; lia.
  - destruct (Hu i Hd) as (t & p & Hc & Ht & Hp & Hb).
    specialize (H2 ltac:(lia)).
    pose proof (defined_range (i - 1) p ltac:(lia) Hp).
    exists t, p. split; [|repeat split; lia].
    rewrite Hc at 1. f_equal. rewrite Hc in H2 |- *.
    destruct (elen_defined m n p Hn Hl Hu ltac:(unfold defined in *; lia)) as [H3 H4].
    assert (0 <= elen (cell GIF_BIGE code m p)) as H0.
    { destruct (Z.lt_ge_cases p (2 ^ ctsz)); [rewrite H3 by lia; lia|].
      specialize (H4 ltac:(lia)). lia. }
    rewrite entry_len; unfold GIF_CLEN in *; lia.
Qed.

(** The first half of a table entry: prefix and length. *)
Lemma make_cell_ok (r : regs) (o o1 : out) (cp : Z) :
  lits_ok GIF_BIGE code ctsz (heap o) ->
  users_ok GIF_BIGE code ctsz (heap o) (Z.min (ctbl r) 4095) ->
  2 ^ ctsz <= ctbl r ->
  ctbl r = 2 ^ ctsz \/ defined ctsz (Z.min (ctbl r) 4095) (prev r) ->
  ctbl r + 1 < GIF_CLEN ->
  code_get GIF_BIGE code o (prev r) = Ret cp ->
  code_set GIF_BIGE code o (ctbl r + 1)
    (uint32_t (prev r) + 0x1000 + Z.land cp 0xFFF000) = Ret o1 ->
  bptr o1 = bptr o /\ wlog o1 = wlog o
  /\ lits_ok GIF_BIGE code ctsz (heap o1)
  /\ users_ok GIF_BIGE code ctsz (heap o1) (ctbl r + 1)
  /\ (2 ^ ctsz < ctbl r ->
      cell GIF_BIGE code (heap o1) (ctbl r + 1)
      = entry 0 (elen (cell GIF_BIGE code (heap o1) (prev r)) + 1) (prev r)).
Proof.
  intros Hl Hu Hn Hp Hlt Hg Hs. unfold GIF_CLEN in Hlt.
  rewrite Z.min_l in Hu, Hp by lia.
  apply code_get_Ret in Hg. destruct Hg as [Hpr ->].
  apply code_set_Ret in Hs. destruct Hs as [_ ->]. cbn [bptr heap wlog].
  split; [reflexivity|]. split; [reflexivity|].
  split; [apply lits_store; [lia | exact Hl]|].
  destruct (Z.eq_dec (ctbl r) (2 ^ ctsz)) as [He|Hne].
  - split; [|lia]. intros i Hi. lia.
  - destruct Hp as [Hp|Hp]; [lia|].
    destruct (cell_defined (heap o) (ctbl r) (prev r) ltac:(lia) Hl Hu Hp)
      as (t & p & Hc & Ht & Hpp & Hb).
    set (L := elen (cell GIF_BIGE code (heap o) (prev r))) in *.
    assert (prev r <= ctbl r) as Hple by (unfold defined in Hp; lia).
    assert (L <= ctbl r - 2 ^ ctsz - 1) as HL by lia.
    assert (uint32_t
              (uint32_t (prev r) + 0x1000
               + Z.land (cell GIF_BIGE code (heap o) (prev r)) 0xFFF000)
            = entry 0 (L + 1) (prev r)) as Hv.
    { rewrite Hc, entry_len_field by (unfold GIF_CLEN in *; lia).
      unfold uint32_t. unfold GIF_CLEN in Hpr.
      rewrite (Z.mod_small (prev r)) by lia.
      change 0x1000 with 4096. change (2 ^ 12) with 4096.
      rewrite Z.mod_small by (change (2 ^ 32) with 4294967296; lia).
      unfold entry. change (2 ^ 12) with 4096. lia. }
    rewrite Hv.
    pose proof (users_store (heap o) (ctbl r + 1) 0 (prev r) ltac:(lia) Hl) as Hst.
    replace (ctbl r + 1 - 1) with (ctbl r) in Hst by lia.
    specialize (Hst Hu ltac:(lia) Hp). fold L in Hst.
    split; [exact Hst|]. intros _.
    rewrite cell_store_same by (apply entry_range; unfold GIF_CLEN in *; lia).
    rewrite cell_store_other by lia. reflexivity.
Qed.

(** The second half: the first index of the string just written. *)
Lemma seal_cell_ok (r : regs) (o o1 : out) (h cc ci : Z) :
  lits_ok GIF_BIGE code ctsz (heap o) ->
  users_ok GIF_BIGE code ctsz (heap o) (ctbl r) ->
  2 ^ ctsz <= ctbl r -> ctbl r + 1 < GIF_CLEN ->
  0 <= h < 2 ^ ctsz ->
  (2 ^ ctsz < ctbl r ->
   defined ctsz (ctbl r) (prev r)
   /\ cell GIF_BIGE code (heap o) (ctbl r + 1)
      = entry 0 (elen (cell GIF_BIGE code (heap o) (prev r)) + 1) (prev r)) ->
  code_get GIF_BIGE code o (ctbl r + 1) = Ret cc ->
  code_get GIF_BIGE code o h = Ret ci ->
  code_set GIF_BIGE code o (ctbl r + 1) (Z.lor cc (Z.land ci 0xFF000000)) = Ret o1 ->
  bptr o1 = bptr o /\ wlog o1 = wlog o
  /\ lits_ok GIF_BIGE code ctsz (heap o1)
  /\ users_ok GIF_BIGE code ctsz (heap o1) (ctbl r + 1).
Proof.
  intros Hl Hu Hn Hlt Hh Hp Hg1 Hg2 Hs. unfold GIF_CLEN in Hlt.
  apply code_get_Ret in Hg1. destruct Hg1 as [_ ->].
  apply code_get_Ret in Hg2. destruct Hg2 as [_ ->].
  apply code_set_Ret in Hs. destruct Hs as [_ ->]. cbn [bptr heap wlog].
  split; [reflexivity|]. split; [reflexivity|].
  split; [apply lits_store; [lia | exact Hl]|].
  destruct (Z.eq_dec (ctbl r) (2 ^ ctsz)) as [He|Hne].
  - intros i Hi. lia.
  - destruct (Hp ltac:(lia)) as [Hd Hc].
    destruct (cell_defined (heap o) (ctbl r) (prev r) ltac:(lia) Hl Hu Hd)
      as (t & p & _ & _ & Hpp & Hb).
    set (L := elen (cell GIF_BIGE code (heap o) (prev r))) in *.
    assert (prev r <= ctbl r) as Hple by (unfold defined in Hd; lia).
    assert (uint32_t
              (Z.lor (cell GIF_BIGE code (heap o) (ctbl r + 1))
                 (Z.land (cell GIF_BIGE code (heap o) h) 0xFF000000))
            = entry h (L + 1) (prev r)) as Hv.
    { rewrite Hc, (Hl h Hh), entry_top_field by lia.
      pose proof (defined_range (ctbl r) (prev r) ltac:(lia) Hd) as Hpr.
      unfold GIF_CLEN in Hpr.
      rewrite lor_top;
        [| unfold entry; change (2 ^ 24) with 16777216; change (2 ^ 12) with 4096; lia
         | lia].
      unfold uint32_t. rewrite Z.mod_small.
      - unfold entry. lia.
      - pose proof (entry_range h (L + 1) (prev r) ltac:(lia) ltac:(lia) ltac:(lia)).
        unfold entry in *. lia. }
    rewrite Hv.
    pose proof (users_store (heap o) (ctbl r + 1) h (prev r) ltac:(lia) Hl) as Hst.
    replace (ctbl r + 1 - 1) with (ctbl r) in Hst by lia.
    exact (Hst Hu Hh Hd).
Qed.

(** A code of the stream that is defined is written out with indices below
    [2 ^ ctsz], and leaves a table with one more well-built cell. *)
Lemma emit_inv (r : regs) (o : out) (x : regs * out) :
  frame_inv GIF_BIGE code ctsz r o ->
  code_ok ctsz (ctbl r) (curr r) = true ->
  emit GIF_BIGE hlen code r o = Ret x ->
  code + GIF_BLEN <= bptr (snd x) /\ wlog_ok ctsz (snd x)
  /\ lits_ok GIF_BIGE code ctsz (heap (snd x))
  /\ users_ok GIF_BIGE code ctsz (heap (snd x)) (Z.min (ctbl r + 1) 4095)
  /\ defined ctsz (Z.min (ctbl r + 1) 4095) (curr r).
Proof.
  intros (Hb & Hw & Hl & Hu & Hn & Hp) Hok H.
  unfold emit in H. cbv zeta in H.
  bind_as H y Hy. destruct y as [[mk cz] o1].
  set (N := Z.min (ctbl r + 1) 4095).
  assert (bptr o1 = bptr o /\ wlog o1 = wlog o
          /\ lits_ok GIF_BIGE code ctsz (heap o1)
          /\ users_ok GIF_BIGE code ctsz (heap o1) N
          /\ (2 ^ ctsz < ctbl r -> ctbl r + 1 < GIF_CLEN ->
              cell GIF_BIGE code (heap o1) (ctbl r + 1)
              = entry 0 (elen (cell GIF_BIGE code (heap o1) (prev r)) + 1) (prev r)))
    as (Hb1 & Hw1 & Hl1 & Hu1 & Hc1).
  { destruct (ctbl r + 1 <? GIF_CLEN) eqn:E.
    - apply Z.ltb_lt in E.
      assert (exists cp, code_get GIF_BIGE code o (prev r) = Ret cp
                /\ code_set GIF_BIGE code o (ctbl r + 1)
                     (uint32_t (prev r) + 0x1000 + Z.land cp 0xFFF000) = Ret o1)
        as (cp & Hg & Hs).
      { destruct ((ctbl r + 1 =? mask r) && (ctbl r + 1 <? GIF_CLEN - 1));
          bind_as Hy cp Hg; bind_as Hy o1' Hs; injection Hy as _ _ <-;
          exists cp; split; assumption. }
      destruct (make_cell_ok r o o1 cp Hl Hu Hn Hp E Hg Hs) as (A & B & C & D & F).
      unfold N. unfold GIF_CLEN in E. rewrite Z.min_l by lia.
      repeat split; auto.
    - apply Z.ltb_ge in E. unfold GIF_CLEN in E. injection Hy as _ _ <-.
      unfold N. rewrite Z.min_r in * by lia.
      repeat split; auto. unfold GIF_CLEN. lia. }
  clear Hy.
  assert (N <= 4095) as HN by (unfold N; lia).
  assert (2 ^ ctsz < ctbl r -> defined ctsz N (prev r)) as Hp1.
  { intros Hlt. destruct Hp as [Hp|Hp]; [lia|]. unfold defined, N in *. lia. }
  set (iter := if curr r >=? ctbl r + 1 then prev r else curr r) in *.
  assert (defined ctsz N iter /\ defined ctsz N (curr r)
          /\ (curr r >= ctbl r + 1 -> 2 ^ ctsz < ctbl r /\ ctbl r + 1 < GIF_CLEN))
    as (Hdi & Hdc & Hk).
  { unfold code_ok in Hok. apply orb_prop in Hok. unfold iter.
    destruct Hok as [Hok|Hok].
    - apply andb_prop in Hok. destruct Hok as [H1 H2].
      apply Z.leb_le in H1. apply Z.ltb_lt in H2.
      replace (curr r >=? ctbl r + 1) with false by (symmetry; rewrite Z.geb_leb; apply Z.leb_gt; lia).
      unfold defined. repeat split; try lia.
    - apply andb_prop in Hok. destruct Hok as [Hok H4].
      apply andb_prop in Hok. destruct Hok as [Hok H3].
      apply andb_prop in Hok. destruct Hok as [H1 H2].
      apply Z.leb_le in H1, H2. apply Z.ltb_lt in H3, H4. unfold GIF_CLEN in *.
      assert (defined ctsz N (curr r)) as Hd by (unfold defined, N; lia).
      split; [|split; [exact Hd | lia]].
      destruct (curr r >=? ctbl r + 1); [apply Hp1; lia | exact Hd]. }
  bind_as H ci Hci. apply code_get_Ret in Hci. destruct Hci as [Hir ->].
  destruct (cell_defined (heap o1) N iter HN Hl1 Hu1 Hdi) as (t & p & _ & _ & _ & Hlen).
  bind_as H y Hex. destruct y as [h o2].
  apply (expand_ok N _ HN iter _ (bptr o1) h o2) in Hex;
    [| exact Hl1 | exact Hu1 | exact Hdi | reflexivity | lia
     | unfold wlog_ok, move; cbn [wlog]; rewrite Hw1; exact Hw ].
  destruct Hex as (Hb2 & Hh & Hag2 & Hw2). unfold move in Hag2. cbn [heap] in Hag2.
  fold (elen (cell GIF_BIGE code (heap o1) iter)) in H.
  set (L := elen (cell GIF_BIGE code (heap o1) iter)) in *.
  assert (lits_ok GIF_BIGE code ctsz (heap o2)) as Hl2
    by (apply (lits_agree (heap o1)); assumption).
  bind_as H o3 Ho3.
  assert (code + GIF_BLEN <= bptr o3 /\ wlog_ok ctsz o3
          /\ (forall a, a < code + GIF_BLEN -> heap o3 a = heap o2 a))
    as (Hb3 & Hw3 & Hag3).
  { destruct (curr r >=? ctbl r + 1).
    - bind_as Ho3 c Hc. apply code_get_Ret in Hc. destruct Hc as [_ ->].
      bind_as Ho3 o' Hpx. apply put_pixel_Ret in Hpx. injection Ho3 as <-.
      subst o'. unfold move. cbn [bptr heap wlog].
      rewrite (Hl2 h Hh), entry_top by lia.
      split; [lia|]. split.
      + constructor; [|exact Hw2]. cbn [snd]. unfold uint8_t.
        rewrite Z.mod_small; lia.
      + intros a Ha. unfold store8.
        replace (a =? bptr o2 + (L + 2)) with false
          by (symmetry; apply Z.eqb_neq; lia). reflexivity.
    - injection Ho3 as <-. unfold move. cbn [bptr heap wlog].
      split; [lia|]. split; [exact Hw2 | auto]. }
  assert (forall a, a < code + GIF_BLEN -> heap o3 a = heap o1 a) as Hag.
  { intros a Ha. rewrite Hag3, Hag2; auto. }
  assert (lits_ok GIF_BIGE code ctsz (heap o3)) as Hl3
    by (apply (lits_agree (heap o1)); assumption).
  assert (users_ok GIF_BIGE code ctsz (heap o3) N) as Hu3
    by (apply (users_agree (heap o1)); assumption).
  bind_as H o4 Ho4. injection H as <-. cbn [snd].
  destruct (ctbl r + 1 <? GIF_CLEN) eqn:E.
  - apply Z.ltb_lt in E. bind_as Ho4 cc Hcc. bind_as Ho4 c Hc.
    assert (N = ctbl r + 1) as EN by (unfold N, GIF_CLEN in *; lia).
    destruct (seal_cell_ok r o3 o4 h cc c Hl3) as (A & B & C & D); auto.
    + apply (users_shrink _ N); [lia | exact Hu3].
    + intros Hlt. split.
      * destruct Hp as [Hp|Hp]; [lia|]. unfold GIF_CLEN in E.
        rewrite Z.min_l in Hp by lia. exact Hp.
      * pose proof (defined_range N (prev r) HN (Hp1 Hlt)) as Hpr.
        rewrite (cell_agree (heap o1) (heap o3) (ctbl r + 1)) by (auto; lia).
        rewrite (cell_agree (heap o1) (heap o3) (prev r)) by auto.
        apply Hc1; assumption.
    + rewrite A. split; [exact Hb3|]. split; [unfold wlog_ok; rewrite B; exact Hw3|].
      split; [exact C|]. split; [rewrite EN; exact D | exact Hdc].
  - injection Ho4 as <-. auto.
Qed.

Lemma frame_inv_regs (r r' : regs) (o : out) :
  ctbl r' = ctbl r -> prev r' = prev r ->
  frame_inv GIF_BIGE code ctsz r o -> frame_inv GIF_BIGE code ctsz r' o.
Proof. unfold frame_inv. intros -> ->. auto. Qed.

Lemma emit_regs_fields (r : regs) :
  ctbl (emit_regs r) = ctbl r + 1 /\ curr (emit_regs r) = curr r
  /\ prev (emit_regs r) = prev r.
Proof.
  unfold emit_regs. cbv zeta.
  destruct ((ctbl r + 1 <? GIF_CLEN) && (ctbl r + 1 =? mask r)
            && (ctbl r + 1 <? GIF_CLEN - 1));
    cbn [ctbl curr prev]; auto.
Qed.

(** One code of a stream that only uses defined codes. *)
Lemma lzw_code_inv (r : regs) (o : out) (x : regs * out + out) :
  frame_inv GIF_BIGE code ctsz r o ->
  code_wf ctsz r = true ->
  lzw_code GIF_BIGE hlen code ctsz r o = Ret x ->
  match x with
  | inl (r', o') => code_regs ctsz r = Some r' /\ frame_inv GIF_BIGE code ctsz r' o'
  | inr o' => code_regs ctsz r = None /\ wlog_ok ctsz o'
  end.
Proof.
  intros Hi Hwf H.
  pose proof (lzw_code_regs GIF_BIGE hlen code ctsz r o x H) as Hr.
  unfold lzw_code in H. unfold code_wf in Hwf. cbv zeta in H, Hwf.
  cbn [load mask ctbl curr prev ccsz bszc] in H.
  set (c := Z.land (curr r) (mask r)) in *.
  destruct (Z.land c (Z.lnot 1) =? Z.shiftl 1 ctsz) eqn:E.
  - destruct (negb (Z.land c 1 =? 0)); cbn [bind] in H; injection H as <-.
    + split; [exact Hr | apply Hi].
    + split; [exact Hr|]. destruct Hi as (Hb & Hw & Hl & Hu & Hn & Hp).
      unfold frame_inv. cbn [ctbl prev]. rewrite Z.shiftl_1_l.
      repeat split; auto; try lia. intros i Hi. lia.
  - cbn [orb] in Hwf. bind_as H y Hy. bind_as Hy z Hz. destruct z as [r2 o2].
    injection Hy as <-. injection H as <-. split; [exact Hr|].
    pose proof (emit_regs_eq GIF_BIGE hlen code _ _ _ Hz) as Hre. cbn [fst] in Hre.
    apply emit_inv in Hz;
      [| apply (frame_inv_regs r); [reflexivity | reflexivity | exact Hi] | exact Hwf].
    cbn [snd ctbl curr] in Hz. destruct Hz as (A & B & C & D & F).
    destruct (emit_regs_fields (mkRegs (load r) (mask r) (ctbl r) c (prev r) (ccsz r) (bszc r)))
      as (F1 & F2 & F3).
    rewrite <- Hre in F1, F2, F3. cbn [ctbl curr prev] in F1, F2, F3.
    destruct Hi as (_ & _ & _ & _ & Hn & _).
    unfold frame_inv. cbn [ctbl prev]. rewrite F1, F2.
    repeat split; auto; try lia.
Qed.

Lemma lzw_codes_inv (fuel : nat) :
  forall r o x w,
    frame_inv GIF_BIGE code ctsz r o ->
    codes_wf ctsz fuel r = Some w ->
    lzw_codes GIF_BIGE hlen code ctsz fuel r o = Ret x ->
    match x, w with
    | inl (r', o'), Some r'' => r' = r'' /\ frame_inv GIF_BIGE code ctsz r' o'
    | inr o', None => wlog_ok ctsz o'
    | _, _ => False
    end.
Proof.
  induction fuel as [|fuel IH]; intros r o x w Hi Hw H; [discriminate|].
  cbn [codes_wf lzw_codes] in Hw, H.
  destruct (bszc r >=? 0).
  - destruct (code_wf ctsz r) eqn:Hc; [|discriminate].
    bind_as H y Hy. apply lzw_code_inv in Hy; [| exact Hi | exact Hc].
    destruct y as [[r1 o1]|o1]; destruct Hy as [Hr Hi1]; rewrite Hr in Hw.
    + exact (IH r1 o1 x w Hi1 Hw H).
    + injection Hw as <-. injection H as <-. exact Hi1.
  - injection Hw as <-. injection H as <-. split; [reflexivity | exact Hi].
Qed.

Lemma lzw_block_inv (fuel : nat) :
  forall buff bseq r o b q x w,
    frame_inv GIF_BIGE code ctsz r o ->
    block_wf GIF_BIGE d ctsz fuel buff bseq r = Some w ->
    lzw_block GIF_BIGE d hlen code ctsz fuel buff bseq r o = Ret (b, q, x) ->
    match x, w with
    | inl (r', o'), (b', q', Some r'') =>
        b = b' /\ q = q' /\ r' = r'' /\ frame_inv GIF_BIGE code ctsz r' o'
    | inr o', (_, _, None) => wlog_ok ctsz o'
    | _, _ => False
    end.
Proof.
  induction fuel as [|fuel IH]; intros buff bseq r o b q x w Hi Hw H; [discriminate|].
  cbn [block_wf lzw_block] in Hw, H. cbv zeta in Hw, H.
  destruct (bseq >? 0).
  - bind_as H y Hy.
    match type of Hy with
    | lzw_codes _ _ _ _ ?f ?r1 _ = _ =>
        destruct (codes_wf ctsz f r1) as [w1|] eqn:Hc; [|discriminate];
        pose proof (lzw_codes_inv f r1 o y w1
                      (frame_inv_regs r r1 o eq_refl eq_refl Hi) Hc Hy) as Hs
    end.
    destruct y as [[r1 o1]|o1]; destruct w1 as [r2|]; try contradiction.
    + destruct Hs as [<- Hi1]. exact (IH _ _ r1 o1 b q x w Hi1 Hw H).
    + injection Hw as <-. injection H as _ _ <-. exact Hs.
  - injection Hw as <-. injection H as <- <- <-. auto.
Qed.

Lemma lzw_blocks_inv (fuel : nat) :
  forall buff bseq size r o y,
    frame_inv GIF_BIGE code ctsz r o ->
    blocks_wf GIF_BIGE d ctsz fuel buff bseq size r = true ->
    lzw_blocks GIF_BIGE d hlen code ctsz fuel buff bseq size r o = Ret y ->
    wlog_ok ctsz (snd y).
Proof.
  induction fuel as [|fuel IH]; intros buff bseq size r o y Hi Hw H; [discriminate|].
  cbn [blocks_wf lzw_blocks] in Hw, H. cbv zeta in Hw, H.
  destruct (size - (bseq + 1) <=? 0).
  - injection H as <-. apply Hi.
  - bind_as H z Hz. destruct z as [[b q] x].
    destruct (block_wf GIF_BIGE d ctsz (Z.to_nat bseq + 1) buff bseq r)
      as [w|] eqn:Hb; [|discriminate].
    pose proof (lzw_block_inv _ _ _ _ _ _ _ _ _ Hi Hb Hz) as Hs.
    destruct x as [[r1 o1]|o1]; destruct w as [[b' q'] [r2|]]; try contradiction.
    + destruct Hs as (<- & <- & <- & Hi1).
      destruct (negb (u8 d (b + q) =? 0)).
      * exact (IH _ _ _ r1 o1 y Hi1 Hw H).
      * injection H as <-. apply Hi1.
    + injection H as <-. exact Hs.
Qed.

(** The expander's first loop sets the cells of the single indices. *)
Lemma fill_lits (fuel : nat) :
  forall iter n o o',
    0 <= iter -> n <= 256 ->
    (forall i, 0 <= i < iter -> cell GIF_BIGE code (heap o) i = entry i 0 0) ->
    fill GIF_BIGE code fuel iter n o = Ret o' ->
    bptr o' = bptr o /\ wlog o' = wlog o
    /\ (forall i, 0 <= i < Z.max iter n -> cell GIF_BIGE code (heap o') i = entry i 0 0).
Proof.
  induction fuel as [|fuel IH]; intros iter n o o' Hi Hn Hc H; [discriminate|].
  cbn [fill] in H. destruct (iter <? n) eqn:E.
  - apply Z.ltb_lt in E. bind_as H o1 Hs. apply code_set_Ret in Hs.
    destruct Hs as [_ ->].
    apply IH in H; [| lia | lia |].
    + cbn [bptr heap wlog] in H. destruct H as (A & B & C).
      split; [exact A|]. split; [exact B|]. intros i Hr. apply C. lia.
    + cbn [heap]. intros i Hr.
      assert (uint32_t (Z.shiftl iter 24) = entry iter 0 0) as Hv.
      { rewrite Z.shiftl_mul_pow2 by lia. unfold uint32_t, entry.
        rewrite Z.mod_small;
          [lia | change (2 ^ 24) with 16777216; change (2 ^ 32) with 4294967296; lia]. }
      rewrite Hv. destruct (Z.eq_dec i iter) as [->|Hne].
      * apply cell_store_same. apply entry_range; lia.
      * rewrite cell_store_other by lia. apply Hc. lia.
  - apply Z.ltb_ge in E. injection H as <-.
    split; [reflexivity|]. split; [reflexivity|]. intros i Hr. apply Hc. lia.
Qed.

(** ** The strings of defined codes, step by step *)

(** One turn of the inflating loop on a defined code: a byte is written at
    the cursor, and the loop ends on a single index or goes on with the
    prefix of the code. *)
Lemma expand_step (n : Z) (fuel : nat) (iter : Z) (o : out) (h : Z) (o' : out) :
  n <= 4095 ->
  lits_ok GIF_BIGE code ctsz (heap o) -> users_ok GIF_BIGE code ctsz (heap o) n ->
  defined ctsz n iter ->
  code + GIF_BLEN <= bptr o ->
  expand GIF_BIGE hlen code (S fuel) iter o = Ret (h, o') ->
  exists o1,
    bptr o1 = bptr o - 1
    /\ wlog o1 = (bptr o, uint8_t (Z.shiftr (cell GIF_BIGE code (heap o) iter) 24))
                 :: wlog o
    /\ (forall a, a < code + GIF_BLEN -> heap o1 a = heap o a)
    /\ 0 <= uint8_t (Z.shiftr (cell GIF_BIGE code (heap o) iter) 24) < 2 ^ ctsz
    /\ (forall a, heap o1 a
                  = if a =? bptr o
                    then uint8_t (Z.shiftr (cell GIF_BIGE code (heap o) iter) 24)
                    else heap o a)
    /\ ((0 <= iter < 2 ^ ctsz /\ h = iter /\ o' = o1
         /\ elen (cell GIF_BIGE code (heap o) iter) = 0)
        \/ (2 ^ ctsz + 2 <= iter
            /\ defined ctsz (iter - 1) (Z.land (cell GIF_BIGE code (heap o) iter) 0xFFF)
            /\ elen (cell GIF_BIGE code (heap o)
                       (Z.land (cell GIF_BIGE code (heap o) iter) 0xFFF)) + 1
               = elen (cell GIF_BIGE code (heap o) iter)
            /\ expand GIF_BIGE hlen code fuel
                 (Z.land (cell GIF_BIGE code (heap o) iter) 0xFFF) o1 = Ret (h, o'))).
Proof.
  intros Hn Hl Hu Hd Hq H.
  pose proof (defined_range n iter Hn Hd) as Hr.
  destruct (elen_defined (heap o) n iter Hn Hl Hu Hd) as [Hlit Husr].
  cbn [expand] in H. rewrite (code_get_cell o iter Hr) in H. cbn [bind] in H.
  unfold put_pixel in H.
  destruct ((0 <=? bptr o) && (bptr o <? hlen)); [|discriminate].
  cbn [bind] in H. unfold move in H. cbn [bptr heap wlog] in H.
  set (c := cell GIF_BIGE code (heap o) iter) in *.
  replace (uint8_t (uint8_t (Z.shiftr c 24))) with (uint8_t (Z.shiftr c 24)) in H
    by (unfold uint8_t; rewrite Z.mod_mod; lia).
  set (o1 := mkOut (bptr o + -1) _ _) in H.
  assert (forall a, a < code + GIF_BLEN -> heap o1 a = heap o a) as Hag.
  { intros a Ha. cbn [o1 heap]. unfold store8.
    replace (a =? bptr o) with false by (symmetry; apply Z.eqb_neq; lia). reflexivity. }
  rewrite (code_get_cell o1 iter Hr) in H. cbn [bind] in H.
  rewrite (cell_agree (heap o) (heap o1) iter Hr Hag) in H. fold c in H.
  assert (forall a, heap o1 a
                    = if a =? bptr o then uint8_t (Z.shiftr c 24) else heap o a) as Hhp.
  { intros a. cbn [o1 heap]. unfold store8, uint8_t. rewrite Z.mod_mod by lia.
    reflexivity. }
  exists o1. split; [cbn [o1 bptr]; lia|]. split; [reflexivity|]. split; [exact Hag|].
  destruct Hd as [Hd|Hd].
  - assert (Z.land c 0xFFF000 = 0) as Hz.
    { unfold c. rewrite (Hl iter Hd), entry_len_field; lia. }
    rewrite Hz in H. cbn [Z.eqb] in H. injection H as <- <-.
    split; [unfold c; rewrite (Hl iter Hd), entry_top; lia|]. split; [exact Hhp|].
    left. split; [exact Hd|]. split; [reflexivity|]. split; [reflexivity|].
    apply Hlit. lia.
  - destruct (Hu iter Hd) as (t & p & Hc & Ht & Hp & Hlen).
    pose proof (defined_range (iter - 1) p ltac:(lia) Hp) as Hpr.
    assert (defined ctsz n p) as Hp' by (unfold defined in *; lia).
    destruct (elen_defined (heap o) n p Hn Hl Hu Hp') as [H1 H2].
    assert (0 <= elen (cell GIF_BIGE code (heap o) p)) as H0.
    { destruct (Z.lt_ge_cases p (2 ^ ctsz)); [rewrite H1 by lia; lia|].
      specialize (H2 ltac:(lia)). lia. }
    assert (Z.land c 0xFFF000 = (elen (cell GIF_BIGE code (heap o) p) + 1) * 2 ^ 12) as Hf.
    { unfold c. rewrite Hc, entry_len_field; unfold GIF_CLEN in *; lia. }
    assert (Z.land c 0xFFF = p) as Hpre.
    { unfold c. rewrite Hc, entry_pre; unfold GIF_CLEN in *; lia. }
    assert (elen c = elen (cell GIF_BIGE code (heap o) p) + 1) as Hel.
    { unfold c. rewrite Hc, entry_len; unfold GIF_CLEN in *; lia. }
    replace (Z.land c 0xFFF000 =? 0) with false in H
      by (symmetry; apply Z.eqb_neq; rewrite Hf; change (2 ^ 12) with 4096; lia).
    split; [unfold c; rewrite Hc, entry_top; unfold GIF_CLEN in *; lia|].
    split; [exact Hhp|].
    right. rewrite Hpre. split; [unfold defined in Hd; lia|].
    split; [exact Hp|]. split; [lia | rewrite Hpre in H; exact H].
Qed.

Lemma uint32_range (v : Z) : 0 <= uint32_t v < 2 ^ 32.
Proof. unfold uint32_t. change (2 ^ 32) with 4294967296. apply Z.mod_pos_bound. lia. Qed.

(** What [emit] does, in order: it may make the next cell from the one of
    the previous code, inflates a defined code from the cursor, may write the
    first index of the string once more, and may put that index in the new
    cell. *)
Lemma emit_shape (r : regs) (o : out) (x : regs * out) :
  frame_inv GIF_BIGE code ctsz r o ->
  code_ok ctsz (ctbl r) (curr r) = true ->
  emit GIF_BIGE hlen code r o = Ret x ->
  let n' := ctbl r + 1 in
  let again := curr r >=? n' in
  let iter := if again then prev r else curr r in
  exists o1 h o2 fuel,
    (bptr o1 = bptr o /\ wlog o1 = wlog o
     /\ lits_ok GIF_BIGE code ctsz (heap o1)
     /\ users_ok GIF_BIGE code ctsz (heap o1) (Z.min n' 4095))
    /\ (forall i, i <> n' -> cell GIF_BIGE code (heap o1) i = cell GIF_BIGE code (heap o) i)
    /\ (n' < GIF_CLEN ->
        cell GIF_BIGE code (heap o1) n'
        = uint32_t (uint32_t (prev r) + 0x1000
                    + Z.land (cell GIF_BIGE code (heap o) (prev r)) 0xFFF000))
    /\ defined ctsz (Z.min n' 4095) iter
    /\ expand GIF_BIGE hlen code fuel iter
         (move o1 (elen (cell GIF_BIGE code (heap o1) iter))) = Ret (h, o2)
    /\ 0 <= h < 2 ^ ctsz
    /\ bptr (snd x)
       = bptr o + elen (cell GIF_BIGE code (heap o1) iter) + 1 + (if again then 1 else 0)
    /\ wlog (snd x)
       = (if again
          then [(bptr o + elen (cell GIF_BIGE code (heap o1) iter) + 1, h)]
          else []) ++ wlog o2
    /\ (forall i, 0 <= i < GIF_CLEN -> i <> n' ->
                  cell GIF_BIGE code (heap (snd x)) i = cell GIF_BIGE code (heap o1) i)
    /\ (n' < GIF_CLEN ->
        cell GIF_BIGE code (heap (snd x)) n'
        = uint32_t (Z.lor (cell GIF_BIGE code (heap o1) n') (h * 2 ^ 24)))
    /\ (forall a, code + GIF_BLEN <= a -> heap o1 a = heap o a)
    /\ (forall a, code + GIF_BLEN <= a ->
                  heap (snd x) a
                  = if again && (a =? bptr o + elen (cell GIF_BIGE code (heap o1) iter) + 1)
                    then h else heap o2 a).
Proof.
  intros (Hb & Hw & Hl & Hu & Hn & Hp) Hok H. cbv zeta.
  unfold emit in H. cbv zeta in H.
  bind_as H y Hy. destruct y as [[mk cz] o1].
  set (N := Z.min (ctbl r + 1) 4095) in *.
  assert (N <= 4095) as HN by (unfold N; lia).
  assert (bptr o1 = bptr o /\ wlog o1 = wlog o
          /\ lits_ok GIF_BIGE code ctsz (heap o1)
          /\ users_ok GIF_BIGE code ctsz (heap o1) N
          /\ (forall i, i <> ctbl r + 1 ->
                        cell GIF_BIGE code (heap o1) i = cell GIF_BIGE code (heap o) i)
          /\ (ctbl r + 1 < GIF_CLEN ->
              cell GIF_BIGE code (heap o1) (ctbl r + 1)
              = uint32_t (uint32_t (prev r) + 0x1000
                          + Z.land (cell GIF_BIGE code (heap o) (prev r)) 0xFFF000))
          /\ (forall a, code + GIF_BLEN <= a -> heap o1 a = heap o a))
    as (Hb1 & Hw1 & Hl1 & Hu1 & Hc1 & Hn1 & Hr1).
  { destruct (ctbl r + 1 <? GIF_CLEN) eqn:E.
    - apply Z.ltb_lt in E.
      assert (exists cp, code_get GIF_BIGE code o (prev r) = Ret cp
                /\ code_set GIF_BIGE code o (ctbl r + 1)
                     (uint32_t (prev r) + 0x1000 + Z.land cp 0xFFF000) = Ret o1)
        as (cp & Hg & Hs).
      { destruct ((ctbl r + 1 =? mask r) && (ctbl r + 1 <? GIF_CLEN - 1));
          bind_as Hy cp Hg; bind_as Hy o1' Hs; injection Hy as _ _ <-;
          exists cp; split; assumption. }
      destruct (make_cell_ok r o o1 cp Hl Hu Hn Hp E Hg Hs) as (A & B & C & D & _).
      apply code_get_Ret in Hg. destruct Hg as [_ ->].
      apply code_set_Ret in Hs. destruct Hs as [_ ->]. cbn [heap].
      unfold N. unfold GIF_CLEN in E. rewrite Z.min_l by lia.
      split; [reflexivity|]. split; [reflexivity|]. split; [exact C|]. split; [exact D|].
      split; [|split].
      + intros i Hi. apply cell_store_other. lia.
      + intros _. apply cell_store_same. apply uint32_range.
      + intros a Ha. apply store32_below. unfold GIF_BLEN in Ha. lia.
    - apply Z.ltb_ge in E. unfold GIF_CLEN in E. injection Hy as _ _ <-.
      unfold N. rewrite Z.min_r in * by lia.
      repeat split; auto. unfold GIF_CLEN. lia. }
  clear Hy.
  assert (2 ^ ctsz < ctbl r -> defined ctsz N (prev r)) as Hp1.
  { intros Hlt. destruct Hp as [Hp|Hp]; [lia|]. unfold defined, N in *. lia. }
  set (iter := if curr r >=? ctbl r + 1 then prev r else curr r) in *.
  assert (defined ctsz N iter) as Hdi.
  { unfold code_ok in Hok. apply orb_prop in Hok. unfold iter.
    destruct Hok as [Hok|Hok].
    - apply andb_prop in Hok. destruct Hok as [H1 H2].
      apply Z.leb_le in H1. apply Z.ltb_lt in H2.
      replace (curr r >=? ctbl r + 1) with false
        by (symmetry; rewrite Z.geb_leb; apply Z.leb_gt; lia).
      unfold defined. lia.
    - apply andb_prop in Hok. destruct Hok as [Hok H4].
      apply andb_prop in Hok. destruct Hok as [Hok H3].
      apply andb_prop in Hok. destruct Hok as [H1 H2].
      apply Z.leb_le in H1, H2. apply Z.ltb_lt in H3, H4. unfold GIF_CLEN in *.
      destruct (curr r >=? ctbl r + 1); [apply Hp1; lia | unfold defined, N; lia]. }
  bind_as H ci Hci. apply code_get_Ret in Hci. destruct Hci as [Hir ->].
  destruct (cell_defined (heap o1) N iter HN Hl1 Hu1 Hdi) as (t & p & _ & _ & _ & Hlen).
  bind_as H y Hex. destruct y as [h o2].
  fold (elen (cell GIF_BIGE code (heap o1) iter)) in H, Hex.
  set (L := elen (cell GIF_BIGE code (heap o1) iter)) in *.
  pose proof Hex as Hex'.
  apply (expand_ok N _ HN iter _ (bptr o1) h o2) in Hex';
    [| exact Hl1 | exact Hu1 | exact Hdi | reflexivity | lia
     | unfold wlog_ok, move; cbn [wlog]; rewrite Hw1; exact Hw ].
  destruct Hex' as (Hb2 & Hh & Hag2 & _). unfold move in Hag2. cbn [heap] in Hag2.
  assert (lits_ok GIF_BIGE code ctsz (heap o2)) as Hl2
    by (apply (lits_agree (heap o1)); assumption).
  bind_as H o3 Ho3.
  assert (bptr o3 = bptr o + L + 1 + (if curr r >=? ctbl r + 1 then 1 else 0)
          /\ wlog o3 = (if curr r >=? ctbl r + 1 then [(bptr o + L + 1, h)] else [])
                       ++ wlog o2
          /\ (forall a, a < code + GIF_BLEN -> heap o3 a = heap o2 a)
          /\ (forall a, heap o3 a
                        = if (curr r >=? ctbl r + 1) && (a =? bptr o + L + 1)
                          then h else heap o2 a))
    as (Hb3 & Hw3 & Hag3 & Hr3).
  { destruct (curr r >=? ctbl r + 1).
    - bind_as Ho3 c Hc. apply code_get_Ret in Hc. destruct Hc as [_ ->].
      bind_as Ho3 o' Hpx. apply put_pixel_Ret in Hpx. injection Ho3 as <-.
      subst o'. unfold move. cbn [bptr heap wlog].
      rewrite (Hl2 h Hh), entry_top by lia.
      split; [lia|]. split; [|split].
      + cbn [app]. f_equal. f_equal; [lia|]. unfold uint8_t. apply Z.mod_small. lia.
      + intros a Ha. unfold store8.
        replace (a =? bptr o2 + (L + 2)) with false
          by (symmetry; apply Z.eqb_neq; lia). reflexivity.
      + intros a. cbn [andb]. unfold store8.
        replace (bptr o2 + (L + 2)) with (bptr o + L + 1) by lia.
        destruct (a =? bptr o + L + 1); [|reflexivity].
        unfold uint8_t. apply Z.mod_small. lia.
    - injection Ho3 as <-. unfold move. cbn [bptr heap wlog andb].
      split; [lia|]. split; [reflexivity | auto]. }
  assert (forall a, a < code + GIF_BLEN -> heap o3 a = heap o1 a) as Hag.
  { intros a Ha. rewrite Hag3, Hag2; auto. }
  bind_as H o4 Ho4. injection H as <-. cbn [snd].
  exists o1, h, o2, (Z.to_nat (bptr (move o1 L) + 1) + 1)%nat.
  split; [auto|]. split; [exact Hc1|]. split; [exact Hn1|]. split; [exact Hdi|].
  split; [exact Hex|]. split; [exact Hh|].
  destruct (ctbl r + 1 <? GIF_CLEN) eqn:E.
  - apply Z.ltb_lt in E. bind_as Ho4 cc Hcc. bind_as Ho4 c Hc.
    apply code_get_Ret in Hcc. destruct Hcc as [_ ->].
    apply code_get_Ret in Hc. destruct Hc as [_ ->].
    apply code_set_Ret in Ho4. destruct Ho4 as [_ ->]. cbn [bptr heap wlog].
    assert (lits_ok GIF_BIGE code ctsz (heap o3)) as Hl3
      by (apply (lits_agree (heap o1)); assumption).
    rewrite (Hl3 h Hh), entry_top_field by lia.
    split; [exact Hb3|]. split; [exact Hw3|]. split; [|split; [|split]].
    + intros i Hi Hne. rewrite cell_store_other by lia.
      apply cell_agree; assumption.
    + intros _. rewrite cell_store_same by apply uint32_range.
      rewrite (cell_agree (heap o1) (heap o3)); [reflexivity | | exact Hag].
      unfold GIF_CLEN in *. lia.
    + exact Hr1.
    + intros a Ha. rewrite store32_below by (unfold GIF_BLEN, GIF_CLEN in *; lia).
      apply Hr3.
  - apply Z.ltb_ge in E. injection Ho4 as <-.
    split; [exact Hb3|]. split; [exact Hw3|]. split; [|split; [|split]].
    + intros i Hi Hne. apply cell_agree; assumption.
    + intros Hlt. lia.
    + exact Hr1.
    + intros a Ha. apply Hr3.
Qed.

Lemma zseq_In (n : nat) : forall q a, In a (zseq q n) <-> q <= a < q + Z.of_nat n.
Proof.
  induction n as [|n IH]; intros q a; cbn [zseq In].
  - lia.
  - rewrite IH. lia.
Qed.

Lemma zseq_NoDup (n : nat) : forall q, NoDup (zseq q n).
Proof.
  induction n as [|n IH]; intros q; cbn [zseq]; constructor.
  - rewrite zseq_In. lia.
  - apply IH.
Qed.

Lemma zseq_snoc (n : nat) : forall q, zseq q (S n) = zseq q n ++ [q + Z.of_nat n].
Proof.
  induction n as [|n IH]; intros q.
  - cbn. f_equal. lia.
  - change (zseq q (S (S n))) with (q :: zseq (q + 1) (S n)).
    rewrite IH. cbn [zseq app]. f_equal. f_equal. f_equal. lia.
Qed.

(** Inflating a defined code writes one byte at each address from the
    cursor down to where its string starts, and the block holds these bytes
    afterwards; the other bytes of the block are left as they were. *)
Lemma expand_cover (n : Z) (fuel : nat) :
  n <= 4095 ->
  forall iter o h o',
    lits_ok GIF_BIGE code ctsz (heap o) -> users_ok GIF_BIGE code ctsz (heap o) n ->
    defined ctsz n iter ->
    code + GIF_BLEN <= bptr o - elen (cell GIF_BIGE code (heap o) iter) ->
    expand GIF_BIGE hlen code fuel iter o = Ret (h, o') ->
    exists news,
      wlog o' = news ++ wlog o
      /\ map fst news
         = zseq (bptr o - elen (cell GIF_BIGE code (heap o) iter))
             (S (Z.to_nat (elen (cell GIF_BIGE code (heap o) iter))))
      /\ (forall a v, In (a, v) news -> heap o' a = v)
      /\ (forall a, ~ In a (map fst news) -> heap o' a = heap o a).
Proof.
  intros Hn. induction fuel as [|fuel IH]; intros iter o h o' Hl Hu Hd Hq H;
    [discriminate|].
  destruct (cell_defined (heap o) n iter Hn Hl Hu Hd) as (_ & _ & _ & _ & _ & Hlen).
  destruct (expand_step n fuel iter o h o' Hn Hl Hu Hd ltac:(lia) H)
    as (o1 & Hb1 & Hw1 & Hag & _ & Hhp
        & [(Hlit & -> & -> & Hz)|(Husr & Hp & Hel & Hex)]).
  - exists [(bptr o, uint8_t (Z.shiftr (cell GIF_BIGE code (heap o) iter) 24))].
    split; [exact Hw1|]. split; [rewrite Hz; cbn; f_equal; lia|]. split.
    + intros a v [Hin|[]]. injection Hin as <- <-. rewrite Hhp, Z.eqb_refl. reflexivity.
    + intros a Hni. cbn in Hni. rewrite Hhp.
      replace (a =? bptr o) with false
        by (symmetry; apply Z.eqb_neq; intros ->; apply Hni; auto).
      reflexivity.
  - set (c := cell GIF_BIGE code (heap o) iter) in *.
    set (p := Z.land c 0xFFF) in *.
    assert (defined ctsz n p) as Hp' by (unfold defined in *; lia).
    pose proof (defined_range n p Hn Hp') as Hpr.
    pose proof (cell_agree (heap o) (heap o1) p Hpr Hag) as Hcp.
    destruct (cell_defined (heap o) n p Hn Hl Hu Hp') as (_ & _ & _ & _ & _ & Hlp).
    destruct (IH p o1 h o') as (news & Hw & Hm & Hv & Hk).
    + apply (lits_agree (heap o)); assumption.
    + apply (users_agree (heap o)); assumption.
    + exact Hp'.
    + rewrite Hcp. lia.
    + exact Hex.
    + rewrite Hcp in Hm.
      replace (bptr o1 - elen (cell GIF_BIGE code (heap o) p)) with (bptr o - elen c)
        in Hm by lia.
      assert (~ In (bptr o) (map fst news)) as Hfresh
          by (rewrite Hm, zseq_In; lia).
      exists (news ++ [(bptr o, uint8_t (Z.shiftr c 24))]).
      split; [rewrite Hw, Hw1, <- app_assoc; reflexivity|]. split; [|split].
      * rewrite map_app, Hm. cbn [map fst].
        replace (S (Z.to_nat (elen c)))
          with (S (S (Z.to_nat (elen (cell GIF_BIGE code (heap o) p))))) by lia.
        rewrite (zseq_snoc (S _)). f_equal. f_equal. lia.
      * intros a v Hin. apply in_app_or in Hin. destruct Hin as [Hin|[Hin|[]]].
        -- exact (Hv a v Hin).
        -- injection Hin as <- <-. rewrite (Hk _ Hfresh), Hhp, Z.eqb_refl. reflexivity.
      * intros a Hni. rewrite map_app, in_app_iff in Hni. cbn in Hni.
        rewrite Hk by tauto. rewrite Hhp.
        replace (a =? bptr o) with false
          by (symmetry; apply Z.eqb_neq; intros ->; apply Hni; auto).
        reflexivity.
Qed.

(** A defined code of the stream is written right after what was written
    before. *)
Lemma emit_cover (start : Z) (r : regs) (o : out) (x : regs * out) :
  frame_inv GIF_BIGE code ctsz r o ->
  code_ok ctsz (ctbl r) (curr r) = true ->
  covers start o ->
  emit GIF_BIGE hlen code r o = Ret x ->
  covers start (snd x).
Proof.
  intros Hi Hok (Hs & Hnd & Hin) H.
  pose proof Hi as (Hb & _).
  destruct (emit_shape r o x Hi Hok H)
    as (o1 & h & o2 & fuel & (Hb1 & Hw1 & Hl1 & Hu1) & _ & _ & Hdi & Hex & Hh
        & Hbx & Hwx & _).
  set (n' := ctbl r + 1) in *.
  set (iter := if curr r >=? n' then prev r else curr r) in *.
  set (L := elen (cell GIF_BIGE code (heap o1) iter)) in *.
  destruct (cell_defined (heap o1) (Z.min n' 4095) iter ltac:(lia) Hl1 Hu1 Hdi)
    as (_ & _ & _ & _ & _ & HL). fold L in HL.
  apply (expand_cover (Z.min n' 4095) fuel ltac:(lia)) in Hex;
    [| exact Hl1 | exact Hu1 | exact Hdi
     | unfold move; cbn [bptr heap]; fold L; lia].
  destruct Hex as (news & Hw2 & Hm & _).
  unfold move in Hw2, Hm. cbn [bptr heap wlog] in Hw2, Hm. fold L in Hm.
  replace (bptr o1 + L - L) with (bptr o) in Hm by lia.
  rewrite Hw1 in Hw2.
  assert (forall a, In a (map fst news) <-> bptr o <= a < bptr o + L + 1) as Hnews.
  { intros a. rewrite Hm, zseq_In. lia. }
  assert (NoDup (map fst (news ++ wlog o))) as Hnd2.
  { rewrite map_app. apply NoDup_app; [rewrite Hm; apply zseq_NoDup | exact Hnd|].
    intros a Ha Hb'. apply Hnews in Ha. apply Hin in Hb'. lia. }
  unfold covers. rewrite Hbx, Hwx, Hw2.
  destruct (curr r >=? n').
  - cbn [app map fst]. split; [lia|]. split.
    + constructor; [|exact Hnd2].
      rewrite map_app, in_app_iff, Hnews, Hin. lia.
    + intros a. cbn [In]. rewrite map_app, in_app_iff, Hnews, Hin. lia.
  - cbn [app]. split; [lia|]. split; [exact Hnd2|].
    intros a. rewrite map_app, in_app_iff, Hnews, Hin. lia.
Qed.

(** After a defined code the block holds what was written, the bytes
    written before included. *)
Lemma emit_holds (start : Z) (r : regs) (o : out) (x : regs * out) :
  frame_inv GIF_BIGE code ctsz r o ->
  code_ok ctsz (ctbl r) (curr r) = true ->
  code + GIF_BLEN <= start ->
  covers start o /\ holds_log o ->
  emit GIF_BIGE hlen code r o = Ret x ->
  covers start (snd x) /\ holds_log (snd x).
Proof.
  intros Hi Hok Hst (Hcov & Hh) H.
  split; [exact (emit_cover start r o x Hi Hok Hcov H)|].
  destruct Hcov as (Hs & _ & Hin).
  destruct (emit_shape r o x Hi Hok H)
    as (o1 & h & o2 & fuel & (Hb1 & Hw1 & Hl1 & Hu1) & _ & _ & Hdi & Hex & Hh0
        & Hbx & Hwx & _ & _ & Hr1 & Hr2).
  set (n' := ctbl r + 1) in *.
  set (iter := if curr r >=? n' then prev r else curr r) in *.
  set (L := elen (cell GIF_BIGE code (heap o1) iter)) in *.
  destruct (cell_defined (heap o1) (Z.min n' 4095) iter ltac:(lia) Hl1 Hu1 Hdi)
    as (_ & _ & _ & _ & _ & HL). fold L in HL.
  apply (expand_cover (Z.min n' 4095) fuel ltac:(lia)) in Hex;
    [| exact Hl1 | exact Hu1 | exact Hdi
     | unfold move; cbn [bptr heap]; fold L; lia].
  destruct Hex as (news & Hw2 & Hm & Hv & Hk).
  unfold move in Hw2, Hm, Hk. cbn [bptr heap wlog] in Hw2, Hm, Hk. fold L in Hm.
  replace (bptr o1 + L - L) with (bptr o) in Hm by lia.
  rewrite Hw1 in Hw2.
  assert (forall a, In a (map fst news) <-> bptr o <= a < bptr o + L + 1) as Hnews.
  { intros a. rewrite Hm, zseq_In. lia. }
  assert (forall a v, In (a, v) (news ++ wlog o) -> a < bptr o + L + 1 -> heap o2 a = v)
    as Hold.
  { intros a v Hav _. apply in_app_or in Hav. destruct Hav as [Hav|Hav].
    - exact (Hv a v Hav).
    - assert (start <= a < bptr o) as Ha
          by (apply Hin; change a with (fst (a, v)); apply in_map; exact Hav).
      rewrite Hk by (rewrite Hnews; lia). rewrite Hr1 by lia. exact (Hh a v Hav). }
  assert (forall a v, In (a, v) (news ++ wlog o) -> start <= a < bptr o + L + 1) as Hrg.
  { intros a v Hav. apply in_app_or in Hav. destruct Hav as [Hav|Hav].
    - assert (In a (map fst news)) as Ha
          by (change a with (fst (a, v)); apply in_map; exact Hav).
      apply Hnews in Ha. lia.
    - assert (start <= a < bptr o) as Ha
          by (apply Hin; change a with (fst (a, v)); apply in_map; exact Hav).
      lia. }
  unfold holds_log. rewrite Hwx, Hw2. intros a v Hav.
  destruct (curr r >=? n'); cbn [app andb] in *.
  - destruct Hav as [Hav|Hav].
    + injection Hav as <- <-. rewrite Hr2 by lia. rewrite Z.eqb_refl. reflexivity.
    + pose proof (Hrg a v Hav) as Ha. rewrite Hr2 by lia.
      replace (a =? bptr o + L + 1) with false by (symmetry; apply Z.eqb_neq; lia).
      apply Hold; [exact Hav | lia].
  - pose proof (Hrg a v Hav) as Ha. rewrite Hr2 by lia.
    apply Hold; [exact Hav | lia].
Qed.

(** ** What the loops keep, when [emit] keeps it

    A property of the output that [emit] keeps on defined codes is kept by
    the loops over a code stream that only uses defined codes. *)
Section Keep.

Variable P : out -> Prop.
Hypothesis emit_keeps :
  forall r o x,
    frame_inv GIF_BIGE code ctsz r o -> code_ok ctsz (ctbl r) (curr r) = true ->
    P o -> emit GIF_BIGE hlen code r o = Ret x -> P (snd x).

Lemma lzw_code_keep (r : regs) (o : out) (x : regs * out + out) :
  frame_inv GIF_BIGE code ctsz r o -> code_wf ctsz r = true -> P o ->
  lzw_code GIF_BIGE hlen code ctsz r o = Ret x ->
  match x with
  | inl (_, o') => P o'
  | inr o' => P o'
  end.
Proof.
  intros Hi Hwf Hp H.
  unfold lzw_code in H. unfold code_wf in Hwf. cbv zeta in H, Hwf.
  cbn [load mask ctbl curr prev ccsz bszc] in H.
  set (c := Z.land (curr r) (mask r)) in *.
  destruct (Z.land c (Z.lnot 1) =? Z.shiftl 1 ctsz) eqn:E.
  - destruct (negb (Z.land c 1 =? 0)); cbn [bind] in H; injection H as <-; exact Hp.
  - cbn [orb] in Hwf. bind_as H y Hy. bind_as Hy z Hz. destruct z as [r2 o2].
    injection Hy as <-. injection H as <-.
    exact (emit_keeps (mkRegs (load r) (mask r) (ctbl r) c (prev r) (ccsz r) (bszc r))
             o (r2, o2)
             (frame_inv_regs r (mkRegs (load r) (mask r) (ctbl r) c (prev r) (ccsz r)
                                  (bszc r)) o eq_refl eq_refl Hi)
             Hwf Hp Hz).
Qed.

Lemma lzw_codes_keep (fuel : nat) :
  forall r o x w,
    frame_inv GIF_BIGE code ctsz r o -> P o ->
    codes_wf ctsz fuel r = Some w ->
    lzw_codes GIF_BIGE hlen code ctsz fuel r o = Ret x ->
    match x with
    | inl (r', o') => frame_inv GIF_BIGE code ctsz r' o' /\ P o' /\ w = Some r'
    | inr o' => P o' /\ w = None
    end.
Proof.
  induction fuel as [|fuel IH]; intros r o x w Hi Hp Hw H; [discriminate|].
  cbn [codes_wf lzw_codes] in Hw, H.
  destruct (bszc r >=? 0).
  - destruct (code_wf ctsz r) eqn:Hc; [|discriminate].
    bind_as H y Hy.
    pose proof (lzw_code_keep r o y Hi Hc Hp Hy) as Hk.
    apply lzw_code_inv in Hy; [| exact Hi | exact Hc].
    destruct y as [[r1 o1]|o1]; destruct Hy as [Hr Hi1]; rewrite Hr in Hw.
    + exact (IH r1 o1 x w Hi1 Hk Hw H).
    + injection Hw as <-. injection H as <-. auto.
  - injection Hw as <-. injection H as <-. auto.
Qed.

Lemma lzw_block_keep (fuel : nat) :
  forall buff bseq r o b q x w,
    frame_inv GIF_BIGE code ctsz r o -> P o ->
    block_wf GIF_BIGE d ctsz fuel buff bseq r = Some w ->
    lzw_block GIF_BIGE d hlen code ctsz fuel buff bseq r o = Ret (b, q, x) ->
    match x with
    | inl (r', o') => frame_inv GIF_BIGE code ctsz r' o' /\ P o' /\ w = (b, q, Some r')
    | inr o' => P o' /\ snd w = None
    end.
Proof.
  induction fuel as [|fuel IH]; intros buff bseq r o b q x w Hi Hp Hw H; [discriminate|].
  cbn [block_wf lzw_block] in Hw, H. cbv zeta in Hw, H.
  destruct (bseq >? 0).
  - bind_as H y Hy.
    match type of Hy with
    | lzw_codes _ _ _ _ ?f ?r1 _ = _ =>
        destruct (codes_wf ctsz f r1) as [w1|] eqn:Hc; [|discriminate];
        pose proof (lzw_codes_keep f r1 o y w1
                      (frame_inv_regs r r1 o eq_refl eq_refl Hi) Hp Hc Hy) as Hs
    end.
    destruct y as [[r1 o1]|o1].
    + destruct Hs as (Hi1 & Hp1 & ->). exact (IH _ _ r1 o1 b q x w Hi1 Hp1 Hw H).
    + destruct Hs as (Hp1 & ->). injection Hw as <-. injection H as _ _ <-. auto.
  - injection Hw as <-. injection H as <- <- <-. auto.
Qed.

Lemma lzw_blocks_keep (fuel : nat) :
  forall buff bseq size r o y,
    frame_inv GIF_BIGE code ctsz r o -> P o ->
    blocks_wf GIF_BIGE d ctsz fuel buff bseq size r = true ->
    lzw_blocks GIF_BIGE d hlen code ctsz fuel buff bseq size r o = Ret y ->
    P (snd y).
Proof.
  induction fuel as [|fuel IH]; intros buff bseq size r o y Hi Hp Hw H; [discriminate|].
  cbn [blocks_wf lzw_blocks] in Hw, H. cbv zeta in Hw, H.
  destruct (size - (bseq + 1) <=? 0).
  - injection H as <-. exact Hp.
  - bind_as H z Hz. destruct z as [[b q] x].
    destruct (block_wf GIF_BIGE d ctsz (Z.to_nat bseq + 1) buff bseq r)
      as [w|] eqn:Hb; [|discriminate].
    pose proof (lzw_block_keep _ _ _ _ _ _ _ _ _ Hi Hp Hb Hz) as Hs.
    destruct x as [[r1 o1]|o1].
    + destruct Hs as (Hi1 & Hp1 & ->).
      destruct (negb (u8 d (b + q) =? 0)).
      * exact (IH _ _ _ r1 o1 y Hi1 Hp1 Hw H).
      * injection H as <-. exact Hp1.
    + destruct Hs as (Hp1 & _). injection H as <-. exact Hp1.
Qed.

End Keep.

End TableProofs.

(** C6, amended: when the code stream of a frame only uses codes that are
    defined when they are read ([frame_wf]), every byte that [_GIF_LoadFrame]
    writes into the raster is in [0, 2 ^ ctsz - 1], [ctsz] being the minimum
    code size the frame announces (the byte at [buff]).  The bound does not
    depend on the size of the palette. *)
Theorem LoadFrame_indices (GIF_BIGE : bool) (d : buffer) (hlen buff size bptr0 : Z)
    (m : mem) :
  frame_wf GIF_BIGE d buff size = true ->
  Forall (fun v => 0 <= v < 2 ^ u8 d buff)
    (written (_GIF_LoadFrame GIF_BIGE d hlen buff size bptr0 m)).
Proof.
  intros Hwf.
  destruct (_GIF_LoadFrame GIF_BIGE d hlen buff size bptr0 m)
    as [[[[ret b] s] o]| |] eqn:H; cbn [written]; [|constructor..].
  apply Forall_map.
  unfold _GIF_LoadFrame in H. unfold frame_wf in Hwf. cbv zeta in H, Hwf.
  destruct (size - 1 <=? GIF_HLEN); [injection H as _ _ _ <-; constructor|].
  destruct (u8 d (buff + 1) =? 0); [injection H as _ _ _ <-; constructor|].
  destruct ((u8 d buff <? 2) || (u8 d buff >? 8)) eqn:E2;
    [injection H as _ _ _ <-; constructor|].
  apply orb_false_iff in E2. destruct E2 as [E2 E3]. apply Z.ltb_ge in E2.
  assert (u8 d buff <= 8) as E4
    by (destruct (Z.gtb_spec (u8 d buff) 8); [discriminate | lia]).
  match type of H with
  | (if negb ?c then _ else _) = _ => destruct c
  end; cbn [negb] in H, Hwf; [|injection H as _ _ _ <-; constructor].
  bind_as H o1 Hf.
  assert (2 ^ u8 d buff <= 256) as Hp
    by (change 256 with (2 ^ 8); apply Z.pow_le_mono_r; lia).
  rewrite Z.shiftl_1_l in Hf.
  apply fill_lits with (ctsz := u8 d buff) in Hf; [| lia | lia | exact Hp |].
  - cbn [bptr heap wlog] in Hf. destruct Hf as (A & B & C).
    apply (lzw_blocks_inv GIF_BIGE d hlen (bptr0 - GIF_CLEN * 4) (u8 d buff)
             ltac:(lia)) in H; [exact H | | exact Hwf].
    unfold frame_inv, wlog_ok. cbn [ctbl prev]. rewrite Z.shiftl_1_l, A, B.
    unfold GIF_CLEN, GIF_BLEN.
    split; [lia|]. split; [constructor|].
    split; [intros i Hi; apply C; lia|].
    split; [intros i Hi; lia|]. split; [lia | left; reflexivity].
  - intros i Hi. lia.
Qed.

(** The state in which the loops of [_GIF_LoadFrame] start, once the cells
    of the single indices are set. *)
Lemma LoadFrame_start (GIF_BIGE : bool) (ctsz bptr0 : Z) (m : mem) (o1 : out)
    (mask0 curr0 ccsz0 bszc0 : Z) :
  2 <= ctsz <= 8 ->
  fill GIF_BIGE (bptr0 - GIF_CLEN * 4) (Z.to_nat (2 ^ ctsz) + 1) 0 (2 ^ ctsz)
    (mkOut bptr0 m []) = Ret o1 ->
  bptr o1 = bptr0 /\ wlog o1 = []
  /\ frame_inv GIF_BIGE (bptr0 - GIF_CLEN * 4) ctsz
       (mkRegs 0 mask0 (2 ^ ctsz) curr0 0 ccsz0 bszc0) o1.
Proof.
  intros Hc Hf.
  assert (2 ^ ctsz <= 256) as Hp
    by (change 256 with (2 ^ 8); apply Z.pow_le_mono_r; lia).
  assert (0 < 2 ^ ctsz) as Hp0 by (apply Z.pow_pos_nonneg; lia).
  apply fill_lits with (ctsz := ctsz) in Hf; [| lia | lia | exact Hp |].
  - cbn [bptr heap wlog] in Hf. destruct Hf as (A & B & C).
    split; [exact A|]. split; [exact B|].
    unfold frame_inv, wlog_ok. cbn [ctbl prev]. rewrite A, B.
    unfold GIF_CLEN, GIF_BLEN.
    split; [lia|]. split; [constructor|].
    split; [intros i Hi; apply C; lia|].
    split; [intros i Hi; lia|]. split; [lia | left; reflexivity].
  - intros i Hi. lia.
Qed.

(** X14.  When the code stream of a frame only uses codes that are defined
    when they are read, [_GIF_LoadFrame] writes the raster from its start
    up to the cursor it ends with, every byte once: it skips no byte, writes
    none twice, and writes neither below the raster nor past the cursor. *)
Theorem LoadFrame_cover (GIF_BIGE : bool) (d : buffer) (hlen buff size bptr0 : Z)
    (m : mem) (ret b s : Z) (o : out) :
  frame_wf GIF_BIGE d buff size = true ->
  _GIF_LoadFrame GIF_BIGE d hlen buff size bptr0 m = Ret (ret, b, s, o) ->
  covers bptr0 o.
Proof.
  intros Hwf H.
  assert (covers bptr0 (mkOut bptr0 m [])) as H0.
  { unfold covers. cbn. split; [lia|]. split; [constructor|]. intros a. lia. }
  unfold _GIF_LoadFrame in H. unfold frame_wf in Hwf. cbv zeta in H, Hwf.
  destruct (size - 1 <=? GIF_HLEN); [injection H as _ _ _ <-; exact H0|].
  destruct (u8 d (buff + 1) =? 0); [injection H as _ _ _ <-; exact H0|].
  destruct ((u8 d buff <? 2) || (u8 d buff >? 8)) eqn:E2;
    [injection H as _ _ _ <-; exact H0|].
  apply orb_false_iff in E2. destruct E2 as [E2 E3]. apply Z.ltb_ge in E2.
  assert (u8 d buff <= 8) as E4
    by (destruct (Z.gtb_spec (u8 d buff) 8); [discriminate | lia]).
  match type of H with
  | (if negb ?c then _ else _) = _ => destruct c
  end; cbn [negb] in H, Hwf; [|injection H as _ _ _ <-; exact H0].
  bind_as H o1 Hf.
  repeat rewrite Z.shiftl_1_l in Hf. repeat rewrite Z.shiftl_1_l in H.
  repeat rewrite Z.shiftl_1_l in Hwf.
  match type of H with
  | lzw_blocks _ _ _ _ _ _ _ _ _ (mkRegs _ ?mk _ ?cu _ ?cc ?bz) _ = _ =>
      destruct (LoadFrame_start GIF_BIGE (u8 d buff) bptr0 m o1 mk cu cc bz
                  ltac:(lia) Hf) as (A & B & Hi)
  end.
  change o with (snd (ret, b, s, o)).
  eapply (lzw_blocks_keep GIF_BIGE d hlen (bptr0 - GIF_CLEN * 4) (u8 d buff)
            ltac:(lia) (covers bptr0)); [| exact Hi | | exact Hwf | exact H].
  - intros r0 o0 x0. apply emit_cover. lia.
  - unfold covers. rewrite A, B. cbn. split; [lia|]. split; [constructor|].
    intros a. lia.
Qed.

(** What a call on a code stream that only uses defined codes leaves. *)
Lemma LoadFrame_wf_out (GIF_BIGE : bool) (d : buffer) (hlen buff size bptr0 : Z)
    (m : mem) (ret b s : Z) (o : out) :
  frame_wf GIF_BIGE d buff size = true ->
  _GIF_LoadFrame GIF_BIGE d hlen buff size bptr0 m = Ret (ret, b, s, o) ->
  (covers bptr0 o /\ holds_log o) /\ wlog_ok (u8 d buff) o.
Proof.
  intros Hwf H.
  assert ((covers bptr0 (mkOut bptr0 m []) /\ holds_log (mkOut bptr0 m []))
          /\ wlog_ok (u8 d buff) (mkOut bptr0 m [])) as H0.
  { unfold covers, holds_log, wlog_ok. cbn.
    split; [split; [split; [lia|]; split; [constructor|]; intros a; lia | tauto]
           | constructor]. }
  unfold _GIF_LoadFrame in H. unfold frame_wf in Hwf. cbv zeta in H, Hwf.
  destruct (size - 1 <=? GIF_HLEN); [injection H as _ _ _ <-; exact H0|].
  destruct (u8 d (buff + 1) =? 0); [injection H as _ _ _ <-; exact H0|].
  destruct ((u8 d buff <? 2) || (u8 d buff >? 8)) eqn:E2;
    [injection H as _ _ _ <-; exact H0|].
  apply orb_false_iff in E2. destruct E2 as [E2 E3]. apply Z.ltb_ge in E2.
  assert (u8 d buff <= 8) as E4
    by (destruct (Z.gtb_spec (u8 d buff) 8); [discriminate | lia]).
  match type of H with
  | (if negb ?c then _ else _) = _ => destruct c
  end; cbn [negb] in H, Hwf; [|injection H as _ _ _ <-; exact H0].
  bind_as H o1 Hf.
  repeat rewrite Z.shiftl_1_l in Hf. repeat rewrite Z.shiftl_1_l in H.
  repeat rewrite Z.shiftl_1_l in Hwf.
  assert (2 <= u8 d buff <= 8) as Hc by lia.
  match type of H with
  | lzw_blocks _ _ _ _ _ _ _ _ _ (mkRegs _ ?mk _ ?cu _ ?cc ?bz) _ = _ =>
      destruct (LoadFrame_start GIF_BIGE (u8 d buff) bptr0 m o1 mk cu cc bz Hc Hf)
        as (A & B & Hi)
  end.
  change o with (snd (ret, b, s, o)).
  eapply (lzw_blocks_keep GIF_BIGE d hlen (bptr0 - GIF_CLEN * 4) (u8 d buff) Hc
            (fun o => (covers bptr0 o /\ holds_log o) /\ wlog_ok (u8 d buff) o));
    [| exact Hi | | exact Hwf | exact H].
  - intros r0 o0 x0 Hi0 Hok0 (Hch & Hw0) He0. split.
    + apply (emit_holds GIF_BIGE hlen (bptr0 - GIF_CLEN * 4) (u8 d buff) Hc bptr0 r0 o0);
        try assumption. unfold GIF_CLEN, GIF_BLEN. lia.
    + apply (emit_inv GIF_BIGE hlen (bptr0 - GIF_CLEN * 4) (u8 d buff) Hc r0 o0 x0 Hi0 Hok0 He0).
  - unfold covers, holds_log, wlog_ok. rewrite A, B. cbn.
    split; [split; [split; [lia|]; split; [constructor|]; intros a; lia | tauto]
           | constructor].
Qed.

(** X16.  When the code stream of a frame only uses codes that are defined
    when they are read, the block holds afterwards, at every raster address
    from the start of the raster up to the final cursor, the byte that the
    call wrote there, and that byte is below [2 ^ ctsz], [ctsz] being the
    minimum code size of the frame: no byte written is overwritten later,
    by the code table either. *)
Theorem LoadFrame_raster (GIF_BIGE : bool) (d : buffer) (hlen buff size bptr0 : Z)
    (m : mem) (ret b s : Z) (o : out) :
  frame_wf GIF_BIGE d buff size = true ->
  _GIF_LoadFrame GIF_BIGE d hlen buff size bptr0 m = Ret (ret, b, s, o) ->
  forall a, bptr0 <= a < bptr o ->
    In (a, heap o a) (wlog o) /\ 0 <= heap o a < 2 ^ u8 d buff.
Proof.
  intros Hwf H a Ha.
  destruct (LoadFrame_wf_out GIF_BIGE d hlen buff size bptr0 m ret b s o Hwf H)
    as (((_ & _ & Hin) & Hh) & Hw).
  apply Hin in Ha. apply in_map_iff in Ha. destruct Ha as ([a' v] & Hfst & Hav).
  cbn [fst] in Hfst. subst a'.
  rewrite (Hh a v Hav). split; [exact Hav|].
  unfold wlog_ok in Hw. rewrite Forall_forall in Hw. exact (Hw (a, v) Hav).
Qed.


(** * Further properties of the loader *)

Lemma bind_Fault {A B : Type} (m : res A) (k : A -> res B) (f : fault) :
  bind m k = Fault f -> m = Fault f \/ exists a, m = Ret a /\ k a = Fault f.
Proof.
  destruct m as [a|f0|]; simpl; intros H; try discriminate.
  - right. exists a. split; [reflexivity | exact H].
  - left. injection H as <-. reflexivity.
Qed.

Lemma bind_Timeout {A B : Type} (m : res A) (k : A -> res B) :
  bind m k = Timeout -> m = Timeout \/ exists a, m = Ret a /\ k a = Timeout.
Proof.
  destruct m as [a|f0|]; simpl; intros H; try discriminate.
  - right. exists a. split; [reflexivity | exact H].
  - left. reflexivity.
Qed.

Lemma Ret_triple {A B C : Type} (a a' : A) (b b' : B) (c c' : C) :
  Ret (a, b, c) = Ret (a', b', c') -> a = a' /\ b = b' /\ c = c'.
Proof. intros H. injection H. auto. Qed.

(** ** [_GIF_SkipChunk]: the cursor and the size move together *)

Lemma SkipChunk_loop_moves (d : buffer) (fuel : nat) :
  forall p s r b s',
    SkipChunk_loop fuel d p s = Ret (r, b, s') ->
    b + s' = p + s /\ p < b /\ (r = 0 /\ s' <= 0 \/ r = 1 /\ 0 < s').
Proof.
  induction fuel as [|fuel IH]; intros p s r b s' H; [discriminate|].
  cbn [SkipChunk_loop] in H. cbv zeta in H. pose proof (u8_range d p) as Hu.
  destruct (s - (1 + u8 d p) <=? 0) eqn:E.
  - apply Z.leb_le in E. apply Ret_triple in H. destruct H as (<- & <- & <-). lia.
  - apply Z.leb_gt in E. destruct (1 + u8 d p >? 1) eqn:E1.
    + apply IH in H. lia.
    + destruct (Z.gtb_spec (1 + u8 d p) 1); [discriminate|].
      apply Ret_triple in H. destruct H as (<- & <- & <-). lia.
Qed.

Lemma SkipChunk_sum (d : buffer) (buff size : Z) :
  exists r b s,
    _GIF_SkipChunk d buff size = Ret (r, b, s)
    /\ b + s = buff + size /\ buff < b
    /\ (r = 0 /\ s <= 0 \/ r = 1 /\ 0 < s).
Proof.
  unfold _GIF_SkipChunk. cbv zeta.
  destruct (size - 1 <=? 0) eqn:E.
  - apply Z.leb_le in E. exists 0, (buff + 1), (size - 1).
    split; [reflexivity | lia].
  - apply Z.leb_gt in E.
    destruct (SkipChunk_loop_spec d (Z.to_nat (size - 1)) (buff + 1) (size - 1)
                ltac:(lia) ltac:(lia)) as (r & b & s & H & _).
    exists r, b, s. split; [exact H|].
    apply SkipChunk_loop_moves in H. lia.
Qed.

(** X1.  [_GIF_SkipChunk] always returns, with 0 or 1.  It moves the cursor
    forward by as much as it takes from the size, and its result is 1 exactly
    when some bytes are left after the chunk. *)
Theorem SkipChunk_moves (d : buffer) (buff size : Z) :
  exists r b s,
    _GIF_SkipChunk d buff size = Ret (r, b, s)
    /\ b + s = buff + size /\ buff < b
    /\ (r = 0 /\ s <= 0 \/ r = 1 /\ 0 < s).
Proof.
  destruct (SkipChunk_sum d buff size) as (r & b & s & H).
  exists r, b, s. exact H.
Qed.

(** ** [_GIF_LoadFrameHdr]: which palette, and how many colours *)

Lemma shiftl_2_land7 (f : Z) :
  0 <= Z.land f 7 <= 7 /\ Z.shiftl 2 (Z.land f 7) = 2 ^ (Z.land f 7 + 1).
Proof.
  pose proof (land_low_bits f 3 ltac:(lia)) as H. change (2 ^ 3 - 1) with 7 in H.
  split; [lia|]. rewrite Z.shiftl_mul_pow2 by lia.
  rewrite Z.pow_add_r by lia. lia.
Qed.

Lemma land_bit (f k : Z) :
  0 <= k -> (Z.land f (2 ^ k) =? 0) = negb (Z.testbit f k).
Proof.
  intros Hk. destruct (Z.testbit f k) eqn:E; cbn [negb].
  - apply Z.eqb_neq. intros H.
    assert (Z.testbit (Z.land f (2 ^ k)) k = false) as H1 by (rewrite H; apply Z.bits_0).
    rewrite Z.land_spec, E, Z.pow2_bits_true in H1 by lia. discriminate.
  - apply Z.eqb_eq. apply Z.bits_inj'. intros i Hi.
    rewrite Z.land_spec, Z.bits_0, Z.pow2_bits_eqb by lia.
    destruct (Z.eqb_spec k i) as [<-|]; [rewrite E; reflexivity | apply andb_false_r].
Qed.

Lemma land_0x80 (f : Z) : (Z.land f GIF_FPAL =? 0) = negb (Z.testbit f 7).
Proof. exact (land_bit f 7 ltac:(lia)). Qed.

Lemma LoadFrameHdr_cases (buff size flen gflg fflg rpal : Z) :
  let '(r, b, s, rp) := _GIF_LoadFrameHdr buff size flen gflg fflg rpal in
  b + s = buff + size
  /\ (r = -2 \/ r = -1 \/ r = 0 \/ exists k, 0 <= k <= 7 /\ r = 2 ^ (k + 1))
  /\ (r = -2 <-> flen <> 0 /\ size - flen <= 0)
  /\ (0 < r -> flen <> 0 -> 0 < s)
  /\ (-2 < r ->
      if negb (flen =? 0) && Z.testbit fflg 7
      then rp = buff + flen /\ b = rp + 3 * 2 ^ (Z.land fflg 7 + 1)
           /\ (r = -1 \/ r = 2 ^ (Z.land fflg 7 + 1))
           /\ (r = -1 <-> s <= 0)
      else rp = rpal /\ b = buff + flen
           /\ r = (if Z.testbit gflg 7 then 2 ^ (Z.land gflg 7 + 1) else 0)).
Proof.
  unfold _GIF_LoadFrameHdr. cbv zeta. rewrite !land_0x80, !negb_involutive.
  destruct (shiftl_2_land7 fflg) as [Hf1 Hf2]. destruct (shiftl_2_land7 gflg) as [Hg1 Hg2].
  rewrite Hf2, Hg2.
  assert (0 < 2 ^ (Z.land fflg 7 + 1)) as Hpf by (apply Z.pow_pos_nonneg; lia).
  assert (0 < 2 ^ (Z.land gflg 7 + 1)) as Hpg by (apply Z.pow_pos_nonneg; lia).
  destruct (Z.eqb_spec flen 0) as [->|Hfl]; cbn [negb andb].
  - destruct (Z.testbit gflg 7).
    + repeat split; try lia. right; right; right. exists (Z.land gflg 7). lia.
    + repeat split; try lia.
  - destruct (size - flen <=? 0) eqn:E1.
    + apply Z.leb_le in E1. repeat split; try lia.
    + apply Z.leb_gt in E1. destruct (Z.testbit fflg 7).
      * destruct (size - flen - 2 ^ (Z.land fflg 7 + 1) * 3 <=? 0) eqn:E2.
        -- apply Z.leb_le in E2. repeat split; try lia.
        -- apply Z.leb_gt in E2. repeat split; try lia.
           right; right; right. exists (Z.land fflg 7). lia.
      * destruct (Z.testbit gflg 7).
        -- repeat split; try lia. right; right; right. exists (Z.land gflg 7). lia.
        -- repeat split; try lia.
Qed.

(** X2.  [_GIF_LoadFrameHdr] moves the cursor by as much as it takes from
    the size.  Its result is -2, -1, 0 or a power of two from 2 to 256: the
    size of the local palette when a header is read ([flen] not 0) whose
    flags have bit 7, else the size of the global palette when the global
    flags have bit 7, else 0.  With a local palette the palette pointer is
    set to the byte after the header, and the cursor ends after the palette;
    otherwise the pointer is left alone.  A positive result after a header
    leaves a positive size. *)
Theorem LoadFrameHdr_palette (buff size flen gflg fflg rpal : Z) :
  let '(r, b, s, rp) := _GIF_LoadFrameHdr buff size flen gflg fflg rpal in
  b + s = buff + size
  /\ (r = -2 \/ r = -1 \/ r = 0 \/ exists k, 0 <= k <= 7 /\ r = 2 ^ (k + 1))
  /\ (r = -2 <-> flen <> 0 /\ size - flen <= 0)
  /\ (0 < r -> flen <> 0 -> 0 < s)
  /\ (-2 < r ->
      if negb (flen =? 0) && Z.testbit fflg 7
      then rp = buff + flen /\ b = rp + 3 * 2 ^ (Z.land fflg 7 + 1)
           /\ (r = -1 \/ r = 2 ^ (Z.land fflg 7 + 1))
           /\ (r = -1 <-> s <= 0)
      else rp = rpal /\ b = buff + flen
           /\ r = (if Z.testbit gflg 7 then 2 ^ (Z.land gflg 7 + 1) else 0)).
Proof. exact (LoadFrameHdr_cases buff size flen gflg fflg rpal). Qed.

(** ** [_GIF_LoadFrame]: what its result does not depend on *)

Section Hosts.

Variables b1 b2 : bool.  (** two hosts *)
Variable d : buffer.

Lemma lzw_codes_hosts (h1 c1 h2 c2 ctsz : Z) (fuel : nat) :
  forall r o1 o2 x1 x2,
    lzw_codes b1 h1 c1 ctsz fuel r o1 = Ret x1 ->
    lzw_codes b2 h2 c2 ctsz fuel r o2 = Ret x2 ->
    same_regs x1 x2.
Proof.
  induction fuel as [|fuel IH]; intros r o1 o2 x1 x2 H1 H2; [discriminate|].
  cbn [lzw_codes] in H1, H2. destruct (bszc r >=? 0).
  - bind_as H1 y1 Hy1. bind_as H2 y2 Hy2.
    apply lzw_code_regs in Hy1, Hy2.
    destruct y1 as [[ra oa]|oa], y2 as [[rb ob]|ob]; try congruence.
    + assert (ra = rb) as -> by congruence. eapply IH; eassumption.
    + injection H1 as <-. injection H2 as <-. exact I.
  - injection H1 as <-. injection H2 as <-. reflexivity.
Qed.

Lemma lzw_block_hosts (h1 c1 h2 c2 ctsz : Z) (fuel : nat) :
  forall buff bseq r o1 o2 p1 q1 x1 p2 q2 x2,
    lzw_block b1 d h1 c1 ctsz fuel buff bseq r o1 = Ret (p1, q1, x1) ->
    lzw_block b2 d h2 c2 ctsz fuel buff bseq r o2 = Ret (p2, q2, x2) ->
    p1 = p2 /\ q1 = q2 /\ same_regs x1 x2.
Proof.
  induction fuel as [|fuel IH]; intros buff bseq r o1 o2 p1 q1 x1 p2 q2 x2 H1 H2;
    [discriminate|].
  cbn [lzw_block] in H1, H2. cbv zeta in H1, H2.
  rewrite !swap_host16 in H1, H2. destruct (bseq >? 0).
  - bind_as H1 y1 Hy1. bind_as H2 y2 Hy2.
    pose proof (lzw_codes_hosts _ _ _ _ _ _ _ _ _ _ _ Hy1 Hy2) as Hs.
    destruct y1 as [[ra oa]|oa], y2 as [[rb ob]|ob]; cbn [same_regs] in Hs;
      try contradiction.
    + subst rb. eapply IH; eassumption.
    + injection H1 as <- <- <-. injection H2 as <- <- <-. cbn. auto.
  - injection H1 as <- <- <-. injection H2 as <- <- <-. cbn. auto.
Qed.

Lemma lzw_blocks_hosts (h1 c1 h2 c2 ctsz : Z) (fuel : nat) :
  forall buff bseq size r o1 o2 x1 x2,
    lzw_blocks b1 d h1 c1 ctsz fuel buff bseq size r o1 = Ret x1 ->
    lzw_blocks b2 d h2 c2 ctsz fuel buff bseq size r o2 = Ret x2 ->
    fst x1 = fst x2.
Proof.
  induction fuel as [|fuel IH]; intros buff bseq size r o1 o2 x1 x2 H1 H2;
    [discriminate|].
  cbn [lzw_blocks] in H1, H2. cbv zeta in H1, H2.
  destruct (size - (bseq + 1) <=? 0).
  - injection H1 as <-. injection H2 as <-. reflexivity.
  - bind_as H1 y1 Hy1. bind_as H2 y2 Hy2.
    destruct y1 as [[ba qa] ya], y2 as [[bb qb] yb].
    destruct (lzw_block_hosts _ _ _ _ _ _ _ _ _ _ _ _ _ _ _ _ _ Hy1 Hy2) as (-> & -> & Hs).
    destruct ya as [[ra oa]|oa], yb as [[rb ob]|ob]; cbn [same_regs] in Hs;
      try contradiction.
    + subst rb. destruct (negb (u8 d (bb + qb) =? 0)).
      * eapply IH; eassumption.
      * injection H1 as <-. injection H2 as <-. reflexivity.
    + injection H1 as <-. injection H2 as <-. reflexivity.
Qed.

Lemma LoadFrame_hosts (h1 p1 h2 p2 buff size : Z) (m1 m2 : mem) (s1 s2 : Z * Z * Z) :
  frame_status (_GIF_LoadFrame b1 d h1 buff size p1 m1) = Some s1 ->
  frame_status (_GIF_LoadFrame b2 d h2 buff size p2 m2) = Some s2 ->
  s1 = s2.
Proof.
  unfold frame_status, _GIF_LoadFrame. cbv zeta. rewrite !swap_host16.
  destruct (size - 1 <=? GIF_HLEN); [cbn; congruence|].
  destruct (u8 d (buff + 1) =? 0); [cbn; congruence|].
  destruct ((u8 d buff <? 2) || (u8 d buff >? 8)); [cbn; congruence|].
  match goal with |- context [if negb ?c then _ else _] => destruct c end;
    cbn [negb]; [|cbn; congruence].
  destruct (fill b1 (p1 - GIF_CLEN * 4) _ _ _ _) as [oa| |]; cbn [bind];
    [|discriminate | discriminate].
  destruct (fill b2 (p2 - GIF_CLEN * 4) _ _ _ _) as [ob| |]; cbn [bind];
    [|discriminate | discriminate].
  match goal with
  | |- option_map fst (returned ?A) = _ -> option_map fst (returned ?B) = _ -> _ =>
      destruct A as [xa| |] eqn:Ea; [|discriminate | discriminate];
      destruct B as [xb| |] eqn:Eb; [|discriminate | discriminate]
  end.
  cbn. intros H1 H2. injection H1 as <-. injection H2 as <-.
  eapply lzw_blocks_hosts; eassumption.
Qed.

End Hosts.

(** X3.  The result of [_GIF_LoadFrame], and the cursor and the size it
    leaves, are set by the input alone: two calls at the same place of the
    same input that both return agree on them, whatever the byte order of the
    host, the contents of the block, its size and the address of the
    raster. *)
Theorem LoadFrame_status_input_only (b1 b2 : bool) (d : buffer)
    (h1 p1 h2 p2 buff size : Z) (m1 m2 : mem) (r1 c1 s1 r2 c2 s2 : Z) (o1 o2 : out) :
  _GIF_LoadFrame b1 d h1 buff size p1 m1 = Ret (r1, c1, s1, o1) ->
  _GIF_LoadFrame b2 d h2 buff size p2 m2 = Ret (r2, c2, s2, o2) ->
  r1 = r2 /\ c1 = c2 /\ s1 = s2.
Proof.
  intros H1 H2.
  assert ((r1, c1, s1) = (r2, c2, s2)) as H.
  { apply (LoadFrame_hosts b1 b2 d h1 p1 h2 p2 buff size m1 m2).
    - rewrite H1. reflexivity.
    - rewrite H2. reflexivity. }
  injection H. auto.
Qed.

(** ** [_GIF_LoadFrame]: what it turns down before it decodes *)

(** X4.  [_GIF_LoadFrame] returns -5 without moving the cursor when at most
    3 bytes are left.  Otherwise it returns -4 exactly when the first
    sub-block is empty, -3 exactly when that is not so and the minimum code
    size is not in 2..8, and -2 exactly when neither is so and the first code
    is not the table drop code.  In all these cases the block is as the call
    found it, and one byte is taken from the size. *)
Theorem LoadFrame_rejections (GIF_BIGE : bool) (d : buffer)
    (hlen buff size bptr0 : Z) (m : mem) :
  wp heap_only (_GIF_LoadFrame GIF_BIGE d hlen buff size bptr0 m)
     (fun x => let '(ret, b, s, o) := x in
        let ctsz := u8 d buff in
        let first := Z.land (2 ^ (ctsz + 1) - 1)
                       (u8 d (buff + 2) + 256 * u8 d (buff + 3)) in
        (size <= 3 -> ret = -5 /\ b = buff)
        /\ (ret = -4 <-> 3 < size /\ u8 d (buff + 1) = 0)
        /\ (ret = -3 <-> 3 < size /\ u8 d (buff + 1) <> 0 /\ ~ 2 <= ctsz <= 8)
        /\ (ret = -2 <-> 3 < size /\ u8 d (buff + 1) <> 0 /\ 2 <= ctsz <= 8
                         /\ first <> 2 ^ ctsz)
        /\ (size <= 3 \/ ret = -4 \/ ret = -3 \/ ret = -2 ->
            heap o = m /\ wlog o = [] /\ s = size - 1)
        /\ (ret = -4 \/ ret = -3 \/ ret = -2 -> b = buff + 2)).
Proof.
  unfold _GIF_LoadFrame. cbv zeta. rewrite swap_host16.
  destruct (size - 1 <=? GIF_HLEN) eqn:E0.
  { apply Z.leb_le in E0. unfold GIF_HLEN in E0. cbn [wp heap wlog].
    repeat split; try lia; intros; lia. }
  apply Z.leb_gt in E0. unfold GIF_HLEN in E0.
  destruct (u8 d (buff + 1) =? 0) eqn:E1.
  { apply Z.eqb_eq in E1. cbn [wp heap wlog].
    repeat split; try lia; intros; lia. }
  apply Z.eqb_neq in E1. pose proof (u8_range d (buff + 1)) as Hq.
  destruct ((u8 d buff <? 2) || (u8 d buff >? 8)) eqn:E2.
  { apply orb_true_iff in E2.
    assert (~ 2 <= u8 d buff <= 8) as Hc.
    { destruct E2 as [E2|E2]; [apply Z.ltb_lt in E2; lia|].
      destruct (Z.gtb_spec (u8 d buff) 8); [lia | discriminate]. }
    cbn [wp heap wlog]. repeat split; try lia; intros; lia. }
  apply orb_false_iff in E2. destruct E2 as [E2 E3]. apply Z.ltb_ge in E2.
  assert (u8 d buff <= 8) as E4
    by (destruct (Z.gtb_spec (u8 d buff) 8); [discriminate | lia]).
  pose proof (pow2_bounds (u8 d buff) ltac:(lia)) as Hp1.
  pose proof (pow2_bounds (u8 d buff + 1) ltac:(lia)) as Hp2.
  rewrite !shiftl_1_pow by lia. rewrite GIF_H_small by lia.
  replace (buff + 1 + 1 + 1) with (buff + 3) by lia.
  replace (buff + 1 + 1) with (buff + 2) by lia.
  set (first := Z.land (2 ^ (u8 d buff + 1) - 1)
                  (u8 d (buff + 2) + 256 * u8 d (buff + 3))).
  destruct (2 ^ u8 d buff =? first) eqn:E5; cbn [negb].
  2:{ apply Z.eqb_neq in E5. cbn [wp heap wlog].
      repeat split; try lia; intros; lia. }
  apply Z.eqb_eq in E5.
  eapply wp_bind.
  { apply fill_safe; unfold GIF_CLEN; lia. }
  intros o1 _.
  eapply wp_mono.
  { apply lzw_blocks_safe with (ctsz := u8 d buff).
    - lia.
    - unfold regs_ok. cbn [prev ctbl ccsz mask]. unfold GIF_CLEN. lia.
    - f_equal. lia.
    - lia.
    - lia.
    - lia. }
  intros [[[ret b] s] o2] (Hs & Hret & Hch).
  repeat split; try lia; intros; lia.
Qed.

(** ** [_GIF_LoadFrame]: where it leaves the cursor *)

Lemma chain_last (d : buffer) (p n : Z) : chain d p n -> u8 d (p + n - 1) = 0.
Proof.
  induction 1 as [p H|p n H _ IH].
  - replace (p + 1 - 1) with p by lia. exact H.
  - replace (p + (1 + u8 d p + n) - 1) with (p + 1 + u8 d p + n - 1) by lia. exact IH.
Qed.

Lemma lzw_blocks_end (GIF_BIGE : bool) (d : buffer) (hlen code ctsz : Z) (fuel : nat) :
  forall buff bseq size r o ret b s o',
    lzw_blocks GIF_BIGE d hlen code ctsz fuel buff bseq size r o = Ret (ret, b, s, o') ->
    ret = -1 -> u8 d (b - 1) <> 0.
Proof.
  induction fuel as [|fuel IH]; intros buff bseq size r o ret b s o' H Hr;
    [discriminate|].
  cbn [lzw_blocks] in H. cbv zeta in H.
  destruct (size - (bseq + 1) <=? 0); [congruence|].
  bind_as H y Hy. destruct y as [[p q] [[r1 o1]|o1]].
  - destruct (negb (u8 d (p + q) =? 0)).
    + exact (IH _ _ _ _ _ _ _ _ _ H Hr).
    + congruence.
  - destruct (u8 d (p + q) =? 0) eqn:E; cbn [negb] in H; [congruence|].
    apply Z.eqb_neq in E.
    assert (b = p + q + 1) as -> by congruence.
    replace (p + q + 1 - 1) with (p + q) by lia. exact E.
Qed.

Lemma LoadFrame_end (GIF_BIGE : bool) (d : buffer) (hlen buff size bptr0 : Z)
    (m : mem) (ret b s : Z) (o : out) :
  _GIF_LoadFrame GIF_BIGE d hlen buff size bptr0 m = Ret (ret, b, s, o) ->
  ret = -1 -> u8 d (b - 1) <> 0.
Proof.
  unfold _GIF_LoadFrame. cbv zeta. intros H Hr.
  destruct (size - 1 <=? GIF_HLEN); [congruence|].
  destruct (u8 d (buff + 1) =? 0); [congruence|].
  destruct ((u8 d buff <? 2) || (u8 d buff >? 8)); [congruence|].
  match type of H with
  | (if negb ?c then _ else _) = _ => destruct c
  end; cbn [negb] in H; [|congruence].
  bind_as H o1 Hf. exact (lzw_blocks_end _ _ _ _ _ _ _ _ _ _ _ _ _ _ _ H Hr).
Qed.

(** X5.  When [_GIF_LoadFrame] returns 0 or 1, the byte before the cursor
    is the terminator of the sub-block chain of the frame, and if bytes are
    left, [_GIF_SkipChunk] at the same place ends with the same cursor and
    size: a frame is left at the same place whether it is decoded or skipped.
    When it returns -1, the sub-block that holds the end-of-data code is not
    followed by a terminator. *)
Theorem LoadFrame_then_skip (GIF_BIGE : bool) (d : buffer)
    (hlen buff size bptr0 : Z) (m : mem) :
  wp heap_only (_GIF_LoadFrame GIF_BIGE d hlen buff size bptr0 m)
     (fun x => let '(ret, b, s, o) := x in
        (0 <= ret ->
         u8 d (b - 1) = 0
         /\ (0 < s -> _GIF_SkipChunk d buff size = Ret (1, b, s)))
        /\ (ret = -1 -> u8 d (b - 1) <> 0)).
Proof.
  pose proof (LoadFrame_safe GIF_BIGE d hlen buff size bptr0 m) as Hs.
  destruct (_GIF_LoadFrame GIF_BIGE d hlen buff size bptr0 m)
    as [[[[ret b] s] o]|f|] eqn:H; cbn [wp] in Hs |- *; [|exact Hs | exact Hs].
  destruct Hs as (_ & _ & Hch). split.
  - intros Hge. destruct (Hch Hge) as (n & Hn & -> & ->). split.
    + apply chain_last. exact Hn.
    + intros Hpos. apply SkipChunk_chain; assumption.
  - exact (LoadFrame_end _ _ _ _ _ _ _ _ _ _ _ H).
Qed.

(** ** [GIF_Load]: how it can fail *)

Section Failures.

Variable GIF_BIGE : bool.
Variable d : buffer.

Lemma SkipChunk_no_fault (b s : Z) (f : fault) : _GIF_SkipChunk d b s <> Fault f.
Proof.
  destruct (SkipChunk_spec d b s) as (r & b2 & s2 & H & _). rewrite H. discriminate.
Qed.

Lemma count_frames_no_fault (gflg : Z) (fuel : nat) :
  forall bptr blen ifrm cpal f,
    count_frames fuel d gflg bptr blen ifrm cpal <> Fault f.
Proof.
  induction fuel as [|fuel IH]; intros bptr blen ifrm cpal f; [discriminate|].
  cbn [count_frames]. cbv zeta.
  destruct (negb (u8 d bptr =? GIF_EOFM)); [|discriminate].
  destruct (u8 d bptr =? GIF_FHDM).
  - destruct (_GIF_LoadFrameHdr _ _ _ _ _ _) as [[[cl b] s] cp].
    destruct (cl <=? 0); [discriminate|].
    intros H. apply bind_Fault in H.
    destruct H as [H|([[ok b2] s2] & _ & H)]; [exact (SkipChunk_no_fault _ _ _ H)|].
    destruct (ok =? 0); [discriminate | exact (IH _ _ _ _ _ H)].
  - cbn [Z.leb]. change (1 <=? 0) with false. cbv iota.
    intros H. apply bind_Fault in H.
    destruct H as [H|([[ok b2] s2] & _ & H)]; [exact (SkipChunk_no_fault _ _ _ H)|].
    destruct (ok =? 0); [discriminate | exact (IH _ _ _ _ _ H)].
Qed.

Lemma LoadFrame_fault (hlen buff size bptr0 : Z) (m : mem) (f : fault) :
  _GIF_LoadFrame GIF_BIGE d hlen buff size bptr0 m = Fault f -> f = HeapBounds.
Proof.
  intros H. pose proof (LoadFrame_safe GIF_BIGE d hlen buff size bptr0 m) as Hs.
  rewrite H in Hs. exact Hs.
Qed.

Lemma extract_block_fault (amdf : bool) (skip hlen : Z) (e : ext) (f : fault) :
  extract_block GIF_BIGE d amdf skip hlen e = Fault f -> f = HeapBounds.
Proof.
  unfold extract_block. cbv zeta.
  destruct (u8 d (x_buff e) =? GIF_FHDM).
  - destruct (_GIF_LoadFrameHdr _ _ _ _ _ _) as [[[cl b] s] cp].
    destruct (ifrm (whdr e) + 1 >=? skip); [|discriminate].
    destruct (cl <=? 0); [discriminate|].
    intros H. apply bind_Fault in H.
    destruct H as [H|([[[r b2] s2] o] & _ & H)]; [exact (LoadFrame_fault _ _ _ _ _ _ H)|].
    destruct (r <? 0); discriminate.
  - destruct (u8 d (x_buff e) =? GIF_EHDM); [|discriminate].
    destruct (u8 d (x_buff e + 1) =? GIF_FGCM); [discriminate|].
    destruct ((u8 d (x_buff e + 1) =? GIF_AMDM) && amdf); discriminate.
Qed.

Lemma extract_step_fault (amdf : bool) (skip hlen : Z) (e : ext) (f : fault) :
  extract_step GIF_BIGE d amdf skip hlen e = Fault f -> f = HeapBounds.
Proof.
  unfold extract_step. cbv zeta. intros H. apply bind_Fault in H.
  destruct H as [H|([next e1] & _ & H)]; [exact (extract_block_fault _ _ _ _ _ H)|].
  destruct next; [discriminate|].
  destruct (u8 d (x_buff e) =? GIF_EOFM); [discriminate|].
  apply bind_Fault in H.
  destruct H as [H|([[ok b2] s2] & _ & H)]; [destruct (SkipChunk_no_fault _ _ _ H)|].
  destruct (ok =? 0); discriminate.
Qed.

Lemma extract_fault (amdf : bool) (skip hlen : Z) (fuel : nat) :
  forall e f, extract GIF_BIGE d amdf skip hlen fuel e = Fault f -> f = HeapBounds.
Proof.
  induction fuel as [|fuel IH]; intros e f H; [discriminate|].
  cbn [extract] in H.
  destruct (skip <? _); [|discriminate].
  apply bind_Fault in H.
  destruct H as [H|([e1|e1] & _ & H)];
    [exact (extract_step_fault _ _ _ _ _ H) | exact (IH _ _ H) | discriminate].
Qed.

End Failures.

(** X6.  [GIF_Load] returns on every input unless the data of a frame
    overrun the block: it does not loop for ever, it never indexes the code
    table outside its 4096 cells, and an overrun of the block is its only
    failure. *)
Theorem GIF_Load_failures (GIF_BIGE : bool) (d : buffer) (size : Z) (amdf : bool)
    (skip : Z) (m0 : mem) :
  (exists r tr, GIF_Load GIF_BIGE d size amdf skip m0 = Ret (r, tr))
  \/ GIF_Load GIF_BIGE d size amdf skip m0 = Fault HeapBounds.
Proof.
  assert (wp any_fault (GIF_Load GIF_BIGE d size amdf skip m0) (fun _ => True)) as Hw.
  { apply GIF_Load_wp; [auto|]. intros desc cnt cpal _ _ _ _ _.
    exists (fun _ => True). auto. }
  destruct (GIF_Load GIF_BIGE d size amdf skip m0) as [[r tr]|f|] eqn:H.
  - left. exists r, tr. reflexivity.
  - right. f_equal. revert H. unfold GIF_Load. cbv zeta.
    destruct (negb (signature_ok d size) || (skip <? 0)); [discriminate|].
    destruct (size - first_block d <=? 0); [discriminate|].
    intros H. apply bind_Fault in H.
    destruct H as [H|([[desc cnt] cpal] & _ & H)].
    + unfold counting in H. cbv zeta in H.
      destruct (count_frames_no_fault d _ _ _ _ _ _ _ H).
    + apply bind_Fault in H. destruct H as [H|(e & _ & H)]; [|discriminate].
      exact (extract_fault _ _ _ _ _ _ _ _ H).
  - destruct Hw.
Qed.

(** ** [GIF_Load]: more frames skipped than there are *)

(** X7.  When [skip] is not below the number of frames counted, [GIF_Load]
    allocates and frees the block and calls neither the frame writer nor the
    metadata reader.  It returns 0 when the input has its ending mark or no
    frame was counted, and [skip] itself when the input is cut short after at
    least one frame. *)
Theorem GIF_Load_skip_all (GIF_BIGE : bool) (d : buffer) (size : Z) (amdf : bool)
    (skip : Z) (m0 : mem) (desc cnt cpal : Z) :
  signature_ok d size = true -> 0 <= skip -> first_block d < size ->
  counting d size = Ret (desc, cnt, cpal) -> cnt <= skip ->
  GIF_Load GIF_BIGE d size amdf skip m0
  = Ret (if (desc =? GIF_EOFM) || (cnt =? 0) then 0 else skip,
         [MGET (load_blen GIF_BIGE d) 1; MGET (load_blen GIF_BIGE d) 0]).
Proof.
  intros Hsig Hskip Hfb Hcnt Hle.
  pose proof (counting_spec d size) as Hc. rewrite Hcnt in Hc. cbn in Hc.
  unfold GIF_Load. cbv zeta. rewrite Hsig.
  replace (skip <? 0) with false by (symmetry; apply Z.ltb_ge; lia).
  replace (size - first_block d <=? 0) with false by (symmetry; apply Z.leb_gt; lia).
  cbn [negb orb]. rewrite Hcnt. cbn [bind].
  rewrite Nat.add_1_r. cbn [extract whdr nfrm].
  set (n := if desc =? GIF_EOFM then cnt else - cnt).
  replace (skip <? (if n <? 0 then - n else n)) with false.
  2:{ symmetry. apply Z.ltb_ge. unfold n.
      destruct (desc =? GIF_EOFM); destruct (_ <? 0) eqn:E;
        try apply Z.ltb_lt in E; try apply Z.ltb_ge in E; lia. }
  cbn [bind whdr ifrm trace app]. unfold load_blen. f_equal. f_equal.
  unfold n. destruct (desc =? GIF_EOFM) eqn:E1; cbn [orb].
  - replace (cnt <? 0) with false by (symmetry; apply Z.ltb_ge; lia). reflexivity.
  - destruct (Z.eqb_spec cnt 0) as [->|Hne].
    + reflexivity.
    + replace (- cnt <? 0) with true by (symmetry; apply Z.ltb_lt; lia). lia.
Qed.

(** ** [GIF_Load]: what the callbacks are given *)

Lemma sink_frames_app (t1 t2 : list event) :
  sink_frames (t1 ++ t2) = sink_frames t1 ++ sink_frames t2.
Proof. unfold sink_frames. apply flat_map_app. Qed.

Lemma meta_frames_app (t1 t2 : list event) :
  meta_frames (t1 ++ t2) = meta_frames t1 ++ meta_frames t2.
Proof. unfold meta_frames. apply flat_map_app. Qed.

Lemma Ret_pair {A B : Type} (a a' : A) (b b' : B) :
  Ret (a, b) = Ret (a', b') -> a = a' /\ b = b'.
Proof. intros H. injection H. auto. Qed.

Lemma LoadFrameHdr_cursor (buff size gflg fflg rpal : Z) :
  let '(_, b, s, _) := _GIF_LoadFrameHdr buff size sizeof_FHDR gflg fflg rpal in
  b + s = buff + size /\ buff + 9 <= b.
Proof.
  unfold _GIF_LoadFrameHdr, sizeof_FHDR. cbv zeta.
  change (9 =? 0) with false. cbn [negb andb].
  destruct (shiftl_2_land7 fflg) as [Hf1 Hf2]. rewrite Hf2.
  assert (0 < 2 ^ (Z.land fflg 7 + 1)) as Hpf by (apply Z.pow_pos_nonneg; lia).
  destruct (size - 9 <=? 0); [lia|].
  destruct (negb (Z.land fflg GIF_FPAL =? 0)).
  - destruct (_ <=? 0); lia.
  - destruct (negb (Z.land gflg GIF_FPAL =? 0)); lia.
Qed.

Section Events.

Variable GIF_BIGE : bool.
Variable d : buffer.
Variable amdf : bool.
Variable skip : Z.
Variable hlen : Z.

(** What the first part of an iteration does to the descriptor and to the
    trace: nothing to the trace, a frame written, a graphics control
    extension remembered, or an application extension passed on. *)
Lemma extract_block_events (e : ext) (nx : bool) (e1 : ext) :
  extract_block GIF_BIGE d amdf skip hlen e = Ret (nx, e1) ->
  step_events d amdf skip e e1.
Proof.
  unfold step_events.
  unfold extract_block. cbv zeta.
  destruct (u8 d (x_buff e) =? GIF_FHDM) eqn:E0.
  - apply Z.eqb_eq in E0.
    pose proof (LoadFrameHdr_cases (x_buff e + 1) (x_size e - 1) sizeof_FHDR (u8 d 10)
                  (u8 d (x_buff e + 1 + 8)) sizeof_GHDR) as Hh.
    destruct (_GIF_LoadFrameHdr (x_buff e + 1) (x_size e - 1) sizeof_FHDR (u8 d 10)
                (u8 d (x_buff e + 1 + 8)) sizeof_GHDR) as [[[cl b] s] cp].
    destruct Hh as (Hsum & _ & _ & Hpos & Hpal).
    destruct (ifrm (whdr e) + 1 >=? skip) eqn:E1.
    + apply Z.geb_le in E1.
      destruct (cl <=? 0) eqn:E2.
      * intros H. injection H as _ <-. cbn. split; [auto|]. left. split; [auto | lia].
      * apply Z.leb_gt in E2. intros H. bind_as H y Hy.
        destruct y as [[[r b2] s2] o].
        destruct (r <? 0).
        -- injection H as _ <-. cbn. split; [auto|]. left. split; [auto | lia].
        -- injection H as _ <-. cbn [whdr trace xdim ydim bkgd nfrm w_bptr ifrm].
           split; [auto|]. right. left. exists (heap o), (wlog o).
           split; [reflexivity|]. split; [exact E0|].
           split; [|split; [|split; [reflexivity | split; [lia|]]]].
           ++ unfold header_fields, le16. cbn [frxo fryo frxd fryd intr].
              rewrite !swap_host16.
              change GIF_FINT with (2 ^ 6). rewrite land_bit by lia.
              rewrite negb_involutive.
              repeat split; f_equal; f_equal; f_equal; lia.
           ++ unfold palette_fields. cbn [clrs cpal].
              specialize (Hpal ltac:(lia)). unfold sizeof_FHDR in *.
              change (9 =? 0) with false in Hpal. cbn [negb andb] in Hpal.
              destruct (Z.testbit (u8 d (x_buff e + 1 + 8)) 7).
              ** destruct Hpal as (-> & _ & [Hc|Hc] & _); [lia|]. split; [exact Hc | reflexivity].
              ** destruct Hpal as (-> & _ & Hc).
                 destruct (Z.testbit (u8 d 10) 7); [auto | lia].
           ++ unfold sizeof_FHDR in *. specialize (Hpos ltac:(lia) ltac:(lia)).
              specialize (Hpal ltac:(lia)).
              change (9 =? 0) with false in Hpal. cbn [negb andb] in Hpal.
              assert (x_buff e + 1 + 9 <= b) as Hb.
              { destruct (Z.testbit (u8 d (x_buff e + 1 + 8)) 7).
                - destruct Hpal as (-> & -> & _).
                  assert (0 < 2 ^ (Z.land (u8 d (x_buff e + 1 + 8)) 7 + 1)).
                  { apply Z.pow_pos_nonneg; [lia|].
                    pose proof (proj1 (shiftl_2_land7 (u8 d (x_buff e + 1 + 8)))). lia. }
                  lia.
                - lia. }
              lia.
    + intros H. injection H as _ <-. cbn. split; [auto|]. left. split; [auto|].
      right. split; [lia|].
      destruct (Z.geb_spec (ifrm (whdr e) + 1) skip); [discriminate | lia].
  - destruct (u8 d (x_buff e) =? GIF_EHDM) eqn:E1.
    + apply Z.eqb_eq in E1.
      destruct (u8 d (x_buff e + 1) =? GIF_FGCM).
      * intros H. injection H as _ <-. cbn. split; [auto|]. right; right; left.
        replace (x_buff e + 1 + 1 + 1) with (x_buff e + 3) by lia. auto.
      * destruct (u8 d (x_buff e + 1) =? GIF_AMDM) eqn:E2; cbn [andb].
        -- apply Z.eqb_eq in E2. destruct amdf eqn:Ea.
           ++ intros H. injection H as _ <-. cbn [whdr trace].
              split; [auto|]. right; right; right.
              split; [reflexivity|]. split; [exact E1|]. split; [exact E2|].
              split; [reflexivity|]. eexists. split; [reflexivity|].
              cbn. repeat split; lia.
           ++ intros H. injection H as _ <-. cbn. split; [auto|]. left. auto.
        -- intros H. injection H as _ <-. cbn. split; [auto|]. left. auto.
    + intros H. injection H as _ <-. cbn. split; [auto|]. left. auto.
Qed.

(** Where the first part of an iteration leaves the cursor. *)
Lemma extract_block_cursor (e : ext) (nx : bool) (e1 : ext) :
  -1 <= ifrm (whdr e) -> 0 <= skip ->
  extract_block GIF_BIGE d amdf skip hlen e = Ret (nx, e1) ->
  (x_size e1 <= 0
   \/ (x_buff e < x_buff e1 /\ x_buff e1 + x_size e1 = x_buff e + x_size e))
  /\ (nx = true -> 0 < x_size e1).
Proof.
  intros Hi Hk. unfold extract_block. cbv zeta.
  destruct (u8 d (x_buff e) =? GIF_FHDM).
  - pose proof (LoadFrameHdr_cursor (x_buff e + 1) (x_size e - 1) (u8 d 10)
                  (u8 d (x_buff e + 1 + 8)) sizeof_GHDR) as Hh.
    destruct (_GIF_LoadFrameHdr (x_buff e + 1) (x_size e - 1) sizeof_FHDR (u8 d 10)
                (u8 d (x_buff e + 1 + 8)) sizeof_GHDR) as [[[cl b] s] cp].
    destruct Hh as (Hsum & Hb).
    destruct (ifrm (whdr e) + 1 >=? skip) eqn:E1.
    + apply Z.geb_le in E1.
      destruct (cl <=? 0).
      * intros H. injection H as <- <-. cbn. split; [lia | discriminate].
      * intros H. bind_as H y Hy. destruct y as [[[r b2] s2] o].
        pose proof (LoadFrame_safe GIF_BIGE d hlen b s (w_bptr (whdr e)) (blk e)) as Hs.
        cbn [w_bptr] in Hy. rewrite Hy in Hs. cbn [wp] in Hs.
        destruct Hs as (_ & _ & Hch).
        destruct (r <? 0) eqn:E3.
        -- injection H as <- <-. cbn. split; [lia | discriminate].
        -- apply Z.ltb_ge in E3. destruct (Hch E3) as (n & Hn & -> & ->).
           pose proof (chain_pos d n _ Hn).
           apply Ret_pair in H. destruct H as [<- <-]. cbn [x_buff x_size].
           split; [lia|]. intros H1. apply Z.ltb_lt in H1. exact H1.
    + intros H. injection H as <- <-. cbn. split; [lia | discriminate].
  - destruct (u8 d (x_buff e) =? GIF_EHDM).
    + destruct (u8 d (x_buff e + 1) =? GIF_FGCM).
      * intros H. injection H as <- <-. cbn. split; [lia | discriminate].
      * destruct ((u8 d (x_buff e + 1) =? GIF_AMDM) && amdf);
          intros H; injection H as <- <-; cbn; (split; [lia | discriminate]).
    + intros H. injection H as <- <-. cbn. split; [lia | discriminate].
Qed.

(** The second part of an iteration leaves the descriptor and the trace
    alone. *)
Lemma extract_step_block (e : ext) (x : ext + ext) :
  extract_step GIF_BIGE d amdf skip hlen e = Ret x ->
  exists nx e1,
    extract_block GIF_BIGE d amdf skip hlen e = Ret (nx, e1)
    /\ whdr (step_end x) = whdr e1 /\ trace (step_end x) = trace e1
    /\ match x with
       | inl e' =>
           (nx = true /\ e' = e1)
           \/ (x_buff e1 < x_buff e' /\ 0 < x_size e'
               /\ x_buff e' + x_size e' = x_buff e1 + x_size e1)
       | inr _ => True
       end.
Proof.
  unfold extract_step. cbv zeta. intros H. bind_as H y Hy. destruct y as [nx e1].
  exists nx, e1. split; [exact Hy|].
  destruct nx.
  - injection H as <-. cbn. auto.
  - destruct (u8 d (x_buff e) =? GIF_EOFM); [injection H as <-; cbn; auto|].
    bind_as H z Hz. destruct z as [[ok b] s].
    destruct (SkipChunk_sum d (x_buff e1) (x_size e1)) as (r & b' & s' & Hr & Hsum & Hlt & Hv).
    rewrite Hr in Hz. apply Ret_triple in Hz. destruct Hz as (<- & <- & <-).
    destruct (r =? 0) eqn:E; injection H as <-; cbn; [auto|].
    apply Z.eqb_neq in E. split; [reflexivity|]. split; [reflexivity|].
    right. lia.
Qed.

(** A property of the descriptor and the trace that every iteration started
    with bytes left keeps, holds when the loop ends. *)
Lemma extract_events_inv (T : ext -> Prop) (first last : Z) :
  0 <= skip ->
  (forall e x,
      0 < x_size e -> -1 <= ifrm (whdr e) ->
      first <= x_buff e -> x_buff e + x_size e = last -> T e ->
      extract_step GIF_BIGE d amdf skip hlen e = Ret x -> T (step_end x)) ->
  forall fuel e e',
    0 < x_size e -> -1 <= ifrm (whdr e) ->
    first <= x_buff e -> x_buff e + x_size e = last -> T e ->
    extract GIF_BIGE d amdf skip hlen fuel e = Ret e' -> T e'.
Proof.
  intros Hk Hstep. induction fuel as [|fuel IH]; intros e e' Hs Hi Hf Hl Ht H;
    [discriminate|].
  cbn [extract] in H. destruct (skip <? _); [|injection H as <-; exact Ht].
  bind_as H x Hx.
  pose proof (Hstep e x Hs Hi Hf Hl Ht Hx) as Ht1.
  destruct (extract_step_nfrm GIF_BIGE d amdf hlen skip e x Hx) as [_ Hi1].
  specialize (Hi1 Hi).
  destruct x as [e1|e1]; [|injection H as <-; exact Ht1].
  cbn [step_end] in *.
  destruct (extract_step_block e (inl e1) Hx) as (nx & e0 & Hb & _ & _ & Hc).
  destruct (extract_block_cursor e nx e0 Hi Hk Hb) as [Hcur Hnx].
  assert (0 < x_size e1 /\ x_buff e < x_buff e1
          /\ x_buff e1 + x_size e1 = x_buff e + x_size e) as (Hs1 & Hlt & Hsum).
  { destruct Hc as [[-> ->]|(Hlt & Hpos & Hsum)].
    - specialize (Hnx eq_refl). destruct Hcur as [Hcur|Hcur]; lia.
    - destruct Hcur as [Hcur|Hcur]; [|lia].
      exfalso.
      (* the chunk after an exhausted size is not skipped *)
      revert Hx. unfold extract_step. cbv zeta. rewrite Hb. cbn [bind].
      destruct nx.
      + intros Hx. injection Hx as <-. lia.
      + destruct (u8 d (x_buff e) =? GIF_EOFM); [discriminate|].
        destruct (SkipChunk_sum d (x_buff e0) (x_size e0))
          as (r & b' & s' & Hr & Hsum' & Hlt' & Hv).
        rewrite Hr. cbn [bind].
        destruct Hv as [[-> Hs']|[-> Hs']]; [discriminate|].
        lia. }
  apply (IH e1 e'); try assumption; lia.
Qed.

Lemma extract_step_events (e : ext) (x : ext + ext) :
  extract_step GIF_BIGE d amdf skip hlen e = Ret x ->
  step_events d amdf skip e (step_end x).
Proof.
  intros H. destruct (extract_step_block e x H) as (nx & e1 & Hb & Hw & Ht & _).
  pose proof (extract_block_events e nx e1 Hb) as He.
  unfold step_events in *. rewrite Hw, Ht. exact He.
Qed.

End Events.

(** A property of the descriptor and the trace that holds when the
    extraction loop starts and that its iterations keep, holds of the trace
    of a call that returns. *)
Lemma GIF_Load_events_inv (GIF_BIGE : bool) (d : buffer) (size : Z) (amdf : bool)
    (skip : Z) (m0 : mem) (T : ext -> Prop) :
  (forall cpal,
      T (load_start GIF_BIGE d size (frame_count d size) cpal m0)) ->
  (forall e e1,
      0 < x_size e -> -1 <= ifrm (whdr e) ->
      first_block d <= x_buff e -> x_buff e + x_size e = size -> T e ->
      step_events d amdf skip e e1 -> T e1) ->
  forall r tr,
    GIF_Load GIF_BIGE d size amdf skip m0 = Ret (r, tr) ->
    tr = []
    \/ exists e',
        (exists desc cnt cpal,
            counting d size = Ret (desc, cnt, cpal) /\ 0 <= skip
            /\ extract GIF_BIGE d amdf skip (load_blen GIF_BIGE d)
                 (Z.to_nat (size - first_block d) + 1)
                 (load_start GIF_BIGE d size (counted_nfrm desc cnt) cpal m0)
               = Ret e')
        /\ T e' /\ tr = trace e' ++ [MGET (load_blen GIF_BIGE d) 0].
Proof.
  intros H0 Hstep r tr H.
  apply GIF_Load_Ret_inv in H.
  destruct H as [(_ & -> & _)|(desc & cnt & cpal & e' & Hsig & Hk & Hfb & Hc & He & _ & ->)];
    [left; reflexivity|].
  right. exists e'. split; [exists desc, cnt, cpal; auto|]. split; [|reflexivity].
  assert (frame_count d size = counted_nfrm desc cnt) as Hfc
      by (unfold frame_count; rewrite Hc; reflexivity).
  rewrite <- Hfc in He.
  revert He. apply (extract_events_inv GIF_BIGE d amdf skip _ T (first_block d) size Hk).
  - intros e x Hs Hi Hf Hl Ht Hx. apply (Hstep e); try assumption.
    apply (extract_step_events _ _ _ _ _ _ _ Hx).
  - cbn. lia.
  - cbn. lia.
  - cbn. lia.
  - cbn. lia.
  - apply H0.
Qed.

Lemma GIF_Load_wp_Ret (GIF_BIGE : bool) (d : buffer) (size : Z) (amdf : bool)
    (skip : Z) (m0 : mem) (Q : Z * list event -> Prop) :
  (forall r tr, GIF_Load GIF_BIGE d size amdf skip m0 = Ret (r, tr) -> Q (r, tr)) ->
  wp any_fault (GIF_Load GIF_BIGE d size amdf skip m0) Q.
Proof.
  intros HQ.
  assert (wp any_fault (GIF_Load GIF_BIGE d size amdf skip m0) (fun _ => True)) as Hw.
  { apply GIF_Load_wp; [auto|]. intros desc cnt cpal _ _ _ _ _.
    exists (fun _ => True). auto. }
  destruct (GIF_Load GIF_BIGE d size amdf skip m0) as [[r tr]|f|];
    cbn [wp] in *; [apply HQ; reflexivity | exact I | exact Hw].
Qed.

Lemma sink_calls_frames (tr : list event) :
  sink_calls tr = Z.of_nat (length (sink_frames tr)).
Proof.
  unfold sink_calls, sink_frames. f_equal.
  induction tr as [|ev tr IH]; [reflexivity|].
  destruct ev; cbn; rewrite ?IH; reflexivity.
Qed.

Lemma Forall_snoc {A : Type} (P : A -> Prop) (l : list A) (a : A) :
  Forall P l -> P a -> Forall P (l ++ [a]).
Proof. intros Hl Ha. apply Forall_app. split; [exact Hl | constructor; [exact Ha | constructor]]. Qed.

(** X8.  Every descriptor that [GIF_Load] passes to the frame writer or to
    the metadata reader has the screen width and height and the background
    index of the global header, and as frame count the number of frames
    counted in the input, negated when the ending mark was not reached.
    The raster that the frame writer is given always starts [GIF_BLEN] bytes
    into the block. *)
Theorem GIF_Load_screen_fields (GIF_BIGE : bool) (d : buffer) (size : Z)
    (amdf : bool) (skip : Z) (m0 : mem) :
  wp any_fault (GIF_Load GIF_BIGE d size amdf skip m0)
     (fun x =>
        Forall (fun w => screen_fields d w /\ nfrm w = frame_count d size
                         /\ w_bptr w = GIF_BLEN)
          (sink_frames (snd x))
        /\ Forall (fun w => screen_fields d w /\ nfrm w = frame_count d size)
             (meta_frames (snd x))).
Proof.
  apply GIF_Load_wp_Ret. intros r tr H. cbn [snd].
  set (G := fun w => screen_fields d w /\ nfrm w = frame_count d size
                     /\ w_bptr w = GIF_BLEN).
  set (M := fun w => screen_fields d w /\ nfrm w = frame_count d size).
  apply (GIF_Load_events_inv GIF_BIGE d size amdf skip m0
           (fun e => G (whdr e) /\ Forall G (sink_frames (trace e))
                     /\ Forall M (meta_frames (trace e)))) in H.
  - destruct H as [->|(e' & _ & (_ & Hg & Hm) & ->)]; [split; constructor|].
    rewrite sink_frames_app, meta_frames_app. cbn. rewrite !app_nil_r. auto.
  - intros cpal. cbn. unfold G, screen_fields, le16. cbn.
    rewrite !swap_host16. repeat split; constructor.
  - intros e e1 _ _ _ _ (Hw & Hg & Hm) (Hf & Hev).
    assert (G (whdr e1)) as Hw1.
    { unfold G, screen_fields in *. destruct Hf as (-> & -> & -> & -> & ->). exact Hw. }
    split; [exact Hw1|].
    destruct Hev as [[-> _]|[(m & wl & -> & _)|[[-> _]|(_ & _ & _ & _ & w & -> & Hb & Hx & Hy & Hk & Hn & _)]]].
    + auto.
    + rewrite sink_frames_app, meta_frames_app. cbn. rewrite app_nil_r.
      split; [apply Forall_snoc; assumption | exact Hm].
    + rewrite sink_frames_app, meta_frames_app. cbn. rewrite !app_nil_r. auto.
    + rewrite sink_frames_app, meta_frames_app. cbn. rewrite app_nil_r.
      split; [exact Hg|]. apply Forall_snoc; [exact Hm|].
      unfold M, G, screen_fields in *. rewrite Hx, Hy, Hk, Hn. tauto.
Qed.

(** X9.  Every frame passed to the frame writer comes from a frame header
    that lies within the [size] bytes of the input, after the global header
    and palette, and right after a frame mark (0x2C).  Its offsets and
    dimensions are the 16-bit numbers of that header, low byte first on any
    host; its interlace flag is bit 6 of the header flags; its palette is
    the local one, right after the header, when bit 7 of the header flags is
    set, and else the global one, which then exists; the number of colours
    is 2 to the power of the low three bits of the flags in use, plus one. *)
Theorem GIF_Load_frame_fields (GIF_BIGE : bool) (d : buffer) (size : Z)
    (amdf : bool) (skip : Z) (m0 : mem) :
  wp any_fault (GIF_Load GIF_BIGE d size amdf skip m0)
     (fun x =>
        Forall (fun w => exists p,
                    first_block d < p /\ p + sizeof_FHDR < size
                    /\ u8 d (p - 1) = GIF_FHDM
                    /\ header_fields d p w /\ palette_fields d p w)
          (sink_frames (snd x))).
Proof.
  apply GIF_Load_wp_Ret. intros r tr H. cbn [snd].
  set (G := fun w => exists p,
                first_block d < p /\ p + sizeof_FHDR < size
                /\ u8 d (p - 1) = GIF_FHDM
                /\ header_fields d p w /\ palette_fields d p w).
  apply (GIF_Load_events_inv GIF_BIGE d size amdf skip m0
           (fun e => Forall G (sink_frames (trace e)))) in H.
  - destruct H as [->|(e' & _ & Hg & ->)]; [constructor|].
    rewrite sink_frames_app. cbn. rewrite app_nil_r. exact Hg.
  - intros cpal. cbn. constructor.
  - intros e e1 Hs _ Hfb Hsum Hg (_ & Hev).
    destruct Hev as [[-> _]|[(m & wl & -> & Hm & Hh & Hp & _ & _ & Hsz)|[[-> _]|(_ & _ & _ & _ & w & -> & _)]]].
    + exact Hg.
    + rewrite sink_frames_app. cbn. apply Forall_snoc; [exact Hg|].
      exists (x_buff e + 1). unfold sizeof_FHDR in *.
      replace (x_buff e + 1 - 1) with (x_buff e) by lia.
      split; [lia|]. split; [lia|]. split; [exact Hm|]. split; [exact Hh | exact Hp].
    + rewrite sink_frames_app. cbn. rewrite app_nil_r. exact Hg.
    + rewrite sink_frames_app. cbn. rewrite app_nil_r. exact Hg.
Qed.

(** The frames written are numbered from [skip], and there are as many as
    the frame index went past [skip]. *)
Lemma sink_frames_numbered (GIF_BIGE : bool) (d : buffer) (size : Z)
    (amdf : bool) (skip : Z) (m0 : mem) (r : Z) (tr : list event) :
  GIF_Load GIF_BIGE d size amdf skip m0 = Ret (r, tr) ->
  tr = []
  \/ exists e',
      (exists desc cnt cpal,
          counting d size = Ret (desc, cnt, cpal) /\ 0 <= skip
          /\ extract GIF_BIGE d amdf skip (load_blen GIF_BIGE d)
               (Z.to_nat (size - first_block d) + 1)
               (load_start GIF_BIGE d size (counted_nfrm desc cnt) cpal m0)
             = Ret e')
      /\ tr = trace e' ++ [MGET (load_blen GIF_BIGE d) 0]
      /\ Z.of_nat (length (sink_frames (trace e')))
         = Z.max 0 (ifrm (whdr e') + 1 - skip)
      /\ forall k w, nth_error (sink_frames (trace e')) k = Some w ->
                     ifrm w = skip + Z.of_nat k.
Proof.
  intros H.
  assert (tr = [] \/ 0 <= skip) as [->|Hk].
  { destruct (GIF_Load_Ret_inv _ _ _ _ _ _ _ _ H) as [(_ & -> & _)|(_ & _ & _ & _ & _ & Hk & _)];
      [left; reflexivity | right; exact Hk]. }
  { left. reflexivity. }
  apply (GIF_Load_events_inv GIF_BIGE d size amdf skip m0
           (fun e =>
              Z.of_nat (length (sink_frames (trace e)))
              = Z.max 0 (ifrm (whdr e) + 1 - skip)
              /\ forall k w, nth_error (sink_frames (trace e)) k = Some w ->
                             ifrm w = skip + Z.of_nat k)) in H.
  - destruct H as [->|(e' & He & (Hl & Hg) & ->)]; [left; reflexivity|].
    right. exists e'. auto.
  - intros cpal. cbn [load_start trace whdr ifrm sink_frames flat_map app length].
    split; [lia|]. intros k w Hw. destruct k; discriminate.
  - intros e e1 _ Hi _ _ (Hlen & Hg) (_ & Hev).
    destruct Hev as [[-> Hif]|[(m & wl & -> & _ & _ & _ & Hif & Hsk & _)|[[-> Hif]|(_ & _ & _ & Hw & w & -> & _)]]].
    + split; [|exact Hg]. rewrite Hlen. lia.
    + rewrite sink_frames_app, length_app. cbn [sink_frames flat_map app length].
      split; [lia|]. intros k w Hn.
      destruct (Nat.lt_ge_cases k (length (sink_frames (trace e)))) as [Hlt|Hge].
      * rewrite nth_error_app1 in Hn by exact Hlt. exact (Hg k w Hn).
      * rewrite nth_error_app2 in Hn by exact Hge.
        destruct (k - length (sink_frames (trace e)))%nat as [|j] eqn:Ej;
          [|destruct j; discriminate].
        injection Hn as <-. lia.
    + rewrite sink_frames_app. cbn. rewrite app_nil_r.
      split; [rewrite Hlen, Hif; reflexivity | exact Hg].
    + rewrite sink_frames_app. cbn. rewrite app_nil_r.
      split; [rewrite Hlen, Hw; reflexivity | exact Hg].
Qed.

(** X10.  The frames passed to the frame writer are numbered in order from
    [skip]: the [k]-th descriptor (from 0) has frame index [skip + k]. *)
Theorem GIF_Load_frame_index (GIF_BIGE : bool) (d : buffer) (size : Z)
    (amdf : bool) (skip : Z) (m0 : mem) :
  wp any_fault (GIF_Load GIF_BIGE d size amdf skip m0)
     (fun x => forall k w,
          nth_error (sink_frames (snd x)) k = Some w ->
          ifrm w = skip + Z.of_nat k).
Proof.
  apply GIF_Load_wp_Ret. intros r tr H. cbn [snd].
  destruct (sink_frames_numbered _ _ _ _ _ _ _ _ H) as [->|(e' & _ & -> & _ & Hg)].
  - intros k w Hw. destruct k; discriminate.
  - rewrite sink_frames_app. cbn. rewrite app_nil_r. exact Hg.
Qed.

(** X11.  The metadata reader is called only for extension blocks that
    start within the [size] bytes of the input with the marks 0x21 0xFF, and
    is given the address three bytes after the start of the block; when no
    metadata reader is given, none is called. *)
Theorem GIF_Load_metadata (GIF_BIGE : bool) (d : buffer) (size : Z)
    (amdf : bool) (skip : Z) (m0 : mem) :
  wp any_fault (GIF_Load GIF_BIGE d size amdf skip m0)
     (fun x =>
        (amdf = false -> meta_frames (snd x) = [])
        /\ Forall (fun w => exists p,
                       first_block d <= p < size
                       /\ u8 d p = GIF_EHDM /\ u8 d (p + 1) = GIF_AMDM
                       /\ w_bptr w = p + 3)
             (meta_frames (snd x))).
Proof.
  apply GIF_Load_wp_Ret. intros r tr H. cbn [snd].
  set (M := fun w => exists p,
                first_block d <= p < size
                /\ u8 d p = GIF_EHDM /\ u8 d (p + 1) = GIF_AMDM
                /\ w_bptr w = p + 3).
  apply (GIF_Load_events_inv GIF_BIGE d size amdf skip m0
           (fun e => (amdf = false -> meta_frames (trace e) = [])
                     /\ Forall M (meta_frames (trace e)))) in H.
  - destruct H as [->|(e' & _ & (Hn & Hm) & ->)]; [split; [reflexivity | constructor]|].
    rewrite meta_frames_app. cbn. rewrite app_nil_r. auto.
  - intros cpal. cbn. split; [reflexivity | constructor].
  - intros e e1 Hs _ Hfb Hsum (Hn & Hm) (_ & Hev).
    destruct Hev as [[-> _]|[(m & wl & -> & _)|[[-> _]|(Ha & H1 & H2 & _ & w & -> & Hb & _)]]].
    + auto.
    + rewrite meta_frames_app. cbn. rewrite app_nil_r. auto.
    + rewrite meta_frames_app. cbn. rewrite app_nil_r. auto.
    + rewrite meta_frames_app. cbn. split; [intros Hf; congruence|].
      apply Forall_snoc; [exact Hm|]. exists (x_buff e).
      split; [lia|]. split; [exact H1|]. split; [exact H2 | exact Hb].
Qed.

(** ** [GIF_Load]: what the frames it hands over do not depend on *)

Lemma Ret_triple_eq {A B C : Type} (a a' : A) (b b' : B) (c c' : C) :
  (a, b, c) = (a', b', c') -> a = a' /\ b = b' /\ c = c'.
Proof. intros H. injection H. auto. Qed.

Section Independence.

Variables b1 b2 : bool.   (** two hosts *)
Variable d : buffer.
Variables a1 a2 : bool.   (** with or without a metadata reader *)
Variable skip : Z.
Variables h1 h2 : Z.

Lemma frame_time_hosts (g : option Z) : frame_time b1 d g = frame_time b2 d g.
Proof.
  unfold frame_time, fgch_time. destruct g; [|reflexivity].
  rewrite !swap_host16. reflexivity.
Qed.

Lemma extract_block_indep (eA eB : ext) (nA nB : bool) (eA1 eB1 : ext) :
  same_walk eA eB ->
  extract_block b1 d a1 skip h1 eA = Ret (nA, eA1) ->
  extract_block b2 d a2 skip h2 eB = Ret (nB, eB1) ->
  nA = nB /\ same_walk eA1 eB1
  /\ exists newA newB,
      trace eA1 = trace eA ++ newA /\ trace eB1 = trace eB ++ newB
      /\ sink_frames newA = sink_frames newB.
Proof.
  intros (Hb & Hs & Hw & Hg). unfold extract_block. cbv zeta.
  rewrite !swap_host16, <- Hb, <- Hs, <- Hw, <- Hg, <- (frame_time_hosts (fgch eA)).
  destruct (u8 d (x_buff eA) =? GIF_FHDM).
  - destruct (_GIF_LoadFrameHdr _ _ _ _ _ _) as [[[cl b] s] cp].
    destruct (ifrm (whdr eA) + 1 >=? skip).
    + destruct (cl <=? 0).
      * intros HA HB. apply Ret_pair in HA, HB. destruct HA as [<- <-], HB as [<- <-].
        split; [reflexivity|]. split; [unfold same_walk; cbn; auto|].
        exists [], []. rewrite !app_nil_r. auto.
      * intros HA HB. bind_as HA yA HyA. bind_as HB yB HyB.
        destruct yA as [[[rA bA] sA] oA], yB as [[[rB bB] sB] oB].
        cbn [w_bptr] in HyA, HyB.
        assert ((rA, bA, sA) = (rB, bB, sB)) as Heq.
        { apply (LoadFrame_hosts b1 b2 d h1 (w_bptr (whdr eA)) h2 (w_bptr (whdr eA))
                   b s (blk eA) (blk eB)).
          - rewrite HyA. reflexivity.
          - rewrite HyB. reflexivity. }
        apply Ret_triple_eq in Heq. destruct Heq as (<- & <- & <-).
        destruct (rA <? 0).
        -- apply Ret_pair in HA, HB. destruct HA as [<- <-], HB as [<- <-].
           split; [reflexivity|]. split; [unfold same_walk; cbn; auto|].
           exists [], []. rewrite !app_nil_r. auto.
        -- apply Ret_pair in HA, HB. destruct HA as [<- <-], HB as [<- <-].
           split; [reflexivity|]. split; [unfold same_walk; cbn; auto|].
           do 2 eexists. cbn [trace]. split; [reflexivity|]. split; [reflexivity|].
           reflexivity.
    + intros HA HB. apply Ret_pair in HA, HB. destruct HA as [<- <-], HB as [<- <-].
      split; [reflexivity|]. split; [unfold same_walk; cbn; auto|].
      exists [], []. rewrite !app_nil_r. auto.
  - destruct (u8 d (x_buff eA) =? GIF_EHDM).
    + destruct (u8 d (x_buff eA + 1) =? GIF_FGCM).
      * intros HA HB. apply Ret_pair in HA, HB. destruct HA as [<- <-], HB as [<- <-].
        split; [reflexivity|]. split; [unfold same_walk; cbn; auto|].
        do 2 eexists. cbn [trace]. split; [reflexivity|]. split; reflexivity.
      * destruct ((u8 d (x_buff eA + 1) =? GIF_AMDM) && a1);
          destruct ((u8 d (x_buff eA + 1) =? GIF_AMDM) && a2);
          intros HA HB; apply Ret_pair in HA, HB;
          destruct HA as [<- <-], HB as [<- <-];
          (split; [reflexivity|]); (split; [unfold same_walk; cbn; auto|]);
          cbn [trace].
        -- do 2 eexists. split; [reflexivity|]. split; reflexivity.
        -- exists [AMDF (mkWHDR (xdim (whdr eA)) (ydim (whdr eA)) (clrs (whdr eA))
                           (bkgd (whdr eA)) (tran (whdr eA)) (intr (whdr eA))
                           (mode (whdr eA)) (frxd (whdr eA)) (fryd (whdr eA))
                           (frxo (whdr eA)) (fryo (whdr eA)) (time (whdr eA))
                           (ifrm (whdr eA)) (nfrm (whdr eA)) (x_buff eA + 1 + 1 + 1)
                           (cpal (whdr eA)))], [].
           rewrite app_nil_r. split; [reflexivity|]. split; reflexivity.
        -- exists [], [AMDF (mkWHDR (xdim (whdr eA)) (ydim (whdr eA)) (clrs (whdr eA))
                           (bkgd (whdr eA)) (tran (whdr eA)) (intr (whdr eA))
                           (mode (whdr eA)) (frxd (whdr eA)) (fryd (whdr eA))
                           (frxo (whdr eA)) (fryo (whdr eA)) (time (whdr eA))
                           (ifrm (whdr eA)) (nfrm (whdr eA)) (x_buff eA + 1 + 1 + 1)
                           (cpal (whdr eA)))].
           rewrite app_nil_r. split; [reflexivity|]. split; reflexivity.
        -- exists [], []. rewrite !app_nil_r. auto.
    + intros HA HB. apply Ret_pair in HA, HB. destruct HA as [<- <-], HB as [<- <-].
      split; [reflexivity|]. split; [unfold same_walk; cbn; auto|].
      exists [], []. rewrite !app_nil_r. auto.
Qed.

Lemma extract_step_indep (eA eB : ext) (xA xB : ext + ext) :
  same_walk eA eB ->
  extract_step b1 d a1 skip h1 eA = Ret xA ->
  extract_step b2 d a2 skip h2 eB = Ret xB ->
  went_on xA = went_on xB /\ same_walk (step_end xA) (step_end xB)
  /\ exists newA newB,
      trace (step_end xA) = trace eA ++ newA
      /\ trace (step_end xB) = trace eB ++ newB
      /\ sink_frames newA = sink_frames newB.
Proof.
  intros Hw HA HB. pose proof Hw as (Hb & _).
  unfold extract_step in HA, HB. cbv zeta in HA, HB. rewrite <- Hb in HB.
  bind_as HA yA HyA. bind_as HB yB HyB.
  destruct yA as [nA eA1], yB as [nB eB1].
  destruct (extract_block_indep eA eB nA nB eA1 eB1 Hw HyA HyB)
    as (<- & Hw1 & newA & newB & HtA & HtB & Hn).
  pose proof Hw1 as (Hb1 & Hs1 & Hh1 & Hg1).
  destruct nA.
  - injection HA as <-. injection HB as <-. cbn [went_on step_end].
    split; [reflexivity|]. split; [exact Hw1|]. exists newA, newB. auto.
  - destruct (u8 d (x_buff eA) =? GIF_EOFM).
    + injection HA as <-. injection HB as <-. cbn [went_on step_end].
      split; [reflexivity|]. split; [exact Hw1|]. exists newA, newB. auto.
    + rewrite <- Hb1, <- Hs1 in HB.
      destruct (_GIF_SkipChunk d (x_buff eA1) (x_size eA1)) as [[[ok b] s]| |];
        cbn [bind] in HA, HB; try discriminate.
      destruct (ok =? 0); injection HA as <-; injection HB as <-;
        cbn [went_on step_end trace];
        (split; [reflexivity|]);
        (split; [unfold same_walk; cbn; auto|]);
        exists newA, newB; auto.
Qed.

Lemma extract_indep (fuelA : nat) :
  forall fuelB eA eB eA' eB',
    same_walk eA eB ->
    sink_frames (trace eA) = sink_frames (trace eB) ->
    extract b1 d a1 skip h1 fuelA eA = Ret eA' ->
    extract b2 d a2 skip h2 fuelB eB = Ret eB' ->
    same_walk eA' eB' /\ sink_frames (trace eA') = sink_frames (trace eB').
Proof.
  induction fuelA as [|fuelA IH]; intros fuelB eA eB eA' eB' Hw Ht HA HB;
    [discriminate|].
  destruct fuelB as [|fuelB]; [discriminate|].
  cbn [extract] in HA, HB. pose proof Hw as (_ & _ & Hh & _). rewrite <- Hh in HB.
  destruct (skip <? _).
  - bind_as HA xA HxA. bind_as HB xB HxB.
    destruct (extract_step_indep eA eB xA xB Hw HxA HxB)
      as (Hgo & Hw1 & newA & newB & HtA & HtB & Hn).
    assert (sink_frames (trace (step_end xA)) = sink_frames (trace (step_end xB))) as Ht1
        by (rewrite HtA, HtB, !sink_frames_app, Ht, Hn; reflexivity).
    destruct xA as [eA1|eA1], xB as [eB1|eB1]; cbn [went_on step_end] in *;
      try discriminate Hgo.
    + exact (IH fuelB eA1 eB1 eA' eB' Hw1 Ht1 HA HB).
    + injection HA as <-. injection HB as <-. auto.
  - injection HA as <-. injection HB as <-. auto.
Qed.

End Independence.

(** X12.  What [GIF_Load] returns and the descriptors it passes to the
    frame writer are set by the input and [skip] alone: two calls that both
    return agree on them, whatever the byte order of the host, the contents
    of the block when it is handed out, and whether a metadata reader is
    given. *)
Theorem GIF_Load_input_only (b1 b2 : bool) (d : buffer) (size : Z) (a1 a2 : bool)
    (skip : Z) (m1 m2 : mem) (r1 r2 : Z) (tr1 tr2 : list event) :
  GIF_Load b1 d size a1 skip m1 = Ret (r1, tr1) ->
  GIF_Load b2 d size a2 skip m2 = Ret (r2, tr2) ->
  r1 = r2 /\ sink_frames tr1 = sink_frames tr2.
Proof.
  intros H1 H2. apply GIF_Load_Ret_inv in H1, H2.
  destruct H1 as [(-> & -> & Hr1)|(desc & cnt & cpal & eA & Hsig & Hk & Hfb & Hc & HA & -> & ->)];
    destruct H2 as [(-> & -> & Hr2)|(desc2 & cnt2 & cpal2 & eB & Hsig2 & Hk2 & Hfb2 & Hc2 & HB & -> & ->)].
  - auto.
  - destruct Hr1 as [Hr1|[Hr1|Hr1]]; [congruence | lia | lia].
  - destruct Hr2 as [Hr2|[Hr2|Hr2]]; [congruence | lia | lia].
  - rewrite Hc in Hc2. apply Ret_triple in Hc2. destruct Hc2 as (<- & <- & <-).
    assert (same_walk (load_start b1 d size (counted_nfrm desc cnt) cpal m1)
              (load_start b2 d size (counted_nfrm desc cnt) cpal m2)) as Hs
        by (unfold same_walk, load_start; cbn; rewrite !swap_host16; auto).
    destruct (extract_indep b1 b2 d a1 a2 skip _ _ _ _ _ _ _ _ Hs eq_refl HA HB)
      as ((_ & _ & Hw & _) & Ht).
    split.
    + unfold load_result. rewrite Hw. reflexivity.
    + rewrite !sink_frames_app, Ht. reflexivity.
Qed.

(** ** [GIF_Load]: frame indices stay below the frame count *)

Section Below.

Variable GIF_BIGE : bool.
Variable d : buffer.
Variable amdf : bool.
Variable hlen : Z.

Lemma extract_below_count (skip : Z) (fuel : nat) :
  forall e fc cp desc cnt cp' e',
    -1 <= ifrm (whdr e) -> skip < cnt ->
    count_frames fc d (u8 d 10) (x_buff e) (x_size e) (ifrm (whdr e) + 1) cp
    = Ret (desc, cnt, cp') ->
    extract GIF_BIGE d amdf skip hlen fuel e = Ret e' ->
    ifrm (whdr e') + 1 <= cnt.
Proof.
  induction fuel as [|fuel IH]; intros e fc cp desc cnt cp' e' Hi Hlt Hc H;
    [discriminate|].
  destruct (Z.le_gt_cases skip (ifrm (whdr e) + 1)) as [Hsk|Hsk].
  { exact (extract_le_count GIF_BIGE d amdf hlen skip (S fuel) e fc cp desc cnt cp' e'
             Hsk Hi Hc H). }
  cbn [extract] in H.
  match type of H with (if ?c then _ else _) = _ => destruct c end.
  2:{ injection H as <-. apply count_frames_mono in Hc. lia. }
  bind_as H x Hx. destruct (extract_step_ctrl _ _ _ _ _ _ _ Hx) as [Hctrl _].
  destruct fc as [|fc]; [discriminate|].
  apply count_frames_step in Hc. cbv zeta in Hc.
  replace (ifrm (whdr e) + 1 - 1) with (ifrm (whdr e)) in Hc by lia.
  unfold ctrl_step, ctrl_of in Hctrl.
  assert ((ifrm (whdr e) + 1 >=? skip) = false) as Eg
      by (destruct (Z.geb_spec (ifrm (whdr e) + 1) skip); [lia | reflexivity]).
  destruct Hc as [(Hd & ->) | [(Hd & Hcl & ->)
                 | [(Hd & Hcl & w & b2 & s2 & Hs & Hw)
                   | (Hne & Hnf & w & b2 & s2 & Hs & Hw)]]].
  - rewrite Hd in Hctrl. change (GIF_EOFM =? GIF_FHDM) with false in Hctrl.
    cbv iota in Hctrl. unfold ctrl_skip in Hctrl.
    change (GIF_EOFM =? GIF_EOFM) with true in Hctrl. cbv iota in Hctrl.
    ctrl_inv Hctrl x e1. injection H as <-. lia.
  - lia.
  - rewrite Hd in Hctrl. change (GIF_FHDM =? GIF_FHDM) with true in Hctrl.
    cbv iota in Hctrl.
    destruct (frame_data d _) as [b s]. cbn [fst snd] in Hs.
    rewrite Eg in Hctrl. rewrite Hs in Hctrl.
    destruct w.
    + ctrl_inv Hctrl x e1. destruct Hw as (cp1 & Hw).
      eapply (IH e1 fc cp1 desc cnt cp' e'); try lia.
      * rewrite H0, H1, H2. exact Hw.
      * exact H.
    + ctrl_inv Hctrl x e1. injection H as <-. lia.
  - apply Z.eqb_neq in Hnf. rewrite Hnf in Hctrl. rewrite Hs in Hctrl.
    destruct w.
    + ctrl_inv Hctrl x e1. destruct Hw as (cp1 & Hw).
      eapply (IH e1 fc cp1 desc cnt cp' e'); try lia.
      * rewrite H0, H1, H2. exact Hw.
      * exact H.
    + ctrl_inv Hctrl x e1. injection H as <-. lia.
Qed.

End Below.

(** X13.  Every frame passed to the frame writer has an index from [skip]
    up to, but not including, the absolute value of the frame count in its
    descriptor: no more frames are written than were counted. *)
Theorem GIF_Load_index_below_count (GIF_BIGE : bool) (d : buffer) (size : Z)
    (amdf : bool) (skip : Z) (m0 : mem) :
  wp any_fault (GIF_Load GIF_BIGE d size amdf skip m0)
     (fun x =>
        Forall (fun w => 0 <= skip <= ifrm w /\ ifrm w < Z.abs (frame_count d size))
          (sink_frames (snd x))
        /\ sink_calls (snd x) <= Z.max 0 (Z.abs (frame_count d size) - skip)).
Proof.
  apply GIF_Load_wp_Ret. intros r tr H. cbn [snd].
  destruct (sink_frames_numbered _ _ _ _ _ _ _ _ H)
    as [->|(e' & (desc & cnt & cpal & Hc & Hk & He) & -> & Hl & Hg)].
  { split; [constructor | cbn; lia]. }
  assert (frame_count d size = counted_nfrm desc cnt) as Hfc
      by (unfold frame_count; rewrite Hc; reflexivity).
  pose proof (counting_spec d size) as Hcs. rewrite Hc in Hcs. cbn in Hcs.
  assert (Z.abs (frame_count d size) = cnt) as Habs
      by (rewrite Hfc; unfold counted_nfrm; destruct (desc =? GIF_EOFM); lia).
  assert (ifrm (whdr e') + 1 <= cnt \/ ifrm (whdr e') = -1) as Hb.
  { destruct (Z.lt_ge_cases skip cnt) as [Hlt|Hge].
    - left. unfold counting in Hc. cbv zeta in Hc.
      eapply (extract_below_count GIF_BIGE d amdf _ skip _ _ _ _ desc cnt _ e');
        [| exact Hlt | | exact He]; [cbn; lia | cbn; exact Hc].
    - right. rewrite Nat.add_1_r in He. cbn [extract] in He.
      replace (skip <? _) with false in He; [injection He as <-; reflexivity|].
      symmetry. apply Z.ltb_ge. cbn [load_start whdr nfrm].
      unfold counted_nfrm.
      destruct (desc =? GIF_EOFM).
      + destruct (Z.ltb_spec cnt 0); lia.
      + destruct (Z.ltb_spec (- cnt) 0); lia. }
  rewrite sink_calls_frames, sink_frames_app. cbn [sink_frames flat_map app].
  rewrite app_nil_r. split; [|lia].
  apply Forall_forall. intros w Hin. apply In_nth_error in Hin.
  destruct Hin as [k Hkw]. pose proof (Hg k w Hkw) as Hi.
  assert (k < length (sink_frames (trace e')))%nat
      by (apply nth_error_Some; congruence).
  lia.
Qed.

(** ** [_GIF_LoadFrame]: what is written does not depend on the block *)

Section Rel.

Variables bA bB : bool.   (** two hosts *)
Variable d : buffer.
Variables hlA hlB : Z.    (** two block sizes *)
Variable code : Z.
Variable ctsz : Z.
Hypothesis Hctsz : 2 <= ctsz <= 8.

Lemma expand_rel (n : Z) (fuelA : nat) :
  n <= 4095 ->
  forall fuelB iter oA oB hA oA' hB oB',
    lits_ok bA code ctsz (heap oA) -> users_ok bA code ctsz (heap oA) n ->
    lits_ok bB code ctsz (heap oB) -> users_ok bB code ctsz (heap oB) n ->
    defined ctsz n iter ->
    code + GIF_BLEN <= bptr oA - elen (cell bA code (heap oA) iter) ->
    same_out bA bB code ctsz n oA oB ->
    expand bA hlA code fuelA iter oA = Ret (hA, oA') ->
    expand bB hlB code fuelB iter oB = Ret (hB, oB') ->
    hA = hB /\ bptr oA' = bptr oB' /\ wlog oA' = wlog oB'.
Proof.
  intros Hn. induction fuelA as [|fuelA IH];
    intros fuelB iter oA oB hA oA' hB oB' HlA HuA HlB HuB Hd Hq (Hb & Hw & Hc) HA HB;
    [discriminate|].
  destruct fuelB as [|fuelB]; [discriminate|].
  destruct (cell_defined bA code ctsz Hctsz (heap oA) n iter Hn HlA HuA Hd)
    as (_ & _ & _ & _ & _ & Hlen).
  pose proof (Hc iter Hd) as Hci.
  destruct (expand_step bA hlA code ctsz Hctsz n fuelA iter oA hA oA' Hn HlA HuA Hd
              ltac:(lia) HA)
    as (o1A & Hb1A & Hw1A & HagA & _ & _ & HcaseA).
  destruct (expand_step bB hlB code ctsz Hctsz n fuelB iter oB hB oB' Hn HlB HuB Hd
              ltac:(rewrite <- Hb; lia) HB)
    as (o1B & Hb1B & Hw1B & HagB & _ & _ & HcaseB).
  rewrite <- Hci in Hw1B, HcaseB.
  set (c := cell bA code (heap oA) iter) in *.
  assert (wlog o1A = wlog o1B) as Hw1 by (rewrite Hw1A, Hw1B, Hb, Hw; reflexivity).
  destruct HcaseA as [(HlitA & -> & -> & HzA)|(HusrA & HpA & HelA & HexA)];
    destruct HcaseB as [(HlitB & -> & -> & HzB)|(HusrB & HpB & HelB & HexB)];
    try lia.
  - split; [reflexivity|]. split; [lia | exact Hw1].
  - set (p := Z.land c 0xFFF) in *.
    assert (defined ctsz n p) as Hp' by (unfold defined in *; lia).
    pose proof (defined_range ctsz Hctsz n p Hn Hp') as Hpr.
    pose proof (cell_agree bA code ctsz Hctsz (heap oA) (heap o1A) p Hpr HagA) as HcpA.
    apply (IH fuelB p o1A o1B hA oA' hB oB'); try assumption.
    + apply (lits_agree bA code ctsz Hctsz (heap oA)); assumption.
    + apply (users_agree bA code ctsz Hctsz (heap oA)); assumption.
    + apply (lits_agree bB code ctsz Hctsz (heap oB)); assumption.
    + apply (users_agree bB code ctsz Hctsz (heap oB)); assumption.
    + rewrite HcpA. lia.
    + split; [lia|]. split; [exact Hw1|]. intros i Hi.
      pose proof (defined_range ctsz Hctsz n i Hn Hi) as Hir.
      rewrite (cell_agree bA code ctsz Hctsz (heap oA) (heap o1A) i Hir HagA).
      rewrite (cell_agree bB code ctsz Hctsz (heap oB) (heap o1B) i Hir HagB).
      apply Hc. exact Hi.
Qed.

Lemma emit_rel (r : regs) (oA oB : out) (xA xB : regs * out) :
  frame_inv bA code ctsz r oA -> frame_inv bB code ctsz r oB ->
  code_ok ctsz (ctbl r) (curr r) = true ->
  same_out bA bB code ctsz (Z.min (ctbl r) 4095) oA oB ->
  emit bA hlA code r oA = Ret xA ->
  emit bB hlB code r oB = Ret xB ->
  same_out bA bB code ctsz (Z.min (ctbl r + 1) 4095) (snd xA) (snd xB).
Proof.
  intros HiA HiB Hok (Hb & Hw & Hc) HA HB.
  pose proof HiA as (HbA & _ & _ & _ & Hn & Hp).
  destruct (emit_shape bA hlA code ctsz Hctsz r oA xA HiA Hok HA)
    as (o1A & hA & o2A & fuelA & (Hb1A & Hw1A & Hl1A & Hu1A) & H3A & H4A & Hdi & HexA
        & HhA & HbxA & HwxA & H10A & H11A & _).
  destruct (emit_shape bB hlB code ctsz Hctsz r oB xB HiB Hok HB)
    as (o1B & hB & o2B & fuelB & (Hb1B & Hw1B & Hl1B & Hu1B) & H3B & H4B & _ & HexB
        & HhB & HbxB & HwxB & H10B & H11B & _).
  set (n' := ctbl r + 1) in *.
  set (N := Z.min n' 4095) in *.
  set (iter := if curr r >=? n' then prev r else curr r) in *.
  assert (N <= 4095) as HN by (unfold N; lia).
  pose proof (pow2_bounds ctsz ltac:(lia)) as Hpow.
  assert (forall i, defined ctsz N i ->
                    cell bA code (heap o1A) i = cell bB code (heap o1B) i) as Hc1.
  { intros i Hi. destruct (Z.eq_dec i n') as [->|Hne].
    - assert (n' < GIF_CLEN) as Hlt by (unfold defined, N, GIF_CLEN in *; lia).
      rewrite (H4A Hlt), (H4B Hlt).
      destruct Hp as [Hp|Hp]; [unfold defined, N, n' in Hi; lia|].
      rewrite (Hc (prev r) Hp). reflexivity.
    - rewrite (H3A i Hne), (H3B i Hne). apply Hc.
      unfold defined, N, n' in *. lia. }
  assert (elen (cell bB code (heap o1B) iter) = elen (cell bA code (heap o1A) iter)) as HL
      by (rewrite (Hc1 iter Hdi); reflexivity).
  rewrite HL in HexB, HbxB, HwxB.
  set (L := elen (cell bA code (heap o1A) iter)) in *.
  destruct (cell_defined bA code ctsz Hctsz (heap o1A) N iter HN Hl1A Hu1A Hdi)
    as (_ & _ & _ & _ & _ & HLr). fold L in HLr.
  destruct (expand_rel N fuelA HN fuelB iter (move o1A L) (move o1B L) hA o2A hB o2B)
    as (Hh & Hb2 & Hw2); try assumption.
  - unfold move. cbn [bptr heap]. fold L. lia.
  - unfold same_out, move. cbn [bptr heap wlog].
    split; [lia|]. split; [congruence | exact Hc1].
  - subst hB. unfold same_out.
    split; [rewrite HbxA, HbxB, Hb; reflexivity|].
    split; [rewrite HwxA, HwxB, Hb, Hw2; reflexivity|].
    intros i Hi. pose proof (defined_range ctsz Hctsz N i HN Hi) as Hir.
    destruct (Z.eq_dec i n') as [->|Hne].
    + assert (n' < GIF_CLEN) as Hlt by (unfold defined, N, GIF_CLEN in *; lia).
      rewrite (H11A Hlt), (H11B Hlt), (Hc1 n' Hi). reflexivity.
    + rewrite (H10A i Hir Hne), (H10B i Hir Hne). apply Hc1. exact Hi.
Qed.

Lemma same_out_lits (n n' : Z) (oA oB : out) :
  n' <= 2 ^ ctsz + 1 ->
  same_out bA bB code ctsz n oA oB -> same_out bA bB code ctsz n' oA oB.
Proof.
  intros Hn (Hb & Hw & Hc). split; [exact Hb|]. split; [exact Hw|].
  intros i Hi. apply Hc. unfold defined in *. lia.
Qed.

Lemma lzw_code_rel (r : regs) (oA oB : out) (xA xB : regs * out + out) :
  frame_inv bA code ctsz r oA -> frame_inv bB code ctsz r oB ->
  code_wf ctsz r = true ->
  same_out bA bB code ctsz (Z.min (ctbl r) 4095) oA oB ->
  lzw_code bA hlA code ctsz r oA = Ret xA ->
  lzw_code bB hlB code ctsz r oB = Ret xB ->
  match xA, xB with
  | inl (rA, oA'), inl (rB, oB') =>
      rA = rB /\ frame_inv bA code ctsz rA oA' /\ frame_inv bB code ctsz rA oB'
      /\ same_out bA bB code ctsz (Z.min (ctbl rA) 4095) oA' oB'
  | inr oA', inr oB' => bptr oA' = bptr oB' /\ wlog oA' = wlog oB'
  | _, _ => False
  end.
Proof.
  intros HiA HiB Hwf Hs HA HB.
  pose proof (lzw_code_inv bA hlA code ctsz Hctsz r oA xA HiA Hwf HA) as HxA.
  pose proof (lzw_code_inv bB hlB code ctsz Hctsz r oB xB HiB Hwf HB) as HxB.
  unfold lzw_code in HA, HB. unfold code_wf in Hwf. cbv zeta in HA, HB, Hwf.
  cbn [load mask ctbl curr prev ccsz bszc] in HA, HB.
  set (c := Z.land (curr r) (mask r)) in *.
  destruct (Z.land c (Z.lnot 1) =? Z.shiftl 1 ctsz) eqn:E.
  - destruct (negb (Z.land c 1 =? 0)); cbn [bind] in HA, HB;
      injection HA as <-; injection HB as <-.
    + destruct Hs as (Hb & Hw & _). auto.
    + destruct HxA as [_ HfA]. destruct HxB as [_ HfB].
      split; [reflexivity|]. split; [exact HfA|]. split; [exact HfB|].
      cbn [ctbl]. rewrite Z.shiftl_1_l.
      apply (same_out_lits (Z.min (ctbl r) 4095)); [lia | exact Hs].
  - cbn [orb] in Hwf.
    bind_as HA yA HyA. bind_as HyA zA HzA. destruct zA as [rA oA'].
    bind_as HB yB HyB. bind_as HyB zB HzB. destruct zB as [rB oB'].
    injection HyA as <-. injection HA as <-. injection HyB as <-. injection HB as <-.
    destruct HxA as [HrA HfA]. destruct HxB as [HrB HfB].
    match type of HfA with
    | frame_inv _ _ _ ?RA _ =>
        match type of HfB with
        | frame_inv _ _ _ ?RB _ =>
            assert (RA = RB) as Heq by congruence;
            rewrite <- Heq in HfB |- *
        end
    end.
    split; [reflexivity|]. split; [exact HfA|]. split; [exact HfB|].
    cbn [ctbl].
    pose proof (emit_regs_eq bA hlA code _ _ _ HzA) as Hre. cbn [fst] in Hre.
    destruct (emit_regs_fields
                (mkRegs (load r) (mask r) (ctbl r) c (prev r) (ccsz r) (bszc r)))
      as (F1 & _). rewrite <- Hre in F1. cbn [ctbl] in F1. rewrite F1.
    exact (emit_rel (mkRegs (load r) (mask r) (ctbl r) c (prev r) (ccsz r) (bszc r))
             oA oB (rA, oA') (rB, oB')
             (frame_inv_regs bA code ctsz r
                (mkRegs (load r) (mask r) (ctbl r) c (prev r) (ccsz r) (bszc r))
                oA eq_refl eq_refl HiA)
             (frame_inv_regs bB code ctsz r
                (mkRegs (load r) (mask r) (ctbl r) c (prev r) (ccsz r) (bszc r))
                oB eq_refl eq_refl HiB)
             Hwf Hs HzA HzB).
Qed.

Lemma lzw_codes_rel (fuel : nat) :
  forall r oA oB xA xB w,
    frame_inv bA code ctsz r oA -> frame_inv bB code ctsz r oB ->
    same_out bA bB code ctsz (Z.min (ctbl r) 4095) oA oB ->
    codes_wf ctsz fuel r = Some w ->
    lzw_codes bA hlA code ctsz fuel r oA = Ret xA ->
    lzw_codes bB hlB code ctsz fuel r oB = Ret xB ->
    match xA, xB with
    | inl (rA, oA'), inl (rB, oB') =>
        rA = rB /\ w = Some rA
        /\ frame_inv bA code ctsz rA oA' /\ frame_inv bB code ctsz rA oB'
        /\ same_out bA bB code ctsz (Z.min (ctbl rA) 4095) oA' oB'
    | inr oA', inr oB' => bptr oA' = bptr oB' /\ wlog oA' = wlog oB'
    | _, _ => False
    end.
Proof.
  induction fuel as [|fuel IH]; intros r oA oB xA xB w HiA HiB Hs Hw HA HB;
    [discriminate|].
  cbn [codes_wf lzw_codes] in Hw, HA, HB.
  destruct (bszc r >=? 0).
  - destruct (code_wf ctsz r) eqn:Hc; [|discriminate].
    bind_as HA yA HyA. bind_as HB yB HyB.
    pose proof (lzw_code_rel r oA oB yA yB HiA HiB Hc Hs HyA HyB) as Hr.
    pose proof (lzw_code_inv bA hlA code ctsz Hctsz r oA yA HiA Hc HyA) as HxA.
    destruct yA as [[rA oA']|oA'], yB as [[rB oB']|oB']; try contradiction.
    + destruct Hr as (<- & HfA & HfB & Hs'). destruct HxA as [Hcr _].
      rewrite Hcr in Hw. exact (IH rA oA' oB' xA xB w HfA HfB Hs' Hw HA HB).
    + injection HA as <-. injection HB as <-. exact Hr.
  - injection Hw as <-. injection HA as <-. injection HB as <-. auto.
Qed.

Lemma lzw_block_rel (fuel : nat) :
  forall buff bseq r oA oB pA qA xA pB qB xB w,
    frame_inv bA code ctsz r oA -> frame_inv bB code ctsz r oB ->
    same_out bA bB code ctsz (Z.min (ctbl r) 4095) oA oB ->
    block_wf bA d ctsz fuel buff bseq r = Some w ->
    lzw_block bA d hlA code ctsz fuel buff bseq r oA = Ret (pA, qA, xA) ->
    lzw_block bB d hlB code ctsz fuel buff bseq r oB = Ret (pB, qB, xB) ->
    match xA, xB with
    | inl (rA, oA'), inl (rB, oB') =>
        rA = rB /\ pA = pB /\ qA = qB /\ w = (pA, qA, Some rA)
        /\ frame_inv bA code ctsz rA oA' /\ frame_inv bB code ctsz rA oB'
        /\ same_out bA bB code ctsz (Z.min (ctbl rA) 4095) oA' oB'
    | inr oA', inr oB' => pA = pB /\ qA = qB /\ bptr oA' = bptr oB' /\ wlog oA' = wlog oB'
    | _, _ => False
    end.
Proof.
  induction fuel as [|fuel IH];
    intros buff bseq r oA oB pA qA xA pB qB xB w HiA HiB Hs Hw HA HB; [discriminate|].
  cbn [block_wf lzw_block] in Hw, HA, HB. cbv zeta in Hw, HA, HB.
  rewrite !swap_host16 in Hw, HA, HB.
  destruct (bseq >? 0).
  - bind_as HA yA HyA. bind_as HB yB HyB.
    match type of HyA with
    | lzw_codes _ _ _ _ ?f ?r1 _ = _ =>
        destruct (codes_wf ctsz f r1) as [w1|] eqn:Hc; [|discriminate];
        pose proof (lzw_codes_rel f r1 oA oB yA yB w1
                      (frame_inv_regs bA code ctsz r r1 oA eq_refl eq_refl HiA)
                      (frame_inv_regs bB code ctsz r r1 oB eq_refl eq_refl HiB)
                      Hs Hc HyA HyB) as Hr
    end.
    destruct yA as [[rA oA']|oA'], yB as [[rB oB']|oB']; try contradiction.
    + destruct Hr as (<- & -> & HfA & HfB & Hs').
      exact (IH _ _ rA oA' oB' pA qA xA pB qB xB w HfA HfB Hs' Hw HA HB).
    + apply Ret_triple in HA, HB. destruct HA as (<- & <- & <-), HB as (<- & <- & <-).
      tauto.
  - apply Ret_triple in HA, HB. destruct HA as (<- & <- & <-), HB as (<- & <- & <-).
    injection Hw as <-. auto 10.
Qed.

Lemma lzw_blocks_rel (fuel : nat) :
  forall buff bseq size r oA oB yA yB,
    frame_inv bA code ctsz r oA -> frame_inv bB code ctsz r oB ->
    same_out bA bB code ctsz (Z.min (ctbl r) 4095) oA oB ->
    blocks_wf bA d ctsz fuel buff bseq size r = true ->
    lzw_blocks bA d hlA code ctsz fuel buff bseq size r oA = Ret yA ->
    lzw_blocks bB d hlB code ctsz fuel buff bseq size r oB = Ret yB ->
    bptr (snd yA) = bptr (snd yB) /\ wlog (snd yA) = wlog (snd yB).
Proof.
  induction fuel as [|fuel IH]; intros buff bseq size r oA oB yA yB HiA HiB Hs Hw HA HB;
    [discriminate|].
  cbn [blocks_wf lzw_blocks] in Hw, HA, HB. cbv zeta in Hw, HA, HB.
  destruct (size - (bseq + 1) <=? 0).
  - injection HA as <-. injection HB as <-. destruct Hs as (Hb & Hl & _). auto.
  - bind_as HA zA HzA. bind_as HB zB HzB.
    destruct zA as [[pA qA] xA], zB as [[pB qB] xB].
    destruct (block_wf bA d ctsz (Z.to_nat bseq + 1) buff bseq r)
      as [w|] eqn:Hb; [|discriminate].
    pose proof (lzw_block_rel _ _ _ _ _ _ _ _ _ _ _ _ _ HiA HiB Hs Hb HzA HzB) as Hr.
    destruct xA as [[rA oA']|oA'], xB as [[rB oB']|oB']; try contradiction.
    + destruct Hr as (<- & <- & <- & -> & HfA & HfB & Hs').
      destruct (negb (u8 d (pA + qA) =? 0)).
      * exact (IH _ _ _ rA oA' oB' yA yB HfA HfB Hs' Hw HA HB).
      * injection HA as <-. injection HB as <-. destruct Hs' as (Hb' & Hl' & _). auto.
    + destruct Hr as (<- & <- & Hb' & Hl').
      injection HA as <-. injection HB as <-. auto.
Qed.

End Rel.

(** What two calls on the same frame write, when the stream only uses
    defined codes. *)
Lemma LoadFrame_written_rel (b1 b2 : bool) (d : buffer)
    (h1 h2 buff size bptr0 : Z) (m1 m2 : mem)
    (r1 c1 s1 r2 c2 s2 : Z) (o1 o2 : out) :
  frame_wf b1 d buff size = true ->
  _GIF_LoadFrame b1 d h1 buff size bptr0 m1 = Ret (r1, c1, s1, o1) ->
  _GIF_LoadFrame b2 d h2 buff size bptr0 m2 = Ret (r2, c2, s2, o2) ->
  wlog o1 = wlog o2 /\ bptr o1 = bptr o2.
Proof.
  intros Hwf HA HB.
  unfold _GIF_LoadFrame in HA, HB. unfold frame_wf in Hwf. cbv zeta in HA, HB, Hwf.
  rewrite !swap_host16 in HA, HB, Hwf.
  destruct (size - 1 <=? GIF_HLEN);
    [injection HA as _ _ _ <-; injection HB as _ _ _ <-; auto|].
  destruct (u8 d (buff + 1) =? 0);
    [injection HA as _ _ _ <-; injection HB as _ _ _ <-; auto|].
  destruct ((u8 d buff <? 2) || (u8 d buff >? 8)) eqn:E2;
    [injection HA as _ _ _ <-; injection HB as _ _ _ <-; auto|].
  apply orb_false_iff in E2. destruct E2 as [E2 E3]. apply Z.ltb_ge in E2.
  assert (u8 d buff <= 8) as E4
    by (destruct (Z.gtb_spec (u8 d buff) 8); [discriminate | lia]).
  match type of HA with
  | (if negb ?c then _ else _) = _ => destruct c
  end; cbn [negb] in HA, HB, Hwf;
    [|injection HA as _ _ _ <-; injection HB as _ _ _ <-; auto].
  bind_as HA oA HfA. bind_as HB oB HfB.
  repeat rewrite Z.shiftl_1_l in HfA. repeat rewrite Z.shiftl_1_l in HfB.
  repeat rewrite Z.shiftl_1_l in HA. repeat rewrite Z.shiftl_1_l in HB.
  repeat rewrite Z.shiftl_1_l in Hwf.
  assert (2 <= u8 d buff <= 8) as Hc by lia.
  match type of HA with
  | lzw_blocks _ _ _ _ _ _ _ _ _ (mkRegs _ ?mk _ ?cu _ ?cc ?bz) _ = _ =>
      destruct (LoadFrame_start b1 (u8 d buff) bptr0 m1 oA mk cu cc bz Hc HfA)
        as (A1 & B1 & HiA);
      destruct (LoadFrame_start b2 (u8 d buff) bptr0 m2 oB mk cu cc bz Hc HfB)
        as (A2 & B2 & HiB)
  end.
  pose proof (pow2_bounds (u8 d buff) ltac:(lia)) as Hpow.
  assert (same_out b1 b2 (bptr0 - GIF_CLEN * 4) (u8 d buff)
            (Z.min (2 ^ u8 d buff) 4095) oA oB) as Hs.
  { split; [congruence|]. split; [congruence|]. intros i Hi.
    destruct HiA as (_ & _ & HlA & _). destruct HiB as (_ & _ & HlB & _).
    assert (0 <= i < 2 ^ u8 d buff) as Hlit by (unfold defined in Hi; lia).
    rewrite (HlA i Hlit), (HlB i Hlit). reflexivity. }
  destruct (lzw_blocks_rel b1 b2 d h1 h2 (bptr0 - GIF_CLEN * 4) (u8 d buff) Hc
              _ _ _ _ _ oA oB _ _ HiA HiB Hs Hwf HA HB) as [Hb Hw].
  cbn [snd] in Hb, Hw. auto.
Qed.

(** Whether a code stream only uses defined codes does not depend on the
    byte order of the host. *)
Lemma block_wf_hosts (b1 b2 : bool) (d : buffer) (ctsz : Z) (fuel : nat) :
  forall buff bseq r,
    block_wf b1 d ctsz fuel buff bseq r = block_wf b2 d ctsz fuel buff bseq r.
Proof.
  induction fuel as [|fuel IH]; intros buff bseq r; [reflexivity|].
  cbn [block_wf]. cbv zeta. rewrite !swap_host16.
  destruct (bseq >? 0); [|reflexivity].
  match goal with
  | |- match ?c with _ => _ end = _ => destruct c as [[r'|]|]
  end; try reflexivity. apply IH.
Qed.

Lemma blocks_wf_hosts (b1 b2 : bool) (d : buffer) (ctsz : Z) (fuel : nat) :
  forall buff bseq size r,
    blocks_wf b1 d ctsz fuel buff bseq size r
    = blocks_wf b2 d ctsz fuel buff bseq size r.
Proof.
  induction fuel as [|fuel IH]; intros buff bseq size r; [reflexivity|].
  cbn [blocks_wf]. cbv zeta. rewrite (block_wf_hosts b1 b2).
  destruct (size - (bseq + 1) <=? 0); [reflexivity|].
  destruct (block_wf b2 d ctsz (Z.to_nat bseq + 1) buff bseq r)
    as [[[bu bs] [r'|]]|]; try reflexivity.
  destruct (negb (u8 d (bu + bs) =? 0)); [apply IH | reflexivity].
Qed.

Lemma frame_wf_hosts (b1 b2 : bool) (d : buffer) (buff size : Z) :
  frame_wf b1 d buff size = frame_wf b2 d buff size.
Proof.
  unfold frame_wf. cbv zeta. rewrite !swap_host16.
  rewrite (blocks_wf_hosts b1 b2). reflexivity.
Qed.

(** X15.  When the code stream of a frame only uses codes that are defined
    when they are read, what [_GIF_LoadFrame] writes into the raster is set
    by the input alone: two calls at the same place of the same input that
    both return wrote the same bytes at the same addresses in the same order
    and stop at the same cursor, and the two blocks hold the same bytes from
    the start of the raster up to that cursor, whatever the byte order of
    the host, the size of the block and what the block held, code table
    included, when the call started. *)
Theorem LoadFrame_written_input_only (b1 b2 : bool) (d : buffer)
    (h1 h2 buff size bptr0 : Z) (m1 m2 : mem)
    (r1 c1 s1 r2 c2 s2 : Z) (o1 o2 : out) :
  frame_wf b1 d buff size = true ->
  _GIF_LoadFrame b1 d h1 buff size bptr0 m1 = Ret (r1, c1, s1, o1) ->
  _GIF_LoadFrame b2 d h2 buff size bptr0 m2 = Ret (r2, c2, s2, o2) ->
  wlog o1 = wlog o2 /\ bptr o1 = bptr o2 /\
  forall a, bptr0 <= a < bptr o1 -> heap o1 a = heap o2 a.
Proof.
  intros Hwf HA HB.
  destruct (LoadFrame_written_rel b1 b2 d h1 h2 buff size bptr0 m1 m2
              r1 c1 s1 r2 c2 s2 o1 o2 Hwf HA HB) as [Hw Hb].
  split; [exact Hw|]. split; [exact Hb|].
  assert (frame_wf b2 d buff size = true) as Hwf2.
  { rewrite <- (frame_wf_hosts b1 b2). exact Hwf. }
  destruct (LoadFrame_wf_out b1 d h1 buff size bptr0 m1 r1 c1 s1 o1 Hwf HA)
    as (((_ & _ & Hin) & Hh1) & _).
  destruct (LoadFrame_wf_out b2 d h2 buff size bptr0 m2 r2 c2 s2 o2 Hwf2 HB)
    as ((_ & Hh2) & _).
  intros a Ha. apply Hin in Ha. apply in_map_iff in Ha.
  destruct Ha as ([a' v] & Hfst & Hav). cbn [fst] in Hfst. subst a'.
  rewrite (Hh1 a v Hav). rewrite Hw in Hav. rewrite (Hh2 a v Hav). reflexivity.
Qed.

(** ** The frames written are frames decoded *)

Section Decoded.

Variable GIF_BIGE : bool.
Variable d : buffer.
Variable amdf : bool.
Variable skip : Z.
Variable size : Z.

Lemma extract_block_decoded (e : ext) (nx : bool) (e1 : ext) :
  first_block d <= x_buff e -> x_buff e + x_size e = size ->
  w_bptr (whdr e) = GIF_BLEN /\ Forall (decoded GIF_BIGE d size) (trace e) ->
  extract_block GIF_BIGE d amdf skip (load_blen GIF_BIGE d) e = Ret (nx, e1) ->
  w_bptr (whdr e1) = GIF_BLEN /\ Forall (decoded GIF_BIGE d size) (trace e1).
Proof.
  intros Hfb Hsum (Hb & Hf).
  unfold extract_block. cbv zeta.
  destruct (u8 d (x_buff e) =? GIF_FHDM) eqn:E0.
  - apply Z.eqb_eq in E0.
    pose proof (eq_refl (frame_data d (x_buff e, x_size e, 0))) as Hd.
    unfold frame_data at 2 in Hd.
    destruct (_GIF_LoadFrameHdr (x_buff e + 1) (x_size e - 1) sizeof_FHDR (u8 d 10)
                (u8 d (x_buff e + 1 + 8)) sizeof_GHDR) as [[[cl b] s] cp].
    destruct (ifrm (whdr e) + 1 >=? skip).
    + destruct (cl <=? 0).
      * intros H. injection H as _ <-. cbn. auto.
      * intros H. bind_as H y Hy. destruct y as [[[r b2] s2] o].
        destruct (r <? 0) eqn:Er.
        -- injection H as _ <-. cbn. auto.
        -- apply Z.ltb_ge in Er. injection H as _ <-. cbn [whdr trace w_bptr].
           split; [exact Hb|]. apply Forall_snoc; [exact Hf|].
           cbn [decoded w_bptr]. split; [exact Hb|].
           exists (x_buff e), (blk e), r, b2, s2, o.
           replace (size - x_buff e) with (x_size e) by lia.
           rewrite Hd. cbn [fst snd]. cbn [w_bptr] in Hy. rewrite Hb in Hy.
           split; [lia|]. split; [exact E0|]. split; [exact Hy|]. auto.
    + intros H. injection H as _ <-. cbn. auto.
  - destruct (u8 d (x_buff e) =? GIF_EHDM).
    + destruct (u8 d (x_buff e + 1) =? GIF_FGCM).
      * intros H. injection H as _ <-. cbn [whdr trace].
        split; [exact Hb|]. apply Forall_snoc; [exact Hf | exact I].
      * destruct ((u8 d (x_buff e + 1) =? GIF_AMDM) && amdf).
        -- intros H. injection H as _ <-. cbn [whdr trace].
           split; [exact Hb|]. apply Forall_snoc; [exact Hf | exact I].
        -- intros H. injection H as _ <-. cbn. auto.
    + intros H. injection H as _ <-. cbn. auto.
Qed.

End Decoded.

(** X17.  [GIF_Load] calls the frame writer only after a call of
    [_GIF_LoadFrame] that did not return a negative result, made on the data
    of a frame of the input: the bytes after a frame header that follows a
    frame mark, and its palette when it has one.  The raster is at offset
    [GIF_BLEN] of the block, which has [xdim * ydim + GIF_BLEN] bytes, and
    the frame writer sees the block as that call left it. *)
Theorem GIF_Load_frames_decoded (GIF_BIGE : bool) (d : buffer) (size : Z)
    (amdf : bool) (skip : Z) (m0 : mem) :
  wp any_fault (GIF_Load GIF_BIGE d size amdf skip m0)
     (fun x => Forall (decoded GIF_BIGE d size) (snd x)).
Proof.
  apply GIF_Load_wp_Ret. intros r tr H. cbn [snd].
  apply GIF_Load_Ret_inv in H.
  destruct H as [(_ & -> & _)|(desc & cnt & cpal & e' & _ & Hk & Hfb & _ & He & _ & ->)];
    [constructor|].
  apply Forall_snoc; [|exact I].
  revert He.
  apply (extract_events_inv GIF_BIGE d amdf skip _
           (fun e => w_bptr (whdr e) = GIF_BLEN
                     /\ Forall (decoded GIF_BIGE d size) (trace e))
           (first_block d) size Hk).
  - intros e x Hs Hi Hf Hl Ht Hx.
    destruct (extract_step_block GIF_BIGE d amdf skip _ e x Hx)
      as (nx & e1 & Hb & Hw & Htr & _).
    rewrite Hw, Htr.
    exact (extract_block_decoded GIF_BIGE d amdf skip size e nx e1 Hf Hl Ht Hb).
  - cbn. lia.
  - cbn. lia.
  - cbn. lia.
  - cbn. lia.
  - cbn. split; [reflexivity|]. constructor; [exact I | constructor].
Qed.

(** ** How a call of [_GIF_LoadFrame] ends is told by the input alone *)

Section ScanProofs.

Variable GIF_BIGE : bool.
Variable d : buffer.
Variable hlen code ctsz : Z.




End ScanProofs.



(** ** The extraction loop walks the frames of the input *)

Lemma frame_data_size (d : buffer) (buff size i : Z) :
  snd (frame_data d (buff, size, i)) <= size - 10.
Proof.
  unfold frame_data.
  pose proof (LoadFrameHdr_size (buff + 1) (size - 1) (u8 d 10)
                (u8 d (buff + 1 + 8)) sizeof_GHDR) as H.
  destruct (_GIF_LoadFrameHdr (buff + 1) (size - 1) sizeof_FHDR (u8 d 10)
              (u8 d (buff + 1 + 8)) sizeof_GHDR) as [[[cl b] s] cp].
  cbn [snd]. lia.
Qed.

Lemma SkipChunk_ok (d : buffer) (b s ok b' s' : Z) :
  _GIF_SkipChunk d b s = Ret (ok, b', s') -> (ok =? 0) = false -> 0 < s' < s.
Proof.
  intros H E.
  destruct (SkipChunk_sum d b s) as (r & b2 & s2 & Hr & Hsum & Hlt & Hv).
  rewrite H in Hr. apply Ret_triple in Hr. destruct Hr as (-> & -> & ->).
  apply Z.eqb_neq in E. lia.
Qed.

(** The walk needs no more fuel than there are bytes left. *)
Lemma frame_at_fuel (d : buffer) (n1 : nat) :
  forall n2 buff size k g,
    (Z.to_nat size < n1)%nat -> (Z.to_nat size < n2)%nat ->
    frame_at n1 d buff size k g = frame_at n2 d buff size k g.
Proof.
  induction n1 as [|n1 IH]; intros n2 buff size k g H1 H2; [lia|].
  destruct n2 as [|n2]; [lia|].
  cbn [frame_at]. cbv zeta.
  destruct (u8 d buff =? GIF_EOFM); [reflexivity|].
  destruct (u8 d buff =? GIF_FHDM).
  - destruct (k <=? 0); [reflexivity|].
    pose proof (frame_data_size d buff size 0) as Hs.
    destruct (_GIF_SkipChunk d (fst (frame_data d (buff, size, 0)))
                (snd (frame_data d (buff, size, 0)))) as [[[ok b] s]| |] eqn:E;
      try reflexivity.
    destruct (ok =? 0) eqn:Eo; [reflexivity|].
    pose proof (SkipChunk_ok _ _ _ _ _ _ E Eo).
    apply IH; lia.
  - destruct (_GIF_SkipChunk d (buff + 1) (size - 1)) as [[[ok b] s]| |] eqn:E;
      try reflexivity.
    destruct (ok =? 0) eqn:Eo; [reflexivity|].
    pose proof (SkipChunk_ok _ _ _ _ _ _ E Eo).
    apply IH; lia.
Qed.

Section WalkProofs.

Variable GIF_BIGE : bool.
Variable d : buffer.
Variable amdf : bool.
Variable skip : Z.
Variable hlen : Z.
Variable size : Z.

(** The graphics control extension an iteration leaves remembered. *)
Lemma extract_step_fgch (e : ext) (x : ext + ext) :
  extract_step GIF_BIGE d amdf skip hlen e = Ret x ->
  fgch (step_end x)
  = if u8 d (x_buff e) =? GIF_FHDM then fgch e
    else if (u8 d (x_buff e) =? GIF_EHDM) && (u8 d (x_buff e + 1) =? GIF_FGCM)
         then Some (x_buff e + 3) else fgch e.
Proof.
  unfold extract_step. cbv zeta. intros H. inv_bind H. destruct a as [next e1].
  assert (fgch e1
          = if u8 d (x_buff e) =? GIF_FHDM then fgch e
            else if (u8 d (x_buff e) =? GIF_EHDM) && (u8 d (x_buff e + 1) =? GIF_FGCM)
                 then Some (x_buff e + 3) else fgch e) as Hn.
  { unfold extract_block in Ha. cbv zeta in Ha.
    destruct (u8 d (x_buff e) =? GIF_FHDM).
    - destruct (_GIF_LoadFrameHdr _ _ _ _ _ _) as [[[cl b] s] cp].
      destruct (ifrm (whdr e) + 1 >=? skip).
      + destruct (cl <=? 0); [injection Ha as _ <-; reflexivity|].
        inv_bind Ha. destruct a as [[[r b2] s2] o].
        destruct (r <? 0); injection Ha as _ <-; reflexivity.
      + injection Ha as _ <-. reflexivity.
    - destruct (u8 d (x_buff e) =? GIF_EHDM); cbn [andb].
      + destruct (u8 d (x_buff e + 1) =? GIF_FGCM).
        * injection Ha as _ <-. cbn [fgch]. f_equal. lia.
        * destruct ((u8 d (x_buff e + 1) =? GIF_AMDM) && amdf);
            injection Ha as _ <-; reflexivity.
      + injection Ha as _ <-. reflexivity. }
  destruct next; [injection H as <-; exact Hn|].
  destruct (u8 d (x_buff e) =? GIF_EOFM); [injection H as <-; exact Hn|].
  inv_bind H. destruct a as [[ok b] s].
  destruct (ok =? 0); injection H as <-; exact Hn.
Qed.

(** The frames an iteration passes to the frame writer. *)
Lemma extract_step_frames (e : ext) (x : ext + ext) :
  extract_step GIF_BIGE d amdf skip hlen e = Ret x ->
  exists news,
    trace (step_end x) = trace e ++ news
    /\ forall w m wl, In (GWFR w m wl) news ->
         u8 d (x_buff e) = GIF_FHDM
         /\ ifrm w = ifrm (whdr e) + 1
         /\ time w = frame_time GIF_BIGE d (fgch e)
         /\ tran w = frame_tran d (fgch e)
         /\ exists r b s o,
              _GIF_LoadFrame GIF_BIGE d hlen
                (fst (frame_data d (x_buff e, x_size e, 0)))
                (snd (frame_data d (x_buff e, x_size e, 0)))
                (w_bptr (whdr e)) (blk e)
              = Ret (r, b, s, o)
              /\ 0 <= r /\ m = heap o /\ wl = wlog o.
Proof.
  unfold extract_step. cbv zeta. intros H. inv_bind H. destruct a as [next e1].
  assert (trace (step_end x) = trace e1) as Ht.
  { destruct next; [injection H as <-; reflexivity|].
    destruct (u8 d (x_buff e) =? GIF_EOFM); [injection H as <-; reflexivity|].
    inv_bind H. destruct a as [[ok b] s].
    destruct (ok =? 0); injection H as <-; reflexivity. }
  rewrite Ht. clear H Ht.
  unfold extract_block in Ha. cbv zeta in Ha. unfold frame_data.
  destruct (u8 d (x_buff e) =? GIF_FHDM) eqn:E0.
  - apply Z.eqb_eq in E0.
    destruct (_GIF_LoadFrameHdr (x_buff e + 1) (x_size e - 1) sizeof_FHDR (u8 d 10)
                (u8 d (x_buff e + 1 + 8)) sizeof_GHDR) as [[[cl b] s] cp].
    cbn [fst snd].
    destruct (ifrm (whdr e) + 1 >=? skip).
    + destruct (cl <=? 0).
      * injection Ha as _ <-. exists []. cbn [trace]. rewrite app_nil_r.
        split; [reflexivity | intros w m wl []].
      * inv_bind Ha. destruct a as [[[r b2] s2] o].
        destruct (r <? 0) eqn:Er.
        -- injection Ha as _ <-. exists []. cbn [trace]. rewrite app_nil_r.
           split; [reflexivity | intros w m wl []].
        -- apply Z.ltb_ge in Er. injection Ha as _ <-. cbn [trace].
           eexists. split; [reflexivity|].
           intros w m wl [Hin|[]]. injection Hin as <- <- <-.
           cbn [ifrm time tran]. cbn [w_bptr] in Ha0.
           split; [exact E0|]. split; [reflexivity|]. split; [reflexivity|].
           split; [reflexivity|].
           exists r, b2, s2, o. auto.
    + injection Ha as _ <-. exists []. cbn [trace]. rewrite app_nil_r.
      split; [reflexivity | intros w m wl []].
  - destruct (u8 d (x_buff e) =? GIF_EHDM).
    + destruct (u8 d (x_buff e + 1) =? GIF_FGCM).
      * injection Ha as _ <-. cbn [trace]. eexists. split; [reflexivity|].
        intros w m wl [Hin|[]]. discriminate.
      * destruct ((u8 d (x_buff e + 1) =? GIF_AMDM) && amdf).
        -- injection Ha as _ <-. cbn [trace]. eexists. split; [reflexivity|].
           intros w m wl [Hin|[]]. discriminate.
        -- injection Ha as _ <-. exists []. cbn [trace]. rewrite app_nil_r.
           split; [reflexivity | intros w m wl []].
    + injection Ha as _ <-. exists []. cbn [trace]. rewrite app_nil_r.
      split; [reflexivity | intros w m wl []].
Qed.

(** One step of the walk. *)
Lemma frame_at_here (n : nat) (buff sz k : Z) (g : option Z) :
  u8 d buff = GIF_FHDM -> k <= 0 ->
  frame_at (S n) d buff sz k g = Some (buff, sz, g).
Proof.
  intros Hd Hk. cbn [frame_at]. cbv zeta. rewrite Hd.
  change (GIF_FHDM =? GIF_EOFM) with false. change (GIF_FHDM =? GIF_FHDM) with true.
  cbv iota. destruct (Z.leb_spec k 0); [reflexivity | lia].
Qed.

Lemma frame_at_frame (n : nat) (buff sz k : Z) (g : option Z) (ok b s : Z) :
  u8 d buff = GIF_FHDM -> 0 < k ->
  _GIF_SkipChunk d (fst (frame_data d (buff, sz, 0)))
    (snd (frame_data d (buff, sz, 0))) = Ret (ok, b, s) ->
  (ok =? 0) = false ->
  frame_at (S n) d buff sz k g = frame_at n d b s (k - 1) g.
Proof.
  intros Hd Hk Hs Ho. cbn [frame_at]. cbv zeta. rewrite Hd.
  change (GIF_FHDM =? GIF_EOFM) with false. change (GIF_FHDM =? GIF_FHDM) with true.
  cbv iota. destruct (Z.leb_spec k 0); [lia|]. rewrite Hs, Ho. reflexivity.
Qed.

Lemma frame_at_other (n : nat) (buff sz k : Z) (g : option Z) (ok b s : Z) :
  (u8 d buff =? GIF_FHDM) = false -> (u8 d buff =? GIF_EOFM) = false ->
  _GIF_SkipChunk d (buff + 1) (sz - 1) = Ret (ok, b, s) ->
  (ok =? 0) = false ->
  frame_at (S n) d buff sz k g
  = frame_at n d b s k
      (if (u8 d buff =? GIF_EHDM) && (u8 d (buff + 1) =? GIF_FGCM)
       then Some (buff + 3) else g).
Proof.
  intros Hd He Hs Ho. cbn [frame_at]. cbv zeta. rewrite Hd, He, Hs, Ho. reflexivity.
Qed.

(** The walk from the cursor after a block, from the walk before it. *)
Lemma in_step_move (e e1 : ext) (dk : Z) :
  0 < x_size e1 < x_size e ->
  ifrm (whdr e1) = ifrm (whdr e) + dk ->
  (forall k, 0 <= k ->
     frame_at (S (Z.to_nat (x_size e))) d (x_buff e) (x_size e) (k + dk) (fgch e)
     = frame_at (Z.to_nat (x_size e)) d (x_buff e1) (x_size e1) k (fgch e1)) ->
  0 <= dk ->
  in_step d size e -> in_step d size e1.
Proof.
  intros Hs Hi Hw Hdk J k Hk.
  rewrite (frame_at_fuel d _ (Z.to_nat (x_size e))) by lia.
  rewrite <- Hw by exact Hk.
  replace (S (Z.to_nat (x_size e))) with (Z.to_nat (x_size e) + 1)%nat by lia.
  rewrite J by lia. f_equal. lia.
Qed.

(** An iteration that goes round the loop again has passed a block as the
    walk passes it. *)
Lemma in_step_next (e e1 : ext) :
  extract_step GIF_BIGE d amdf skip hlen e = Ret (inl e1) ->
  0 < x_size e -> -1 <= ifrm (whdr e) -> in_step d size e ->
  in_step d size e1 /\ 0 < x_size e1 /\ ifrm (whdr e) <= ifrm (whdr e1).
Proof.
  intros H Hsz Hif J.
  destruct (extract_step_ctrl GIF_BIGE d amdf hlen skip e _ H) as [Hc Hlf].
  pose proof (extract_step_fgch e _ H) as Hg.
  cbn [went_on step_end] in Hc, Hg.
  unfold ctrl_step, ctrl_of in Hc.
  assert (forall b0 s0 i0,
             (true, (x_buff e1, x_size e1, ifrm (whdr e1)))
             = ctrl_skip d (u8 d (x_buff e)) (b0, s0, i0) ->
             (u8 d (x_buff e) =? GIF_EOFM) = false
             /\ exists ok, _GIF_SkipChunk d b0 s0 = Ret (ok, x_buff e1, x_size e1)
                           /\ (ok =? 0) = false /\ ifrm (whdr e1) = i0) as Hskip.
  { intros b0 s0 i0 Hk. unfold ctrl_skip in Hk.
    destruct (u8 d (x_buff e) =? GIF_EOFM); [discriminate|]. split; [reflexivity|].
    destruct (_GIF_SkipChunk d b0 s0) as [[[ok b'] s']| |]; try discriminate.
    injection Hk as Hk <- <- <-. exists ok.
    destruct (ok =? 0); [discriminate | auto]. }
  assert (forall b0 s0 i0, s0 <= 1 ->
             (true, (x_buff e1, x_size e1, ifrm (whdr e1)))
             <> ctrl_skip d (u8 d (x_buff e)) (b0, s0, i0)) as Hshort.
  { intros b0 s0 i0 Hle Hk.
    destruct (ctrl_skip_short d (u8 d (x_buff e)) b0 s0 i0 Hle) as (b3 & s3 & Hss).
    rewrite Hss in Hk. discriminate. }
  destruct (u8 d (x_buff e) =? GIF_FHDM) eqn:Ed.
  - assert (exists ok,
               _GIF_SkipChunk d (fst (frame_data d (x_buff e, x_size e, 0)))
                 (snd (frame_data d (x_buff e, x_size e, 0)))
               = Ret (ok, x_buff e1, x_size e1)
               /\ (ok =? 0) = false /\ ifrm (whdr e1) = ifrm (whdr e) + 1)
      as (ok & Hs & Ho & Hi).
    { unfold frame_call, ctrl_of in Hc.
      change (frame_data d (x_buff e, x_size e, ifrm (whdr e)))
        with (frame_data d (x_buff e, x_size e, 0)) in Hc.
      destruct (frame_data d (x_buff e, x_size e, 0)) as [b s]. cbn [fst snd] in *.
      destruct (ifrm (whdr e) + 1 >=? skip).
      - destruct (frame_clrs d (x_buff e, x_size e, ifrm (whdr e)) <=? 0).
        + exfalso. revert Hc. apply Hshort. lia.
        + destruct (frame_status _) as [[[r b2] s2]|] eqn:Est; [|discriminate].
          destruct (frame_status_chain _ _ _ _ _ _ _ _ _ _ Est) as [_ Hch].
          destruct (r <? 0) eqn:Er; [exfalso; revert Hc; apply Hshort; lia|].
          apply Z.ltb_ge in Er. destruct (Hch Er) as (n & Hn & Hb2 & Hs2). subst b2 s2.
          destruct (0 <? s - (1 + n)) eqn:Es;
            [|apply Z.ltb_ge in Es; exfalso; revert Hc; apply Hshort; lia].
          apply Z.ltb_lt in Es. injection Hc as E1 E2 E3. rewrite E1, E2, E3.
          exists 1. split; [exact (SkipChunk_chain _ _ _ _ Hn Es)|]. auto.
      - apply Hskip in Hc. exact (proj2 Hc). }
    apply Z.eqb_eq in Ed.
    pose proof (SkipChunk_ok _ _ _ _ _ _ Hs Ho) as Hlt.
    pose proof (frame_data_size d (x_buff e) (x_size e) 0) as Hfs.
    split; [|split; lia].
    apply (in_step_move e e1 1); try lia; [|exact J].
    intros k Hk. rewrite (frame_at_frame (Z.to_nat (x_size e)) (x_buff e) (x_size e) (k + 1)
               (fgch e) ok _ _ Ed ltac:(lia) Hs Ho).
    rewrite Hg. f_equal. lia.
  - apply Hskip in Hc. destruct Hc as (He & ok & Hs & Ho & Hi).
    pose proof (SkipChunk_ok _ _ _ _ _ _ Hs Ho) as Hlt.
    split; [|split; lia].
    apply (in_step_move e e1 0); try lia; [|exact J].
    intros k Hk. rewrite (frame_at_other _ _ _ _ _ _ _ _ Ed He Hs Ho).
    rewrite Hg. f_equal. lia.
Qed.





End WalkProofs.

(** Every call of the frame writer is for a frame of the input, decoded. *)
Lemma extract_delivered (GIF_BIGE : bool) (d : buffer) (amdf : bool) (skip size : Z)
    (fuel : nat) :
  forall e e',
    extract GIF_BIGE d amdf skip (load_blen GIF_BIGE d) fuel e = Ret e' ->
    0 < x_size e -> -1 <= ifrm (whdr e) -> w_bptr (whdr e) = GIF_BLEN ->
    in_step d size e ->
    Forall (delivered GIF_BIGE d size) (trace e) ->
    Forall (delivered GIF_BIGE d size) (trace e').
Proof.
  induction fuel as [|fuel IH]; intros e e' H Hsz Hif Hb J Hf; [discriminate|].
  cbn [extract] in H.
  destruct (skip <? _); [|injection H as <-; exact Hf].
  inv_bind H. rename a into x. rename Ha into Hx.
  destruct (extract_step_frames GIF_BIGE d amdf skip _ e x Hx) as (news & Ht & Hnew).
  assert (Forall (delivered GIF_BIGE d size) (trace (step_end x))) as Hf1.
  { rewrite Ht. apply Forall_app. split; [exact Hf|].
    apply Forall_forall. intros ev Hin. destruct ev as [s c|w m wl|w|p]; try exact I.
    destruct (Hnew w m wl Hin) as (Ed & Hi & Hti & Htr & r & b & s & o & Hl & Hr & Hm & Hw).
    cbn [delivered]. exists (x_buff e), (x_size e), (fgch e).
    split; [|split; [exact Hti|split; [exact Htr|]]].
    - pose proof (J 0 ltac:(lia)) as H0.
      replace (Z.to_nat (x_size e) + 1)%nat with (S (Z.to_nat (x_size e))) in H0 by lia.
      rewrite (frame_at_here d (Z.to_nat (x_size e)) (x_buff e) (x_size e) 0 (fgch e)
                 Ed ltac:(lia)) in H0.
      rewrite Hi. rewrite H0. f_equal. lia.
    - exists (blk e), r, b, s, o. rewrite Hb in Hl. auto. }
  destruct (extract_step_nfrm GIF_BIGE d amdf _ skip e x Hx) as [_ Hi1].
  pose proof (extract_step_events GIF_BIGE d amdf skip _ e x Hx) as ((_ & _ & _ & _ & Hb1) & _).
  destruct x as [e1|e1]; cbn [step_end] in *.
  - destruct (in_step_next GIF_BIGE d amdf skip _ size e e1 Hx Hsz Hif J) as (J1 & Hs1 & _).
    apply (IH e1 e' H Hs1 (Hi1 Hif)); [congruence | exact J1 | exact Hf1].
  - injection H as <-. exact Hf1.
Qed.

(** The walk from the first block. *)
Lemma in_step_start (GIF_BIGE : bool) (d : buffer) (size nfrm cpal : Z) (m0 : mem) :
  in_step d size (load_start GIF_BIGE d size nfrm cpal m0).
Proof.
  intros k Hk. unfold nth_frame. cbn [load_start x_size x_buff fgch whdr ifrm].
  replace (-1 + 1 + k) with k by lia. reflexivity.
Qed.

Lemma GIF_Load_delivered (GIF_BIGE : bool) (d : buffer) (size : Z) (amdf : bool)
    (skip : Z) (m0 : mem) (r : Z) (tr : list event) :
  GIF_Load GIF_BIGE d size amdf skip m0 = Ret (r, tr) ->
  Forall (delivered GIF_BIGE d size) tr.
Proof.
  intros H. apply GIF_Load_Ret_inv in H.
  destruct H as [(_ & -> & _)|(desc & cnt & cpal & e' & _ & Hk & Hfb & _ & He & _ & ->)];
    [constructor|].
  apply Forall_app. split; [|constructor; [exact I | constructor]].
  revert He. intros He.
  apply (extract_delivered GIF_BIGE d amdf skip size _ _ _ He).
  - cbn. lia.
  - cbn. lia.
  - reflexivity.
  - apply in_step_start.
  - cbn. constructor; [exact I | constructor].
Qed.


(** ** The graphics control extension the walk remembers *)

Lemma frame_data_cursor (d : buffer) (buff size i : Z) :
  buff + 10 <= fst (frame_data d (buff, size, i)).
Proof.
  unfold frame_data.
  pose proof (LoadFrameHdr_cursor (buff + 1) (size - 1) (u8 d 10)
                (u8 d (buff + 1 + 8)) sizeof_GHDR) as H.
  destruct (_GIF_LoadFrameHdr (buff + 1) (size - 1) sizeof_FHDR (u8 d 10)
              (u8 d (buff + 1 + 8)) sizeof_GHDR) as [[[cl b] s] cp].
  cbn [fst]. lia.
Qed.

(** The walk stops at a frame mark, and what it remembers is the place of
    the fields of a graphics control extension that starts before the
    mark. *)
Lemma frame_at_gce (d : buffer) (n : nat) :
  forall buff sz k g q sz' g',
    frame_at n d buff sz k g = Some (q, sz', g') ->
    (forall p, g = Some p ->
       u8 d (p - 3) = GIF_EHDM /\ u8 d (p - 2) = GIF_FGCM /\ p - 3 < buff) ->
    buff <= q /\ u8 d q = GIF_FHDM
    /\ (forall p, g' = Some p ->
          u8 d (p - 3) = GIF_EHDM /\ u8 d (p - 2) = GIF_FGCM /\ p - 3 < q).
Proof.
  induction n as [|n IH]; intros buff sz k g q sz' g' H Hg; [discriminate|].
  cbn [frame_at] in H. cbv zeta in H.
  destruct (u8 d buff =? GIF_EOFM); [discriminate|].
  destruct (u8 d buff =? GIF_FHDM) eqn:Ed.
  - apply Z.eqb_eq in Ed. destruct (k <=? 0).
    + injection H as <- <- <-. split; [lia|]. split; [exact Ed | exact Hg].
    + pose proof (frame_data_cursor d buff sz 0) as Hfc.
      destruct (_GIF_SkipChunk d _ _) as [[[ok b] s]| |] eqn:Es; try discriminate.
      destruct (ok =? 0); [discriminate|].
      destruct (SkipChunk_sum d (fst (frame_data d (buff, sz, 0)))
                  (snd (frame_data d (buff, sz, 0))))
        as (r0 & b0 & s0 & Hr0 & _ & Hlt & _).
      rewrite Es in Hr0. apply Ret_triple in Hr0. destruct Hr0 as (<- & <- & <-).
      destruct (IH _ _ _ _ _ _ _ H) as (Hq & Hm & Hg').
      * intros p Hp. destruct (Hg p Hp) as (H1 & H2 & H3). repeat split; try assumption. lia.
      * split; [lia|]. split; assumption.
  - destruct (_GIF_SkipChunk d (buff + 1) (sz - 1)) as [[[ok b] s]| |] eqn:Es;
      try discriminate.
    destruct (ok =? 0); [discriminate|].
    destruct (SkipChunk_sum d (buff + 1) (sz - 1)) as (r0 & b0 & s0 & Hr0 & _ & Hlt & _).
    rewrite Es in Hr0. apply Ret_triple in Hr0. destruct Hr0 as (<- & <- & <-).
    destruct (IH _ _ _ _ _ _ _ H) as (Hq & Hm & Hg').
    + intros p Hp.
      destruct ((u8 d buff =? GIF_EHDM) && (u8 d (buff + 1) =? GIF_FGCM)) eqn:Eg.
      * injection Hp as <-. apply andb_true_iff in Eg. destruct Eg as [E1 E2].
        apply Z.eqb_eq in E1, E2.
        replace (buff + 3 - 3) with buff by lia.
        replace (buff + 3 - 2) with (buff + 1) by lia.
        repeat split; try assumption. lia.
      * destruct (Hg p Hp) as (H1 & H2 & H3). repeat split; try assumption. lia.
    + split; [lia|]. split; assumption.
Qed.

(** ** The graphics control extension in force, from the input (C5) *)

(** C5: every frame passed to the frame writer is the frame of the input
    that has the index of its descriptor, and its delay and transparent index
    are those of the graphics control extension met last before that frame
    when the blocks of the input are walked from the first one: the 16-bit
    little-endian delay of that extension, and its transparent colour index
    if bit 0 of its flags is set, -1 if not; they are 0 and -1 if the walk
    met no graphics control extension before the frame.  The extension is a
    block that starts, before the frame, with the bytes 0x21 0xF9; it stays
    in force for the frames that follow until the walk meets another. *)
Theorem GIF_Load_time_tran (GIF_BIGE : bool) (d : buffer) (size : Z) (amdf : bool)
  (skip : Z) (m0 : mem) :
  wp any_fault (GIF_Load GIF_BIGE d size amdf skip m0)
     (fun x => forall w m wl,
          In (GWFR w m wl) (snd x) ->
          exists q sz g,
            nth_frame d size (ifrm w) = Some (q, sz, g)
            /\ u8 d q = GIF_FHDM
            /\ match g with
               | Some p =>
                   u8 d (p - 3) = GIF_EHDM /\ u8 d (p - 2) = GIF_FGCM /\ p - 3 < q
                   /\ time w = u8 d (p + 1) + 256 * u8 d (p + 2)
                   /\ tran w = (if Z.testbit (u8 d p) 0 then u8 d (p + 3) else -1)
               | None => time w = 0 /\ tran w = -1
               end).
Proof.
  apply GIF_Load_wp_Ret. intros r tr H w m wl Hin. cbn [snd] in Hin.
  pose proof (GIF_Load_delivered _ _ _ _ _ _ _ _ H) as Hf.
  rewrite Forall_forall in Hf. specialize (Hf _ Hin). cbn [delivered] in Hf.
  destruct Hf as (q & sz & g & HW & Hti & Htr & _).
  exists q, sz, g. split; [exact HW|].
  unfold nth_frame in HW. apply frame_at_gce in HW; [|discriminate].
  destruct HW as (_ & Hq & Hg). split; [exact Hq|].
  rewrite Hti, Htr.
  unfold frame_time, frame_tran, fgch_time, fgch_flgs, fgch_tran.
  destruct g as [p|]; [|auto].
  destruct (Hg p eq_refl) as (H1 & H2 & H3).
  rewrite swap_host16, tran_bit by apply u8_range.
  replace (p + 1 + 1) with (p + 2) by lia. auto.
Qed.

(** ** A stream with an ending mark (C2) *)


(** ** A frame without an end-of-data code (C7) *)



(** ** The properties on the sample inputs *)

(** The one-frame input: the call returns 1 and writes one frame. *)
Example ex_one_result :
  result_and_calls (GIF_Load false ex_one 35 false 0 zero_mem) = Some (1, 1).
Proof. vm_compute. reflexivity. Qed.

(** The same input without its ending mark: the call returns -1. *)
Example ex_one_truncated :
  result_and_calls (GIF_Load false ex_one 34 false 0 zero_mem) = Some (-1, 1).
Proof. vm_compute. reflexivity. Qed.

(** C1 as stated fails on the two-frame input without its ending mark and
    [skip = 1]: the counting loop does not meet the ending mark, one frame is
    written, and the call returns -1, not -(1 + 1). *)
Lemma GIF_Load_return_not_minus_total :
  signature_ok ex_two 57 = true
  /\ counting ex_two 57 = Ret (GIF_FHDM, 2, 0)
  /\ result_and_calls (GIF_Load false ex_two 57 false 1 zero_mem) = Some (-1, 1)
  /\ -1 <> - (1 + 1).
Proof.
  split; [reflexivity|]. split; [vm_compute; reflexivity|].
  split; [vm_compute; reflexivity | discriminate].
Qed.

Lemma GIF_Load_return_witness :
  wp any_fault (GIF_Load false ex_two 57 false 1 zero_mem)
     (fun x => if GIF_FHDM =? GIF_EOFM
               then fst x = sink_calls (snd x) + 1
               else fst x = - sink_calls (snd x)).
Proof.
  apply (GIF_Load_return false ex_two 57 false 1 zero_mem GIF_FHDM 2 0);
    [reflexivity | lia | vm_compute; reflexivity | lia].
Defined.



(** C4 as stated fails on a frame that follows a graphics control extension
    whose user-input bit (bit 1) is set and whose disposal field is 1: the
    frame is written with mode 1, [GIF_CURR], not with [GIF_NONE]. *)
Lemma GIF_Load_mode_user_input :
  option_map (fun x => map (fun gw => (fst gw, mode (snd gw)))
                         (frames_with_gce (snd x) None))
    (returned (GIF_Load false ex_user_input 43 false 0 zero_mem))
  = Some [(Some 22, GIF_CURR)]
  /\ Z.testbit (u8 ex_user_input 22) 1 = true
  /\ GIF_CURR <> GIF_NONE.
Proof.
  split; [vm_compute; reflexivity|]. split; [reflexivity | discriminate].
Qed.

(** On the two-frame input the second frame has the delay 10 and the
    transparent index 1 of the extension before it, the first has 0 and -1. *)
Example ex_two_time_tran :
  option_map (fun x => map (fun gw => (fst gw, time (snd gw), tran (snd gw)))
                         (frames_with_gce (snd x) None))
    (returned (GIF_Load false ex_two 58 false 0 zero_mem))
  = Some [(None, 0, -1); (Some 37, 10, 1)].
Proof. vm_compute. reflexivity. Qed.

(** A frame without end-of-data code is written, and so is the next. *)
Example ex_nostop_result :
  result_and_calls (GIF_Load false ex_nostop 49 false 0 zero_mem) = Some (2, 2)
  /\ frame_status (_GIF_LoadFrame false ex_nostop 16385 29 20 16384 zero_mem)
     = Some (0, 33, 16).
Proof. split; vm_compute; reflexivity. Qed.


(** On the two-frame input the second frame comes after a graphics control
    extension with delay 10 and transparent index 1: the first frame is
    written with delay 0 and no transparent index, the second with those of
    the extension. *)
Example GIF_Load_time_tran_two :
  nth_frame ex_two 58 0 = Some (19, 39, None)
  /\ nth_frame ex_two 58 1 = Some (42, 16, Some 37)
  /\ u8 ex_two 34 = GIF_EHDM /\ u8 ex_two 35 = GIF_FGCM
  /\ option_map (fun x => map (fun w => (ifrm w, time w, tran w)) (sink_frames (snd x)))
       (returned (GIF_Load false ex_two 58 false 0 zero_mem))
     = Some [(0, 0, -1); (1, 10, 1)].
Proof. repeat split; vm_compute; reflexivity. Qed.

(** C3 as stated fails on the two-frame input without its ending mark (57
    bytes): the call on the 40-byte prefix returns -1, and the call on the 57
    bytes with [skip = 1] writes one frame and returns -1 again, which is not
    a positive total.  (On the one-frame input with its ending mark, the call
    with [skip = 1] returns 0.) *)
Lemma GIF_Load_resume_still_truncated :
  result_and_calls (GIF_Load false (firstn (Z.to_nat 40) ex_two) 40 false 0 zero_mem)
  = Some (-1, 1)
  /\ result_and_calls (GIF_Load false (firstn (Z.to_nat 57) ex_two) 57 false 1 zero_mem)
     = Some (-1, 1)
  /\ ~ 0 < -1
  /\ result_and_calls (GIF_Load false ex_one 35 false 1 zero_mem) = Some (0, 0).
Proof.
  split; [vm_compute; reflexivity|]. split; [vm_compute; reflexivity|].
  split; [lia | vm_compute; reflexivity].
Qed.

Lemma GIF_Load_resume_witness :
  exists r tr,
    GIF_Load false ex_two 58 false 1 zero_mem = Ret (r, tr)
    /\ r = 2 /\ sink_calls tr = 2 - 1.
Proof.
  destruct (GIF_Load false (firstn (Z.to_nat 40) ex_two) 40 false 0 zero_mem)
    as [[rk trk]| |] eqn:Ek.
  2,3: exfalso;
    assert (result_and_calls
              (GIF_Load false (firstn (Z.to_nat 40) ex_two) 40 false 0 zero_mem)
            <> None) as H by (vm_compute; discriminate);
    rewrite Ek in H; apply H; reflexivity.
  assert (rk = - 1) as ->.
  { assert (result_and_calls
              (GIF_Load false (firstn (Z.to_nat 40) ex_two) 40 false 0 zero_mem)
            = Some (-1, 1)) as H by (vm_compute; reflexivity).
    rewrite Ek in H. cbn in H. injection H as -> _. reflexivity. }
  destruct (GIF_Load false ex_two 58 false 0 zero_mem) as [[r0 tr0]| |] eqn:E0.
  2,3: exfalso;
    assert (result_and_calls (GIF_Load false ex_two 58 false 0 zero_mem) <> None)
      as H by (vm_compute; discriminate);
    rewrite E0 in H; apply H; reflexivity.
  assert (r0 = 2) as ->.
  { assert (result_and_calls (GIF_Load false ex_two 58 false 0 zero_mem)
            = Some (2, 2)) as H by (vm_compute; reflexivity).
    rewrite E0 in H. cbn in H. injection H as -> _. reflexivity. }
  destruct (GIF_Load false ex_two 58 false 1 zero_mem) as [[r tr]| |] eqn:E1.
  2,3: exfalso;
    assert (result_and_calls (GIF_Load false ex_two 58 false 1 zero_mem) <> None)
      as H by (vm_compute; discriminate);
    rewrite E1 in H; apply H; reflexivity.
  exists r, tr. split; [reflexivity|].
  exact (GIF_Load_resume false ex_two 58 false 40 1 2 zero_mem zero_mem zero_mem
           trk tr0 tr r Ek ltac:(lia) E0 ltac:(lia) E1).
Defined.

(** C6 as stated fails on the two-frame input: its first frame is written
    with a palette of two colours ([clrs = 2]) and the index 3, which is not
    in [0, clrs - 1].  The code stream of that frame only uses defined
    codes, and the minimum code size it announces is 2. *)
Lemma LoadFrame_index_not_below_clrs :
  option_map (fun x => frames_written (snd x))
    (returned (GIF_Load false ex_two 58 false 0 zero_mem))
  = Some [(2, [3]); (2, [1])]
  /\ ~ 0 <= 3 <= 2 - 1
  /\ result_and_calls (GIF_Load false ex_two 58 false 0 zero_mem) = Some (2, 2)
  /\ frame_wf false ex_two 29 29 = true
  /\ u8 ex_two 29 = 2.
Proof.
  split; [vm_compute; reflexivity|]. split; [lia|].
  split; [vm_compute; reflexivity|]. split; vm_compute; reflexivity.
Qed.

Lemma LoadFrame_indices_witness :
  frame_wf false ex_run 29 6 = true
  /\ frame_status (_GIF_LoadFrame false ex_run 16400 29 6 16384 zero_mem)
     = Some (1, 34, 1)
  /\ written (_GIF_LoadFrame false ex_run 16400 29 6 16384 zero_mem) = [1; 1; 1]
  /\ Forall (fun v => 0 <= v < 2 ^ u8 ex_run 29)
       (written (_GIF_LoadFrame false ex_run 16400 29 6 16384 zero_mem)).
Proof.
  split; [vm_compute; reflexivity|]. split; [vm_compute; reflexivity|].
  split; [vm_compute; reflexivity|].
  apply LoadFrame_indices. vm_compute. reflexivity.
Defined.

(** Without the hypothesis on the codes the bound is lost: on a code that is
    not defined the expander reads a cell that the frame never set, here
    [code[4]], and writes what the block held there. *)
Example LoadFrame_undefined_code :
  frame_wf false ex_undefined 29 6 = false
  /\ frame_status
       (_GIF_LoadFrame false ex_undefined 16400 29 6 16384 (store8 zero_mem 19 200))
     = Some (1, 34, 1)
  /\ written
       (_GIF_LoadFrame false ex_undefined 16400 29 6 16384 (store8 zero_mem 19 200))
     = [200; 200]
  /\ u8 ex_undefined 29 = 2.
Proof.
  split; [vm_compute; reflexivity|]. split; [vm_compute; reflexivity|].
  split; vm_compute; reflexivity.
Qed.

(** On the two-frame input both hosts, with different blocks, leave the
    first frame with the same result, cursor and size. *)
Lemma LoadFrame_status_input_only_witness :
  exists r1 c1 s1 o1 r2 c2 s2 o2,
    _GIF_LoadFrame false ex_two 16385 29 29 16384 zero_mem = Ret (r1, c1, s1, o1)
    /\ _GIF_LoadFrame true ex_two 16400 29 29 16390 (fun _ => 255) = Ret (r2, c2, s2, o2)
    /\ r1 = r2 /\ c1 = c2 /\ s1 = s2.
Proof.
  destruct (_GIF_LoadFrame false ex_two 16385 29 29 16384 zero_mem)
    as [[[[r1 c1] s1] o1]| |] eqn:E1.
  2,3: exfalso;
    assert (frame_status (_GIF_LoadFrame false ex_two 16385 29 29 16384 zero_mem) <> None)
      as H by (vm_compute; discriminate);
    rewrite E1 in H; apply H; reflexivity.
  destruct (_GIF_LoadFrame true ex_two 16400 29 29 16390 (fun _ => 255))
    as [[[[r2 c2] s2] o2]| |] eqn:E2.
  2,3: exfalso;
    assert (frame_status (_GIF_LoadFrame true ex_two 16400 29 29 16390 (fun _ => 255))
            <> None) as H by (vm_compute; discriminate);
    rewrite E2 in H; apply H; reflexivity.
  exists r1, c1, s1, o1, r2, c2, s2, o2.
  split; [reflexivity|]. split; [reflexivity|].
  exact (LoadFrame_status_input_only false true ex_two 16385 16384 16400 16390 29 29
           zero_mem (fun _ => 255) r1 c1 s1 r2 c2 s2 o1 o2 E1 E2).
Defined.

(** The two-frame input without its ending mark (57 bytes), with
    [skip = 2]: the call returns 2. *)
Lemma GIF_Load_skip_all_witness :
  counting (firstn 57 ex_two) 57 = Ret (GIF_FHDM, 2, 0)
  /\ GIF_Load false (firstn 57 ex_two) 57 false 2 zero_mem
     = Ret (if (GIF_FHDM =? GIF_EOFM) || (2 =? 0) then 0 else 2,
            [MGET (load_blen false (firstn 57 ex_two)) 1;
             MGET (load_blen false (firstn 57 ex_two)) 0]).
Proof.
  split; [vm_compute; reflexivity|].
  apply (GIF_Load_skip_all false (firstn 57 ex_two) 57 false 2 zero_mem GIF_FHDM 2 0);
    [vm_compute; reflexivity | lia | vm_compute; reflexivity
     | vm_compute; reflexivity | lia].
Defined.

(** On the two-frame input a little-endian host without a metadata reader
    and a big-endian host with one, on different blocks, return the same
    and write the same descriptors. *)
Lemma GIF_Load_input_only_witness :
  exists r1 tr1 r2 tr2,
    GIF_Load false ex_two 58 false 0 zero_mem = Ret (r1, tr1)
    /\ GIF_Load true ex_two 58 true 0 (fun _ => 255) = Ret (r2, tr2)
    /\ r1 = r2 /\ sink_frames tr1 = sink_frames tr2.
Proof.
  destruct (GIF_Load false ex_two 58 false 0 zero_mem) as [[r1 tr1]| |] eqn:E1.
  2,3: exfalso;
    assert (result_and_calls (GIF_Load false ex_two 58 false 0 zero_mem) <> None)
      as H by (vm_compute; discriminate);
    rewrite E1 in H; apply H; reflexivity.
  destruct (GIF_Load true ex_two 58 true 0 (fun _ => 255)) as [[r2 tr2]| |] eqn:E2.
  2,3: exfalso;
    assert (result_and_calls (GIF_Load true ex_two 58 true 0 (fun _ => 255)) <> None)
      as H by (vm_compute; discriminate);
    rewrite E2 in H; apply H; reflexivity.
  exists r1, tr1, r2, tr2.
  split; [reflexivity|]. split; [reflexivity|].
  exact (GIF_Load_input_only false true ex_two 58 false true 0 zero_mem (fun _ => 255)
           r1 r2 tr1 tr2 E1 E2).
Defined.

(** The frame of the one-frame input, whose three codes are all defined:
    the bytes written fill the raster from its start to the final cursor. *)
Lemma LoadFrame_cover_witness :
  exists r c s o,
    frame_wf false ex_run 29 6 = true
    /\ _GIF_LoadFrame false ex_run 16400 29 6 16384 zero_mem = Ret (r, c, s, o)
    /\ covers 16384 o.
Proof.
  destruct (_GIF_LoadFrame false ex_run 16400 29 6 16384 zero_mem)
    as [[[[r c] s] o]| |] eqn:E.
  2,3: exfalso;
    assert (frame_status (_GIF_LoadFrame false ex_run 16400 29 6 16384 zero_mem) <> None)
      as H by (vm_compute; discriminate);
    rewrite E in H; apply H; reflexivity.
  exists r, c, s, o.
  split; [vm_compute; reflexivity|]. split; [reflexivity|].
  apply (LoadFrame_cover false ex_run 16400 29 6 16384 zero_mem r c s o);
    [vm_compute; reflexivity | exact E].
Defined.

(** The same frame: the block holds the bytes written, all below 4. *)
Lemma LoadFrame_raster_witness :
  exists r c s o,
    frame_wf false ex_run 29 6 = true
    /\ _GIF_LoadFrame false ex_run 16400 29 6 16384 zero_mem = Ret (r, c, s, o)
    /\ forall a, 16384 <= a < bptr o ->
         In (a, heap o a) (wlog o) /\ 0 <= heap o a < 2 ^ u8 ex_run 29.
Proof.
  destruct (_GIF_LoadFrame false ex_run 16400 29 6 16384 zero_mem)
    as [[[[r c] s] o]| |] eqn:E.
  2,3: exfalso;
    assert (frame_status (_GIF_LoadFrame false ex_run 16400 29 6 16384 zero_mem) <> None)
      as H by (vm_compute; discriminate);
    rewrite E in H; apply H; reflexivity.
  exists r, c, s, o.
  split; [vm_compute; reflexivity|]. split; [reflexivity|].
  apply (LoadFrame_raster false ex_run 16400 29 6 16384 zero_mem r c s o);
    [vm_compute; reflexivity | exact E].
Defined.

(** The same frame on a little-endian host with a block of zeros and on a
    big-endian host with a larger block of 255s. *)
Lemma LoadFrame_written_input_only_witness :
  exists r1 c1 s1 o1 r2 c2 s2 o2,
    frame_wf false ex_run 29 6 = true
    /\ _GIF_LoadFrame false ex_run 16400 29 6 16384 zero_mem = Ret (r1, c1, s1, o1)
    /\ _GIF_LoadFrame true ex_run 16500 29 6 16384 (fun _ => 255) = Ret (r2, c2, s2, o2)
    /\ wlog o1 = wlog o2 /\ bptr o1 = bptr o2
    /\ forall a, 16384 <= a < bptr o1 -> heap o1 a = heap o2 a.
Proof.
  destruct (_GIF_LoadFrame false ex_run 16400 29 6 16384 zero_mem)
    as [[[[r1 c1] s1] o1]| |] eqn:E1.
  2,3: exfalso;
    assert (frame_status (_GIF_LoadFrame false ex_run 16400 29 6 16384 zero_mem) <> None)
      as H by (vm_compute; discriminate);
    rewrite E1 in H; apply H; reflexivity.
  destruct (_GIF_LoadFrame true ex_run 16500 29 6 16384 (fun _ => 255))
    as [[[[r2 c2] s2] o2]| |] eqn:E2.
  2,3: exfalso;
    assert (frame_status (_GIF_LoadFrame true ex_run 16500 29 6 16384 (fun _ => 255))
            <> None) as H by (vm_compute; discriminate);
    rewrite E2 in H; apply H; reflexivity.
  exists r1, c1, s1, o1, r2, c2, s2, o2.
  split; [vm_compute; reflexivity|]. split; [reflexivity|]. split; [reflexivity|].
  apply (LoadFrame_written_input_only false true ex_run 16400 16500 29 6 16384
           zero_mem (fun _ => 255) r1 c1 s1 r2 c2 s2 o1 o2);
    [vm_compute; reflexivity | exact E1 | exact E2].
Defined.
